(** * cloudvolume.storage: a shallow embedding of the storage layer

    The development follows [cloudvolume/storage.py]: the retry wrapper,
    the four backend interfaces ([FileInterface],
    [GoogleCloudStorageInterface], [S3Interface], [HttpInterface]), the
    [Storage] facade with its worker pool, the listing order
    ([_radix_sort]) and [keydefaultdict]; and the label decoders of
    [cloudvolume/datasource/graphene/metadata.py].

    Python values are modelled as follows.
    - [str] is [string]: a sequence of 8-bit characters, [ord] ranging over
      0..255 (Python 2 [str], or the Latin-1 part of a Python 3 [str]).
    - [bytes] is [list byte].
    - A call that may raise returns a [result]; a method that reads or
      writes the backend is a function from the backend's state to a
      [completion], which is a [result] or the absence of one for a call
      that does not return, and the next state (the state survives an
      exception).
    - A [dict] keyed by file names is a [gmap string _]. *)

From Stdlib Require Import Strings.String Strings.Ascii Strings.Byte.
From Stdlib Require Import Lists.List Arith.PeanoNat Bool.Bool Sorting.Sorted.
From Stdlib Require Import ZArith.
From stdpp Require Import base tactics option list sorting gmap strings pretty.

Local Open Scope string_scope.
Local Open Scope list_scope.

(** ** Exceptions *)

(** Modelled from the spec: [cloudvolume/exceptions.py] is not part of the
    sources at hand.  The spec speaks of server-class errors, of
    client-class errors (4xx), and counts not-found and forbidden among the
    client-class ones ("4xx excluding not-found/forbidden", "a client error
    (bad request, not found, forbidden)").  [HTTPError] is the base class,
    produced for a status that is no error. *)
Inductive http_class : Type :=
  | NotFound
  | Forbidden
  | HTTPClientError
  | HTTPServerError
  | HTTPError.

Inductive exn : Type :=
  | NotImplementedError
  | IndexError
  | AttributeError
  | IOError
  | TooManyStreamsError
  | HTTPException (cls : http_class) (status : nat)
  | ClientError (code : string)
  | DecompressionError
  | StreamClosedError
  | GoogleCloudError (msg : string).

Global Instance http_class_eq_dec : EqDecision http_class.
Proof. solve_decision. Defined.
Global Instance exn_eq_dec : EqDecision exn.
Proof. solve_decision. Defined.

(** [isinstance(err, HTTPClientError)]: [NotFound] and [Forbidden] derive
    from [HTTPClientError]. *)
Definition isinstance_client (c : http_class) : bool :=
  match c with
  | NotFound | Forbidden | HTTPClientError => true
  | _ => false
  end.

Definition isinstance_server (c : http_class) : bool :=
  match c with HTTPServerError => true | _ => false end.

Definition isinstance_notfound_forbidden (c : http_class) : bool :=
  match c with NotFound | Forbidden => true | _ => false end.

(** Modelled from the spec: [exceptions.from_http_status] picks the class of
    a status code. *)
Definition from_http_status (status : nat) : http_class :=
  if (status =? 404)%nat then NotFound
  else if (status =? 403)%nat then Forbidden
  else if ((400 <=? status) && (status <? 500))%nat then HTTPClientError
  else if ((500 <=? status) && (status <? 600))%nat then HTTPServerError
  else HTTPError.

(** ** Results and stateful calls *)

(** The result of a computation that ends: a value or an exception. *)
Inductive result (A : Type) : Type :=
  | Ok (a : A)
  | Raise (e : exn).
Arguments Ok {A} a.
Arguments Raise {A} e.

(** What becomes of a call: it ends with a result, or it does not return.
    [Diverge] comes from a loop without an end (the retry loop of a method
    decorated with the bare [@retry], see below); whoever calls such a call
    does not return either, and no [except] clause sees it. *)
Inductive completion (A : Type) : Type :=
  | Done (r : result A)
  | Diverge.
Arguments Done {A} r.
Arguments Diverge {A}.

(** A result stands for the call that ends with it. *)
Coercion Done : result >-> completion.
#[local] Arguments pair {A B}%_type_scope & a b.
#[local] Arguments Some {A}%_type_scope & a.

Definition is_ok {A} (c : completion A) : bool :=
  match c with
  | Done (Ok _) => true
  | _ => false
  end.

(** A call against a backend whose state has type [W]. *)
Definition M (W A : Type) : Type := W -> completion A * W.

Definition ret {W A} (a : A) : M W A := fun w => (Ok a, w).
Definition raise {W A} (e : exn) : M W A := fun w => (Raise e, w).
Definition bind {W A B} (m : M W A) (k : A -> M W B) : M W B :=
  fun w => match m w with
           | (Done (Ok a), w') => k a w'
           | (Done (Raise e), w') => (Raise e, w')
           | (Diverge, w') => (Diverge, w')
           end.

(** [try: m except Exception as err: h err] *)
Definition try_except {W A} (m : M W A) (h : exn -> M W A) : M W A :=
  fun w => match m w with
           | (Done (Ok a), w') => (Ok a, w')
           | (Done (Raise e), w') => h e w'
           | (Diverge, w') => (Diverge, w')
           end.

Declare Scope call_scope.
Delimit Scope call_scope with call.
Notation "'let!' x ':=' m 'in' k" := (bind m (fun x => k))
  (at level 10, x pattern, m at level 100, k at level 200) : call_scope.
Notation "'do!' m 'in' k" := (bind m (fun _ => k))
  (at level 10, m at level 100, k at level 200) : call_scope.

(** ** The retry wrapper

    [retry = partial(tenacity.retry, reraise=True,
                     stop=stop_after_attempt(MAX_RETRIES), wait=...)].
    tenacity is given the wrapped function in one of two ways.

    - [@retry(retry=...)] calls [tenacity.retry] with keyword arguments
      only; the decorator it returns keeps them.  tenacity numbers the
      attempts from 1.  After a failed attempt it asks the [retry]
      predicate; when the predicate refuses, the exception is raised as it
      is; otherwise it asks [stop], which holds when
      [attempt_number >= MAX_RETRIES], and with [reraise=True] the last
      exception is raised again; otherwise it sleeps and makes the next
      attempt.
    - [@retry] alone calls [tenacity.retry(f, reraise=True, stop=...,
      wait=...)].  With a callable as its only positional argument
      [tenacity.retry] returns [retry()(f)]: the keyword arguments are not
      passed on, and tenacity's defaults apply: every exception is
      retried, [stop_never], no wait.  The loop ends only when an attempt
      returns.

    The sleeps are not modelled. *)

Definition MAX_RETRIES : nat := 7.

Module Retry.
Section Retry.
Context {W A : Type}.
(** tenacity's [retry=] argument. *)
Variable retry_if : exn -> bool.
(** The wrapped call. *)
Variable f : M W A.

(** [remaining] is [MAX_RETRIES - attempt_number]: the attempts left
    after the current one. The third component is tenacity's
    [statistics["attempt_number"]]. *)
Fixpoint call (remaining attempt_number : nat) (w : W) : completion A * W * nat :=
  match f w with
  | (Ok a, w') => (Ok a, w', attempt_number)
  | (Raise e, w') =>
      if negb (retry_if e) then (Raise e, w', attempt_number)
      else match remaining with
           | 0 => (Raise e, w', attempt_number)
           | S k => call k (S attempt_number) w'
           end
  | (Diverge, w') => (Diverge, w', attempt_number)
  end.

Definition run (w : W) : completion A * W * nat := call (MAX_RETRIES - 1) 1 w.

Definition retry : M W A := fun w => fst (run w).

Definition attempts (w : W) : nat := snd (run w).

(** The loop of the bare decorator.  It has no end of its own, so the
    model follows it for a number of failed attempts: after the first
    attempt, [patience] more are made; a call whose attempts have all
    failed by then is [Diverge].  A call that does not return is one that
    is [Diverge] for every [patience]. *)
Fixpoint call_bare (patience attempt_number : nat) (w : W)
  : completion A * W * nat :=
  match f w with
  | (Ok a, w') => (Ok a, w', attempt_number)
  | (Raise e, w') =>
      match patience with
      | 0 => (Diverge, w', attempt_number)
      | S k => call_bare k (S attempt_number) w'
      end
  | (Diverge, w') => (Diverge, w', attempt_number)
  end.

Definition retry_bare (patience : nat) : M W A :=
  fun w => fst (call_bare patience 1 w).

Definition attempts_bare (patience : nat) (w : W) : nat :=
  snd (call_bare patience 1 w).

(** The state after [n] consecutive calls of [f], and the outcome of the
    next call from there (attempt number [n + 1]). *)
Fixpoint after (n : nat) (w : W) : W :=
  match n with
  | 0 => w
  | S k => after k (snd (f w))
  end.

Definition outcome (n : nat) (w : W) : completion A := fst (f (after n w)).

(** The attempt fails with an exception the predicate accepts. *)
Definition transient (n : nat) (w : W) : Prop :=
  exists e, outcome n w = Raise e /\ retry_if e = true.

(** The attempt fails, with whatever exception. *)
Definition fails (n : nat) (w : W) : Prop :=
  exists e, outcome n w = Raise e.

(** An attempt settles the call when it succeeds, when its exception is
    refused by the predicate, or when it is the last one allowed. *)
Definition settles (remaining : nat) (r : completion A) : Prop :=
  match r with
  | Done (Ok _) => True
  | Done (Raise e) => retry_if e = false \/ remaining = 0
  | Diverge => True
  end.
End Retry.
End Retry.

(** [@retry(retry=...)] *)
Definition retry {W A} (retry_if : exn -> bool) (f : M W A) : M W A :=
  Retry.retry retry_if f.

(** [@retry] *)
Definition retry_bare {W A} (patience : nat) (f : M W A) : M W A :=
  Retry.retry_bare f patience.

(** [tenacity.retry_if_exception_type(exceptions.HTTPServerError)] *)
Definition retry_if_server_error (e : exn) : bool :=
  match e with
  | HTTPException c _ => isinstance_server c
  | _ => false
  end.

(** ** Python strings and paths *)

Definition bytes : Type := list byte.

Definition ord (c : ascii) : nat := nat_of_ascii c.

(** [len(s)] and [s[i]] are [String.length] and [String.get]. *)

(** [s.startswith(p)] and [s[:len(p)] == p] *)
Definition startswith (s p : string) : bool := String.prefix p s.

Fixpoint last_char (s : string) : option ascii :=
  match s with
  | "" => None
  | String c "" => Some c
  | String _ s' => last_char s'
  end.

Definition endswith_sep (s : string) : bool :=
  match last_char s with
  | Some c => Ascii.eqb c "/"
  | None => false
  end.

Definition startswith_sep (s : string) : bool :=
  match s with
  | String c _ => Ascii.eqb c "/"
  | "" => false
  end.

(** [posixpath.join(a, b)]: an absolute [b] replaces [a]; otherwise the two
    are put together with one separator unless [a] is empty or ends with
    one. *)
Definition join2 (a b : string) : string :=
  if startswith_sep b then b
  else if (a =? "") || endswith_sep a then a ++ b
  else a ++ "/" ++ b.

Definition os_path_join (a : string) (p : list string) : string :=
  fold_left join2 p a.

(** [s.rfind(c) + 1]: the position after the last occurrence of [c],
    0 when there is none. *)
Fixpoint rfind_succ (c : ascii) (s : string) : nat :=
  match s with
  | "" => 0
  | String d s' =>
      match rfind_succ c s' with
      | 0 => if Ascii.eqb d c then 1 else 0
      | S k => S (S k)
      end
  end.

Fixpoint all_chars (c : ascii) (s : string) : bool :=
  match s with
  | "" => true
  | String d s' => Ascii.eqb d c && all_chars c s'
  end.

(** [s.rstrip('/')] *)
Fixpoint rstrip_sep (s : string) : string :=
  match s with
  | "" => ""
  | String c s' =>
      match rstrip_sep s' with
      | "" => if Ascii.eqb c "/" then "" else String c ""
      | r => String c r
      end
  end.

(** [posixpath.dirname(p)] *)
Definition os_path_dirname (p : string) : string :=
  let i := rfind_succ "/" p in
  let head := substring 0 i p in
  if negb (head =? "") && negb (all_chars "/" head) then rstrip_sep head
  else head.

(** [posixpath.splitext(p)]: the extension starts at the last dot of the
    last component, provided some character other than a dot comes before
    it in that component. *)
Definition os_path_splitext (p : string) : string * string :=
  let sep_succ := rfind_succ "/" p in
  let dot_succ := rfind_succ "." p in
  if (sep_succ <? dot_succ)%nat then
    let dotIndex := dot_succ - 1 in
    if all_chars "." (substring sep_succ (dotIndex - sep_succ) p)
    then (p, "")
    else (substring 0 dotIndex p, substring dotIndex (String.length p - dotIndex) p)
  else (p, "").

(** [s.replace(old, '')]: every occurrence of [old], scanning from the
    left, is taken out.  [skip] counts the characters of an occurrence
    still to be dropped. *)
Fixpoint replace_go (old : string) (skip : nat) (s : string) : string :=
  match s with
  | "" => ""
  | String c s' =>
      match skip with
      | S k => replace_go old k s'
      | 0 =>
          if String.prefix old s
          then replace_go old (String.length old - 1) s'
          else String c (replace_go old 0 s')
      end
  end.

Definition str_remove (s old : string) : string :=
  if old =? "" then s else replace_go old 0 s.

(** ['/' in s] *)
Fixpoint contains_sep (s : string) : bool :=
  match s with
  | "" => false
  | String c s' => Ascii.eqb c "/" || contains_sep s'
  end.

(** [s] without the leading [p], when it starts with [p]. *)
Fixpoint strip_prefix (p s : string) : option string :=
  match p, s with
  | "", _ => Some s
  | String a p', String b s' => if Ascii.eqb a b then strip_prefix p' s' else None
  | String _ _, "" => None
  end.

(** ** The compression codec

    The codec ([cloudvolume/compression.py]) is an external collaborator:
    a pair of functions on byte strings, taken as parameters.
    [compression.compress(content, method)] returns the content unchanged
    for no method; [compression.decompress(content, encoding)] does so for
    no encoding, and may raise for gzip. *)
Record Codec : Type := {
  gzip_compress : bytes -> bytes;
  gunzip : bytes -> result bytes
}.

Definition compress (cdc : Codec) (content : bytes) (method : option string)
  : result bytes :=
  match method with
  | None => Ok content
  | Some m =>
      if m =? "" then Ok content
      else if m =? "gzip" then Ok (gzip_compress cdc content)
      else Raise NotImplementedError
  end.

Definition decompress (cdc : Codec) (content : bytes) (encoding : option string)
  : result bytes :=
  match encoding with
  | None => Ok content
  | Some e =>
      if e =? "" then Ok content
      else if e =? "gzip" then gunzip cdc content
      else Raise NotImplementedError
  end.

(** [if compress:] - the truth value of the [compress] argument. *)
Definition truthy (o : option string) : bool :=
  match o with
  | Some s => negb (s =? "")
  | None => false
  end.

(** ** The listing order: [_radix_sort] *)

(** The loop [for s in L] over the done bucket and the 255 buckets.
    [buckets[ord(s[i])]] raises [IndexError] past the last bucket. *)
Fixpoint distribute (i : nat) (L : list string)
    (done_bucket : list string) (buckets : list (list string))
  : result (list string * list (list string)) :=
  match L with
  | [] => Ok (done_bucket, buckets)
  | s :: L' =>
      match String.get i s with
      | None => distribute i L' (done_bucket ++ [s]) buckets
      | Some c =>
          match buckets !! ord c with
          | None => Raise IndexError
          | Some b => distribute i L' done_bucket (<[ord c := b ++ [s]]> buckets)
          end
      end
  end.

(** [[ _radix_sort(b, i + 1) for b in buckets ]] *)
Fixpoint sort_each (sort : list string -> option (result (list string)))
    (buckets : list (list string)) : option (result (list (list string))) :=
  match buckets with
  | [] => Some (Ok [])
  | b :: bs =>
      match sort b with
      | None => None
      | Some (Raise e) => Some (Raise e)
      | Some (Ok sb) =>
          match sort_each sort bs with
          | None => None
          | Some (Raise e) => Some (Raise e)
          | Some (Ok sbs) => Some (Ok (sb :: sbs))
          end
      end
  end.

(** [_radix_sort(L, i)]; the recursion goes one character deeper at each
    level, so [fuel] bounds the depth; [None] means the bound was too
    small. *)
Fixpoint radix_sort_fuel (fuel : nat) (L : list string) (i : nat)
  : option (result (list string)) :=
  if (length L <=? 1)%nat then Some (Ok L)
  else
    match fuel with
    | 0 => None
    | S fuel' =>
        match distribute i L [] (replicate 255 []) with
        | Raise e => Some (Raise e)
        | Ok (done_bucket, buckets) =>
            match sort_each (fun b => radix_sort_fuel fuel' b (i + 1)) buckets with
            | None => None
            | Some (Raise e) => Some (Raise e)
            | Some (Ok sorted) => Some (Ok (done_bucket ++ concat sorted))
            end
        end
    end.

Definition max_len (L : list string) : nat :=
  foldr (fun s m => Nat.max (String.length s) m) 0 L.

(** The depth never exceeds the length of the longest string by more than
    one level (see [RadixSortFacts.radix_sort_fuel_enough]). *)
Definition _radix_sort (L : list string) : result (list string) :=
  match radix_sort_fuel (S (max_len L)) L 0 with
  | Some r => r
  | None => Ok L
  end.

(** ** Layer paths and results *)

(** [lib.extract_bucket_path] yields a [BucketPath(protocol, bucket, path)]. *)
Record BucketPath : Type := {
  protocol : string;
  bucket : string;
  path : string
}.

(** The dictionaries appended by [get_files]. *)
Record FileResult : Type := {
  filename : string;
  content : option bytes;
  error : option exn
}.

(** ** The local filesystem

    The filesystem is the list of its regular files, absolute path and
    content, in the order in which the system enumerates them (the order of
    [os.walk] and [glob] is the system's, not the program's).  Directories
    are implicit: a directory exists when a file lies below it.  Paths are
    resolved as text, which is exact for paths without empty, [.] or [..]
    components. *)
Definition filesystem : Type := list (string * bytes).

Module OS.
Definition read (fs : filesystem) (p : string) : option bytes :=
  snd <$> List.find (fun e => fst e =? p) fs.

(** [os.path.isfile] *)
Definition isfile (fs : filesystem) (p : string) : bool :=
  existsb (fun e => fst e =? p) fs.

(** [d] with one trailing separator. *)
Definition dir_prefix (d : string) : string := join2 d "".

(** The part of [q] below directory [d]. *)
Definition below (d q : string) : option string :=
  match strip_prefix (dir_prefix d) q with
  | Some "" => None
  | r => r
  end.

(** [os.path.isdir] *)
Definition isdir (fs : filesystem) (d : string) : bool :=
  existsb (fun e => bool_decide (is_Some (below d (fst e)))) fs.

(** [os.path.exists] *)
Definition exists_ (fs : filesystem) (p : string) : bool :=
  isfile fs p || isdir fs p.

(** A regular file sits where [p] needs a directory. *)
Definition blocked (fs : filesystem) (p : string) : bool :=
  existsb (fun e => bool_decide (is_Some (below (fst e) p))) fs.

(** [open(p, 'rb').read()] *)
Definition open_read (p : string) : M filesystem bytes :=
  fun fs => match read fs p with
            | Some data => (Ok data, fs)
            | None => (Raise IOError, fs)
            end.

Fixpoint store (fs : filesystem) (p : string) (data : bytes) : filesystem :=
  match fs with
  | [] => [(p, data)]
  | (q, d) :: fs' => if q =? p then (q, data) :: fs' else (q, d) :: store fs' p data
  end.

(** [open(p, 'wb').write(data)]: creates or truncates the file; fails on
    a directory, below a regular file, and on a name that cannot be a
    file's. *)
Definition open_write (p : string) (data : bytes) : M filesystem unit :=
  fun fs =>
    if isdir fs p || blocked fs p || (p =? "") || endswith_sep p
    then (Raise IOError, fs)
    else (Ok tt, store fs p data).

(** [os.remove(p)] *)
Definition remove (p : string) : M filesystem unit :=
  fun fs =>
    if isfile fs p
    then (Ok tt, List.filter (fun e => negb (fst e =? p)) fs)
    else (Raise IOError, fs).

(** Modelled from the spec: [lib.mkdir] is not in the sources; the spec
    has writes create what they need.  Directories being implicit, only
    the failure shows: a regular file in the way. *)
Definition mkdir (d : string) : M filesystem unit :=
  fun fs => if blocked fs d then (Raise IOError, fs) else (Ok tt, fs).

(** The first component of a relative path. *)
Fixpoint first_component (rest : string) : string :=
  match rest with
  | "" => ""
  | String c r => if Ascii.eqb c "/" then "" else String c (first_component r)
  end.

(** The names in directory [d], files and directories alike. *)
Definition listdir (fs : filesystem) (d : string) : list string :=
  remove_dups (omap (fun e => first_component <$> below d (fst e)) fs).

Definition ishidden (name : string) : bool :=
  match name with
  | String c _ => Ascii.eqb c "."
  | "" => false
  end.

(** [posixpath.split(p)] *)
Definition split (p : string) : string * string :=
  let i := rfind_succ "/" p in
  (os_path_dirname p, substring i (String.length p - i) p).

(** [glob(p + '*')] for a [p] without pattern characters: the entries of
    the directory part of [p] whose name starts with the rest of [p];
    names with a leading dot only when that rest has one. *)
Definition glob_star (fs : filesystem) (p : string) : list string :=
  let '(dirname, base) := split p in
  map (join2 dirname)
    (List.filter
       (fun name => startswith name base && (ishidden base || negb (ishidden name)))
       (listdir fs dirname)).

(** The directories strictly above the last component of a relative
    path: [a] and [a/b] for [a/b/c]. *)
Fixpoint parents_go (acc rest : string) : list string :=
  match rest with
  | "" => []
  | String c r =>
      if Ascii.eqb c "/" then acc :: parents_go (acc ++ "/") r
      else parents_go (acc ++ String c "") r
  end.

Definition parents (rest : string) : list string := parents_go "" rest.

(** The regular files directly in directory [root]. *)
Definition files_in (fs : filesystem) (root : string) : list string :=
  omap (fun e => match below root (fst e) with
                 | Some name => if contains_sep name then None else Some name
                 | None => None
                 end) fs.

(** The directories directly in directory [root]. *)
Definition dirs_in (fs : filesystem) (root : string) : list string :=
  remove_dups
    (omap (fun e => match below root (fst e) with
                    | Some rest =>
                        if contains_sep rest then Some (first_component rest) else None
                    | None => None
                    end) fs).

(** [os.walk(top)]: one triple [(root, dirs, files)] for [top] and for
    every directory below it; nothing when [top] is no directory.  The
    triples come in the order in which the directories are first met in
    the filesystem's enumeration. *)
Definition walk_roots (fs : filesystem) (top : string) : list string :=
  top :: remove_dups
           (flat_map (fun e => match below top (fst e) with
                               | Some rest => map (fun d => (dir_prefix top ++ d)%string) (parents rest)
                               | None => []
                               end) fs).

Definition walk (fs : filesystem) (top : string)
  : list (string * list string * list string) :=
  if isdir fs top
  then map (fun root => (root, dirs_in fs root, files_in fs root)) (walk_roots fs top)
  else [].
End OS.

(** The loop shared, word for word, by the [get_files] of the filesystem
    and of the two cloud stores: one dictionary per path, the exception of
    a failed [get_file] kept in its [error]. *)
Section SequentialGetFiles.
Context {W : Type}.
Variable get_file : string -> M W (option bytes).

Fixpoint sequential_get_files (file_paths : list string) (results : list FileResult)
  : M W (list FileResult) :=
  match file_paths with
  | [] => ret results
  | path :: rest =>
      (let! r := try_except
                   (let! content := get_file path in ret (content, None))
                   (fun err => ret (None, Some err)) in
       sequential_get_files rest
         (results ++ [{| filename := path; content := fst r; error := snd r |}]))%call
  end.
End SequentialGetFiles.

(** ** FileInterface *)

Module FileInterface.
Section FileInterface.
Variable cdc : Codec.
Variable _path : BucketPath.

Definition get_path_to_file (file_path : string) : string :=
  os_path_join (bucket _path) [path _path; file_path].

(** The content is a byte string, so the re-encoding of [str] content
    for text types does not apply. *)
Definition put_file (file_path : string) (content : bytes)
    (content_type : option string) (compress : option string)
  : M filesystem unit :=
  let path := get_path_to_file file_path in
  (do! OS.mkdir (os_path_dirname path) in
   let path := if truthy compress then (path ++ ".gz")%string else path in
   try_except (OS.open_write path content)
     (fun err => match err with
                 | IOError => OS.open_write path content
                 | _ => raise err
                 end))%call.

Definition get_file (file_path : string) : M filesystem (option bytes) :=
  fun fs =>
    let path := get_path_to_file file_path in
    let compressed := OS.exists_ fs (path ++ ".gz")%string in
    let path := if compressed then (path ++ ".gz")%string else path in
    let encoding := if compressed then Some "gzip" else None in
    try_except
      (let! data := OS.open_read path in
       match decompress cdc data encoding with
       | Ok c => ret (Some c)
       | Raise e => raise e
       end)%call
      (fun err => match err with
                  | IOError => ret None
                  | _ => raise err
                  end) fs.

Definition get_files (file_paths : list string) : M filesystem (list FileResult) :=
  sequential_get_files get_file file_paths [].

Definition exists_ (file_path : string) : M filesystem bool :=
  fun fs =>
    let path := get_path_to_file file_path in
    (Ok (OS.exists_ fs path || OS.exists_ fs (path ++ ".gz")%string), fs).

(** [{path: self.exists(path) for path in file_paths}] *)
Fixpoint files_exist_loop (file_paths : list string) (result : gmap string (option bool))
  : M filesystem (gmap string (option bool)) :=
  match file_paths with
  | [] => ret result
  | path :: rest =>
      (let! b := exists_ path in
       files_exist_loop rest (<[path := Some b]> result))%call
  end.

Definition files_exist (file_paths : list string)
  : M filesystem (gmap string (option bool)) :=
  files_exist_loop file_paths ∅.

Definition delete_file (file_path : string) : M filesystem unit :=
  fun fs =>
    let path := get_path_to_file file_path in
    if OS.exists_ fs path then OS.remove path fs
    else if OS.exists_ fs (path ++ ".gz")%string
         then OS.remove (path ++ ".gz")%string fs
    else (Ok tt, fs).

Definition stripgz (fname : string) : string :=
  let '(base, ext) := os_path_splitext fname in
  if ext =? ".gz" then base else fname.

(** The names collected before the suffix is stripped and the list is
    sorted. *)
Definition list_filenames (fs : filesystem) (prefix : string) (flat : bool)
  : list string :=
  let layer_path := get_path_to_file "" in
  let path := os_path_join layer_path [prefix] in
  let remove :=
    if negb (String.length layer_path =? 0)%nat && negb (endswith_sep layer_path)
    then (layer_path ++ "/")%string else layer_path in
  if flat then
    flat_map (fun file_path =>
                if negb (OS.isfile fs file_path) then []
                else [str_remove file_path remove])
             (OS.glob_star fs path)
  else
    let subdir := os_path_join layer_path [os_path_dirname prefix] in
    flat_map (fun '(root, dirs, files) =>
                let files := map (fun f => os_path_join root [f]) files in
                let files := map (fun f => str_remove f remove) files in
                List.filter (fun f => startswith f prefix) files)
             (OS.walk fs subdir).

Definition list_files (prefix : string) (flat : bool) : M filesystem (list string) :=
  fun fs =>
    let filenames := list_filenames fs prefix flat in
    let filenames := map stripgz filenames in
    (_radix_sort filenames, fs).
End FileInterface.
End FileInterface.

(** ** Object stores *)

(** What both cloud stores keep for a key. *)
Record blob : Type := {
  blob_body : bytes;
  blob_content_type : option string;
  blob_content_encoding : option string;
  blob_cache_control : option string
}.

(** A bucket is the list of its keys and blobs, in the order in which the
    service enumerates them. *)
Definition bucket_state : Type := list (string * blob).

Definition bucket_lookup (bk : bucket_state) (key : string) : option blob :=
  snd <$> List.find (fun e => fst e =? key) bk.

Fixpoint bucket_store (bk : bucket_state) (key : string) (o : blob) : bucket_state :=
  match bk with
  | [] => [(key, o)]
  | (k, o') :: bk' => if k =? key then (k, o) :: bk' else (k, o') :: bucket_store bk' key o
  end.

Definition bucket_delete (bk : bucket_state) (key : string) : bucket_state :=
  List.filter (fun e => negb (fst e =? key)) bk.

(** The last character of a non-empty name is not a separator;
    [filename[-1]] raises [IndexError] on the empty name. *)
Definition not_dir_name (filename : string) : result bool :=
  match last_char filename with
  | None => Raise IndexError
  | Some c => Ok (negb (Ascii.eqb c "/"))
  end.

(** The filter both cloud stores apply to a listed key. *)
Definition list_filter (layer_path path : string) (flat : bool) (key : string)
  : result (list string) :=
  let filename := str_remove key layer_path in
  if negb flat then
    match not_dir_name filename with
    | Raise e => Raise e
    | Ok true => Ok [filename]
    | Ok false => Ok []
    end
  else if negb (contains_sep (str_remove key path)) then Ok [filename]
  else Ok [].

Fixpoint list_filter_all (layer_path path : string) (flat : bool) (keys : list string)
  : result (list string) :=
  match keys with
  | [] => Ok []
  | key :: rest =>
      match list_filter layer_path path flat key with
      | Raise e => Raise e
      | Ok l =>
          match list_filter_all layer_path path flat rest with
          | Raise e => Raise e
          | Ok ls => Ok (l ++ ls)
          end
      end
  end.

(** *** GoogleCloudStorageInterface *)

Module GoogleCloudStorageInterface.
Section GoogleCloudStorageInterface.
Variable cdc : Codec.
(** The service may refuse a call: operation and key. *)
Variable fault : string -> string -> option exn.
(** For how many failed attempts after the first a method under the bare
    [@retry] is followed. *)
Variable patience : nat.
Variable _path : BucketPath.

Definition call {A} (op key : string) (m : M bucket_state A) : M bucket_state A :=
  match fault op key with
  | Some e => raise e
  | None => m
  end.

Definition get_path_to_file (file_path : string) : string :=
  os_path_join (path _path) [file_path].

(** The body of [put_file], one attempt of the decorated method. *)
Definition put_file_attempt (file_path : string) (content : bytes)
    (content_type compress cache_control : option string) : M bucket_state unit :=
  let key := get_path_to_file file_path in
  call "upload" key
    (fun bk => (Ok tt,
                bucket_store bk key
                  {| blob_body := content;
                     blob_content_type := content_type;
                     blob_content_encoding :=
                       if truthy compress then Some "gzip" else None;
                     blob_cache_control :=
                       if truthy cache_control then cache_control else None |})).

Definition put_file (file_path : string) (content : bytes)
    (content_type compress cache_control : option string) : M bucket_state unit :=
  retry_bare patience
    (put_file_attempt file_path content content_type compress cache_control).

(** [blob.download_as_string()]: the client library undoes the content
    encoding. *)
Definition download_as_string (o : blob) : result bytes :=
  decompress cdc (blob_body o) (blob_content_encoding o).

(** The body of [get_file]. *)
Definition get_file_attempt (file_path : string) : M bucket_state (option bytes) :=
  (let key := get_path_to_file file_path in
   let! o := call "get_blob" key (fun bk => (Ok (bucket_lookup bk key), bk)) in
   match o with
   | None => ret None
   | Some o =>
       call "download" key
         (match download_as_string o with
          | Ok c => ret (Some c)
          | Raise e => raise e
          end)
   end)%call.

Definition get_file (file_path : string) : M bucket_state (option bytes) :=
  retry_bare patience (get_file_attempt file_path).

Definition get_files (file_paths : list string) : M bucket_state (list FileResult) :=
  sequential_get_files get_file file_paths [].

Definition exists_ (file_path : string) : M bucket_state bool :=
  let key := get_path_to_file file_path in
  (let! o := call "get_blob" key (fun bk => (Ok (bucket_lookup bk key), bk)) in
   ret (bool_decide (is_Some o)))%call.

(** [Batch._MAX_BATCH_SIZE] of the client library. *)
Definition MAX_BATCH_SIZE : nat := 1000.

(** [{path: None for path in file_paths}] *)
Definition none_for_all (file_paths : list string) : gmap string (option bool) :=
  foldl (fun m file_path => <[file_path := None]> m) ∅ file_paths.

(** The answer of the service to the [get_blob] of [key] that a batch
    carries: a success for a stored key, a not-found for a missing one,
    or the refusal. *)
Definition batch_answer (key : string) (bk : bucket_state) : result unit :=
  match fault "get_blob" key with
  | Some e => Raise e
  | None =>
      match bucket_lookup bk key with
      | Some _ => Ok tt
      | None => Raise (HTTPException NotFound 404)
      end
  end.

(** The block [with self._bucket.client.batch():] for the paths of one
    batch.  Inside the block a [get_blob] is deferred: it returns a blob
    whose [_properties] is a placeholder ([_FutureDict]), which the loop
    stores under the path.  On leaving the block the client library sends
    the requests together, gives every blob whose answer is a success its
    properties (a [dict]), and then raises the exception of the first
    answer that is no success.  A blob is kept here as the truth value of
    [isinstance(blob._properties, dict)] once the block is left; the
    second component is the exception the block is left with. *)
Fixpoint batch_get_blobs (file_paths : list string)
    (result_ : gmap string (option bool)) (bk : bucket_state)
  : gmap string (option bool) * option exn :=
  match file_paths with
  | [] => (result_, None)
  | file_path :: rest =>
      let answer := batch_answer (get_path_to_file file_path) bk in
      let '(result', failure) :=
        batch_get_blobs rest (<[file_path := Some (is_ok answer)]> result_) bk in
      (result', match answer with
                | Raise e => Some e
                | Ok _ => failure
                end)
  end.

(** One turn of the loop over the batches, with its
    [except google.cloud.exceptions.NotFound: pass]. *)
Definition files_exist_batch (file_paths : list string)
    (result_ : gmap string (option bool))
  : M bucket_state (gmap string (option bool)) :=
  fun bk =>
    let '(result', failure) := batch_get_blobs file_paths result_ bk in
    match failure with
    | None => (Ok result', bk)
    | Some (HTTPException NotFound _) => (Ok result', bk)
    | Some e => (Raise e, bk)
    end.

(** [range(0, len(file_paths), MAX_BATCH_SIZE)] *)
Definition batch_starts (file_paths : list string) : list nat :=
  map (fun j => j * MAX_BATCH_SIZE)
      (seq 0 (Nat.div (length file_paths + MAX_BATCH_SIZE - 1) MAX_BATCH_SIZE)).

Fixpoint files_exist_batches (file_paths : list string) (starts : list nat)
    (result_ : gmap string (option bool))
  : M bucket_state (gmap string (option bool)) :=
  match starts with
  | [] => ret result_
  | i :: rest =>
      (let! result' :=
         files_exist_batch (take MAX_BATCH_SIZE (drop i file_paths)) result_ in
       files_exist_batches file_paths rest result')%call
  end.

(** The last loop: [result[file_path] = isinstance(blob._properties, dict)];
    a value that is still [None] has no [_properties]. *)
Definition blobs_exist (result_ : gmap string (option bool))
  : result (gmap string (option bool)) :=
  if decide (map_Forall (fun _ blob => is_Some blob) result_)
  then Ok ((fun blob : option bool => Some (default false blob)) <$> result_)
  else Raise AttributeError.

Definition files_exist (file_paths : list string)
  : M bucket_state (gmap string (option bool)) :=
  (let! result_ :=
     files_exist_batches file_paths (batch_starts file_paths)
       (none_for_all file_paths) in
   match blobs_exist result_ with
   | Ok m => ret m
   | Raise e => raise e
   end)%call.

(** The body of [delete_file]. *)
Definition delete_file_attempt (file_path : string) : M bucket_state unit :=
  let key := get_path_to_file file_path in
  try_except
    (call "delete_blob" key
       (fun bk => match bucket_lookup bk key with
                  | Some _ => (Ok tt, bucket_delete bk key)
                  | None => (Raise (HTTPException NotFound 404), bk)
                  end))
    (fun err => match err with
                | HTTPException NotFound _ => ret tt
                | _ => raise err
                end).

Definition delete_file (file_path : string) : M bucket_state unit :=
  retry_bare patience (delete_file_attempt file_path).

(** [self._bucket.list_blobs(prefix=path)] *)
Definition list_blobs (prefix : string) : M bucket_state (list string) :=
  call "list_blobs" prefix
    (fun bk => (Ok (List.filter (fun k => startswith k prefix) (map fst bk)), bk)).

Definition list_files (prefix : string) (flat : bool) : M bucket_state (list string) :=
  let layer_path := get_path_to_file "" in
  let path := os_path_join layer_path [prefix] in
  (let! blobs := list_blobs path in
   match list_filter_all layer_path path flat blobs with
   | Ok l => ret l
   | Raise e => raise e
   end)%call.
End GoogleCloudStorageInterface.
End GoogleCloudStorageInterface.

(** *** S3Interface *)

(** A page of [list_objects_v2]: [Contents] is missing from an empty
    page. *)
Record s3_page : Type := {
  Contents : option (list string);
  IsTruncated : bool;
  NextContinuationToken : option nat
}.

Module S3Interface.
Section S3Interface.
Variable cdc : Codec.
Variable fault : string -> string -> option exn.
(** For how many failed attempts after the first a method under the bare
    [@retry] is followed. *)
Variable patience : nat.
(** A page holds up to [S page_size] keys. *)
Variable page_size : nat.
Variable _path : BucketPath.

Definition call {A} (op key : string) (m : M bucket_state A) : M bucket_state A :=
  match fault op key with
  | Some e => raise e
  | None => m
  end.

Definition get_path_to_file (file_path : string) : string :=
  os_path_join (path _path) [file_path].

(** The body of [put_file], one attempt of the decorated method. *)
Definition put_file_attempt (file_path : string) (content : bytes)
    (content_type compress cache_control : option string) : M bucket_state unit :=
  let key := get_path_to_file file_path in
  call "put_object" key
    (fun bk => (Ok tt,
                bucket_store bk key
                  {| blob_body := content;
                     blob_content_type :=
                       Some (if truthy content_type
                             then default "" content_type
                             else "application/octet-stream");
                     blob_content_encoding :=
                       if truthy compress then Some "gzip" else None;
                     blob_cache_control :=
                       if truthy cache_control then cache_control else None |})).

Definition put_file (file_path : string) (content : bytes)
    (content_type compress cache_control : option string) : M bucket_state unit :=
  retry_bare patience
    (put_file_attempt file_path content content_type compress cache_control).

Definition get_object (key : string) : M bucket_state blob :=
  call "get_object" key
    (fun bk => match bucket_lookup bk key with
               | Some o => (Ok o, bk)
               | None => (Raise (ClientError "NoSuchKey"), bk)
               end).

(** The body of [get_file]. *)
Definition get_file_attempt (file_path : string) : M bucket_state (option bytes) :=
  try_except
    (let! resp := get_object (get_path_to_file file_path) in
     let encoding := default "" (blob_content_encoding resp) in
     match decompress cdc (blob_body resp) (Some encoding) with
     | Ok c => ret (Some c)
     | Raise e => raise e
     end)%call
    (fun err => match err with
                | ClientError code =>
                    if code =? "NoSuchKey" then ret None else raise err
                | _ => raise err
                end).

Definition get_file (file_path : string) : M bucket_state (option bytes) :=
  retry_bare patience (get_file_attempt file_path).

Definition get_files (file_paths : list string) : M bucket_state (list FileResult) :=
  sequential_get_files get_file file_paths [].

Definition head_object (key : string) : M bucket_state unit :=
  call "head_object" key
    (fun bk => match bucket_lookup bk key with
               | Some _ => (Ok tt, bk)
               | None => (Raise (ClientError "404"), bk)
               end).

Definition exists_ (file_path : string) : M bucket_state bool :=
  try_except
    (do! head_object (get_path_to_file file_path) in ret true)%call
    (fun e => match e with
              | ClientError code => if code =? "404" then ret false else raise e
              | _ => raise e
              end).

Fixpoint files_exist_loop (file_paths : list string) (result : gmap string (option bool))
  : M bucket_state (gmap string (option bool)) :=
  match file_paths with
  | [] => ret result
  | path :: rest =>
      (let! b := exists_ path in
       files_exist_loop rest (<[path := Some b]> result))%call
  end.

Definition files_exist (file_paths : list string)
  : M bucket_state (gmap string (option bool)) :=
  files_exist_loop file_paths ∅.

(** The body of [delete_file]. *)
Definition delete_file_attempt (file_path : string) : M bucket_state unit :=
  let key := get_path_to_file file_path in
  call "delete_object" key (fun bk => (Ok tt, bucket_delete bk key)).

Definition delete_file (file_path : string) : M bucket_state unit :=
  retry_bare patience (delete_file_attempt file_path).

(** [list_objects_v2(Bucket, Prefix, ContinuationToken)]: the token is
    the number of keys already served. *)
Definition list_objects_v2 (prefix : string) (token : nat) : M bucket_state s3_page :=
  call "list_objects_v2" prefix
    (fun bk =>
       let keys := drop token (List.filter (fun k => startswith k prefix) (map fst bk)) in
       let truncated := (S page_size <? length keys)%nat in
       (Ok {| Contents := match keys with
                          | [] => None
                          | _ => Some (take (S page_size) keys)
                          end;
              IsTruncated := truncated;
              NextContinuationToken :=
                if truncated then Some (token + S page_size) else None |},
        bk)).

(** [iterate(resp)] *)
Definition iterate (layer_path path : string) (flat : bool) (resp : s3_page)
  : result (list string) :=
  list_filter_all layer_path path flat (default [] (Contents resp)).

(** The [while resp['IsTruncated'] and resp['NextContinuationToken']]
    loop; [fuel] bounds the number of pages. *)
Fixpoint list_files_while (fuel : nat) (layer_path path : string) (flat : bool)
    (resp : s3_page) (yielded : list string) (bk : bucket_state)
  : option (completion (list string) * bucket_state) :=
  match IsTruncated resp, NextContinuationToken resp with
  | true, Some token =>
      match fuel with
      | 0 => None
      | S fuel' =>
          match list_objects_v2 path token bk with
          | (Diverge, bk') => Some (Diverge, bk')
          | (Raise e, bk') => Some (Raise e, bk')
          | (Ok resp', bk') =>
              match iterate layer_path path flat resp' with
              | Raise e => Some (Raise e, bk')
              | Ok l => list_files_while fuel' layer_path path flat resp' (yielded ++ l) bk'
              end
          end
      end
  | _, _ => Some (Ok yielded, bk)
  end.

Definition list_files (prefix : string) (flat : bool) : M bucket_state (list string) :=
  fun bk =>
    let layer_path := get_path_to_file "" in
    let path := os_path_join layer_path [prefix] in
    match list_objects_v2 path 0 bk with
    | (Diverge, bk') => (Diverge, bk')
    | (Raise e, bk') => (Raise e, bk')
    | (Ok resp, bk') =>
        match iterate layer_path path flat resp with
        | Raise e => (Raise e, bk')
        | Ok l =>
            match list_files_while (length bk') layer_path path flat resp l bk' with
            | Some r => r
            | None => (Ok l, bk')
            end
        end
    end.
End S3Interface.
End S3Interface.

(** ** HttpInterface *)

Record response : Type := {
  status : nat;
  body : bytes
}.

(** The persistent HTTP/2 connection: the open streams, oldest first, each
    with the request it carries, and the next stream identifier.  A stream
    is closed when its response has been taken. *)
Record connection : Type := {
  streams : list (nat * (string * string));
  next_stream_id : nat
}.

Module HttpInterface.
Section HttpInterface.
(** The remote end: the response to a method and URL.  It does not change
    while a call runs. *)
Variable server : string -> string -> response.
(** The peer's limit on concurrently open streams. *)
Variable max_streams : nat.
Variable _path : BucketPath.

(** [self._conn.request(method, key)] *)
Definition conn_request (method key : string) : M connection nat :=
  fun c =>
    if (max_streams <=? length (streams c))%nat
    then (Raise TooManyStreamsError, c)
    else (Ok (next_stream_id c),
          {| streams := streams c ++ [(next_stream_id c, (method, key))];
             next_stream_id := next_stream_id c + 2 |}).

Definition close_stream (c : connection) (stream_id : nat) : connection :=
  {| streams := List.filter (fun s => negb (fst s =? stream_id)%nat) (streams c);
     next_stream_id := next_stream_id c |}.

(** [self._conn.get_response(stream_id)]; without a stream identifier,
    the most recent stream. *)
Definition conn_get_response (stream_id : option nat) : M connection response :=
  fun c =>
    let found :=
      match stream_id with
      | Some i => List.find (fun s => (fst s =? i)%nat) (streams c)
      | None => last (streams c)
      end in
    match found with
    | Some (i, (method, key)) => (Ok (server method key), close_stream c i)
    | None => (Raise StreamClosedError, c)
    end.

Definition get_path_to_file (file_path : string) : string :=
  (protocol _path ++ "://"
     ++ os_path_join (bucket _path) [path _path; file_path])%string.

Definition delete_file (file_path : string) : M connection unit :=
  raise NotImplementedError.

Definition put_file (file_path : string) (content : bytes)
    (content_type compress cache_control : option string) : M connection unit :=
  raise NotImplementedError.

(** The body of [get_file], one attempt of the decorated method. *)
Definition get_file_attempt (file_path : string) : M connection bytes :=
  (let key := get_path_to_file file_path in
   do! conn_request "GET" key in
   let! resp := conn_get_response None in
   let err := from_http_status (status resp) in
   if isinstance_server err || isinstance_client err
   then raise (HTTPException err (status resp))
   else ret (body resp))%call.

Definition get_file (file_path : string) : M connection bytes :=
  retry retry_if_server_error (get_file_attempt file_path).

(** [_send_next_request]: the closure works on the lists [available] and
    [running] of its caller, which are passed and returned here. *)
Definition _send_next_request (method : string)
    (available : list string) (running : list (string * nat))
  : M connection (option nat * list string * list (string * nat)) :=
  match last available with
  | None => ret (None, available, running)
  | Some file_path =>
      let key := get_path_to_file file_path in
      try_except
        (let! stream_id := conn_request method key in
         ret (Some stream_id, removelast available, running ++ [(file_path, stream_id)]))%call
        (fun err => match err with
                    | TooManyStreamsError => ret (None, available, running)
                    | _ => raise err
                    end)
  end.

(** [_get_response] of [get_files] *)
Definition get_files_response (file_path : string) (stream_id : nat)
  : M connection bytes :=
  (let! resp := conn_get_response (Some stream_id) in
   let err := from_http_status (status resp) in
   let content := body resp in
   if isinstance_server err then get_file file_path
   else if isinstance_client err then raise (HTTPException err (status resp))
   else ret content)%call.

(** The [while running] loop of [get_files]; [None] when [fuel] runs
    out. *)
Fixpoint get_files_while (fuel : nat) (available : list string)
    (running : list (string * nat)) (stream_id : option nat)
    (results : list FileResult) (c : connection)
  : option (completion (list FileResult) * connection) :=
  match running with
  | [] => Some (Ok results, c)
  | (file_path, sid) :: running' =>
      match fuel with
      | 0 => None
      | S fuel' =>
          match stream_id with
          | Some _ =>
              match _send_next_request "GET" available running c with
              | (Diverge, c') => Some (Diverge, c')
              | (Raise e, c') => Some (Raise e, c')
              | (Ok (stream_id', available', running''), c') =>
                  get_files_while fuel' available' running'' stream_id' results c'
              end
          | None =>
              match get_files_response file_path sid c with
              | (Diverge, c1) => Some (Diverge, c1)
              | (Done outcome, c1) =>
                  let r :=
                    match outcome with
                    | Ok content => (Some content, None)
                    | Raise err => (None, Some err)
                    end in
                  match _send_next_request "GET" available running' c1 with
                  | (Diverge, c') => Some (Diverge, c')
                  | (Raise e, c') => Some (Raise e, c')
                  | (Ok (stream_id', available', running''), c') =>
                      get_files_while fuel' available' running'' stream_id'
                        (results ++ [{| filename := file_path;
                                        content := fst r; error := snd r |}]) c'
                  end
              end
          end
      end
  end.

(** Every turn of the loop sends a request, takes a response, or notes
    that no request can be sent, so this many turns suffice (see
    [HttpLoopFacts.get_files_fuel_enough] and
    [HttpLoopFacts.files_exist_fuel_enough]). *)
Definition loop_fuel (file_paths : list string) : nat :=
  4 * length file_paths + 4.

Definition get_files (file_paths : list string) : M connection (list FileResult) :=
  fun c =>
    let available := file_paths in
    match _send_next_request "GET" available [] c with
    | (Diverge, c') => (Diverge, c')
    | (Raise e, c') => (Raise e, c')
    | (Ok (stream_id, available, running), c') =>
        match get_files_while (loop_fuel file_paths) available running stream_id [] c' with
        | Some r => r
        | None => (Ok [], c')
        end
    end.

(** The body of [exists]. *)
Definition exists_attempt (file_path : string) : M connection bool :=
  (let key := get_path_to_file file_path in
   do! conn_request "HEAD" key in
   let! resp := conn_get_response None in
   let err := from_http_status (status resp) in
   if isinstance_notfound_forbidden err then ret false
   else if isinstance_server err || isinstance_client err
   then raise (HTTPException err (status resp))
   else ret true)%call.

Definition exists_ (file_path : string) : M connection bool :=
  retry retry_if_server_error (exists_attempt file_path).

(** [_get_response] of [files_exist] *)
Definition files_exist_response (file_path : string) (stream_id : nat)
  : M connection bool :=
  (let! resp := conn_get_response (Some stream_id) in
   let err := from_http_status (status resp) in
   if isinstance_notfound_forbidden err then ret false
   else if isinstance_server err then exists_ file_path
   else if isinstance_client err then raise (HTTPException err (status resp))
   else ret true)%call.

Fixpoint files_exist_while (fuel : nat) (available : list string)
    (running : list (string * nat)) (stream_id : option nat)
    (result_ : gmap string (option bool)) (c : connection)
  : option (completion (gmap string (option bool)) * connection) :=
  match running with
  | [] => Some (Ok result_, c)
  | (file_path, sid) :: running' =>
      match fuel with
      | 0 => None
      | S fuel' =>
          match stream_id with
          | Some _ =>
              match _send_next_request "HEAD" available running c with
              | (Diverge, c') => Some (Diverge, c')
              | (Raise e, c') => Some (Raise e, c')
              | (Ok (stream_id', available', running''), c') =>
                  files_exist_while fuel' available' running'' stream_id' result_ c'
              end
          | None =>
              match files_exist_response file_path sid c with
              | (Diverge, c1) => Some (Diverge, c1)
              | (Raise e, c1) => Some (Raise e, c1)
              | (Ok b, c1) =>
                  match _send_next_request "HEAD" available running' c1 with
                  | (Diverge, c') => Some (Diverge, c')
                  | (Raise e, c') => Some (Raise e, c')
                  | (Ok (stream_id', available', running''), c') =>
                      files_exist_while fuel' available' running'' stream_id'
                        (<[file_path := Some b]> result_) c'
                  end
              end
          end
      end
  end.

(** [{file_path: None for file_path in file_paths}] *)
Definition none_for_all (file_paths : list string) : gmap string (option bool) :=
  foldl (fun m file_path => <[file_path := None]> m) ∅ file_paths.

Definition files_exist (file_paths : list string)
  : M connection (gmap string (option bool)) :=
  fun c =>
    let available := file_paths in
    let result_ := none_for_all file_paths in
    match _send_next_request "HEAD" available [] c with
    | (Diverge, c') => (Diverge, c')
    | (Raise e, c') => (Raise e, c')
    | (Ok (stream_id, available, running), c') =>
        match files_exist_while (loop_fuel file_paths) available running stream_id
                result_ c' with
        | Some r => r
        | None => (Ok result_, c')
        end
    end.

Definition list_files (prefix : string) (flat : bool) : M connection (list string) :=
  raise NotImplementedError.
End HttpInterface.
End HttpInterface.

(** ** The Storage facade *)

(** The operations every backend interface offers. *)
Record Interface (W : Type) : Type := {
  i_put_file : string -> bytes -> option string -> option string -> option string
               -> M W unit;
  i_get_file : string -> M W (option bytes);
  i_get_files : list string -> M W (list FileResult);
  i_exists : string -> M W bool;
  i_files_exist : list string -> M W (gmap string (option bool));
  i_delete_file : string -> M W unit;
  i_list_files : string -> bool -> M W (list string)
}.
Arguments i_put_file {W}.
Arguments i_get_file {W}.
Arguments i_get_files {W}.
Arguments i_exists {W}.
Arguments i_files_exist {W}.
Arguments i_delete_file {W}.
Arguments i_list_files {W}.

Inductive interface_cls : Type :=
  | FileInterfaceCls
  | GoogleCloudStorageInterfaceCls
  | S3InterfaceCls
  | HttpInterfaceCls.

(** The state each backend works on. *)
Definition backend_state (cls : interface_cls) : Type :=
  match cls with
  | FileInterfaceCls => filesystem
  | GoogleCloudStorageInterfaceCls => bucket_state
  | S3InterfaceCls => bucket_state
  | HttpInterfaceCls => connection
  end.

(** What lies outside the program. *)
Record Env : Type := {
  env_codec : Codec;
  env_gcs_fault : string -> string -> option exn;
  env_s3_fault : string -> string -> option exn;
  (** How far the loop of a bare [@retry] is followed. *)
  env_patience : nat;
  env_s3_page_size : nat;
  env_server : string -> string -> response;
  env_max_streams : nat
}.

Definition file_interface (env : Env) (p : BucketPath) : Interface filesystem := {|
  i_put_file := fun f c ct cp _ => FileInterface.put_file p f c ct cp;
  i_get_file := FileInterface.get_file (env_codec env) p;
  i_get_files := FileInterface.get_files (env_codec env) p;
  i_exists := FileInterface.exists_ p;
  i_files_exist := FileInterface.files_exist p;
  i_delete_file := FileInterface.delete_file p;
  i_list_files := FileInterface.list_files p
|}.

Definition gcs_interface (env : Env) (p : BucketPath) : Interface bucket_state := {|
  i_put_file :=
    GoogleCloudStorageInterface.put_file (env_gcs_fault env) (env_patience env) p;
  i_get_file :=
    GoogleCloudStorageInterface.get_file (env_codec env) (env_gcs_fault env)
      (env_patience env) p;
  i_get_files :=
    GoogleCloudStorageInterface.get_files (env_codec env) (env_gcs_fault env)
      (env_patience env) p;
  i_exists := GoogleCloudStorageInterface.exists_ (env_gcs_fault env) p;
  i_files_exist := GoogleCloudStorageInterface.files_exist (env_gcs_fault env) p;
  i_delete_file :=
    GoogleCloudStorageInterface.delete_file (env_gcs_fault env) (env_patience env) p;
  i_list_files := GoogleCloudStorageInterface.list_files (env_gcs_fault env) p
|}.

Definition s3_interface (env : Env) (p : BucketPath) : Interface bucket_state := {|
  i_put_file := S3Interface.put_file (env_s3_fault env) (env_patience env) p;
  i_get_file :=
    S3Interface.get_file (env_codec env) (env_s3_fault env) (env_patience env) p;
  i_get_files :=
    S3Interface.get_files (env_codec env) (env_s3_fault env) (env_patience env) p;
  i_exists := S3Interface.exists_ (env_s3_fault env) p;
  i_files_exist := S3Interface.files_exist (env_s3_fault env) p;
  i_delete_file := S3Interface.delete_file (env_s3_fault env) (env_patience env) p;
  i_list_files := S3Interface.list_files (env_s3_fault env) (env_s3_page_size env) p
|}.

Definition http_interface (env : Env) (p : BucketPath) : Interface connection := {|
  i_put_file := HttpInterface.put_file;
  i_get_file := fun f =>
    (let! c := HttpInterface.get_file (env_server env) (env_max_streams env) p f in
     ret (Some c))%call;
  i_get_files := HttpInterface.get_files (env_server env) (env_max_streams env) p;
  i_exists := HttpInterface.exists_ (env_server env) (env_max_streams env) p;
  i_files_exist := HttpInterface.files_exist (env_server env) (env_max_streams env) p;
  i_delete_file := HttpInterface.delete_file;
  i_list_files := HttpInterface.list_files
|}.

Definition make_interface (env : Env) (p : BucketPath) (cls : interface_cls)
  : Interface (backend_state cls) :=
  match cls with
  | FileInterfaceCls => file_interface env p
  | GoogleCloudStorageInterfaceCls => gcs_interface env p
  | S3InterfaceCls => s3_interface env p
  | HttpInterfaceCls => http_interface env p
  end.

(** [SimpleStorage]: the facade without worker threads. *)
Module SimpleStorage.
Section Facade.
Context {W : Type}.
Variable cdc : Codec.
Variable interface : Interface W.

Fixpoint put_files (files : list (string * bytes))
    (content_type compress_ cache_control : option string) : M W unit :=
  match files with
  | [] => ret tt
  | (path, content) :: rest =>
      match compress cdc content compress_ with
      | Raise e => raise e
      | Ok content =>
          (do! i_put_file interface path content content_type compress_ cache_control in
           put_files rest content_type compress_ cache_control)%call
      end
  end.

Definition put_file (file_path : string) (content : bytes)
    (content_type compress_ cache_control : option string) : M W unit :=
  put_files [(file_path, content)] content_type compress_ cache_control.

Definition exists_ (file_path : string) : M W bool :=
  i_exists interface file_path.

Definition files_exist (file_paths : list string) : M W (gmap string (option bool)) :=
  i_files_exist interface file_paths.

Definition get_file (file_path : string) : M W (option bytes) :=
  i_get_file interface file_path.

Definition get_files (file_paths : list string) : M W (list FileResult) :=
  i_get_files interface file_paths.

Definition delete_file (file_path : string) : M W unit :=
  i_delete_file interface file_path.

Fixpoint delete_files (file_paths : list string) : M W unit :=
  match file_paths with
  | [] => ret tt
  | path :: rest =>
      (do! i_delete_file interface path in delete_files rest)%call
  end.

(** The generator is run to its end. *)
Definition list_files (prefix : string) (flat : bool) : M W (list string) :=
  i_list_files interface prefix flat.
End Facade.
End SimpleStorage.

Module Storage.
(** The branches of [Storage.__init__] on the protocol; [None] stands
    for [UnsupportedProtocolError]. *)
Definition select_cls (p : BucketPath) : option interface_cls :=
  if protocol p =? "file" then Some FileInterfaceCls
  else if protocol p =? "gs" then Some GoogleCloudStorageInterfaceCls
  else if (protocol p =? "s3") || (protocol p =? "matrix") then Some S3InterfaceCls
  else if (protocol p =? "http") || (protocol p =? "https") then Some HttpInterfaceCls
  else None.

(** The HTTP interface switches the worker threads off. *)
Definition init_threads (cls : interface_cls) (n_threads : nat) : nat :=
  match cls with
  | HttpInterfaceCls => 0
  | _ => n_threads
  end.

Section Facade.
Context {W : Type}.
(** [lib.scatter(sequence, n)], which cuts the paths into blocks for the
    workers, is not in the sources at hand. *)
Variable scatter : list string -> nat -> list (list string).
(** The order in which the workers complete the queued tasks. *)
Variable scheduler : forall A : Type, list A -> list A.
(** [len(self._threads)] *)
Variable n_threads : nat.
Variable interface : Interface W.

(** Modelled from the spec: [threaded_queue.py] is not in the sources.
    The spec has the workers pull tasks from a shared queue and run each
    to completion, in an unspecified order, and [wait] block until all
    queued tasks have completed, an error being reported back.  A task
    updates the variable it shares with the caller ([results]); the
    first error is raised by [wait] once all tasks have run.  A task that
    does not return is never completed: the tasks have not all run
    ([None]), and [wait] does not return. *)
Fixpoint run_tasks {S : Type} (tasks : list (S -> M W S)) (acc : S) (err : option exn)
  : W -> option (S * option exn * W) :=
  fun w =>
    match tasks with
    | [] => Some (acc, err, w)
    | t :: rest =>
        match t acc w with
        | (Ok acc', w') => run_tasks rest acc' err w'
        | (Raise e, w') =>
            run_tasks rest acc (match err with Some _ => err | None => Some e end) w'
        | (Diverge, w') => None
        end
    end.

Definition wait {S : Type} (queued : list (S -> M W S)) (acc : S) : M W S :=
  fun w =>
    match run_tasks (scheduler _ queued) acc None w with
    | Some (acc', None, w') => (Ok acc', w')
    | Some (_, Some e, w') => (Raise e, w')
    | None => (Diverge, w)
    end.

Definition get_file_thunk (paths : list string) (results : list FileResult)
  : M W (list FileResult) :=
  (let! r := i_get_files interface paths in ret (results ++ r))%call.

Definition get_files (file_paths : list string) : M W (list FileResult) :=
  let results := [] in
  if negb (n_threads =? 0)%nat then
    wait (map get_file_thunk (scatter file_paths n_threads)) results
  else
    (let! results := get_file_thunk file_paths results in
     wait [] results)%call.

(** [results.update(interface.files_exist(paths))] *)
Definition exist_thunk (paths : list string) (results : gmap string (option bool))
  : M W (gmap string (option bool)) :=
  (let! r := i_files_exist interface paths in ret (r ∪ results))%call.

Definition files_exist (file_paths : list string)
  : M W (gmap string (option bool)) :=
  let results := ∅ in
  if negb (n_threads =? 0)%nat then
    wait (map exist_thunk (scatter file_paths n_threads)) results
  else
    (let! results := exist_thunk file_paths results in
     wait [] results)%call.

Definition get_file (file_path : string) : M W (option bytes) :=
  i_get_file interface file_path.

Definition exists_ (file_path : string) : M W bool :=
  i_exists interface file_path.

Definition list_files (prefix : string) (flat : bool) : M W (list string) :=
  i_list_files interface prefix flat.

(** The codec of [compression.compress]. *)
Variable cdc : Codec.

(** [partial(base_uploadfn, path, content)]: an upload waiting for the
    interface of the worker that takes it. *)
Definition uploadfn (path : string) (content : bytes)
    (content_type compress_ cache_control : option string) : unit -> M W unit :=
  fun _ => i_put_file interface path content content_type compress_ cache_control.

(** The loop of [put_files]: with worker threads an upload is put on the
    queue, without them it runs at once on the interface of the caller.
    [queued] is the queue. *)
Fixpoint put_files_loop (files : list (string * bytes))
    (content_type compress_ cache_control : option string)
    (queued : list (unit -> M W unit)) : M W (list (unit -> M W unit)) :=
  match files with
  | [] => ret queued
  | (path, content) :: rest =>
      match compress cdc content compress_ with
      | Raise e => raise e
      | Ok content =>
          if negb (n_threads =? 0)%nat then
            put_files_loop rest content_type compress_ cache_control
              (queued ++ [uploadfn path content content_type compress_ cache_control])
          else
            (do! uploadfn path content content_type compress_ cache_control tt in
             put_files_loop rest content_type compress_ cache_control queued)%call
      end
  end.

(** [put_files(files, ..., block=True)], which waits for the queued
    uploads. *)
Definition put_files (files : list (string * bytes))
    (content_type compress_ cache_control : option string) : M W unit :=
  (let! queued := put_files_loop files content_type compress_ cache_control [] in
   wait queued tt)%call.

(** [partial(thunk_delete, path)] *)
Definition thunk_delete (path : string) : unit -> M W unit :=
  fun _ => i_delete_file interface path.

Fixpoint delete_files_loop (file_paths : list string)
    (queued : list (unit -> M W unit)) : M W (list (unit -> M W unit)) :=
  match file_paths with
  | [] => ret queued
  | path :: rest =>
      if negb (n_threads =? 0)%nat then
        delete_files_loop rest (queued ++ [thunk_delete path])
      else
        (do! thunk_delete path tt in delete_files_loop rest queued)%call
  end.

Definition delete_files (file_paths : list string) : M W unit :=
  (let! queued := delete_files_loop file_paths [] in wait queued tt)%call.
End Facade.
End Storage.

(** ** Instances of the parameters, for concrete runs *)

Definition bytes_of (s : string) : bytes := list_byte_of_string s.

(** A codec that frames the content behind a two-byte magic number. *)
Definition framing_codec : Codec := {|
  gzip_compress := fun c => (x1f :: x8b :: c)%byte;
  gunzip := fun c => match c with
                     | (x1f :: x8b :: c')%byte => Ok c'
                     | _ => Raise DecompressionError
                     end
|}.

Definition no_fault (op key : string) : option exn := None.

(** A service that refuses every call of the operation [op] with [e]. *)
Definition refusing (op : string) (e : exn) (op' key : string) : option exn :=
  if (op' =? op)%string then Some e else None.

(** A service that refuses the operation [op] on the key [k] only. *)
Definition refusing_key (op k : string) (e : exn) (op' key : string) : option exn :=
  if ((op' =? op) && (key =? k))%string then Some e else None.

(** A scatter that cuts the sequence into [n] consecutive blocks of equal
    length, the last ones shorter or empty. *)
Fixpoint chunks (len n : nat) (l : list string) : list (list string) :=
  match n with
  | 0 => []
  | S k => take len l :: chunks len k (drop len l)
  end.

Definition chunk_scatter (l : list string) (n : nat) : list (list string) :=
  chunks (Nat.div (length l + n - 1) n) n l.

(** Workers that finish in the reverse of the queue order. *)
Definition reverse_scheduler (A : Type) (l : list A) : list A := rev l.

(** A call that fails with a 503 while the counter in the state is below
    [failures], and answers afterwards. *)
Definition flaky (failures : nat) : M nat string :=
  fun n =>
    if (n <? failures)%nat then (Raise (HTTPException HTTPServerError 503), S n)
    else (Ok "content", S n).

(** A call that is refused with a 400 on its second attempt. *)
Definition refused : M nat string :=
  fun n =>
    if (n <? 1)%nat then (Raise (HTTPException HTTPServerError 503), S n)
    else (Raise (HTTPException HTTPClientError 400), S n).

(** *** Sample states *)

Definition tmp_layer : BucketPath :=
  {| protocol := "file"; bucket := "/tmp"; path := "layer" |}.

Definition cloud_layer : BucketPath :=
  {| protocol := "s3"; bucket := "bucket"; path := "layer" |}.

Definition blob_of (c : bytes) : blob :=
  {| blob_body := c; blob_content_type := None;
     blob_content_encoding := None; blob_cache_control := None |}.

(** A bucket that the service enumerates with [b] before [a]. *)
Definition unordered_bucket : bucket_state :=
  [("layer/b", blob_of (bytes_of "1")); ("layer/a", blob_of (bytes_of "2"))].

(** The objects [a/b/c], [a/b/d] and [a/e] below the layer, as files and
    as blobs. *)
Definition abc_files (c1 c2 c3 : bytes) : filesystem :=
  [("/tmp/layer/a/b/c", c1); ("/tmp/layer/a/b/d", c2); ("/tmp/layer/a/e", c3)].

Definition abc_blobs (c1 c2 c3 : bytes) : bucket_state :=
  [("layer/a/b/c", blob_of c1); ("layer/a/b/d", blob_of c2); ("layer/a/e", blob_of c3)].

(** A layer with a compressed file and its uncompressed sibling, and a
    compressed file on its own. *)
Definition sibling_files : filesystem :=
  [("/tmp/layer/x.gz", gzip_compress framing_codec (bytes_of "new"));
   ("/tmp/layer/y.gz", gzip_compress framing_codec (bytes_of "why"));
   ("/tmp/layer/x", bytes_of "old")].

Definition http_layer : BucketPath :=
  {| protocol := "https"; bucket := "host"; path := "layer" |}.

(** A server with one object [a], a path [b] that answers 503, a path [c]
    that answers 400, and nothing else. *)
Definition sample_server (method key : string) : response :=
  if key =? "https://host/layer/a" then {| status := 200; body := bytes_of "A" |}
  else if key =? "https://host/layer/b" then {| status := 503; body := [] |}
  else if key =? "https://host/layer/c" then {| status := 400; body := [] |}
  else {| status := 404; body := [] |}.

Definition sample_env : Env := {|
  env_codec := framing_codec;
  env_gcs_fault := no_fault;
  env_s3_fault := no_fault;
  env_patience := 20;
  env_s3_page_size := 999;
  env_server := sample_server;
  env_max_streams := 100
|}.

(** A connection with no open stream. *)
Definition idle : connection := {| streams := []; next_stream_id := 1 |}.

(** A peer that allows one stream, and a connection that holds one. *)
Definition busy_env : Env := {|
  env_codec := framing_codec;
  env_gcs_fault := no_fault;
  env_s3_fault := no_fault;
  env_patience := 20;
  env_s3_page_size := 999;
  env_server := sample_server;
  env_max_streams := 1
|}.

Definition busy : connection :=
  {| streams := [(1, ("GET", "https://host/other"))]; next_stream_id := 3 |}.

(** ** Vocabulary of the properties *)

(** *** The listing order *)

Module RadixSortSpec.

(** Every character has a bucket: its code is below the number of
    buckets. *)
Definition chars_ok (L : list string) : Prop :=
  forall s j c, s ∈ L -> String.get j s = Some c -> ord c < 255.

(** The strings of [L] share their first [i] characters. *)
Definition agree (i : nat) (L : list string) : Prop :=
  forall s t j, s ∈ L -> t ∈ L -> j < i ->
                String.get j s = String.get j t /\ is_Some (String.get j s).

Definition done_of (i : nat) (L : list string) : list string :=
  filter (fun s => String.get i s = None) L.

Definition bucket_of (i k : nat) (L : list string) : list string :=
  filter (fun s => ord <$> String.get i s = Some k) L.

(** The character of [s] at [i], if any, has a bucket among [n]. *)
Definition in_range (i n : nat) (s : string) : Prop :=
  match String.get i s with
  | Some c => ord c < n
  | None => True
  end.

Global Instance in_range_dec i n s : Decision (in_range i n s).
Proof. unfold in_range. destruct (String.get i s); apply _. Defined.

(** What a run of the sort may end in: the sorted permutation, or the
    [IndexError] of a character without a bucket. *)
Definition sort_result (L : list string) (r : result (list string)) : Prop :=
  match r with
  | Ok out => out ≡ₚ L /\ StronglySorted String.le out
  | Raise e => e = IndexError /\ ~ chars_ok L
  end.

End RadixSortSpec.

(** The check of [RadixSortSpec.chars_ok] by computation. *)
Definition chars_okb (L : list string) : bool :=
  forallb (fun s => forallb (fun c => (ord c <? 255)%nat) (list_ascii_of_string s)) L.

(** The codec undoes its own compression. *)
Definition codec_round_trip (cdc : Codec) : Prop :=
  forall c, gunzip cdc (gzip_compress cdc c) = Ok c.

(** *** What the HTTP calls amount to *)

Module HttpSpec.
Section HttpSpec.
Variable server : string -> string -> response.
Variable max_streams : nat.
Variable _path : BucketPath.

(** The class of the answer to a request for [file_path]. *)
Definition answer_class (method file_path : string) : http_class :=
  from_http_status
    (status (server method (HttpInterface.get_path_to_file _path file_path))).

Definition answer_error (method file_path : string) : exn :=
  HTTPException (answer_class method file_path)
    (status (server method (HttpInterface.get_path_to_file _path file_path))).

(** What a GET of [file_path] comes to: the body, or the exception of a
    server-class or client-class answer. *)
Definition get_result (file_path : string) : result bytes :=
  let err := answer_class "GET" file_path in
  if isinstance_server err || isinstance_client err
  then Raise (answer_error "GET" file_path)
  else Ok (body (server "GET" (HttpInterface.get_path_to_file _path file_path))).

(** The entry of [get_files] for [file_path]. *)
Definition file_result (file_path : string) : FileResult :=
  match get_result file_path with
  | Ok c => {| filename := file_path; content := Some c; error := None |}
  | Raise e => {| filename := file_path; content := None; error := Some e |}
  end.

(** What a HEAD of [file_path] comes to. *)
Definition exists_result (file_path : string) : result bool :=
  let err := answer_class "HEAD" file_path in
  if isinstance_notfound_forbidden err then Ok false
  else if isinstance_server err || isinstance_client err
  then Raise (answer_error "HEAD" file_path)
  else Ok true.

(** The existence checks of the paths in turn, up to the first that
    raises. *)
Fixpoint exist_all (fps : list string) (m : gmap string (option bool))
  : result (gmap string (option bool)) :=
  match fps with
  | [] => Ok m
  | fp :: rest =>
      match exists_result fp with
      | Ok b => exist_all rest (<[fp := Some b]> m)
      | Raise e => Raise e
      end
  end.

(** The open streams of the connection are the streams [pre] from before
    the batch, followed by those of the requests in [running], oldest
    first, with increasing identifiers below the next one and above those
    of [pre], and within the peer's limit. *)
Definition tracks (pre : list (nat * (string * string))) (method : string)
    (running : list (string * nat)) (c : connection) : Prop :=
  streams c
    = pre ++ map (fun r => (snd r, (method, HttpInterface.get_path_to_file _path (fst r))))
               running /\
  StronglySorted lt (map snd running) /\
  Forall (fun r => snd r < next_stream_id c) running /\
  Forall (fun s => fst s < next_stream_id c) pre /\
  Forall (fun r => Forall (fun s => fst s < snd r) pre) running /\
  length pre + length running <= max_streams.

(** On a connection in whatever state: the peer's limit is kept, and the
    requests in [running] have their streams open, under identifiers that
    differ and are below the next one. *)
Definition holds (running : list (string * nat)) (c : connection) : Prop :=
  length (streams c) <= max_streams /\
  Forall (fun r => snd r ∈ map fst (streams c)) running /\
  NoDup (map snd running) /\
  Forall (fun r => snd r < next_stream_id c) running.

(** The connections with the streams [ss] and a next identifier of at
    least [n]. *)
Definition same_streams (ss : list (nat * (string * string))) (n : nat)
    (c : connection) : Prop :=
  streams c = ss /\ n <= next_stream_id c.

(** The turns the pipelining loop still has to make at most. *)
Definition turns (available : list string) (running : list (string * nat))
    (stream_id : option nat) : nat :=
  2 * (2 * length available + length running)
  + match stream_id with Some _ => 1 | None => 0 end.
End HttpSpec.
End HttpSpec.

(** *** Pages of an S3 listing *)

Module S3Spec.
(** Pages still to be fetched after [resp], counted in keys. *)
Definition pending (prefix : string) (bk : bucket_state) (resp : s3_page) : nat :=
  match IsTruncated resp, NextContinuationToken resp with
  | true, Some token =>
      S (length (drop token
                   (List.filter (fun k => startswith k prefix) (map fst bk))))
  | _, _ => 0
  end.
End S3Spec.

(** *** What the batches amount to *)

(** The entry [get_files] makes of the outcome of a [get_file]. *)
Definition entry_of (file_path : string) (r : result (option bytes)) : FileResult :=
  match r with
  | Ok c => {| filename := file_path; content := c; error := None |}
  | Raise e => {| filename := file_path; content := None; error := Some e |}
  end.

(** The result a call ended with, [d] standing in for a call that did not
    return. *)
Definition result_of {A} (c : completion A) (d : result A) : result A :=
  match c with
  | Done r => r
  | Diverge => d
  end.

(** The states in which a backend takes a batch: for the HTTP interface, a
    connection without open streams to a peer that allows at least one. *)
Definition backend_ready (env : Env) (cls : interface_cls)
  : backend_state cls -> Prop :=
  match cls with
  | HttpInterfaceCls => fun c => 0 < env_max_streams env /\ streams c = []
  | _ => fun _ => True
  end.

(** For the HTTP interface, a connection that already holds as many
    streams as the peer allows. *)
Definition no_room (env : Env) (cls : interface_cls) : backend_state cls -> Prop :=
  match cls with
  | HttpInterfaceCls => fun c => env_max_streams env <= length (streams c)
  | _ => fun _ => False
  end.

(** On the cloud stores, the paths whose read returns at the first
    attempt: the service does not refuse it, and the content can be
    decompressed. *)
Definition read_returns (env : Env) (p : BucketPath) (cls : interface_cls)
  : backend_state cls -> string -> Prop :=
  match cls with
  | S3InterfaceCls => fun bk fp =>
      is_ok (fst (S3Interface.get_file_attempt (env_codec env) (env_s3_fault env)
                    p fp bk)) = true
  | GoogleCloudStorageInterfaceCls => fun bk fp =>
      is_ok (fst (GoogleCloudStorageInterface.get_file_attempt (env_codec env)
                    (env_gcs_fault env) p fp bk)) = true
  | _ => fun _ _ => True
  end.

(** The order in which a backend's [get_files] returns its entries: the
    HTTP interface takes the paths from the end of the list. *)
Definition batch_order (cls : interface_cls) (file_paths : list string) : list string :=
  match cls with
  | HttpInterfaceCls => rev file_paths
  | _ => file_paths
  end.

(** An enumerated file name [f] that is listed as [name]: [name] itself
    when it has no [.gz] extension, or [name.gz] when that is one. *)
Definition listed_as (name f : string) : Prop :=
  (f = name /\ snd (os_path_splitext f) <> ".gz") \/
  (f = (name ++ ".gz")%string /\ snd (os_path_splitext f) = ".gz").

Global Instance listed_as_dec name f : Decision (listed_as name f).
Proof. unfold listed_as. apply _. Defined.

(** ** keydefaultdict

    The dictionary behind the connection pools: a [defaultdict] whose
    factory is given the missing key.  [None] stands for [KeyError]. *)

Module keydefaultdict.
Section keydefaultdict.
Context {V : Type}.

Record t : Type := {
  default_factory : option (string -> V);
  items : gmap string V
}.

(** [__missing__(self, key)] *)
Definition __missing__ (key : string) (self : t) : option V * t :=
  match default_factory self with
  | None => (None, self)
  | Some factory =>
      let ret := factory key in
      (Some ret, {| default_factory := default_factory self;
                    items := <[key := ret]> (items self) |})
  end.

(** [self[key]]: the stored value, or [__missing__] for a key that is not
    there. *)
Definition __getitem__ (key : string) (self : t) : option V * t :=
  match items self !! key with
  | Some v => (Some v, self)
  | None => __missing__ key self
  end.
End keydefaultdict.
Arguments t : clear implicits.
End keydefaultdict.

(** * cloudvolume.datasource.graphene.metadata: the labels of the chunked graph

    A label is a 64-bit integer: the bits of the layer, of the three chunk
    coordinates and of the segment.  [numpy.uint64] is modelled as the
    integers below [2^64]; the decoders are stated for labels in that
    range. *)

Module Graphene.
Local Open Scope Z_scope.

(** [uint64(v)]: [v] itself for an integer in range. *)
Definition uint64 (v : Z) : Z := v mod 2 ^ 64.

(** [a << b] and [a >> b] on [uint64]: the bits shifted beyond the 64th are
    lost, and a shift by 64 or more gives 0. *)
Definition shl (a b : Z) : Z := if b <? 64 then Z.shiftl a b mod 2 ^ 64 else 0.
Definition shr (a b : Z) : Z := if b <? 64 then Z.shiftr a b else 0.

(** What the decoders read of [info['graph']]: the dictionary
    [spatial_bit_masks], keyed by the decimal writing of the level, and
    the optional [n_bits_for_layer_id]. *)
Record graph_info : Type := {
  graph_spatial_bit_masks : gmap string Z;
  graph_n_bits_for_layer_id : option Z
}.

Record GrapheneLabel : Type := {
  level : Z;
  x : Z;
  y : Z;
  z : Z;
  segid : Z
}.

Section GrapheneMetadata.
Variable info : graph_info.

(** [int(self.info['graph'].get('n_bits_for_layer_id', 8))] *)
Definition n_bits_for_layer_id : Z := default 8 (graph_n_bits_for_layer_id info).

(** [int(self.info['graph']['spatial_bit_masks'][str(level)])]; [None]
    stands for the [KeyError] of a level without an entry. *)
Definition spatial_bit_count (level : Z) : option Z :=
  graph_spatial_bit_masks info !! pretty level.

Definition level_segid_bits (level : Z) : option Z :=
  ct ← spatial_bit_count level;
  Some (64 - n_bits_for_layer_id - 3 * ct).

Definition decode_level (label : Z) : Z :=
  shr (Z.land (uint64 label) (uint64 0xff00000000000000))
      (uint64 (64 - n_bits_for_layer_id)).

(** [for _ in range(n): mask |= uint64(1); mask = mask << uint64(1)] *)
Fixpoint mask_loop (n : nat) (mask : Z) : Z :=
  match n with
  | O => mask
  | S k => mask_loop k (shl (Z.lor mask (uint64 1)) (uint64 1))
  end.

(** The turns of [for _ in range(n)]: none for a negative [n]. *)
Definition range_turns (n : Z) : nat := Z.to_nat n.

Definition decode_segid (label : Z) : option Z :=
  let label := uint64 label in
  let level := decode_level label in
  segid_bits ← level_segid_bits level;
  let mask := mask_loop (range_turns segid_bits) (uint64 0) in
  Some (Z.land label mask).

Definition spatial_bit_masks (level : Z) : option (Z * Z * Z) :=
  ct ← spatial_bit_count level;
  let mask := mask_loop (range_turns ct) (uint64 0x0000000000000000) in
  let segid_bits := 64 - n_bits_for_layer_id - 3 * ct in
  Some (shl mask (uint64 (segid_bits + 2 * ct)),
        shl mask (uint64 (segid_bits + 1 * ct)),
        shl mask (uint64 (segid_bits + 0 * ct))).

Definition decode_chunk_position (label : Z) : option (Z * Z * Z) :=
  let label := uint64 label in
  let level := decode_level label in
  ct ← spatial_bit_count level;
  let label := Z.land label (uint64 0x00ffffffffffffff) in
  masks ← spatial_bit_masks level;
  segid_bits ← level_segid_bits level;
  let x := shr (Z.land label (fst (fst masks))) (uint64 (segid_bits + 2 * ct)) in
  let y := shr (Z.land label (snd (fst masks))) (uint64 (segid_bits + 1 * ct)) in
  let z := shr (Z.land label (snd masks)) (uint64 (segid_bits + 0 * ct)) in
  Some (x, y, z).

Definition decode_chunk_id (label : Z) : option Z :=
  let label := uint64 label in
  let level := decode_level label in
  ct ← spatial_bit_count level;
  segid_bits ← level_segid_bits level;
  let label := Z.land label (uint64 0x00ffffffffffffff) in
  Some (shr label (uint64 segid_bits)).

Definition decode_label (label : Z) : option GrapheneLabel :=
  let level := decode_level label in
  xyz ← decode_chunk_position label;
  segid ← decode_segid label;
  Some {| level := level; x := fst (fst xyz); y := snd (fst xyz); z := snd xyz;
          segid := segid |}.
End GrapheneMetadata.

(** The labels [numpy.uint64] holds. *)
Definition in_range (label : Z) : Prop := 0 <= label < 2 ^ 64.

(** An [info] of a graph with 8 layer bits and, at layer 1, 10 bits for each
    chunk coordinate, which leaves 26 bits for the segment. *)
Definition sample_info : graph_info :=
  {| graph_spatial_bit_masks := {[ "1" := 10; "2" := 9 ]};
     graph_n_bits_for_layer_id := None |}.

(** A label of layer 1 with the coordinates (3, 5, 6) and the segment 7. *)
Definition sample_label : Z :=
  Z.shiftl 1 56 + Z.shiftl 3 46 + Z.shiftl 5 36 + Z.shiftl 6 26 + 7.
End Graphene.

(** ** Vocabulary of the further properties *)

(** *** Requests sent over the HTTP connection *)

Module HttpCount.
Section HttpCount.
Variable server : string -> string -> response.
Variable _path : BucketPath.

(** The connection after [k] more requests whose streams are closed
    again: every request takes the next odd stream identifier. *)
Definition bump (k : nat) (c : connection) : connection :=
  {| streams := streams c; next_stream_id := next_stream_id c + 2 * k |}.

(** The answer to a request for [file_path] is of the server class. *)
Definition server_error (method file_path : string) : bool :=
  isinstance_server (HttpSpec.answer_class server _path method file_path).

(** The requests a single call sends for [file_path]. *)
Definition requests (method file_path : string) : nat :=
  if server_error method file_path then MAX_RETRIES else 1.

(** The paths of a batch that are answered with a server-class status. *)
Definition retried (method : string) (file_paths : list string) : nat :=
  length (List.filter (server_error method) file_paths).

(** A connection with room for one more stream, whose open streams are
    older than the next one. *)
Definition has_room (max_streams : nat) (c : connection) : Prop :=
  length (streams c) < max_streams /\
  Forall (fun r : nat * (string * string) => fst r < next_stream_id c) (streams c).
End HttpCount.
End HttpCount.

(** The states in which a backend takes a batch: for the HTTP interface, a
    connection with room for one more stream, whose open streams are older
    than the next one. *)
Definition with_room (env : Env) (cls : interface_cls) : backend_state cls -> Prop :=
  match cls with
  | HttpInterfaceCls => HttpCount.has_room (env_max_streams env)
  | _ => fun _ => True
  end.

(** *** Keys of a bucket under a prefix *)

(** The keys a listing request with [Prefix=prefix] enumerates. *)
Definition keys_with_prefix (bk : bucket_state) (prefix : string) : list string :=
  List.filter (fun k => startswith k prefix) (map fst bk).

(** The page [list_objects_v2] serves at continuation token [token]. *)
Definition page_at (page_size : nat) (keys : list string) (token : nat) : s3_page :=
  let rest := drop token keys in
  {| Contents := match rest with
                 | [] => None
                 | _ => Some (take (S page_size) rest)
                 end;
     IsTruncated := (S page_size <? length rest)%nat;
     NextContinuationToken :=
       if (S page_size <? length rest)%nat then Some (token + S page_size) else None |}.

(** *** Uploads by the workers *)

(** The bucket after the writes [l], key and blob, made in turn. *)
Definition stored_in_turn (l : list (string * blob)) (bk : bucket_state) : bucket_state :=
  fold_left (fun b e => bucket_store b (fst e) (snd e)) l bk.

(** The content [put_files] hands to the interface for [content]. *)
Definition compressed (cdc : Codec) (method : option string) (content : bytes) : bytes :=
  match compress cdc content method with
  | Ok c => c
  | Raise _ => content
  end.

Module Upload.
Section Upload.
Variable env : Env.
Variable p : BucketPath.
Variables ct method cc : option string.

(** The blob the S3 interface stores for an upload of [content]. *)
Definition uploaded (content : bytes) : blob :=
  {| blob_body := compressed (env_codec env) method content;
     blob_content_type :=
       Some (if truthy ct then default "" ct else "application/octet-stream");
     blob_content_encoding := if truthy method then Some "gzip" else None;
     blob_cache_control := if truthy cc then cc else None |}.

(** The task [put_files] queues for an entry of [files]. *)
Definition task (e : string * bytes) : unit -> M bucket_state unit :=
  Storage.uploadfn (s3_interface env p) (fst e)
    (compressed (env_codec env) method (snd e)) ct method cc.
End Upload.
End Upload.

(** *** Paths as sequences of names *)

Module PathSpec.
(** A name of a file or directory: not empty, and without a separator. *)
Definition is_name (c : string) : Prop := c <> "" /\ contains_sep c = false.

(** The relative path with the components [cs]. *)
Fixpoint path_of (cs : list string) : string :=
  match cs with
  | [] => ""
  | c :: cs' =>
      match cs' with
      | [] => c
      | _ => (c ++ "/" ++ path_of cs')%string
      end
  end.

(** A relative path in normal form: one name or more, put together with
    single separators. *)
Definition normal (rel : string) : Prop :=
  exists cs, cs <> [] /\ Forall is_name cs /\ rel = path_of cs.

(** What the directory [root] of the walk from [top] gives for the file
    [e]: for a file directly in [root], its joined path with the
    occurrences of [top] taken out. *)
Definition entry_in (top root : string) (e : string * bytes) : option string :=
  match OS.below root (fst e) with
  | Some name =>
      if contains_sep name then None else Some (str_remove (join2 root name) top)
  | None => None
  end.

(** The files of [fs] below the directory [top], each by its path with
    the occurrences of [top] taken out. *)
Definition entries_below (fs : filesystem) (top : string) : list string :=
  omap (fun e => match OS.below top (fst e) with
                 | Some _ => Some (str_remove (fst e) top)
                 | None => None
                 end) fs.
End PathSpec.

(** * Properties *)

(** ** The retry wrapper *)

Module RetryFacts.
Section RetryFacts.
Context {W A : Type}.
Variable retry_if : exn -> bool.
Variable f : M W A.

Local Abbreviation call := (Retry.call retry_if f).
Local Abbreviation after := (Retry.after f).
Local Abbreviation outcome := (Retry.outcome f).
Local Abbreviation transient := (Retry.transient retry_if f).
Local Abbreviation settles := (Retry.settles retry_if).

Lemma after_S n w : after (S n) w = snd (f (after n w)).
Proof.
  revert w. induction n as [|n IH]; intros w; [done|].
  change (after (S (S n)) w) with (after (S n) (snd (f w))).
  by rewrite IH.
Qed.

Lemma after_step n w : after (S n) w = after n (snd (f w)).
Proof. done. Qed.

Lemma transient_shift w :
  transient 0 w ->
  forall k, (forall j, j < S k -> transient j w) ->
            forall j, j < k -> transient j (snd (f w)).
Proof. intros _ k H j Hj. apply (H (S j)). lia. Qed.

(** The attempt counter only grows, and by no more than the budget. *)
Lemma call_attempts_bounds remaining n w :
  n <= snd (call remaining n w) <= n + remaining.
Proof.
  revert n w. induction remaining as [|r IH]; intros n w; simpl.
  - destruct (f w) as [[[a|e]|] w']; simpl; [lia| |lia].
    destruct (retry_if e); simpl; lia.
  - destruct (f w) as [[[a|e]|] w']; simpl; [lia| |lia].
    destruct (retry_if e); simpl; [|lia].
    specialize (IH (S n) w'). lia.
Qed.

(** The state [call] ends in is the state after as many calls of [f] as
    it counts attempts. *)
Lemma call_state remaining n w :
  snd (fst (call remaining n w)) = after (S (snd (call remaining n w) - n)) w.
Proof.
  revert n w. induction remaining as [|r IH]; intros n w.
  - simpl. destruct (f w) as [[[a|e]|] w'] eqn:E; simpl.
    + by replace (n - n) with 0 by lia.
    + destruct (retry_if e); simpl; by replace (n - n) with 0 by lia.
    + by replace (n - n) with 0 by lia.
  - simpl. destruct (f w) as [[[a|e]|] w'] eqn:E; simpl.
    + by replace (n - n) with 0 by lia.
    + destruct (retry_if e); simpl.
      * rewrite IH.
        pose proof (call_attempts_bounds r (S n) w') as Hb.
        f_equal. lia.
      * by replace (n - n) with 0 by lia.
    + by replace (n - n) with 0 by lia.
Qed.

Lemma call_settled k :
  forall remaining n w,
    k <= remaining ->
    (forall j, j < k -> transient j w) ->
    settles (remaining - k) (outcome k w) ->
    call remaining n w = (outcome k w, after (S k) w, n + k).
Proof.
  induction k as [|k IH]; intros remaining n w Hk Htr Hset.
  - unfold Retry.outcome in *. simpl in *.
    replace (n + 0) with n by lia.
    destruct remaining as [|r]; simpl;
      destruct (f w) as [[[a|e]|] w'] eqn:E; simpl in *; try done.
    + destruct (retry_if e); done.
    + destruct Hset as [->|?]; [done|lia].
  - destruct remaining as [|r]; [lia|].
    destruct (Htr 0 ltac:(lia)) as (e & He & Hre).
    unfold Retry.outcome in He. simpl in He.
    simpl. destruct (f w) as [[[a|e']|] w'] eqn:E; simpl in He; [done| |done].
    injection He as ->. rewrite Hre. simpl.
    rewrite (IH r (S n) w').
    + unfold Retry.outcome. simpl. rewrite E. simpl.
      repeat f_equal. lia.
    + lia.
    + intros j Hj. specialize (Htr (S j) ltac:(lia)).
      unfold Retry.transient, Retry.outcome in *. simpl in Htr.
      by rewrite E in Htr.
    + unfold Retry.outcome in *. simpl in Hset. by rewrite E in Hset.
Qed.

(** *** The bare decorator *)

Local Abbreviation call_bare := (Retry.call_bare f).

Local Abbreviation fails := (Retry.fails f).

(** The loop goes on as long as the attempts fail: it returns with the
    first attempt that does, *)
Lemma call_bare_returns k : forall patience n w a,
  k <= patience ->
  (forall j, j < k -> fails j w) ->
  outcome k w = Ok a ->
  call_bare patience n w = (Ok a, after (S k) w, n + k).
Proof.
  induction k as [|k IH]; intros patience n w a Hk Hfail Hok.
  - unfold Retry.outcome in Hok. simpl in Hok.
    replace (n + 0) with n by lia.
    destruct patience as [|r]; simpl;
      destruct (f w) as [[[a'|e]|] w'] eqn:E; simpl in *; congruence.
  - destruct patience as [|r]; [lia|].
    destruct (Hfail 0 ltac:(lia)) as (e & He).
    unfold Retry.outcome in He. simpl in He.
    simpl. destruct (f w) as [[[a'|e']|] w'] eqn:E; simpl in He; [done| |done].
    rewrite (IH r (S n) w' a).
    + simpl. repeat f_equal. lia.
    + lia.
    + intros j Hj. specialize (Hfail (S j) ltac:(lia)).
      unfold Retry.fails, Retry.outcome in *. simpl in Hfail. by rewrite E in Hfail.
    + unfold Retry.outcome in *. simpl in Hok. by rewrite E in Hok.
Qed.

(** and while the attempts have all failed it has not returned. *)
Lemma call_bare_diverges patience : forall n w,
  (forall j, j <= patience -> fails j w) ->
  fst (fst (call_bare patience n w)) = Diverge /\
  snd (call_bare patience n w) = n + patience.
Proof.
  induction patience as [|r IH]; intros n w Hfail.
  - destruct (Hfail 0 ltac:(lia)) as (e & He).
    unfold Retry.outcome in He. simpl in He. simpl.
    destruct (f w) as [[[a'|e']|] w'] eqn:E; simpl in *; try done.
  - destruct (Hfail 0 ltac:(lia)) as (e & He).
    unfold Retry.outcome in He. simpl in He. simpl.
    destruct (f w) as [[[a'|e']|] w'] eqn:E; simpl in He; [done| |done].
    destruct (IH (S n) w') as [H1 H2].
    + intros j Hj. specialize (Hfail (S j) ltac:(lia)).
      unfold Retry.fails, Retry.outcome in *. simpl in Hfail. by rewrite E in Hfail.
    + split; [done|]. rewrite H2. lia.
Qed.

(** The bare decorator raises nothing. *)
Lemma call_bare_no_raise patience : forall n w e,
  fst (fst (call_bare patience n w)) <> Raise e.
Proof.
  induction patience as [|r IH]; intros n w e; simpl;
    destruct (f w) as [[[a'|e']|] w']; simpl; try done.
Qed.
End RetryFacts.
End RetryFacts.

(** The budget of [@retry(retry=...)], the decorator of the two HTTP
    methods.  It makes at least one and at most seven attempts,
    and leaves the backend in the state after that many calls.  When the
    first six attempts fail with exceptions the retry predicate accepts and
    the seventh succeeds, the call returns that success.  When the first
    six fail so and the seventh fails too, the call raises the seventh
    attempt's own exception.  When an attempt fails with an exception the
    predicate refuses, after only accepted failures, that exception is
    raised at once and no further attempt is made. *)
Theorem retry_budget {W A : Type} (retry_if : exn -> bool) (f : M W A) (w : W) :
  (1 <= Retry.attempts retry_if f w <= MAX_RETRIES /\
   snd (retry retry_if f w) = Retry.after f (Retry.attempts retry_if f w) w) /\
  (forall a,
      (forall k, k < 6 -> Retry.transient retry_if f k w) ->
      Retry.outcome f 6 w = Ok a ->
      retry retry_if f w = (Ok a, Retry.after f 7 w) /\
      Retry.attempts retry_if f w = 7) /\
  (forall e,
      (forall k, k < 6 -> Retry.transient retry_if f k w) ->
      Retry.outcome f 6 w = Raise e ->
      retry retry_if f w = (Raise e, Retry.after f 7 w) /\
      Retry.attempts retry_if f w = 7) /\
  (forall k e,
      k < MAX_RETRIES ->
      (forall j, j < k -> Retry.transient retry_if f j w) ->
      Retry.outcome f k w = Raise e ->
      retry_if e = false ->
      retry retry_if f w = (Raise e, Retry.after f (S k) w) /\
      Retry.attempts retry_if f w = S k).
Proof.
  unfold retry, Retry.retry, Retry.attempts, Retry.run, MAX_RETRIES.
  change (7 - 1) with 6.
  split; [|split; [|split]].
  - pose proof (RetryFacts.call_attempts_bounds retry_if f 6 1 w) as Hb.
    pose proof (RetryFacts.call_state retry_if f 6 1 w) as Hs.
    split; [lia|]. rewrite Hs. f_equal. lia.
  - intros a Htr Hok.
    rewrite (RetryFacts.call_settled retry_if f 6 6 1 w); rewrite ?Hok; try done.
  - intros e Htr Hfail.
    rewrite (RetryFacts.call_settled retry_if f 6 6 1 w); rewrite ?Hfail; try done.
    simpl. by right.
  - intros k e Hk Htr Hfail Hre.
    rewrite (RetryFacts.call_settled retry_if f k 6 1 w); rewrite ?Hfail; try done.
    + lia.
    + simpl. by left.
Qed.

Lemma retry_budget_witness :
  retry retry_if_server_error (flaky 6) 0 = (Ok "content", 7) /\
  retry retry_if_server_error (flaky 7) 0
    = (Raise (HTTPException HTTPServerError 503), 7) /\
  retry retry_if_server_error refused 0
    = (Raise (HTTPException HTTPClientError 400), 2).
Proof.
  split; [|split].
  - destruct (retry_budget retry_if_server_error (flaky 6) 0) as (_ & H & _).
    apply (H "content"); [|reflexivity].
    intros k Hk. exists (HTTPException HTTPServerError 503).
    do 6 (destruct k as [|k]; [split; reflexivity|]). lia.
  - destruct (retry_budget retry_if_server_error (flaky 7) 0) as (_ & _ & H & _).
    apply (H (HTTPException HTTPServerError 503)); [|reflexivity].
    intros k Hk. exists (HTTPException HTTPServerError 503).
    do 6 (destruct k as [|k]; [split; reflexivity|]). lia.
  - destruct (retry_budget retry_if_server_error refused 0) as (_ & _ & _ & H).
    apply (H 1 (HTTPException HTTPClientError 400)).
    + unfold MAX_RETRIES. lia.
    + intros j Hj. exists (HTTPException HTTPServerError 503).
      destruct j as [|j]; [split; reflexivity|lia].
    + reflexivity.
    + reflexivity.
Defined.

(** ** The listing order *)

Module RadixSortFacts.
Import RadixSortSpec.

(** *** Strings *)

Lemma get_None_length i s : String.get i s = None <-> String.length s <= i.
Proof.
  revert i. induction s as [|a s IH]; intros i; simpl.
  - split; [lia|done].
  - destruct i as [|i]; [split; [done|lia]|].
    rewrite IH. lia.
Qed.

Lemma ascii_compare_refl a : Ascii.compare a a = Eq.
Proof. unfold Ascii.compare. apply N.compare_refl. Qed.

Lemma ascii_compare_lt a b : ord a < ord b -> Ascii.compare a b = Lt.
Proof.
  unfold ord, Ascii.compare, nat_of_ascii. intros H.
  apply N.compare_lt_iff. lia.
Qed.

Lemma ord_inj a b : ord a = ord b -> a = b.
Proof.
  unfold ord. intros H.
  by rewrite <-(ascii_nat_embedding a), <-(ascii_nat_embedding b), H.
Qed.

(** A string that ends where the common part ends comes first. *)
Lemma le_of_prefix s : forall i t,
  (forall j, j < i -> String.get j s = String.get j t) ->
  String.get i s = None ->
  String.le s t.
Proof.
  unfold String.le, String.leb.
  induction s as [|a s IH]; intros i t Hpre Hend.
  - by destruct t.
  - destruct i as [|i]; [done|].
    pose proof (Hpre 0 ltac:(lia)) as H0. simpl in H0.
    destruct t as [|b t]; [done|]. simpl in H0. injection H0 as <-.
    simpl. rewrite ascii_compare_refl.
    apply (IH i); [|done].
    intros j Hj. apply (Hpre (S j)). lia.
Qed.

(** After a common part, the smaller character decides. *)
Lemma le_of_key i : forall s t a b,
  (forall j, j < i -> String.get j s = String.get j t) ->
  String.get i s = Some a ->
  String.get i t = Some b ->
  ord a < ord b ->
  String.le s t.
Proof.
  unfold String.le, String.leb.
  induction i as [|i IH]; intros s t a b Hpre Hs Ht Hlt.
  - destruct s as [|x s]; [done|]. destruct t as [|y t]; [done|].
    simpl in *. injection Hs as ->. injection Ht as ->.
    by rewrite (ascii_compare_lt _ _ Hlt).
  - destruct s as [|x s]; [done|]. destruct t as [|y t]; [done|].
    pose proof (Hpre 0 ltac:(lia)) as H0. simpl in H0. injection H0 as <-.
    simpl in *. rewrite ascii_compare_refl.
    apply (IH s t a b); try done.
    intros j Hj. apply (Hpre (S j)). lia.
Qed.

Lemma length_le_max_len s L : s ∈ L -> String.length s <= max_len L.
Proof.
  induction 1 as [s L|s t L _ IH]; simpl; lia.
Qed.

(** *** The buckets *)

Lemma map_fmap {A B} (f : A -> B) (l : list A) : map f l = f <$> l.
Proof. done. Qed.

Lemma distribute_spec i L : forall d bs,
  (forall s c, s ∈ L -> String.get i s = Some c -> ord c < length bs) ->
  exists bs',
    distribute i L d bs = Ok (d ++ done_of i L, bs') /\
    length bs' = length bs /\
    forall k b, bs !! k = Some b -> bs' !! k = Some (b ++ bucket_of i k L).
Proof.
  unfold done_of, bucket_of.
  induction L as [|s L IH]; intros d bs Hok; simpl.
  - exists bs. rewrite !app_nil_r. split; [done|]. split; [done|].
    intros k b Hb. by rewrite app_nil_r.
  - destruct (String.get i s) as [c|] eqn:Hget.
    + assert (ord c < length bs) as Hc by (eapply Hok; [left|done]).
      destruct (lookup_lt_is_Some_2 bs (ord c) Hc) as [b0 Hb0].
      rewrite Hb0.
      destruct (IH d (<[ord c := b0 ++ [s]]> bs)) as (bs' & Hd & Hlen & Hbs').
      { intros s' c' Hs' Hg. rewrite length_insert. eapply Hok; [by right|done]. }
      exists bs'. rewrite Hd. rewrite length_insert in Hlen.
      rewrite filter_cons_False by (by rewrite Hget).
      split; [done|]. split; [done|].
      intros k b Hb. destruct (decide (k = ord c)) as [->|Hne].
      * rewrite Hb0 in Hb. injection Hb as <-.
        rewrite filter_cons_True by (by rewrite Hget).
        rewrite (Hbs' (ord c) (b0 ++ [s])).
        -- by rewrite <-app_assoc.
        -- by apply list_lookup_insert_eq.
      * rewrite filter_cons_False.
        -- apply Hbs'. by rewrite list_lookup_insert_ne.
        -- rewrite Hget. simpl. congruence.
    + destruct (IH (d ++ [s]) bs) as (bs' & Hd & Hlen & Hbs').
      { intros s' c' Hs' Hg. eapply Hok; [by right|done]. }
      exists bs'. rewrite Hd.
      rewrite filter_cons_True by done.
      split; [by rewrite <-app_assoc|]. split; [done|].
      intros k b Hb. rewrite filter_cons_False by (by rewrite Hget).
      by apply Hbs'.
Qed.

(** A string whose character at [i] has no bucket stops the sort. *)
Lemma distribute_no_bucket i L : forall d bs s c,
  s ∈ L ->
  String.get i s = Some c ->
  length bs <= ord c ->
  distribute i L d bs = Raise IndexError.
Proof.
  induction L as [|s' L IH]; intros d bs s c Hs Hget Hc; [by inv Hs|].
  simpl. destruct (String.get i s') as [c'|] eqn:Hget'.
  - destruct (bs !! ord c') as [b|] eqn:Hb; [|done].
    apply elem_of_cons in Hs as [->|Hs].
    + rewrite Hget in Hget'. injection Hget' as <-.
      apply lookup_lt_Some in Hb. lia.
    + eapply IH; [done..|]. by rewrite length_insert.
  - apply elem_of_cons in Hs as [->|Hs]; [congruence|]. by eapply IH.
Qed.

Lemma distribute_cases i L :
  (Forall (in_range i 255) L /\
   distribute i L [] (replicate 255 []) =
     Ok (done_of i L, map (fun k => bucket_of i k L) (seq 0 255)))
  \/ (distribute i L [] (replicate 255 []) = Raise IndexError /\ ~ chars_ok L).
Proof.
  destruct (decide (Forall (in_range i 255) L)) as [Hall|Hex].
  - left. split; [done|].
    destruct (distribute_spec i L [] (replicate 255 [])) as (bs' & -> & Hlen & Hbs').
    { intros s c Hs Hg. rewrite length_replicate.
      rewrite Forall_forall in Hall. specialize (Hall s Hs).
      unfold in_range in Hall. by rewrite Hg in Hall. }
    rewrite app_nil_l. do 2 f_equal.
    rewrite length_replicate in Hlen.
    rewrite map_fmap.
    apply list_eq. intros k. rewrite list_lookup_fmap.
    destruct (decide (k < 255)) as [Hk|Hk].
    + rewrite (Hbs' k []) by (by apply lookup_replicate_2).
      by rewrite lookup_seq_lt.
    + rewrite lookup_ge_None_2 by lia.
      by rewrite lookup_seq_ge by lia.
  - right. apply (not_Forall_Exists _) in Hex.
    apply Exists_exists in Hex as (s & Hs & Hout).
    unfold compose, in_range in Hout.
    destruct (String.get i s) as [c|] eqn:Hget; [|done].
    split.
    + apply (distribute_no_bucket i L [] _ s c Hs Hget).
      rewrite length_replicate. lia.
    + intros Hok. apply Hout. by eapply Hok.
Qed.

Lemma sort_each_cases sort (Q : list string -> list string -> Prop)
    (E : list string -> exn -> Prop) bs :
  Forall (fun b => exists r, sort b = Some r /\
                             match r with
                             | Ok out => Q b out
                             | Raise e => E b e
                             end) bs ->
  exists r, sort_each sort bs = Some r /\
            match r with
            | Ok outs => Forall2 Q bs outs
            | Raise e => exists b, b ∈ bs /\ E b e
            end.
Proof.
  induction 1 as [|b bs (r & Hb & Hr) _ (rs & Hbs & Hrs)]; simpl.
  - by exists (Ok []).
  - rewrite Hb. destruct r as [out|e].
    + rewrite Hbs. destruct rs as [outs|e].
      * exists (Ok (out :: outs)). split; [done|]. by constructor.
      * exists (Raise e). split; [done|].
        destruct Hrs as (b' & Hb' & He). exists b'. split; [by right|done].
    + exists (Raise e). split; [done|]. exists b. split; [by left|done].
Qed.

(** *** Permutation *)

Lemma buckets_cons_other i s L ks :
  (forall k, k ∈ ks -> ord <$> String.get i s <> Some k) ->
  map (fun k => bucket_of i k (s :: L)) ks = map (fun k => bucket_of i k L) ks.
Proof.
  intros Hne. induction ks as [|k ks IH]; [done|].
  simpl. rewrite IH by (intros k' Hk'; apply Hne; by right).
  f_equal. unfold bucket_of. rewrite filter_cons_False; [done|].
  apply Hne. by left.
Qed.

Lemma buckets_cons_one i s L k0 ks :
  ord <$> String.get i s = Some k0 ->
  NoDup ks ->
  k0 ∈ ks ->
  concat (map (fun k => bucket_of i k (s :: L)) ks)
    ≡ₚ s :: concat (map (fun k => bucket_of i k L) ks).
Proof.
  intros Hk0 Hnd. induction Hnd as [|k ks Hk Hnd IH]; intros Hin; [by inv Hin|].
  simpl. destruct (decide (k = k0)) as [->|Hne].
  - rewrite buckets_cons_other.
    + unfold bucket_of at 1. by rewrite filter_cons_True.
    + intros k' Hk' Heq. rewrite Hk0 in Heq. by injection Heq as ->.
  - apply elem_of_cons in Hin as [->|Hin]; [done|].
    rewrite (IH Hin).
    unfold bucket_of at 1. rewrite filter_cons_False.
    + by rewrite Permutation_middle.
    + rewrite Hk0. congruence.
Qed.

Lemma buckets_partition i L :
  Forall (in_range i 255) L ->
  done_of i L ++ concat (map (fun k => bucket_of i k L) (seq 0 255)) ≡ₚ L.
Proof.
  induction 1 as [|s L Hs _ IH].
  - unfold done_of. rewrite filter_nil.
    assert (forall ks, concat (map (fun k => bucket_of i k []) ks) = []) as ->; [|done].
    induction ks as [|k ks IHks]; [done|]. simpl. by rewrite IHks.
  - unfold in_range in Hs. unfold done_of in *.
    destruct (String.get i s) as [c|] eqn:Hget.
    + rewrite filter_cons_False by (by rewrite Hget).
      rewrite (buckets_cons_one i s L (ord c)).
      * by rewrite <-Permutation_middle, IH.
      * by rewrite Hget.
      * apply NoDup_seq.
      * apply elem_of_seq. lia.
    + rewrite filter_cons_True by done.
      rewrite buckets_cons_other.
      * simpl. by rewrite IH.
      * intros k _. by rewrite Hget.
Qed.

Lemma concat_perm (bs outs : list (list string)) :
  Forall2 (fun b out => out ≡ₚ b) bs outs -> concat outs ≡ₚ concat bs.
Proof.
  induction 1 as [|b out bs outs Hb _ IH]; [done|].
  simpl. by rewrite Hb, IH.
Qed.

(** *** Order *)

Lemma sorted_of_pairwise {A} (R : relation A) (l : list A) :
  (forall x y, x ∈ l -> y ∈ l -> R x y) -> StronglySorted R l.
Proof.
  induction l as [|x l IH]; intros H; constructor.
  - apply IH. intros y z Hy Hz. apply H; by right.
  - apply Forall_forall. intros y Hy. apply H; [by left|by right].
Qed.

Lemma seq_sorted n : forall start, StronglySorted lt (seq start n).
Proof.
  induction n as [|n IH]; intros start; simpl; constructor; [apply IH|].
  apply Forall_forall. intros k Hk. apply elem_of_seq in Hk. lia.
Qed.

Lemma keyed_concat_elem (key : string -> nat) ks (outs : list (list string)) x :
  Forall2 (fun k out => forall y, y ∈ out -> key y = k) ks outs ->
  x ∈ concat outs -> key x ∈ ks.
Proof.
  induction 1 as [|k out ks outs Hk _ IH]; simpl; intros Hx; [by inv Hx|].
  apply elem_of_app in Hx as [Hx|Hx].
  - rewrite (Hk x Hx). by left.
  - right. by apply IH.
Qed.

(** Sorted blocks whose keys increase from block to block make a sorted
    whole, when the smaller key decides the order. *)
Lemma sorted_concat (R : relation string) (key : string -> nat) ks outs :
  Forall2 (fun k out => StronglySorted R out /\ forall y, y ∈ out -> key y = k) ks outs ->
  StronglySorted lt ks ->
  (forall x y, x ∈ concat outs -> y ∈ concat outs -> key x < key y -> R x y) ->
  StronglySorted R (concat outs).
Proof.
  induction 1 as [|k out ks outs [Hsorted Hkey] Hrest IH]; intros Hks HR; simpl.
  - constructor.
  - apply StronglySorted_cons in Hks as [Hk Hks].
    apply StronglySorted_app_2.
    + intros x y Hx Hy. apply HR.
      * simpl. apply elem_of_app. by left.
      * simpl. apply elem_of_app. by right.
      * rewrite (Hkey x Hx).
        rewrite Forall_forall in Hk. apply Hk.
        eapply keyed_concat_elem; [|done].
        eapply Forall2_impl; [done|]. by intros ?? [_ ?].
    + done.
    + apply IH; [done|].
      intros x y Hx Hy. apply HR; simpl; apply elem_of_app; by right.
Qed.

(** *** The sort *)

Lemma radix_sort_fuel_eq fuel L i :
  radix_sort_fuel fuel L i =
    if (length L <=? 1)%nat then Some (Ok L)
    else
      match fuel with
      | 0 => None
      | S fuel' =>
          match distribute i L [] (replicate 255 []) with
          | Raise e => Some (Raise e)
          | Ok (done_bucket, buckets) =>
              match sort_each (fun b => radix_sort_fuel fuel' b (i + 1)) buckets with
              | None => None
              | Some (Raise e) => Some (Raise e)
              | Some (Ok sorted) => Some (Ok (done_bucket ++ concat sorted))
              end
          end
      end.
Proof. by destruct fuel. Qed.

Lemma elem_of_bucket i k L s :
  s ∈ bucket_of i k L <-> ord <$> String.get i s = Some k /\ s ∈ L.
Proof. unfold bucket_of. by rewrite list_elem_of_filter. Qed.

Lemma elem_of_done i L s :
  s ∈ done_of i L <-> String.get i s = None /\ s ∈ L.
Proof. unfold done_of. by rewrite list_elem_of_filter. Qed.

Lemma agree_bucket i k L : agree i L -> agree (i + 1) (bucket_of i k L).
Proof.
  intros Hagree s t j [Hs HsL]%elem_of_bucket [Ht HtL]%elem_of_bucket Hj.
  destruct (decide (j = i)) as [->|Hne].
  - destruct (String.get i s) as [a|]; [|done].
    destruct (String.get i t) as [b|]; [|done].
    simpl in *. injection Hs as Hs. injection Ht as Ht.
    rewrite (ord_inj a b) by congruence. split; [done|]. by eexists.
  - apply Hagree; [done..|lia].
Qed.

Lemma max_len_subset (b L : list string) :
  (forall s, s ∈ b -> s ∈ L) -> max_len b <= max_len L.
Proof.
  induction b as [|s b IH]; intros Hsub; simpl; [lia|].
  pose proof (length_le_max_len s L (Hsub s ltac:(by left))).
  pose proof (IH (fun t Ht => Hsub t ltac:(by right))). lia.
Qed.

Lemma agree_max_len i L s : agree i L -> s ∈ L -> i <= max_len L.
Proof.
  intros Hagree Hs. destruct i as [|i]; [lia|].
  destruct (Hagree s s i Hs Hs ltac:(lia)) as [_ [c Hc]].
  pose proof (length_le_max_len s L Hs).
  destruct (decide (String.length s <= i)) as [Hle|Hgt]; [|lia].
  apply get_None_length in Hle. congruence.
Qed.

Lemma small_sorted (L : list string) :
  (length L <=? 1)%nat = true -> StronglySorted String.le L.
Proof.
  destruct L as [|x [|y L]]; intros H; [constructor|by repeat constructor|done].
Qed.

Lemma radix_sort_fuel_spec fuel : forall L i,
  agree i L ->
  max_len L < fuel + i ->
  exists r, radix_sort_fuel fuel L i = Some r /\ sort_result L r.
Proof.
  induction fuel as [|fuel IH]; intros L i Hagree Hlen;
    rewrite radix_sort_fuel_eq;
    destruct (length L <=? 1)%nat eqn:Hsmall;
    try (exists (Ok L); split; [done|]; split; [done|by apply small_sorted]).
  - destruct L as [|s L]; [done|].
    pose proof (agree_max_len i (s :: L) s Hagree ltac:(by left)). lia.
  - destruct (distribute_cases i L) as [[Hrange ->]|[-> Hbad]];
      [|by exists (Raise IndexError)].
    destruct (sort_each_cases (fun b => radix_sort_fuel fuel b (i + 1))
                (fun b out => out ≡ₚ b /\ StronglySorted String.le out)
                (fun b e => e = IndexError /\ ~ chars_ok b)
                (map (fun k => bucket_of i k L) (seq 0 255)))
      as (r & -> & Hr).
    { rewrite map_fmap. apply Forall_fmap, Forall_forall. intros k _. simpl.
      apply IH; [by apply agree_bucket|].
      pose proof (max_len_subset (bucket_of i k L) L) as Hsub.
      specialize (Hsub (fun s Hs => proj2 (proj1 (elem_of_bucket i k L s) Hs))).
      lia. }
    destruct r as [outs|e].
    + exists (Ok (done_of i L ++ concat outs)). split; [done|].
      rewrite map_fmap in Hr. apply Forall2_fmap_l in Hr.
      assert (concat outs ≡ₚ concat (map (fun k => bucket_of i k L) (seq 0 255)))
        as Hperm.
      { apply concat_perm. rewrite map_fmap. apply Forall2_fmap_l.
        eapply Forall2_impl; [done|]. by intros k out [? _]. }
      assert (forall x, x ∈ concat outs ->
                        x ∈ L /\ exists c, String.get i x = Some c) as Hin.
      { intros x Hx. rewrite Hperm in Hx.
        apply list_elem_of_In, in_concat in Hx as (b & Hb & Hx).
        apply in_map_iff in Hb as (k & <- & _).
        apply list_elem_of_In, elem_of_bucket in Hx as [Hk Hx].
        split; [done|]. destruct (String.get i x) as [c|]; [by exists c|done]. }
      split.
      * rewrite Hperm. by apply buckets_partition.
      * apply StronglySorted_app_2.
        -- intros x y [Hx HxL]%elem_of_done Hy.
           destruct (Hin y Hy) as [HyL _].
           apply (le_of_prefix x i y); [|done].
           intros j Hj. by apply (Hagree x y j).
        -- apply sorted_of_pairwise.
           intros x y [Hx HxL]%elem_of_done [Hy HyL]%elem_of_done.
           apply (le_of_prefix x i y); [|done].
           intros j Hj. by apply (Hagree x y j).
        -- apply (sorted_concat String.le
                    (fun s => default 0 (ord <$> String.get i s)) (seq 0 255)).
           ++ eapply Forall2_impl; [done|].
              intros k out [Hp Hs]. split; [done|].
              intros y Hy. rewrite Hp in Hy.
              apply elem_of_bucket in Hy as [-> _]. done.
           ++ apply seq_sorted.
           ++ intros x y Hx Hy Hlt.
              destruct (Hin x Hx) as [HxL [a Ha]].
              destruct (Hin y Hy) as [HyL [b Hb]].
              rewrite Ha, Hb in Hlt. simpl in Hlt.
              apply (le_of_key i x y a b); try done.
              intros j Hj. by apply (Hagree x y j).
    + exists (Raise e). split; [done|].
      destruct Hr as (b & Hb & -> & Hbad). split; [done|].
      intros Hok. apply Hbad.
      apply list_elem_of_In, in_map_iff in Hb as (k & <- & _).
      intros s j c [_ Hs]%elem_of_bucket Hget. by eapply Hok.
Qed.

(** The depth bound of [_radix_sort] is never reached. *)
Lemma radix_sort_fuel_enough L : radix_sort_fuel (S (max_len L)) L 0 <> None.
Proof.
  destruct (radix_sort_fuel_spec (S (max_len L)) L 0) as (r & -> & _); try done.
  - intros s t j _ _ Hj. lia.
  - lia.
Qed.

Lemma radix_sort_spec L : sort_result L (_radix_sort L).
Proof.
  unfold _radix_sort.
  destruct (radix_sort_fuel_spec (S (max_len L)) L 0) as (r & -> & Hr); try done.
  - intros s t j _ _ Hj. lia.
  - lia.
Qed.

(** With a bucket for every character, the sort returns the sorted
    permutation of its input. *)
Lemma radix_sort_sorts L :
  chars_ok L ->
  exists out, _radix_sort L = Ok out /\ out ≡ₚ L /\ StronglySorted String.le out.
Proof.
  intros Hok. pose proof (radix_sort_spec L) as Hr.
  destruct (_radix_sort L) as [out|e]; [by exists out|].
  by destruct Hr as [_ []].
Qed.

(** The result does not depend on the order of the input. *)
Lemma radix_sort_perm L L' :
  chars_ok L -> L ≡ₚ L' -> _radix_sort L = _radix_sort L'.
Proof.
  intros Hok Hperm.
  assert (chars_ok L') as Hok'.
  { intros s j c Hs. apply Hok. by rewrite Hperm. }
  destruct (radix_sort_sorts L Hok) as (out & -> & Hp & Hs).
  destruct (radix_sort_sorts L' Hok') as (out' & -> & Hp' & Hs').
  f_equal. apply (StronglySorted_unique String.le); [done..|].
  by rewrite Hp, Hp', Hperm.
Qed.

(** *** Past the last bucket *)

(** A character with code 255 at position [i] of some string has no
    bucket: distributing raises [IndexError]. *)
Lemma distribute_out_of_range i L : forall done_bucket buckets,
  length buckets = 255 ->
  (exists s c, s ∈ L /\ String.get i s = Some c /\ 255 <= ord c) ->
  distribute i L done_bucket buckets = Raise IndexError.
Proof.
  induction L as [|s L IH]; intros done_bucket buckets Hlen (t & c & Ht & Hc & Hord).
  - by apply elem_of_nil in Ht.
  - simpl. destruct (String.get i s) as [c'|] eqn:Hget.
    + destruct (buckets !! ord c') as [b|] eqn:Hb; [|done].
      apply IH; [by rewrite length_insert|].
      apply elem_of_cons in Ht as [->|Ht]; [|by exists t, c].
      rewrite Hget in Hc. injection Hc as ->.
      apply lookup_lt_Some in Hb. lia.
    + apply IH; [done|].
      apply elem_of_cons in Ht as [->|Ht]; [congruence|by exists t, c].
Qed.

(** So the sort of two or more names raises when one of them starts with
    the character of code 255. *)
Lemma radix_sort_out_of_range L :
  2 <= length L ->
  (exists s c, s ∈ L /\ String.get 0 s = Some c /\ 255 <= ord c) ->
  _radix_sort L = Raise IndexError.
Proof.
  intros Hlen Hbad. unfold _radix_sort. rewrite radix_sort_fuel_eq.
  destruct (length L <=? 1)%nat eqn:Hle; [apply Nat.leb_le in Hle; lia|].
  rewrite distribute_out_of_range; [done| |done].
  by rewrite length_replicate.
Qed.

Example radix_sort_raises :
  _radix_sort ["a"; String (ascii_of_nat 255) ""] = Raise IndexError.
Proof. reflexivity. Qed.
End RadixSortFacts.

(** ** Listings of the filesystem backend *)

Module ListingFacts.
Import RadixSortSpec RadixSortFacts.

(** *** The enumeration does not depend on the order of the filesystem *)

Lemma existsb_perm {A} (f : A -> bool) (l l' : list A) :
  l ≡ₚ l' -> existsb f l = existsb f l'.
Proof.
  induction 1 as [|x l l' _ IH|x y l|l l' l'' _ IH1 _ IH2]; simpl.
  - done.
  - by rewrite IH.
  - by destruct (f x), (f y).
  - congruence.
Qed.

Lemma filter_perm {A} (f : A -> bool) (l l' : list A) :
  l ≡ₚ l' -> List.filter f l ≡ₚ List.filter f l'.
Proof.
  induction 1 as [|x l l' _ IH|x y l|l l' l'' _ IH1 _ IH2]; simpl.
  - done.
  - destruct (f x); by rewrite IH.
  - destruct (f x), (f y); try done. apply perm_swap.
  - by rewrite IH1.
Qed.

Lemma remove_dups_perm {A} `{EqDecision A} (l l' : list A) :
  l ≡ₚ l' -> remove_dups l ≡ₚ remove_dups l'.
Proof.
  intros H. apply NoDup_Permutation; [apply NoDup_remove_dups..|].
  intros x. by rewrite !elem_of_remove_dups, H.
Qed.

Lemma flat_map_pointwise {A B} (f g : A -> list B) (l : list A) :
  (forall x, x ∈ l -> f x ≡ₚ g x) -> flat_map f l ≡ₚ flat_map g l.
Proof.
  induction l as [|x l IH]; intros H; simpl; [done|].
  rewrite (H x) by (by left). rewrite IH; [done|].
  intros y Hy. apply H. by right.
Qed.

Lemma flat_map_map {A B C} (f : B -> list C) (g : A -> B) (l : list A) :
  flat_map f (map g l) = flat_map (fun x => f (g x)) l.
Proof. induction l as [|x l IH]; simpl; [done|]. by rewrite IH. Qed.

Lemma isfile_perm fs fs' p : fs ≡ₚ fs' -> OS.isfile fs p = OS.isfile fs' p.
Proof. apply existsb_perm. Qed.

Lemma isdir_perm fs fs' d : fs ≡ₚ fs' -> OS.isdir fs d = OS.isdir fs' d.
Proof. apply existsb_perm. Qed.

Lemma listdir_perm fs fs' d : fs ≡ₚ fs' -> OS.listdir fs d ≡ₚ OS.listdir fs' d.
Proof. intros H. unfold OS.listdir. apply remove_dups_perm. by rewrite H. Qed.

Lemma glob_star_perm fs fs' p :
  fs ≡ₚ fs' -> OS.glob_star fs p ≡ₚ OS.glob_star fs' p.
Proof.
  intros H. unfold OS.glob_star. destruct (OS.split p) as [dirname base].
  apply Permutation_map, filter_perm. by apply listdir_perm.
Qed.

Lemma files_in_perm fs fs' root :
  fs ≡ₚ fs' -> OS.files_in fs root ≡ₚ OS.files_in fs' root.
Proof. intros H. unfold OS.files_in. by rewrite H. Qed.

Lemma walk_roots_perm fs fs' top :
  fs ≡ₚ fs' -> OS.walk_roots fs top ≡ₚ OS.walk_roots fs' top.
Proof.
  intros H. unfold OS.walk_roots. apply perm_skip, remove_dups_perm.
  by apply Permutation_flat_map.
Qed.

Lemma list_filenames_perm p fs fs' prefix flat :
  fs ≡ₚ fs' ->
  FileInterface.list_filenames p fs prefix flat
    ≡ₚ FileInterface.list_filenames p fs' prefix flat.
Proof.
  intros H. unfold FileInterface.list_filenames. destruct flat.
  - rewrite (glob_star_perm fs fs') by done.
    apply flat_map_pointwise. intros x _.
    by rewrite (isfile_perm fs fs').
  - unfold OS.walk. rewrite <-(isdir_perm fs fs') by done.
    destruct (OS.isdir fs _); [|done].
    rewrite !flat_map_map.
    rewrite (walk_roots_perm fs fs') by done.
    apply flat_map_pointwise. intros root _.
    apply filter_perm, Permutation_map, Permutation_map.
    by apply files_in_perm.
Qed.
End ListingFacts.

(** C4, as amended.  On the filesystem backend, when every character of
    the listed names has a bucket (a code below 255), [list_files] returns
    the lexicographically sorted permutation of the enumerated names with
    their [.gz] suffix stripped, and the same sequence whatever the order
    in which the filesystem enumerates its files. *)
Theorem file_list_files_sorted (p : BucketPath) (prefix : string) (flat : bool)
    (fs : filesystem) :
  RadixSortSpec.chars_ok
    (map FileInterface.stripgz (FileInterface.list_filenames p fs prefix flat)) ->
  exists out,
    FileInterface.list_files p prefix flat fs = (Ok out, fs) /\
    out ≡ₚ map FileInterface.stripgz (FileInterface.list_filenames p fs prefix flat) /\
    StronglySorted String.le out /\
    forall fs', fs' ≡ₚ fs ->
                FileInterface.list_files p prefix flat fs' = (Ok out, fs').
Proof.
  intros Hok. unfold FileInterface.list_files.
  destruct (RadixSortFacts.radix_sort_sorts _ Hok) as (out & Hout & Hperm & Hsorted).
  exists out. rewrite Hout. repeat split; try done.
  intros fs' Hfs. do 2 f_equal. rewrite <-Hout. symmetry.
  apply RadixSortFacts.radix_sort_perm; [done|].
  apply Permutation_map. symmetry. by apply ListingFacts.list_filenames_perm.
Qed.

Lemma chars_okb_spec L : chars_okb L = true -> RadixSortSpec.chars_ok L.
Proof.
  unfold chars_okb. rewrite forallb_forall. intros H s j c Hs Hget.
  specialize (H s (proj1 (list_elem_of_In _ _) Hs)).
  rewrite forallb_forall in H.
  assert (In c (list_ascii_of_string s)) as Hin.
  { clear H Hs. revert j Hget. induction s as [|a s IH]; intros j Hget; [done|].
    destruct j as [|j]; simpl in *; [left; congruence|right; by eapply IH]. }
  apply H in Hin. by apply Nat.ltb_lt in Hin.
Qed.

Lemma file_list_files_sorted_witness :
  exists out,
    FileInterface.list_files tmp_layer "" false sibling_files = (Ok out, sibling_files) /\
    out ≡ₚ map FileInterface.stripgz
             (FileInterface.list_filenames tmp_layer sibling_files "" false) /\
    StronglySorted String.le out /\
    forall fs', fs' ≡ₚ sibling_files ->
                FileInterface.list_files tmp_layer "" false fs' = (Ok out, fs').
Proof.
  apply file_list_files_sorted. apply chars_okb_spec. vm_compute. reflexivity.
Defined.

(** C4, as stated, fails on the cloud stores: a bucket that the service
    enumerates with [b] before [a] is listed in that order, which is not the
    lexicographic one, and the same objects enumerated the other way round
    are listed differently. *)
Lemma cloud_list_files_unsorted :
  fst (S3Interface.list_files no_fault 999 cloud_layer "" false unordered_bucket)
    = Ok ["b"; "a"] /\
  fst (GoogleCloudStorageInterface.list_files no_fault cloud_layer "" false
         unordered_bucket) = Ok ["b"; "a"] /\
  ~ StronglySorted String.le ["b"; "a"] /\
  fst (S3Interface.list_files no_fault 999 cloud_layer "" false (rev unordered_bucket))
    = Ok ["a"; "b"].
Proof.
  repeat split; try (vm_compute; reflexivity).
  intros H. apply StronglySorted_cons in H as [H _].
  apply Forall_cons in H as [H _]. vm_compute in H. done.
Qed.

Module ListingExamples.
Import RadixSortSpec RadixSortFacts ListingFacts.

(** A listing is the same for every enumeration order of the filesystem. *)
Lemma list_files_perm p prefix flat fs fs' :
  chars_ok (map FileInterface.stripgz (FileInterface.list_filenames p fs prefix flat)) ->
  fs' ≡ₚ fs ->
  fst (FileInterface.list_files p prefix flat fs')
    = fst (FileInterface.list_files p prefix flat fs).
Proof.
  intros Hok Hfs. unfold FileInterface.list_files. simpl. f_equal. symmetry.
  apply radix_sort_perm; [done|].
  apply Permutation_map. symmetry. by apply list_filenames_perm.
Qed.

Lemma list_files_state p prefix flat fs :
  snd (FileInterface.list_files p prefix flat fs) = fs.
Proof. done. Qed.

(** The six orders of three elements. *)
Lemma perm3 {A} (l : list A) (x y z : A) :
  l ≡ₚ [x; y; z] ->
  l = [x; y; z] \/ l = [y; x; z] \/ l = [y; z; x] \/
  l = [x; z; y] \/ l = [z; x; y] \/ l = [z; y; x].
Proof.
  intros H. symmetry in H. apply permutations_Permutation in H.
  cbn in H. set_solver.
Qed.
End ListingExamples.

(** C6, as amended.  With exactly the objects [a/b/c], [a/b/d] and [a/e]
    below the layer, in any enumeration order, the flat listing of [a/]
    yields the single entry [a/e] (the directory [a/b] gives no entry), and
    the recursive listing yields the three paths [a/b/c], [a/b/d], [a/e];
    on the filesystem as a sorted sequence, on the Google store in the
    order of the service. *)
Theorem flat_and_recursive_listing (c1 c2 c3 : bytes)
    (fs : filesystem) (bk : bucket_state) :
  fs ≡ₚ abc_files c1 c2 c3 ->
  bk ≡ₚ abc_blobs c1 c2 c3 ->
  FileInterface.list_files tmp_layer "a/" true fs = (Ok ["a/e"], fs) /\
  FileInterface.list_files tmp_layer "a/" false fs
    = (Ok ["a/b/c"; "a/b/d"; "a/e"], fs) /\
  GoogleCloudStorageInterface.list_files no_fault cloud_layer "a/" true bk
    = (Ok ["a/e"], bk) /\
  exists out,
    GoogleCloudStorageInterface.list_files no_fault cloud_layer "a/" false bk
      = (Ok out, bk) /\
    out ≡ₚ ["a/b/c"; "a/b/d"; "a/e"].
Proof.
  intros Hfs Hbk. split; [|split].
  - apply injective_projections; [|done].
    rewrite (ListingExamples.list_files_perm _ _ _ (abc_files c1 c2 c3));
      [done| |done].
    apply chars_okb_spec. done.
  - apply injective_projections; [|done].
    rewrite (ListingExamples.list_files_perm _ _ _ (abc_files c1 c2 c3));
      [done| |done].
    apply chars_okb_spec. done.
  - apply ListingExamples.perm3 in Hbk.
    destruct Hbk as [->|[->|[->|[->|[->| ->]]]]];
      (split; [done|]); eexists; (split; [reflexivity|]);
      apply (proj1 (permutations_Permutation _ _)); cbn; set_solver.
Qed.

Lemma flat_and_recursive_listing_witness :
  FileInterface.list_files tmp_layer "a/" true
    (rev (abc_files (bytes_of "1") (bytes_of "2") (bytes_of "3")))
    = (Ok ["a/e"], rev (abc_files (bytes_of "1") (bytes_of "2") (bytes_of "3"))) /\
  FileInterface.list_files tmp_layer "a/" false
    (rev (abc_files (bytes_of "1") (bytes_of "2") (bytes_of "3")))
    = (Ok ["a/b/c"; "a/b/d"; "a/e"],
       rev (abc_files (bytes_of "1") (bytes_of "2") (bytes_of "3"))).
Proof.
  destruct (flat_and_recursive_listing (bytes_of "1") (bytes_of "2") (bytes_of "3")
              (rev (abc_files (bytes_of "1") (bytes_of "2") (bytes_of "3")))
              (rev (abc_blobs (bytes_of "1") (bytes_of "2") (bytes_of "3"))))
    as (H1 & H2 & _).
  - by rewrite <-Permutation_rev.
  - by rewrite <-Permutation_rev.
  - by split.
Defined.

(** C6, as stated, fails: the flat listing of [a/] has one entry, [a/e],
    and none that stands for the directory [a/b], on the filesystem and on
    the Google store alike. *)
Lemma flat_listing_omits_directories :
  fst (FileInterface.list_files tmp_layer "a/" true (abc_files [] [] []))
    = Ok ["a/e"] /\
  fst (GoogleCloudStorageInterface.list_files no_fault cloud_layer "a/" true
         (abc_blobs [] [] [])) = Ok ["a/e"] /\
  ("a/b/" ∉ ["a/e"]) /\ ("a/b" ∉ ["a/e"]).
Proof.
  repeat split; try (vm_compute; reflexivity); set_solver.
Qed.

(** ** The filesystem *)

Module OSFacts.

Lemma length_append (s t : string) :
  String.length (s ++ t) = String.length s + String.length t.
Proof. induction s as [|a s IH]; simpl; [done|]. by rewrite IH. Qed.

Lemma append_neq (s t : string) : t <> "" -> (s ++ t)%string <> s.
Proof.
  intros Ht H. apply (f_equal String.length) in H.
  rewrite length_append in H.
  destruct t; [done|]. simpl in H. lia.
Qed.

Lemma eqb_append_false (s t : string) : t <> "" -> ((s ++ t)%string =? s) = false.
Proof. intros Ht. apply String.eqb_neq. by apply append_neq. Qed.

Lemma isfile_read fs p : OS.isfile fs p = bool_decide (is_Some (OS.read fs p)).
Proof.
  unfold OS.isfile, OS.read.
  induction fs as [|[q d] fs IH]; simpl; [done|].
  destruct (q =? p); simpl; [done|apply IH].
Qed.

Lemma read_store fs p d : OS.read (OS.store fs p d) p = Some d.
Proof.
  unfold OS.read. induction fs as [|[q d'] fs IH]; simpl.
  - by rewrite String.eqb_refl.
  - destruct (q =? p) eqn:E; simpl; [by rewrite E|by rewrite E].
Qed.

Lemma read_store_ne fs p q d : q <> p -> OS.read (OS.store fs p d) q = OS.read fs q.
Proof.
  intros Hne. unfold OS.read. induction fs as [|[r d'] fs IH]; simpl.
  - apply String.eqb_neq in Hne. rewrite String.eqb_sym in Hne. by rewrite Hne.
  - destruct (r =? p) eqn:E; simpl.
    + apply String.eqb_eq in E as ->.
      apply String.eqb_neq in Hne. rewrite String.eqb_sym in Hne. by rewrite Hne.
    + destruct (r =? q); [done|]. apply IH.
Qed.

Lemma isfile_store fs p q d :
  OS.isfile (OS.store fs p d) q = OS.isfile fs q || (q =? p).
Proof.
  rewrite !isfile_read. destruct (decide (q = p)) as [->|Hne].
  - rewrite read_store, String.eqb_refl, orb_true_r.
    apply bool_decide_eq_true. by eexists.
  - rewrite read_store_ne by done.
    apply String.eqb_neq in Hne. by rewrite Hne, orb_false_r.
Qed.

Lemma isdir_store fs p d dir :
  OS.isdir (OS.store fs p d) dir
  = OS.isdir fs dir || bool_decide (is_Some (OS.below dir p)).
Proof.
  unfold OS.isdir. induction fs as [|[q d'] fs IH]; simpl.
  - by rewrite orb_false_r.
  - destruct (q =? p) eqn:E; simpl.
    + apply String.eqb_eq in E as ->.
      by destruct (bool_decide _), (existsb _ fs).
    + rewrite IH. by rewrite orb_assoc.
Qed.

Lemma read_remove_ne fs p q :
  q <> p -> OS.read (List.filter (fun e => negb (fst e =? p)) fs) q = OS.read fs q.
Proof.
  intros Hne. unfold OS.read. induction fs as [|[r d] fs IH]; simpl; [done|].
  destruct (r =? p) eqn:E; simpl.
  - apply String.eqb_eq in E as ->.
    apply not_eq_sym, String.eqb_neq in Hne. by rewrite Hne.
  - destruct (r =? q); [done|]. apply IH.
Qed.

Lemma read_remove fs p :
  OS.read (List.filter (fun e => negb (fst e =? p)) fs) p = None.
Proof.
  unfold OS.read. induction fs as [|[r d] fs IH]; simpl; [done|].
  destruct (r =? p) eqn:E; simpl; [done|]. by rewrite E.
Qed.

(** Below-ness is a matter of length too: nothing lies below a longer
    name. *)
Lemma strip_prefix_length p s r :
  strip_prefix p s = Some r -> String.length s = String.length p + String.length r.
Proof.
  revert s. induction p as [|a p IH]; intros s H; simpl in *.
  - by injection H as ->.
  - destruct s as [|b s]; [done|]. destruct (Ascii.eqb a b); [|done].
    simpl. by rewrite (IH s H).
Qed.

Lemma dir_prefix_length d : String.length d <= String.length (OS.dir_prefix d).
Proof.
  unfold OS.dir_prefix, join2. simpl.
  destruct ((d =? "") || endswith_sep d); rewrite ?length_append; simpl; lia.
Qed.

Lemma below_length d q r :
  OS.below d q = Some r -> String.length d < String.length q.
Proof.
  unfold OS.below. destruct (strip_prefix _ q) as [r'|] eqn:E; [|done].
  apply strip_prefix_length in E. pose proof (dir_prefix_length d).
  destruct r'; [done|]. simpl in E. lia.
Qed.

Lemma not_below_shorter d q :
  String.length q <= String.length d -> OS.below d q = None.
Proof.
  intros H. destruct (OS.below d q) eqn:E; [|done].
  apply below_length in E. lia.
Qed.
End OSFacts.

(** C10.  On the filesystem backend, when [name] and [name.gz] are both
    regular files, [delete_file name] removes the uncompressed file only:
    [name.gz] is still there with its content, and [exists name] returns
    true right after. *)
Theorem delete_keeps_compressed_sibling (p : BucketPath) (name : string)
    (fs : filesystem) :
  let path := FileInterface.get_path_to_file p name in
  OS.isfile fs path = true ->
  OS.isfile fs (path ++ ".gz") = true ->
  exists fs',
    FileInterface.delete_file p name fs = (Ok tt, fs') /\
    OS.isfile fs' path = false /\
    OS.isfile fs' (path ++ ".gz") = true /\
    OS.read fs' (path ++ ".gz") = OS.read fs (path ++ ".gz") /\
    FileInterface.exists_ p name fs' = (Ok true, fs').
Proof.
  intros path Hfile Hgz.
  exists (List.filter (fun e => negb (fst e =? path)) fs).
  assert (OS.read (List.filter (fun e => negb (fst e =? path)) fs) (path ++ ".gz")
          = OS.read fs (path ++ ".gz")) as Hread.
  { apply OSFacts.read_remove_ne. by apply OSFacts.append_neq. }
  assert (OS.isfile (List.filter (fun e => negb (fst e =? path)) fs) (path ++ ".gz")
          = true) as Hgz'.
  { by rewrite OSFacts.isfile_read, Hread, <-OSFacts.isfile_read. }
  repeat split; try done.
  - unfold FileInterface.delete_file, OS.exists_, OS.remove. fold path.
    by rewrite Hfile.
  - by rewrite OSFacts.isfile_read, OSFacts.read_remove.
  - unfold FileInterface.exists_, OS.exists_. fold path.
    rewrite Hgz'. by rewrite orb_true_r.
Qed.

Lemma delete_keeps_compressed_sibling_witness :
  exists fs',
    FileInterface.delete_file tmp_layer "x" sibling_files = (Ok tt, fs') /\
    OS.isfile fs' "/tmp/layer/x" = false /\
    OS.isfile fs' "/tmp/layer/x.gz" = true /\
    OS.read fs' "/tmp/layer/x.gz" = OS.read sibling_files "/tmp/layer/x.gz" /\
    FileInterface.exists_ tmp_layer "x" fs' = (Ok true, fs').
Proof.
  apply (delete_keeps_compressed_sibling tmp_layer "x" sibling_files); reflexivity.
Defined.

(** ** Calls that succeed or fail at once *)

Module RetryUse.
Section RetryUse.
Context {W A : Type}.
Variable retry_if : exn -> bool.
Variable f : M W A.

Lemma retry_ok w a w' : f w = (Ok a, w') -> retry retry_if f w = (Ok a, w').
Proof.
  intros H. unfold retry, Retry.retry, Retry.run. simpl. by rewrite H.
Qed.

Lemma retry_refused w e w' :
  f w = (Raise e, w') -> retry_if e = false -> retry retry_if f w = (Raise e, w').
Proof.
  intros H He. unfold retry, Retry.retry, Retry.run. simpl. by rewrite H, He.
Qed.

(** A call that fails in every state never returns. *)
Lemma call_never_ok :
  (forall w, is_ok (fst (f w)) = false) ->
  forall remaining n w, is_ok (fst (fst (Retry.call retry_if f remaining n w))) = false.
Proof.
  intros Hf. induction remaining as [|r IH]; intros n w; simpl;
    pose proof (Hf w) as Hw; destruct (f w) as [[[a|e]|] w']; try done;
    destruct (retry_if e); simpl; try done; apply IH.
Qed.

Lemma retry_never_ok w :
  (forall w, is_ok (fst (f w)) = false) -> is_ok (fst (retry retry_if f w)) = false.
Proof.
  intros Hf. unfold retry, Retry.retry, Retry.run.
  pose proof (call_never_ok Hf (MAX_RETRIES - 1) 1 w) as H.
  by destruct (Retry.call _ _ _ _ _) as [[r w'] n].
Qed.

(** *** Under the bare decorator *)

Lemma retry_bare_ok patience w a w' :
  f w = (Ok a, w') -> retry_bare patience f w = (Ok a, w').
Proof.
  intros H. unfold retry_bare, Retry.retry_bare.
  destruct patience; simpl; by rewrite H.
Qed.

(** An attempt that fails and leaves the state as it was fails again:
    the call does not return. *)
Lemma retry_bare_stuck w e :
  f w = (Raise e, w) -> forall patience, retry_bare patience f w = (Diverge, w).
Proof.
  intros H patience. unfold retry_bare, Retry.retry_bare. generalize 1.
  induction patience as [|k IH]; intros n; simpl; rewrite H; [done|apply IH].
Qed.

(** The bare decorator raises nothing. *)
Lemma retry_bare_no_raise patience w e w' :
  retry_bare patience f w <> (Done (Raise e), w').
Proof.
  unfold retry_bare, Retry.retry_bare. intros H.
  pose proof (RetryFacts.call_bare_no_raise f patience 1 w e) as Hno.
  destruct (Retry.call_bare f patience 1 w) as [[r w1] n]. simpl in *.
  injection H as -> _. done.
Qed.

(** When a failing attempt changes nothing, the call is its first attempt,
    or does not return. *)
Lemma retry_bare_cases patience w :
  (forall e w', f w = (Raise e, w') -> w' = w) ->
  retry_bare patience f w
  = match f w with
    | (Done (Ok a), w') => (Done (Ok a), w')
    | (_, w') => (Diverge, w')
    end.
Proof.
  intros Hpure. destruct (f w) as [[[a|e]|] w'] eqn:E.
  - by apply retry_bare_ok.
  - rewrite (Hpure e w' eq_refl) in *. by apply retry_bare_stuck with e.
  - unfold retry_bare, Retry.retry_bare. destruct patience; simpl; by rewrite E.
Qed.
End RetryUse.
End RetryUse.

(** C3 at the failing input.  The reads, writes and deletes of the two
    cloud stores are under the bare [@retry], which has neither the seven
    attempts nor the re-raising that [retry] was given.  A call that fails
    ten times and then answers returns that answer, from its eleventh
    attempt, where under [@retry(retry=...)] it raises the seventh
    failure.  A read, a write and a delete that S3 refuses have not
    returned after any number of attempts, and have made that number of
    them; likewise on the Google store; and no call under the bare
    decorator raises an exception. *)
Theorem bare_retry_keeps_no_budget :
  (forall k,
      retry_bare (10 + k) (flaky 10) 0 = (Ok "content", 11) /\
      Retry.attempts_bare (flaky 10) (10 + k) 0 = 11) /\
  retry retry_if_server_error (flaky 10) 0
    = (Raise (HTTPException HTTPServerError 503), 7) /\
  (forall patience cdc bk,
      let denied := ClientError "AccessDenied" in
      S3Interface.get_file cdc (refusing "get_object" denied) patience cloud_layer
        "a/e" bk = (Diverge, bk) /\
      S3Interface.put_file (refusing "put_object" denied) patience cloud_layer
        "a/e" [] None None None bk = (Diverge, bk) /\
      S3Interface.delete_file (refusing "delete_object" denied) patience cloud_layer
        "a/e" bk = (Diverge, bk) /\
      Retry.attempts_bare
        (S3Interface.delete_file_attempt (refusing "delete_object" denied)
           cloud_layer "a/e") patience bk = S patience) /\
  (forall patience cdc bk,
      let unavailable := HTTPException HTTPServerError 503 in
      GoogleCloudStorageInterface.get_file cdc (refusing "get_blob" unavailable)
        patience cloud_layer "a/e" bk = (Diverge, bk) /\
      GoogleCloudStorageInterface.put_file (refusing "upload" unavailable)
        patience cloud_layer "a/e" [] None None None bk = (Diverge, bk) /\
      GoogleCloudStorageInterface.delete_file (refusing "delete_blob" unavailable)
        patience cloud_layer "a/e" bk = (Diverge, bk)) /\
  (forall (W A : Type) patience (f : M W A) w e w',
      retry_bare patience f w <> (Done (Raise e), w')).
Proof.
  split; [|split; [|split; [|split]]].
  - intros k. unfold retry_bare, Retry.retry_bare, Retry.attempts_bare.
    rewrite (RetryFacts.call_bare_returns (flaky 10) 10 (10 + k) 1 0 "content");
      [done|lia| |done].
    intros j Hj. exists (HTTPException HTTPServerError 503).
    do 10 (destruct j as [|j]; [reflexivity|]). lia.
  - reflexivity.
  - intros patience cdc bk denied. split; [|split; [|split]].
    + by apply RetryUse.retry_bare_stuck with denied.
    + by apply RetryUse.retry_bare_stuck with denied.
    + by apply RetryUse.retry_bare_stuck with denied.
    + unfold Retry.attempts_bare.
      destruct (RetryFacts.call_bare_diverges
                  (S3Interface.delete_file_attempt (refusing "delete_object" denied)
                     cloud_layer "a/e") patience 1 bk) as [_ ->]; [|done].
      intros j _. exists denied. unfold Retry.outcome.
      replace (Retry.after _ j bk) with bk; [done|].
      induction j as [|j IH]; [done|]. simpl. exact IH.
  - intros patience cdc bk unavailable. split; [|split].
    + by apply RetryUse.retry_bare_stuck with unavailable.
    + by apply RetryUse.retry_bare_stuck with unavailable.
    + by apply RetryUse.retry_bare_stuck with unavailable.
  - intros W A patience f w e w'. apply RetryUse.retry_bare_no_raise.
Qed.

(** ** Writing and reading back *)

Module RoundTripFacts.

Lemma compress_cases cdc C method C' :
  compress cdc C method = Ok C' ->
  (truthy method = false /\ C' = C) \/
  (truthy method = true /\ method = Some "gzip" /\ C' = gzip_compress cdc C).
Proof.
  unfold compress, truthy. destruct method as [m|]; [|intros [= <-]; by left].
  destruct (m =? "") eqn:E; [intros [= <-]; by left|].
  destruct (m =? "gzip") eqn:E'; [|done].
  apply String.eqb_eq in E' as ->. intros [= <-]. by right.
Qed.

(** A successful [put_file] of the filesystem backend has stored the
    content under the path, with [.gz] appended for a compressed write. *)
Lemma file_put_file_ok p P C' ct method fs fs' :
  FileInterface.put_file p P C' ct method fs = (Ok tt, fs') ->
  let path := FileInterface.get_path_to_file p P in
  let target := if truthy method then (path ++ ".gz")%string else path in
  fs' = OS.store fs target C'.
Proof.
  intros H path target.
  unfold FileInterface.put_file, bind, try_except, OS.mkdir, OS.open_write in H.
  fold path in H. fold target in H.
  destruct (OS.blocked fs (os_path_dirname path)); [done|]. simpl in H.
  destruct (OS.isdir fs target || OS.blocked fs target || (target =? "")
            || endswith_sep target) eqn:G; simpl in H.
  - by rewrite G in H.
  - by injection H as <-.
Qed.

Lemma file_get_after_put cdc p P C fs target enc :
  let path := FileInterface.get_path_to_file p P in
  let fs' := OS.store fs target (match enc with
                                 | Some _ => gzip_compress cdc C
                                 | None => C
                                 end) in
  codec_round_trip cdc ->
  (enc = Some "gzip" /\ target = (path ++ ".gz")%string) \/
  (enc = None /\ target = path /\ OS.exists_ fs (path ++ ".gz") = false) ->
  FileInterface.get_file cdc p P fs' = (Ok (Some C), fs').
Proof.
  intros path fs' Hcdc Hcase.
  unfold FileInterface.get_file. fold path.
  destruct Hcase as [[-> ->]|(-> & -> & Hstale)]; subst fs'.
  - assert (OS.exists_ (OS.store fs (path ++ ".gz") (gzip_compress cdc C))
              (path ++ ".gz") = true) as ->.
    { unfold OS.exists_. by rewrite OSFacts.isfile_store, String.eqb_refl, orb_true_r. }
    unfold try_except, bind, OS.open_read.
    rewrite OSFacts.read_store. simpl. by rewrite Hcdc.
  - assert (OS.exists_ (OS.store fs path C) (path ++ ".gz") = false) as ->.
    { unfold OS.exists_.
      rewrite OSFacts.isfile_store, OSFacts.isdir_store.
      unfold OS.exists_ in Hstale. apply orb_false_iff in Hstale as [-> ->].
      rewrite OSFacts.eqb_append_false by done.
      by rewrite OSFacts.not_below_shorter
        by (rewrite OSFacts.length_append; simpl; lia). }
    unfold try_except, bind, OS.open_read.
    by rewrite OSFacts.read_store.
Qed.

Lemma bucket_lookup_store bk key o :
  bucket_lookup (bucket_store bk key o) key = Some o.
Proof.
  unfold bucket_lookup. induction bk as [|[k o'] bk IH]; simpl.
  - by rewrite String.eqb_refl.
  - destruct (k =? key) eqn:E; simpl; by rewrite E.
Qed.
End RoundTripFacts.

Module StoreRoundTrip.
Import RoundTripFacts.

(** What [SimpleStorage.put_file] hands to the interface. *)
Lemma simple_put_file_ok {W} cdc (iface : Interface W) P C ct method cc w w' :
  SimpleStorage.put_file cdc iface P C ct method cc w = (Ok tt, w') ->
  exists C', compress cdc C method = Ok C' /\
             i_put_file iface P C' ct method cc w = (Ok tt, w').
Proof.
  unfold SimpleStorage.put_file, SimpleStorage.put_files, bind, ret.
  destruct (compress cdc C method) as [C'|e]; [|done].
  intros H. exists C'. split; [done|].
  destruct (i_put_file iface P C' ct method cc w) as [[[[]|e]|] w'']; [|done|done].
  by injection H as <-.
Qed.

Lemma decompress_stored cdc C method C' :
  codec_round_trip cdc ->
  compress cdc C method = Ok C' ->
  decompress cdc C' (if truthy method then Some "gzip" else None) = Ok C.
Proof.
  intros Hcdc [[-> ->]|(-> & -> & ->)]%compress_cases; [done|].
  simpl. apply Hcdc.
Qed.

Lemma s3_round_trip cdc fault patience p P C' C ct method cc bk bk' :
  codec_round_trip cdc ->
  compress cdc C method = Ok C' ->
  S3Interface.put_file fault patience p P C' ct method cc bk = (Ok tt, bk') ->
  fault "get_object" (S3Interface.get_path_to_file p P) = None ->
  S3Interface.get_file cdc fault patience p P bk' = (Ok (Some C), bk').
Proof.
  intros Hcdc Hc Hput Hget.
  unfold S3Interface.put_file, S3Interface.put_file_attempt, S3Interface.call in Hput.
  destruct (fault "put_object" _) as [e|].
  { by rewrite (RetryUse.retry_bare_stuck (raise e) bk e eq_refl) in Hput. }
  erewrite RetryUse.retry_bare_ok in Hput by reflexivity.
  injection Hput as <-.
  unfold S3Interface.get_file. apply RetryUse.retry_bare_ok.
  unfold S3Interface.get_file_attempt.
  unfold try_except, bind, S3Interface.get_object, S3Interface.call.
  rewrite Hget, bucket_lookup_store. simpl.
  pose proof (decompress_stored cdc C method C' Hcdc Hc) as Hd.
  destruct (truthy method); simpl in *; [by rewrite Hd|by injection Hd as ->].
Qed.

Lemma gcs_round_trip cdc fault patience p P C' C ct method cc bk bk' :
  codec_round_trip cdc ->
  compress cdc C method = Ok C' ->
  GoogleCloudStorageInterface.put_file fault patience p P C' ct method cc bk
    = (Ok tt, bk') ->
  fault "get_blob" (GoogleCloudStorageInterface.get_path_to_file p P) = None ->
  fault "download" (GoogleCloudStorageInterface.get_path_to_file p P) = None ->
  GoogleCloudStorageInterface.get_file cdc fault patience p P bk' = (Ok (Some C), bk').
Proof.
  intros Hcdc Hc Hput Hget Hdl.
  unfold GoogleCloudStorageInterface.put_file,
    GoogleCloudStorageInterface.put_file_attempt,
    GoogleCloudStorageInterface.call in Hput.
  destruct (fault "upload" _) as [e|].
  { by rewrite (RetryUse.retry_bare_stuck (raise e) bk e eq_refl) in Hput. }
  erewrite RetryUse.retry_bare_ok in Hput by reflexivity.
  injection Hput as <-.
  unfold GoogleCloudStorageInterface.get_file. apply RetryUse.retry_bare_ok.
  unfold GoogleCloudStorageInterface.get_file_attempt.
  unfold bind, GoogleCloudStorageInterface.call.
  rewrite Hget, Hdl, bucket_lookup_store.
  unfold GoogleCloudStorageInterface.download_as_string. simpl.
  by rewrite (decompress_stored cdc C method C' Hcdc Hc).
Qed.
End StoreRoundTrip.

(** C7, as amended.  With a codec that undoes its own compression, and for
    a write with or without compression: on the filesystem backend a
    successful [put] followed by [get] returns the content, provided the
    write is compressed or no compressed sibling [P.gz] was there before;
    on the S3 and Google stores it does, provided the service does not
    refuse the read; on the HTTP backend [put] never succeeds. *)
Theorem put_then_get (env : Env) (p : BucketPath) (P : string) (C : bytes)
    (ct method cc : option string) :
  codec_round_trip (env_codec env) ->
  (forall fs fs',
      SimpleStorage.put_file (env_codec env) (file_interface env p) P C ct method cc fs
        = (Ok tt, fs') ->
      truthy method = true \/
        OS.exists_ fs (FileInterface.get_path_to_file p P ++ ".gz") = false ->
      SimpleStorage.get_file (file_interface env p) P fs' = (Ok (Some C), fs')) /\
  (forall bk bk',
      SimpleStorage.put_file (env_codec env) (s3_interface env p) P C ct method cc bk
        = (Ok tt, bk') ->
      env_s3_fault env "get_object" (S3Interface.get_path_to_file p P) = None ->
      SimpleStorage.get_file (s3_interface env p) P bk' = (Ok (Some C), bk')) /\
  (forall bk bk',
      SimpleStorage.put_file (env_codec env) (gcs_interface env p) P C ct method cc bk
        = (Ok tt, bk') ->
      env_gcs_fault env "get_blob" (GoogleCloudStorageInterface.get_path_to_file p P)
        = None ->
      env_gcs_fault env "download" (GoogleCloudStorageInterface.get_path_to_file p P)
        = None ->
      SimpleStorage.get_file (gcs_interface env p) P bk' = (Ok (Some C), bk')) /\
  (forall c,
      SimpleStorage.put_file (env_codec env) (http_interface env p) P C ct method cc c
        = (Raise NotImplementedError, c)).
Proof.
  intros Hcdc. split; [|split; [|split]].
  - intros fs fs' Hput Hcase.
    apply StoreRoundTrip.simple_put_file_ok in Hput as (C' & Hc & Hput).
    simpl in Hput. apply RoundTripFacts.file_put_file_ok in Hput.
    unfold SimpleStorage.get_file. simpl. subst fs'.
    apply RoundTripFacts.compress_cases in Hc as [[Hm ->]|(Hm & -> & ->)].
    + rewrite Hm.
      apply (RoundTripFacts.file_get_after_put (env_codec env) p P C fs _ None);
        [done|].
      right. repeat split. destruct Hcase as [Ht|Hs]; [congruence|done].
    + apply (RoundTripFacts.file_get_after_put (env_codec env) p P C fs _
               (Some "gzip")); [done|]. by left.
  - intros bk bk' Hput Hget.
    apply StoreRoundTrip.simple_put_file_ok in Hput as (C' & Hc & Hput).
    simpl in Hput. unfold SimpleStorage.get_file. simpl.
    by apply (StoreRoundTrip.s3_round_trip _ _ _ _ _ C' C ct method cc bk).
  - intros bk bk' Hput Hget Hdl.
    apply StoreRoundTrip.simple_put_file_ok in Hput as (C' & Hc & Hput).
    simpl in Hput. unfold SimpleStorage.get_file. simpl.
    by apply (StoreRoundTrip.gcs_round_trip _ _ _ _ _ C' C ct method cc bk).
  - intros c. unfold SimpleStorage.put_file, SimpleStorage.put_files.
    unfold compress. destruct method as [m|]; [|done].
    destruct (m =? ""); [done|]. by destruct (m =? "gzip").
Qed.

Lemma put_then_get_witness :
  SimpleStorage.get_file (file_interface sample_env tmp_layer) "z"
    (snd (SimpleStorage.put_file framing_codec (file_interface sample_env tmp_layer)
            "z" (bytes_of "content") None (Some "gzip") None sibling_files))
  = (Ok (Some (bytes_of "content")),
     snd (SimpleStorage.put_file framing_codec (file_interface sample_env tmp_layer)
            "z" (bytes_of "content") None (Some "gzip") None sibling_files)) /\
  SimpleStorage.get_file (s3_interface sample_env cloud_layer) "z"
    (snd (SimpleStorage.put_file framing_codec (s3_interface sample_env cloud_layer)
            "z" (bytes_of "content") None None None unordered_bucket))
  = (Ok (Some (bytes_of "content")),
     snd (SimpleStorage.put_file framing_codec (s3_interface sample_env cloud_layer)
            "z" (bytes_of "content") None None None unordered_bucket)).
Proof.
  split.
  - destruct (put_then_get sample_env tmp_layer "z" (bytes_of "content")
                None (Some "gzip") None) as (H & _).
    + intros c. reflexivity.
    + apply (H sibling_files); [reflexivity|by left].
  - destruct (put_then_get sample_env cloud_layer "z" (bytes_of "content")
                None None None) as (_ & H & _).
    + intros c. reflexivity.
    + apply (H unordered_bucket); reflexivity.
Defined.

(** C7, as stated, fails on the filesystem backend: with the compressed
    file [y.gz] stored earlier, an uncompressed write to [y] succeeds, and
    the read that follows returns the older content of [y.gz]. *)
Lemma stale_sibling_breaks_round_trip :
  fst (SimpleStorage.put_file framing_codec (file_interface sample_env tmp_layer)
         "y" (bytes_of "new") None None None sibling_files) = Ok tt /\
  fst (SimpleStorage.get_file (file_interface sample_env tmp_layer) "y"
         (snd (SimpleStorage.put_file framing_codec
                 (file_interface sample_env tmp_layer)
                 "y" (bytes_of "new") None None None sibling_files)))
    = Ok (Some (bytes_of "why")) /\
  bytes_of "why" <> bytes_of "new".
Proof. repeat split; done. Qed.

(** ** Paging through an S3 listing *)

Module S3ListingFacts.
Section S3ListingFacts.
Variable fault : string -> string -> option exn.
Variable page_size : nat.

Lemma list_objects_v2_cases prefix token bk :
  (exists e, S3Interface.list_objects_v2 fault page_size prefix token bk
             = (Raise e, bk))
  \/ exists resp,
       S3Interface.list_objects_v2 fault page_size prefix token bk = (Ok resp, bk)
       /\ S3Spec.pending prefix bk resp
          <= length (drop token
                       (List.filter (fun k => startswith k prefix) (map fst bk))).
Proof.
  unfold S3Interface.list_objects_v2, S3Interface.call.
  destruct (fault "list_objects_v2" prefix) as [e|]; [left; by exists e|].
  right. eexists. split; [reflexivity|].
  unfold S3Spec.pending. simpl.
  set (keys := List.filter _ _).
  destruct (S page_size <? length (drop token keys))%nat eqn:Hlt; [|lia].
  apply Nat.ltb_lt in Hlt. rewrite <- drop_drop.
  rewrite (length_drop (drop token keys)). lia.
Qed.

(** The loop of [list_files] ends within [pending] pages. *)
Lemma list_files_while_fuel fuel : forall layer_path prefix flat resp yielded bk,
  S3Spec.pending prefix bk resp <= fuel ->
  S3Interface.list_files_while fault page_size fuel layer_path prefix flat
    resp yielded bk <> None.
Proof.
  induction fuel as [|fuel IH]; intros layer_path prefix flat resp yielded bk Hfuel;
    unfold S3Spec.pending in Hfuel; simpl;
    destruct (IsTruncated resp); [|done| |done];
    destruct (NextContinuationToken resp) as [token|]; [|done| |done];
    [lia|].
  destruct (list_objects_v2_cases prefix token bk) as [(e & ->)|(resp' & -> & Hle)];
    [done|].
  destruct (S3Interface.iterate _ _ _ _); [|done].
  apply IH. lia.
Qed.

(** [list_files] grants as many pages as the bucket has keys, which is
    enough. *)
Lemma list_files_fuel_enough layer_path prefix flat resp l bk :
  S3Interface.list_objects_v2 fault page_size prefix 0 bk = (Ok resp, bk) ->
  S3Interface.list_files_while fault page_size (length bk) layer_path prefix flat
    resp l bk <> None.
Proof.
  intros Hpage. apply list_files_while_fuel.
  destruct (list_objects_v2_cases prefix 0 bk) as [(e & He)|(resp' & He & Hle)];
    rewrite He in Hpage; [done|]. injection Hpage as ->.
  etrans; [exact Hle|]. rewrite drop_0.
  etrans; [apply filter_length_le|]. by rewrite length_map.
Qed.
End S3ListingFacts.
End S3ListingFacts.

(** ** The HTTP backend *)

Module HttpFacts.
Section HttpFacts.
Variable server : string -> string -> response.
Variable max_streams : nat.
Variable _path : BucketPath.

Local Abbreviation key := (HttpInterface.get_path_to_file _path).
Local Abbreviation tracks := (HttpSpec.tracks max_streams _path).
Local Abbreviation get_result := (HttpSpec.get_result server _path).
Local Abbreviation exists_result := (HttpSpec.exists_result server _path).

Lemma last_snoc {A} (l : list A) (x : A) : last (l ++ [x]) = Some x.
Proof. induction l as [|y [|z l] IH]; simpl in *; done. Qed.

Lemma removelast_snoc {A} (l : list A) (x : A) : removelast (l ++ [x]) = l.
Proof. by rewrite removelast_last. Qed.

Lemma last_None {A} (l : list A) : last l = None -> l = [].
Proof. induction l as [|y [|z l] IH]; simpl in *; try done. intros H. by apply IH in H. Qed.

Lemma last_Some_snoc {A} (l : list A) (x : A) :
  last l = Some x -> l = removelast l ++ [x].
Proof.
  intros H. destruct (decide (l = [])) as [->|Hne]; [done|].
  destruct (exists_last Hne) as (l' & y & ->).
  rewrite last_snoc in H. injection H as ->. by rewrite removelast_snoc.
Qed.

(** Closing the newest stream leaves the older ones. *)
Lemma close_newest c s :
  Forall (fun r : nat * (string * string) => fst r < next_stream_id c) (streams c) ->
  List.filter (fun r : nat * (string * string) => negb (fst r =? next_stream_id c)%nat)
    (streams c ++ [(next_stream_id c, s)])
  = streams c.
Proof.
  intros Hlt. rewrite List.filter_app. simpl. rewrite Nat.eqb_refl. simpl.
  rewrite app_nil_r. induction Hlt as [|r l Hr _ IH]; simpl; [done|].
  destruct (fst r =? next_stream_id c)%nat eqn:E.
  - apply Nat.eqb_eq in E. lia.
  - simpl. by rewrite IH.
Qed.

(** One request and its response on a connection with room for a stream. *)
Lemma request_response method file_path c :
  length (streams c) < max_streams ->
  Forall (fun r : nat * (string * string) => fst r < next_stream_id c) (streams c) ->
  (let! _ := HttpInterface.conn_request max_streams method (key file_path) in
   HttpInterface.conn_get_response server None)%call c
  = (Ok (server method (key file_path)),
     {| streams := streams c; next_stream_id := next_stream_id c + 2 |}).
Proof.
  intros Hroom Hlt.
  unfold bind, HttpInterface.conn_request, HttpInterface.conn_get_response.
  destruct (max_streams <=? length (streams c))%nat eqn:E;
    [apply Nat.leb_le in E; lia|].
  simpl. rewrite last_snoc. unfold HttpInterface.close_stream. simpl.
  by rewrite close_newest.
Qed.

Lemma get_file_attempt_spec file_path c :
  length (streams c) < max_streams ->
  Forall (fun r : nat * (string * string) => fst r < next_stream_id c) (streams c) ->
  HttpInterface.get_file_attempt server max_streams _path file_path c
  = (get_result file_path,
     {| streams := streams c; next_stream_id := next_stream_id c + 2 |}).
Proof.
  intros Hroom Hlt.
  pose proof (request_response "GET" file_path c Hroom Hlt) as H.
  unfold HttpInterface.get_file_attempt, bind in *.
  destruct (HttpInterface.conn_request _ _ _ c) as [[[sid|e]|] c1]; [|done|done].
  rewrite H. unfold HttpSpec.get_result, HttpSpec.answer_error, HttpSpec.answer_class.
  by destruct (isinstance_server _ || isinstance_client _).
Qed.

Lemma exists_attempt_spec file_path c :
  length (streams c) < max_streams ->
  Forall (fun r : nat * (string * string) => fst r < next_stream_id c) (streams c) ->
  HttpInterface.exists_attempt server max_streams _path file_path c
  = (exists_result file_path,
     {| streams := streams c; next_stream_id := next_stream_id c + 2 |}).
Proof.
  intros Hroom Hlt.
  pose proof (request_response "HEAD" file_path c Hroom Hlt) as H.
  unfold HttpInterface.exists_attempt, bind in *.
  destruct (HttpInterface.conn_request _ _ _ c) as [[[sid|e]|] c1]; [|done|done].
  rewrite H. unfold HttpSpec.exists_result, HttpSpec.answer_error, HttpSpec.answer_class.
  destruct (isinstance_notfound_forbidden _); [done|].
  by destruct (isinstance_server _ || isinstance_client _).
Qed.

(** A call whose attempts all come to the same result, in states that keep
    an invariant, comes to that result under [retry]. *)
Lemma call_stable {A} (I : connection -> Prop) (retry_if : exn -> bool)
    (f : M connection A) (r : result A) :
  (forall c, I c -> exists c', f c = (r, c') /\ I c') ->
  forall remaining n c,
    I c -> exists c' n', Retry.call retry_if f remaining n c = (r, c', n') /\ I c'.
Proof.
  intros Hf. induction remaining as [|k IH]; intros n c Hc; simpl;
    destruct (Hf c Hc) as (c' & -> & Hc'); destruct r as [a|e]; simpl; eauto;
    destruct (retry_if e); simpl; eauto.
Qed.

Lemma retry_stable {A} (I : connection -> Prop) (retry_if : exn -> bool)
    (f : M connection A) (r : result A) :
  (forall c, I c -> exists c', f c = (r, c') /\ I c') ->
  forall c, I c -> exists c', retry retry_if f c = (r, c') /\ I c'.
Proof.
  intros Hf c Hc. unfold retry, Retry.retry, Retry.run.
  destruct (call_stable I retry_if f r Hf (MAX_RETRIES - 1) 1 c Hc)
    as (c' & n' & -> & Hc').
  by exists c'.
Qed.

Lemma get_file_spec file_path c :
  length (streams c) < max_streams ->
  Forall (fun r : nat * (string * string) => fst r < next_stream_id c) (streams c) ->
  exists c',
    HttpInterface.get_file server max_streams _path file_path c
      = (get_result file_path, c') /\
    HttpSpec.same_streams (streams c) (next_stream_id c) c'.
Proof.
  intros Hroom Hlt. unfold HttpInterface.get_file.
  apply (retry_stable (HttpSpec.same_streams (streams c) (next_stream_id c))); [|done].
  intros c1 [Hs Hn]. eexists. split.
  - apply get_file_attempt_spec; rewrite Hs; [done|].
    eapply Forall_impl; [done|]. simpl. intros. lia.
  - split; simpl; [done|lia].
Qed.

Lemma exists_spec file_path c :
  length (streams c) < max_streams ->
  Forall (fun r : nat * (string * string) => fst r < next_stream_id c) (streams c) ->
  exists c',
    HttpInterface.exists_ server max_streams _path file_path c
      = (exists_result file_path, c') /\
    HttpSpec.same_streams (streams c) (next_stream_id c) c'.
Proof.
  intros Hroom Hlt. unfold HttpInterface.exists_.
  apply (retry_stable (HttpSpec.same_streams (streams c) (next_stream_id c))); [|done].
  intros c1 [Hs Hn]. eexists. split.
  - apply exists_attempt_spec; rewrite Hs; [done|].
    eapply Forall_impl; [done|]. simpl. intros. lia.
  - split; simpl; [done|lia].
Qed.
End HttpFacts.
End HttpFacts.

Module HttpLoopFacts.
Section HttpLoopFacts.
Variable server : string -> string -> response.
Variable max_streams : nat.
Variable _path : BucketPath.

Local Abbreviation key := (HttpInterface.get_path_to_file _path).
Local Abbreviation tracks := (HttpSpec.tracks max_streams _path).
Local Abbreviation get_result := (HttpSpec.get_result server _path).
Local Abbreviation exists_result := (HttpSpec.exists_result server _path).
Local Abbreviation file_result := (HttpSpec.file_result server _path).
Local Abbreviation send_next := (HttpInterface._send_next_request max_streams _path).

Lemma tracks_streams_lt pre method running c :
  tracks pre method running c ->
  Forall (fun r : nat * (string * string) => fst r < next_stream_id c) (streams c).
Proof.
  intros (Hs & _ & Hlt & Hpre & _). rewrite Hs. apply Forall_app. split; [done|].
  apply Forall_forall. intros r Hr.
  apply list_elem_of_In, in_map_iff in Hr as (x & <- & Hx). simpl.
  rewrite Forall_forall in Hlt. by apply Hlt, list_elem_of_In.
Qed.

Lemma tracks_length pre method running c :
  tracks pre method running c -> length (streams c) = length pre + length running.
Proof. intros (Hs & _). by rewrite Hs, length_app, length_map. Qed.

(** [_send_next_request] sends nothing when no path is left or the peer's
    limit is reached; otherwise it opens a stream for the last path. *)
Lemma send_next_cases pre method available running c :
  tracks pre method running c ->
  (send_next method available running c = (Ok (None, available, running), c) /\
   (available = [] \/ max_streams <= length pre + length running))
  \/ exists av fp c',
      available = av ++ [fp] /\
      send_next method available running c
        = (Ok (Some (next_stream_id c), av, running ++ [(fp, next_stream_id c)]), c') /\
      tracks pre method (running ++ [(fp, next_stream_id c)]) c'.
Proof.
  intros Htr. pose proof (tracks_length _ _ _ _ Htr) as Hlen.
  unfold HttpInterface._send_next_request.
  destruct (last available) as [fp|] eqn:Hlast.
  - apply HttpFacts.last_Some_snoc in Hlast.
    unfold try_except, bind, HttpInterface.conn_request.
    destruct (max_streams <=? length (streams c))%nat eqn:E.
    + left. apply Nat.leb_le in E. split; [done|]. right. lia.
    + right. apply Nat.leb_gt in E.
      exists (removelast available), fp. eexists. split; [done|]. split; [done|].
      destruct Htr as (Hs & Hsorted & Hlt & Hpre & Habove & Hmax).
      split; [|split; [|split; [|split; [|split]]]]; simpl.
      * by rewrite Hs, map_app, app_assoc.
      * rewrite map_app. apply StronglySorted_app_2; [|done|by repeat constructor].
        intros x y Hx Hy. apply list_elem_of_In, in_map_iff in Hx as (r & <- & Hr).
        apply list_elem_of_singleton in Hy as ->. simpl.
        rewrite Forall_forall in Hlt. by apply Hlt, list_elem_of_In.
      * apply Forall_app. split.
        -- eapply Forall_impl; [exact Hlt|]. simpl. intros. lia.
        -- constructor; [simpl; lia|done].
      * eapply Forall_impl; [exact Hpre|]. simpl. intros. lia.
      * apply Forall_app. split; [done|]. by constructor.
      * rewrite length_app. simpl. lia.
  - left. split; [done|]. left. by apply HttpFacts.last_None.
Qed.

(** The streams from before the batch are not in the way of a stream with
    a later identifier. *)
Lemma find_above (sid : nat) (pre l : list (nat * (string * string))) :
  Forall (fun s => fst s < sid) pre ->
  List.find (fun s : nat * (string * string) => (fst s =? sid)%nat) (pre ++ l)
  = List.find (fun s : nat * (string * string) => (fst s =? sid)%nat) l.
Proof.
  intros Hpre. induction Hpre as [|s pre Hs _ IH]; simpl; [done|].
  destruct (fst s =? sid)%nat eqn:E; [apply Nat.eqb_eq in E; lia|done].
Qed.

Lemma filter_above (sid : nat) (pre : list (nat * (string * string))) :
  Forall (fun s => fst s < sid) pre ->
  List.filter (fun s : nat * (string * string) => negb (fst s =? sid)%nat) pre = pre.
Proof.
  intros Hpre. induction Hpre as [|s pre Hs _ IH]; simpl; [done|].
  destruct (fst s =? sid)%nat eqn:E; [apply Nat.eqb_eq in E; lia|].
  simpl. by rewrite IH.
Qed.

(** Taking the response of the oldest request closes its stream and leaves
    the others. *)
Lemma oldest_response pre method fp sid running c :
  tracks pre method ((fp, sid) :: running) c ->
  exists c',
    HttpInterface.conn_get_response server (Some sid) c
      = (Ok (server method (key fp)), c') /\
    tracks pre method running c' /\
    length (streams c') < max_streams.
Proof.
  intros (Hs & Hsorted & Hlt & Hpre & Habove & Hmax).
  apply Forall_cons in Habove as [Hsid Habove]. simpl in Hsid.
  unfold HttpInterface.conn_get_response. rewrite Hs, find_above by done. simpl.
  rewrite Nat.eqb_refl. eexists. split; [done|].
  unfold HttpInterface.close_stream. rewrite Hs.
  rewrite List.filter_app, filter_above by done. simpl. rewrite Nat.eqb_refl. simpl.
  apply StronglySorted_cons in Hsorted as [Hgt Hsorted].
  assert (List.filter (fun s : nat * (string * string) => negb (fst s =? sid)%nat)
            (map (fun r : string * nat => (snd r, (method, key (fst r)))) running)
          = map (fun r : string * nat => (snd r, (method, key (fst r)))) running) as ->.
  { clear -Hgt. induction running as [|r running IH]; simpl; [done|].
    apply Forall_cons in Hgt as [Hr Hgt]. simpl in Hr.
    destruct (snd r =? sid)%nat eqn:E; [apply Nat.eqb_eq in E; lia|].
    simpl. by rewrite IH. }
  apply Forall_cons in Hlt as [_ Hlt]. simpl in Hmax.
  split.
  - split; [done|]. split; [done|]. split; [done|]. split; [done|].
    split; [done|]. lia.
  - simpl. rewrite length_app, length_map. lia.
Qed.

Lemma tracks_same_streams pre method running c c' :
  tracks pre method running c ->
  HttpSpec.same_streams (streams c) (next_stream_id c) c' ->
  tracks pre method running c'.
Proof.
  intros (Hs & Hsorted & Hlt & Hpre & Habove & Hmax) [Hs' Hn].
  split; [congruence|]. split; [done|]. split; [|split; [|done]].
  - eapply Forall_impl; [exact Hlt|]. simpl. intros. lia.
  - eapply Forall_impl; [exact Hpre|]. simpl. intros. lia.
Qed.

Lemma get_files_response_spec pre fp sid running c :
  tracks pre "GET" ((fp, sid) :: running) c ->
  exists c',
    HttpInterface.get_files_response server max_streams _path fp sid c
      = (get_result fp, c') /\
    tracks pre "GET" running c'.
Proof.
  intros Htr.
  destruct (oldest_response _ _ _ _ _ _ Htr) as (c1 & Hresp & Htr1 & Hroom).
  unfold HttpInterface.get_files_response, bind. rewrite Hresp.
  unfold HttpSpec.get_result, HttpSpec.answer_error, HttpSpec.answer_class.
  destruct (isinstance_server (from_http_status _)) eqn:Hsrv.
  - destruct (HttpFacts.get_file_spec server max_streams _path fp c1 Hroom
                (tracks_streams_lt _ _ _ _ Htr1)) as (c' & -> & Hsame).
    exists c'. split; [|by eapply tracks_same_streams].
    unfold HttpSpec.get_result, HttpSpec.answer_error, HttpSpec.answer_class.
    by rewrite Hsrv.
  - simpl. destruct (isinstance_client (from_http_status _)); by exists c1.
Qed.

Lemma files_exist_response_spec pre fp sid running c :
  tracks pre "HEAD" ((fp, sid) :: running) c ->
  exists c',
    HttpInterface.files_exist_response server max_streams _path fp sid c
      = (exists_result fp, c') /\
    tracks pre "HEAD" running c'.
Proof.
  intros Htr.
  destruct (oldest_response _ _ _ _ _ _ Htr) as (c1 & Hresp & Htr1 & Hroom).
  unfold HttpInterface.files_exist_response, bind. rewrite Hresp.
  unfold HttpSpec.exists_result, HttpSpec.answer_error, HttpSpec.answer_class.
  destruct (isinstance_notfound_forbidden (from_http_status _)) eqn:Hnf;
    [by exists c1|].
  destruct (isinstance_server (from_http_status _)) eqn:Hsrv.
  - destruct (HttpFacts.exists_spec server max_streams _path fp c1 Hroom
                (tracks_streams_lt _ _ _ _ Htr1)) as (c' & -> & Hsame).
    exists c'. split; [|by eapply tracks_same_streams].
    unfold HttpSpec.exists_result, HttpSpec.answer_error, HttpSpec.answer_class.
    by rewrite Hnf, Hsrv.
  - simpl. destruct (isinstance_client (from_http_status _)); by exists c1.
Qed.

(** *** The pipelining loop of [get_files] *)

Lemma file_result_entry fp :
  match get_result fp with
  | Ok content => {| filename := fp; content := Some content; error := None |}
  | Raise err => {| filename := fp; content := None; error := Some err |}
  end = file_result fp.
Proof. done. Qed.

Lemma sent_order (running : list (string * nat)) (fp : string) (n : nat)
    (av : list string) :
  map fst (running ++ [(fp, n)]) ++ rev av = map fst running ++ rev (av ++ [fp]).
Proof. rewrite map_app, rev_app_distr. simpl. by rewrite <-app_assoc. Qed.

Lemma processed_order (results : list FileResult) (fp : string) (L : list string) :
  (results ++ [file_result fp]) ++ map file_result L
  = results ++ map file_result (fp :: L).
Proof. by rewrite <-app_assoc. Qed.

Lemma get_files_while_step fuel available fp sid running stream_id results c :
  HttpInterface.get_files_while server max_streams _path (S fuel)
    available ((fp, sid) :: running) stream_id results c
  = match stream_id with
    | Some _ =>
        match send_next "GET" available ((fp, sid) :: running) c with
        | (Diverge, c') => Some (Diverge, c')
        | (Raise e, c') => Some (Raise e, c')
        | (Ok (stream_id', available', running''), c') =>
            HttpInterface.get_files_while server max_streams _path fuel
              available' running'' stream_id' results c'
        end
    | None =>
        match HttpInterface.get_files_response server max_streams _path fp sid c with
        | (Diverge, c1) => Some (Diverge, c1)
        | (Done r, c1) =>
            match send_next "GET" available running c1 with
            | (Diverge, c') => Some (Diverge, c')
            | (Raise e, c') => Some (Raise e, c')
            | (Ok (stream_id', available', running''), c') =>
                HttpInterface.get_files_while server max_streams _path fuel
                  available' running'' stream_id'
                  (results ++ [match r with
                               | Ok content =>
                                   {| filename := fp; content := Some content;
                                      error := None |}
                               | Raise err =>
                                   {| filename := fp; content := None;
                                      error := Some err |}
                               end]) c'
            end
        end
    end.
Proof.
  simpl. destruct stream_id; [done|].
  by destruct (HttpInterface.get_files_response _ _ _ _ _ _) as [[[content|err]|] c1].
Qed.

Lemma get_files_while_done fuel available stream_id results c :
  HttpInterface.get_files_while server max_streams _path fuel
    available [] stream_id results c = Some (Ok results, c).
Proof. by destruct fuel. Qed.

Lemma get_files_while_spec pre fuel : forall available running stream_id results c,
  length pre < max_streams ->
  tracks pre "GET" running c ->
  (running = [] -> available = []) ->
  HttpSpec.turns available running stream_id <= fuel ->
  exists c',
    HttpInterface.get_files_while server max_streams _path fuel
      available running stream_id results c
    = Some (Ok (results ++ map file_result (map fst running ++ rev available)), c') /\
    streams c' = pre.
Proof.
  induction fuel as [|fuel IH];
    intros available running stream_id results c Hmax Htr Hnone Hfuel;
    (destruct running as [|[fp sid] running];
     [rewrite (Hnone eq_refl), get_files_while_done; simpl; rewrite app_nil_r;
      exists c; split; [done|]; destruct Htr as (-> & _); simpl;
      by rewrite app_nil_r|]).
  - unfold HttpSpec.turns in Hfuel. simpl in Hfuel. lia.
  - rewrite get_files_while_step. destruct stream_id as [s|].
    + destruct (send_next_cases pre "GET" available ((fp, sid) :: running) c Htr)
        as [[-> _]|(av & fp' & c' & -> & -> & Htr')].
      * apply IH; try done.
        unfold HttpSpec.turns in *. simpl in *. lia.
      * destruct (IH av (((fp, sid) :: running) ++ [(fp', next_stream_id c)])
                    (Some (next_stream_id c)) results c') as (c'' & -> & Hc'');
          try done.
        { unfold HttpSpec.turns in *. simpl in *.
          rewrite !length_app in *. simpl in *. lia. }
        exists c''. split; [|done]. by rewrite sent_order.
    + destruct (get_files_response_spec pre fp sid running c Htr) as (c1 & -> & Htr1).
      rewrite file_result_entry.
      destruct (send_next_cases pre "GET" available running c1 Htr1)
        as [[-> Hwhy]|(av & fp' & c' & -> & -> & Htr')].
      * destruct (IH available running None (results ++ [file_result fp]) c1)
          as (c'' & -> & Hc''); try done.
        { intros ->. destruct Hwhy as [?|Hfull]; [done|]. simpl in Hfull. lia. }
        { unfold HttpSpec.turns in *. simpl in *. lia. }
        exists c''. split; [|done]. by rewrite processed_order.
      * destruct (IH av (running ++ [(fp', next_stream_id c1)])
                    (Some (next_stream_id c1)) (results ++ [file_result fp]) c')
          as (c'' & -> & Hc''); try done.
        { by destruct running. }
        { unfold HttpSpec.turns in *. simpl in *.
          rewrite !length_app in *. simpl in *. lia. }
        exists c''. split; [|done]. by rewrite sent_order, processed_order.
Qed.

Lemma tracks_start method c :
  length (streams c) <= max_streams ->
  Forall (fun s : nat * (string * string) => fst s < next_stream_id c) (streams c) ->
  tracks (streams c) method [] c.
Proof.
  intros Hmax Hlt. split; [simpl; by rewrite app_nil_r|]. split; [constructor|].
  split; [constructor|]. split; [done|]. split; [constructor|]. simpl. lia.
Qed.

Lemma tracks_idle method c : streams c = [] -> tracks [] method [] c.
Proof.
  intros Hs. split; [done|]. split; [constructor|]. split; [constructor|].
  split; [constructor|]. split; [constructor|]. simpl. lia.
Qed.

(** On a connection with room for a stream, whose open streams are older
    than the next one, [get_files] returns one entry for every path, in
    the reverse of the order of the paths, and leaves the streams that
    were open, and no other, open. *)
Lemma get_files_spec file_paths c :
  length (streams c) < max_streams ->
  Forall (fun s : nat * (string * string) => fst s < next_stream_id c) (streams c) ->
  exists c',
    HttpInterface.get_files server max_streams _path file_paths c
      = (Ok (map file_result (rev file_paths)), c') /\
    streams c' = streams c.
Proof.
  intros Hroom Hlt. unfold HttpInterface.get_files.
  destruct (send_next_cases (streams c) "GET" file_paths [] c
              (tracks_start "GET" c (Nat.lt_le_incl _ _ Hroom) Hlt))
    as [[-> Hwhy]|(av & fp & c' & -> & -> & Htr')].
  - destruct Hwhy as [->|Hfull]; [|simpl in Hfull; lia].
    exists c. by destruct (HttpInterface.loop_fuel []).
  - destruct (get_files_while_spec (streams c) (HttpInterface.loop_fuel (av ++ [fp])) av
                ([] ++ [(fp, next_stream_id c)]) (Some (next_stream_id c)) [] c')
      as (c'' & -> & Hc''); try done.
    { unfold HttpSpec.turns, HttpInterface.loop_fuel.
      rewrite !length_app. simpl. lia. }
    exists c''. split; [|done]. by rewrite rev_app_distr.
Qed.

Lemma filenames_of_results (l : list string) :
  map filename (map file_result l) = l.
Proof.
  induction l as [|fp l IH]; simpl; [done|]. rewrite IH. f_equal.
  unfold HttpSpec.file_result. by destruct (get_result fp).
Qed.

(** *** The pipelining loop of [files_exist] *)

Local Abbreviation exist_all := (HttpSpec.exist_all server _path).

Lemma files_exist_while_step fuel available fp sid running stream_id result_ c :
  HttpInterface.files_exist_while server max_streams _path (S fuel)
    available ((fp, sid) :: running) stream_id result_ c
  = match stream_id with
    | Some _ =>
        match send_next "HEAD" available ((fp, sid) :: running) c with
        | (Diverge, c') => Some (Diverge, c')
        | (Raise e, c') => Some (Raise e, c')
        | (Ok (stream_id', available', running''), c') =>
            HttpInterface.files_exist_while server max_streams _path fuel
              available' running'' stream_id' result_ c'
        end
    | None =>
        match HttpInterface.files_exist_response server max_streams _path fp sid c with
        | (Diverge, c1) => Some (Diverge, c1)
        | (Raise e, c1) => Some (Raise e, c1)
        | (Ok b, c1) =>
            match send_next "HEAD" available running c1 with
            | (Diverge, c') => Some (Diverge, c')
            | (Raise e, c') => Some (Raise e, c')
            | (Ok (stream_id', available', running''), c') =>
                HttpInterface.files_exist_while server max_streams _path fuel
                  available' running'' stream_id' (<[fp := Some b]> result_) c'
            end
        end
    end.
Proof. done. Qed.

Lemma files_exist_while_done fuel available stream_id result_ c :
  HttpInterface.files_exist_while server max_streams _path fuel
    available [] stream_id result_ c = Some (Ok result_, c).
Proof. by destruct fuel. Qed.

Lemma files_exist_while_spec pre fuel : forall available running stream_id result_ c,
  length pre < max_streams ->
  tracks pre "HEAD" running c ->
  (running = [] -> available = []) ->
  HttpSpec.turns available running stream_id <= fuel ->
  exists c',
    HttpInterface.files_exist_while server max_streams _path fuel
      available running stream_id result_ c
    = Some (exist_all (map fst running ++ rev available) result_, c').
Proof.
  induction fuel as [|fuel IH];
    intros available running stream_id result_ c Hmax Htr Hnone Hfuel;
    (destruct running as [|[fp sid] running];
     [rewrite (Hnone eq_refl), files_exist_while_done; by exists c|]).
  - unfold HttpSpec.turns in Hfuel. simpl in Hfuel. lia.
  - rewrite files_exist_while_step. destruct stream_id as [s|].
    + destruct (send_next_cases pre "HEAD" available ((fp, sid) :: running) c Htr)
        as [[-> _]|(av & fp' & c' & -> & -> & Htr')].
      * apply IH; try done.
        unfold HttpSpec.turns in *. simpl in *. lia.
      * destruct (IH av (((fp, sid) :: running) ++ [(fp', next_stream_id c)])
                    (Some (next_stream_id c)) result_ c') as (c'' & ->);
          try done.
        { unfold HttpSpec.turns in *. simpl in *.
          rewrite !length_app in *. simpl in *. lia. }
        exists c''. by rewrite sent_order.
    + destruct (files_exist_response_spec pre fp sid running c Htr) as (c1 & -> & Htr1).
      change (map fst ((fp, sid) :: running) ++ rev available)
        with (fp :: (map fst running ++ rev available)).
      simpl. destruct (exists_result fp) as [b|e]; [|by exists c1].
      destruct (send_next_cases pre "HEAD" available running c1 Htr1)
        as [[-> Hwhy]|(av & fp' & c' & -> & -> & Htr')].
      * apply IH; try done.
        { intros ->. destruct Hwhy as [?|Hfull]; [done|]. simpl in Hfull. lia. }
        { unfold HttpSpec.turns in *. simpl in *. lia. }
      * destruct (IH av (running ++ [(fp', next_stream_id c1)])
                    (Some (next_stream_id c1)) (<[fp := Some b]> result_) c')
          as (c'' & ->); try done.
        { by destruct running. }
        { unfold HttpSpec.turns in *. simpl in *.
          rewrite !length_app in *. simpl in *. lia. }
        exists c''. by rewrite sent_order.
Qed.

(** On a connection with room for a stream, whose open streams are older
    than the next one, [files_exist] checks the paths in the reverse of
    their order and stops at the first check that raises. *)
Lemma files_exist_spec file_paths c :
  length (streams c) < max_streams ->
  Forall (fun s : nat * (string * string) => fst s < next_stream_id c) (streams c) ->
  exists c',
    HttpInterface.files_exist server max_streams _path file_paths c
      = (exist_all (rev file_paths) (HttpInterface.none_for_all file_paths), c').
Proof.
  intros Hroom Hlt. unfold HttpInterface.files_exist.
  destruct (send_next_cases (streams c) "HEAD" file_paths [] c
              (tracks_start "HEAD" c (Nat.lt_le_incl _ _ Hroom) Hlt))
    as [[-> Hwhy]|(av & fp & c' & -> & -> & Htr')].
  - destruct Hwhy as [->|Hfull]; [|simpl in Hfull; lia].
    exists c. by destruct (HttpInterface.loop_fuel []).
  - destruct (files_exist_while_spec (streams c)
                (HttpInterface.loop_fuel (av ++ [fp])) av
                ([] ++ [(fp, next_stream_id c)]) (Some (next_stream_id c))
                (HttpInterface.none_for_all (av ++ [fp])) c')
      as (c'' & ->); try done.
    { unfold HttpSpec.turns, HttpInterface.loop_fuel.
      rewrite !length_app. simpl. lia. }
    exists c''. by rewrite rev_app_distr.
Qed.

(** *** The loops never run out of turns *)

(** [_send_next_request] either sends nothing and leaves the lists as they
    are, or moves the last path of [available] to [running]. *)
Lemma send_next_shape method available running c :
  exists c',
    send_next method available running c = (Ok (None, available, running), c')
    \/ exists sid fp av,
        available = av ++ [fp] /\
        send_next method available running c
          = (Ok (Some sid, av, running ++ [(fp, sid)]), c').
Proof.
  unfold HttpInterface._send_next_request.
  destruct (last available) as [fp|] eqn:Hlast; [|by exists c; left].
  apply HttpFacts.last_Some_snoc in Hlast.
  unfold try_except, bind, HttpInterface.conn_request.
  destruct (max_streams <=? length (streams c))%nat; [by exists c; left|].
  eexists. right. by exists (next_stream_id c), fp, (removelast available).
Qed.

Lemma get_files_while_fuel fuel : forall available running stream_id results c,
  HttpSpec.turns available running stream_id <= fuel ->
  HttpInterface.get_files_while server max_streams _path fuel
    available running stream_id results c <> None.
Proof.
  induction fuel as [|fuel IH]; intros available running stream_id results c Hfuel;
    (destruct running as [|[fp sid] running];
     [by rewrite get_files_while_done|]).
  - unfold HttpSpec.turns in Hfuel. simpl in Hfuel. lia.
  - rewrite get_files_while_step. destruct stream_id as [s|].
    + destruct (send_next_shape "GET" available ((fp, sid) :: running) c)
        as (c' & [->|(sid' & fp' & av & -> & ->)]); apply IH;
        unfold HttpSpec.turns in *; simpl in *;
        rewrite ?length_app in *; simpl in *; lia.
    + destruct (HttpInterface.get_files_response _ _ _ _ _ _) as [[r|] c1]; [|done].
      destruct (send_next_shape "GET" available running c1)
        as (c' & [->|(sid' & fp' & av & -> & ->)]); apply IH;
        unfold HttpSpec.turns in *; simpl in *;
        rewrite ?length_app in *; simpl in *; lia.
Qed.

Lemma files_exist_while_fuel fuel : forall available running stream_id result_ c,
  HttpSpec.turns available running stream_id <= fuel ->
  HttpInterface.files_exist_while server max_streams _path fuel
    available running stream_id result_ c <> None.
Proof.
  induction fuel as [|fuel IH]; intros available running stream_id result_ c Hfuel;
    (destruct running as [|[fp sid] running];
     [by rewrite files_exist_while_done|]).
  - unfold HttpSpec.turns in Hfuel. simpl in Hfuel. lia.
  - rewrite files_exist_while_step. destruct stream_id as [s|].
    + destruct (send_next_shape "HEAD" available ((fp, sid) :: running) c)
        as (c' & [->|(sid' & fp' & av & -> & ->)]); apply IH;
        unfold HttpSpec.turns in *; simpl in *;
        rewrite ?length_app in *; simpl in *; lia.
    + destruct (HttpInterface.files_exist_response _ _ _ _ _ _) as [[[b|e]|] c1];
        [|done|done].
      destruct (send_next_shape "HEAD" available running c1)
        as (c' & [->|(sid' & fp' & av & -> & ->)]); apply IH;
        unfold HttpSpec.turns in *; simpl in *;
        rewrite ?length_app in *; simpl in *; lia.
Qed.

(** The turns granted by [get_files] and [files_exist] suffice on every
    connection. *)
Lemma get_files_fuel_enough file_paths c stream_id available running c' :
  send_next "GET" file_paths [] c = (Ok (stream_id, available, running), c') ->
  HttpInterface.get_files_while server max_streams _path
    (HttpInterface.loop_fuel file_paths) available running stream_id [] c' <> None.
Proof.
  intros Hsend. apply get_files_while_fuel.
  destruct (send_next_shape "GET" file_paths [] c)
    as (c1 & [H|(sid & fp & av & -> & H)]); rewrite H in Hsend;
    injection Hsend as <- <- <- <-;
    unfold HttpSpec.turns, HttpInterface.loop_fuel;
    rewrite ?length_app; simpl; lia.
Qed.

Lemma files_exist_fuel_enough file_paths c stream_id available running result_ c' :
  send_next "HEAD" file_paths [] c = (Ok (stream_id, available, running), c') ->
  HttpInterface.files_exist_while server max_streams _path
    (HttpInterface.loop_fuel file_paths) available running stream_id result_ c'
  <> None.
Proof.
  intros Hsend. apply files_exist_while_fuel.
  destruct (send_next_shape "HEAD" file_paths [] c)
    as (c1 & [H|(sid & fp & av & -> & H)]); rewrite H in Hsend;
    injection Hsend as <- <- <- <-;
    unfold HttpSpec.turns, HttpInterface.loop_fuel;
    rewrite ?length_app; simpl; lia.
Qed.

Lemma dom_none_for_all (file_paths : list string) :
  dom (HttpInterface.none_for_all file_paths) = list_to_set file_paths.
Proof.
  unfold HttpInterface.none_for_all.
  assert (forall m : gmap string (option bool),
             dom (foldl (fun m fp => <[fp := None]> m) m file_paths)
             = dom m ∪ list_to_set file_paths) as H.
  { induction file_paths as [|fp l IH]; intros m; simpl; [set_solver|].
    rewrite IH, dom_insert_L. set_solver. }
  rewrite H. set_solver.
Qed.

Lemma dom_exist_all fps : forall m m',
  exist_all fps m = Ok m' -> dom m' = dom m ∪ list_to_set fps.
Proof.
  induction fps as [|fp l IH]; intros m m'; simpl.
  - intros [= <-]. set_solver.
  - destruct (exists_result fp) as [b|e]; [|done].
    intros H. apply IH in H. rewrite H, dom_insert_L. set_solver.
Qed.

(** *** The keys of the batches, on a connection in whatever state *)

Lemma files_exist_while_dom fuel : forall available running stream_id result_ c m c',
  (forall fp, fp ∈ available -> fp ∈ dom result_) ->
  (forall r, r ∈ running -> fst r ∈ dom result_) ->
  HttpInterface.files_exist_while server max_streams _path fuel
    available running stream_id result_ c = Some (Done (Ok m), c') ->
  dom m = dom result_.
Proof.
  induction fuel as [|fuel IH];
    intros available running stream_id result_ c m c' Hav Hrun;
    (destruct running as [|[fp sid] running];
     [rewrite files_exist_while_done; by intros [= <- _]|]); [done|].
  assert (fp ∈ dom result_) as Hfp by (apply (Hrun (fp, sid)); by apply elem_of_cons; left).
  assert (forall (fp' : string) (sid' : nat) av,
             available = av ++ [fp'] ->
             (forall q, q ∈ av -> q ∈ dom result_) /\
             (forall (rs : list (string * nat)) r,
                 (forall r', r' ∈ rs -> fst r' ∈ dom result_) ->
                 r ∈ rs ++ [(fp', sid')] -> fst r ∈ dom result_)) as Hsent.
  { intros fp' sid' av ->. split.
    - intros q Hq. apply Hav, elem_of_app. by left.
    - intros rs r Hrs [Hr|Hr%list_elem_of_singleton]%elem_of_app; [by apply Hrs|].
      subst r. apply Hav, elem_of_app. right. by apply list_elem_of_singleton. }
  rewrite files_exist_while_step. destruct stream_id as [s|].
  - destruct (send_next_shape "HEAD" available ((fp, sid) :: running) c)
      as (c1 & [->|(sid' & fp' & av & Heq & ->)]).
    + by apply IH.
    + destruct (Hsent fp' sid' av Heq) as [Hav' Hrun']. apply IH; [done|].
      intros r. by apply Hrun'.
  - destruct (HttpInterface.files_exist_response _ _ _ _ _ _) as [[[b|e]|] c1];
      [|done|done].
    assert (dom (<[fp := Some b]> result_) = dom result_) as Hdom.
    { rewrite dom_insert_L. set_solver. }
    assert (forall r, r ∈ running -> fst r ∈ dom result_) as Hrest
      by (intros r Hr; apply Hrun; by apply elem_of_cons; right).
    destruct (send_next_shape "HEAD" available running c1)
      as (c2 & [->|(sid' & fp' & av & Heq & ->)]); intros H.
    + apply IH in H; rewrite ?Hdom; [congruence|done|done].
    + destruct (Hsent fp' sid' av Heq) as [Hav' Hrun'].
      apply IH in H; rewrite ?Hdom; [congruence|done|]. intros r. by apply Hrun'.
Qed.

(** The dictionary [files_exist] returns has the paths as its keys. *)
Lemma files_exist_dom file_paths c m c' :
  HttpInterface.files_exist server max_streams _path file_paths c = (Ok m, c') ->
  dom m = list_to_set file_paths.
Proof.
  unfold HttpInterface.files_exist.
  assert (forall fp, fp ∈ file_paths -> fp ∈ dom (HttpInterface.none_for_all file_paths))
    as Hall by (intros fp Hfp; by rewrite dom_none_for_all, elem_of_list_to_set).
  destruct (send_next_shape "HEAD" file_paths [] c)
    as (c1 & [->|(sid' & fp' & av & Heq & ->)]).
  - destruct (HttpInterface.files_exist_while _ _ _ _ _ _ _ _ _)
      as [[r c2]|] eqn:Hw.
    + intros [= -> ->]. apply files_exist_while_dom in Hw.
      * by rewrite Hw, dom_none_for_all.
      * done.
      * by intros r ?%elem_of_nil.
    + intros [= <- _]. apply dom_none_for_all.
  - destruct (HttpInterface.files_exist_while _ _ _ _ _ _ _ _ _)
      as [[r c2]|] eqn:Hw.
    + intros [= -> ->]. apply files_exist_while_dom in Hw.
      * by rewrite Hw, dom_none_for_all.
      * intros q Hq. apply Hall. rewrite Heq. apply elem_of_app. by left.
      * intros r Hr%list_elem_of_singleton. subst r. apply Hall. rewrite Heq.
        apply elem_of_app. right. by apply list_elem_of_singleton.
    + intros [= <- _]. apply dom_none_for_all.
Qed.

Local Abbreviation holds := (HttpSpec.holds max_streams).

Lemma filter_keeps_other (sid n : nat) (ss : list (nat * (string * string))) :
  sid ∈ map fst ss -> sid <> n ->
  sid ∈ map fst (List.filter (fun s => negb (fst s =? n)%nat) ss).
Proof.
  intros Hin Hne. apply list_elem_of_In, in_map_iff in Hin as (x & <- & Hx).
  apply list_elem_of_In, in_map_iff. exists x. split; [done|].
  apply filter_In. split; [done|]. by apply negb_true_iff, Nat.eqb_neq.
Qed.

Lemma filter_drops_one (sid : nat) (ss : list (nat * (string * string))) :
  sid ∈ map fst ss ->
  length (List.filter (fun s => negb (fst s =? sid)%nat) ss) < length ss.
Proof.
  induction ss as [|x ss IH]; simpl; [by intros ?%elem_of_nil|].
  intros [Hx|Hin]%elem_of_cons.
  - rewrite <-Hx, Nat.eqb_refl. simpl.
    pose proof (filter_length_le (fun s : nat * (string * string) =>
                                    negb (fst s =? sid)%nat) ss).
    subst sid. lia.
  - specialize (IH Hin). destruct (negb (fst x =? sid)%nat); simpl; lia.
Qed.

Lemma find_open (sid : nat) (ss : list (nat * (string * string))) :
  sid ∈ map fst ss ->
  exists s, List.find (fun s => (fst s =? sid)%nat) ss = Some (sid, s).
Proof.
  induction ss as [|[i s] ss IH]; simpl; [by intros ?%elem_of_nil|].
  destruct (i =? sid)%nat eqn:E.
  - apply Nat.eqb_eq in E as ->. by eauto.
  - intros [Hx|Hin]%elem_of_cons; [apply Nat.eqb_neq in E; by subst|by apply IH].
Qed.

(** [_send_next_request] keeps the streams of the requests under way. *)
Lemma send_next_holds method available running c :
  holds running c ->
  (send_next method available running c = (Ok (None, available, running), c) /\
   (available = [] \/ max_streams <= length (streams c)))
  \/ exists av fp c',
      available = av ++ [fp] /\
      send_next method available running c
        = (Ok (Some (next_stream_id c), av, running ++ [(fp, next_stream_id c)]), c') /\
      holds (running ++ [(fp, next_stream_id c)]) c'.
Proof.
  intros (Hlen & Hopen & Hnd & Hlt).
  unfold HttpInterface._send_next_request.
  destruct (last available) as [fp|] eqn:Hlast.
  - apply HttpFacts.last_Some_snoc in Hlast.
    unfold try_except, bind, HttpInterface.conn_request.
    destruct (max_streams <=? length (streams c))%nat eqn:E.
    + left. apply Nat.leb_le in E. split; [done|]. by right.
    + right. apply Nat.leb_gt in E.
      exists (removelast available), fp. eexists. split; [done|]. split; [done|].
      split; [|split; [|split]]; simpl.
      * rewrite length_app. simpl. lia.
      * apply Forall_app. split.
        -- eapply Forall_impl; [exact Hopen|]. simpl. intros r Hr.
           rewrite map_app. apply elem_of_app. by left.
        -- constructor; [|done]. simpl. rewrite map_app. apply elem_of_app.
           right. simpl. by apply list_elem_of_singleton.
      * rewrite map_app. simpl. apply NoDup_app. split; [done|]. split.
        -- intros x Hx Hx'%list_elem_of_singleton. subst x.
           apply list_elem_of_In, in_map_iff in Hx as (r & Hr & Hin).
           rewrite Forall_forall in Hlt. apply list_elem_of_In, Hlt in Hin. lia.
        -- apply NoDup_singleton.
      * apply Forall_app. split.
        -- eapply Forall_impl; [exact Hlt|]. simpl. intros. lia.
        -- constructor; [simpl; lia|done].
  - left. split; [done|]. left. by apply HttpFacts.last_None.
Qed.

(** The response of a request under way can be taken; its stream is
    closed, which leaves room for another. *)
Lemma response_holds fp sid running c :
  holds ((fp, sid) :: running) c ->
  exists resp c',
    HttpInterface.conn_get_response server (Some sid) c = (Ok resp, c') /\
    holds running c' /\
    length (streams c') < max_streams.
Proof.
  intros (Hlen & Hopen & Hnd & Hlt).
  apply Forall_cons in Hopen as [Hsid Hopen]. cbn [snd] in Hsid.
  apply Forall_cons in Hlt as [_ Hlt].
  change (map snd ((fp, sid) :: running)) with (sid :: map snd running) in Hnd.
  apply NoDup_cons in Hnd as [Hfresh Hnd].
  unfold HttpInterface.conn_get_response.
  destruct (find_open sid (streams c) Hsid) as ([method k] & ->).
  eexists _, _. split; [done|].
  pose proof (filter_drops_one sid (streams c) Hsid) as Hdrop.
  unfold HttpInterface.close_stream. unfold HttpSpec.holds. cbn [streams next_stream_id].
  split; [|lia].
  split; [lia|]. split; [|done].
  apply Forall_forall. intros r Hr. apply filter_keeps_other.
  - rewrite Forall_forall in Hopen. by apply Hopen.
  - intros Heq. apply Hfresh. apply list_elem_of_In, in_map_iff. exists r.
    split; [done|]. by apply list_elem_of_In.
Qed.

(** One request and its response, with room for the stream. *)
Lemma request_response_holds method file_path running c :
  holds running c ->
  length (streams c) < max_streams ->
  exists c',
    (let! _ := HttpInterface.conn_request max_streams method (key file_path) in
     HttpInterface.conn_get_response server None)%call c
    = (Ok (server method (key file_path)), c') /\
    holds running c' /\ length (streams c') < max_streams.
Proof.
  intros (Hlen & Hopen & Hnd & Hlt) Hroom.
  unfold bind, HttpInterface.conn_request, HttpInterface.conn_get_response.
  destruct (max_streams <=? length (streams c))%nat eqn:E;
    [apply Nat.leb_le in E; lia|].
  simpl. rewrite last_snoc. eexists. split; [done|].
  unfold HttpInterface.close_stream, HttpSpec.holds. cbn [streams next_stream_id].
  rewrite List.filter_app. cbn [List.filter fst]. rewrite Nat.eqb_refl.
  cbn [negb]. rewrite app_nil_r.
  pose proof (filter_length_le (fun s : nat * (string * string) =>
                                  negb (fst s =? next_stream_id c)%nat) (streams c)).
  split; [|lia]. split; [lia|]. split; [|split; [done|]].
  - apply Forall_forall. intros r Hr. rewrite Forall_forall in Hopen, Hlt.
    apply filter_keeps_other; [by apply Hopen|]. specialize (Hlt r Hr). lia.
  - eapply Forall_impl; [exact Hlt|]. simpl. intros. lia.
Qed.

(** A call whose attempts all end, in states that keep an invariant, ends
    under [retry]. *)
Lemma call_ends {A} (I : connection -> Prop) (retry_if : exn -> bool)
    (f : M connection A) :
  (forall c, I c -> exists r c', f c = (Done r, c') /\ I c') ->
  forall remaining n c,
    I c -> exists r c' n', Retry.call retry_if f remaining n c = (Done r, c', n') /\ I c'.
Proof.
  intros Hf. induction remaining as [|k IH]; intros n c Hc; simpl;
    destruct (Hf c Hc) as (r & c' & -> & Hc'); destruct r as [a|e]; simpl;
    eauto; destruct (retry_if e); simpl; eauto.
Qed.

Lemma get_file_holds fp running c :
  holds running c ->
  length (streams c) < max_streams ->
  exists r c',
    HttpInterface.get_file server max_streams _path fp c = (Done r, c') /\
    holds running c' /\ length (streams c') < max_streams.
Proof.
  intros Hc Hroom. unfold HttpInterface.get_file, retry, Retry.retry, Retry.run.
  destruct (call_ends (fun c => holds running c /\ length (streams c) < max_streams)
              retry_if_server_error
              (HttpInterface.get_file_attempt server max_streams _path fp))
    with (remaining := MAX_RETRIES - 1) (n := 1) (c := c)
    as (r & c' & n' & -> & Hc' & Hroom'); [|done|by eauto].
  clear. intros c [Hc Hroom].
  destruct (request_response_holds "GET" fp running c Hc Hroom)
    as (c' & H & Hc' & Hroom').
  unfold HttpInterface.get_file_attempt, bind in *.
  destruct (HttpInterface.conn_request _ _ _ c) as [[[sid|e]|] c1]; [|done|done].
  rewrite H. destruct (isinstance_server _ || isinstance_client _); by eauto.
Qed.

Lemma get_files_response_holds fp sid running c :
  holds ((fp, sid) :: running) c ->
  exists r c',
    HttpInterface.get_files_response server max_streams _path fp sid c
      = (Done r, c') /\
    holds running c' /\ length (streams c') < max_streams.
Proof.
  intros Hc.
  destruct (response_holds fp sid running c Hc) as (resp & c1 & Hresp & Hc1 & Hroom).
  unfold HttpInterface.get_files_response, bind. rewrite Hresp.
  destruct (isinstance_server (from_http_status _)).
  - by apply get_file_holds.
  - destruct (isinstance_client (from_http_status _)); by eauto.
Qed.

Lemma get_files_while_keys fuel : forall available running stream_id results c,
  holds running c ->
  (running = [] -> available = []) ->
  HttpSpec.turns available running stream_id <= fuel ->
  exists rs c',
    HttpInterface.get_files_while server max_streams _path fuel
      available running stream_id results c
    = Some (Done (Ok (results ++ rs)), c') /\
    map filename rs = map fst running ++ rev available.
Proof.
  induction fuel as [|fuel IH];
    intros available running stream_id results c Hc Hnone Hfuel;
    (destruct running as [|[fp sid] running];
     [rewrite (Hnone eq_refl), get_files_while_done; exists [], c;
      by rewrite app_nil_r|]).
  - unfold HttpSpec.turns in Hfuel. simpl in Hfuel. lia.
  - rewrite get_files_while_step. destruct stream_id as [s|].
    + destruct (send_next_holds "GET" available ((fp, sid) :: running) c Hc)
        as [[-> _]|(av & fp' & c' & -> & -> & Hc')].
      * apply IH; try done.
        unfold HttpSpec.turns in *. simpl in *. lia.
      * destruct (IH av (((fp, sid) :: running) ++ [(fp', next_stream_id c)])
                    (Some (next_stream_id c)) results c') as (rs & c'' & -> & Hrs);
          try done.
        { unfold HttpSpec.turns in *. simpl in *.
          rewrite !length_app in *. simpl in *. lia. }
        exists rs, c''. split; [done|]. by rewrite Hrs, sent_order.
    + destruct (get_files_response_holds fp sid running c Hc)
        as (r & c1 & -> & Hc1 & Hroom).
      set (e := match r with
                | Ok content => {| filename := fp; content := Some content;
                                   error := None |}
                | Raise err => {| filename := fp; content := None; error := Some err |}
                end).
      assert (filename e = fp) as He by (subst e; by destruct r).
      destruct (send_next_holds "GET" available running c1 Hc1)
        as [[-> Hwhy]|(av & fp' & c' & -> & -> & Hc')].
      * destruct (IH available running None (results ++ [e]) c1)
          as (rs & c'' & -> & Hrs); try done.
        { intros ->. destruct Hwhy as [?|Hfull]; [done|lia]. }
        { unfold HttpSpec.turns in *. simpl in *. lia. }
        exists (e :: rs), c''. rewrite <-app_assoc. split; [done|].
        simpl. by rewrite He, Hrs.
      * destruct (IH av (running ++ [(fp', next_stream_id c1)])
                    (Some (next_stream_id c1)) (results ++ [e]) c')
          as (rs & c'' & -> & Hrs); try done.
        { by destruct running. }
        { unfold HttpSpec.turns in *. simpl in *.
          rewrite !length_app in *. simpl in *. lia. }
        exists (e :: rs), c''. rewrite <-app_assoc. split; [done|].
        simpl. by rewrite He, Hrs, sent_order.
Qed.

(** With room for a stream, whatever else the connection carries,
    [get_files] returns an entry for every path; *)
Lemma get_files_names file_paths c :
  length (streams c) < max_streams ->
  exists rs c',
    HttpInterface.get_files server max_streams _path file_paths c = (Ok rs, c') /\
    map filename rs = rev file_paths.
Proof.
  intros Hroom. unfold HttpInterface.get_files.
  assert (holds [] c) as Hc.
  { split; [lia|]. split; [constructor|]. split; [constructor|constructor]. }
  destruct (send_next_holds "GET" file_paths [] c Hc)
    as [[-> Hwhy]|(av & fp & c' & -> & -> & Hc')].
  - destruct Hwhy as [->|Hfull]; [|lia].
    exists [], c. by destruct (HttpInterface.loop_fuel []).
  - destruct (get_files_while_keys (HttpInterface.loop_fuel (av ++ [fp])) av
                ([] ++ [(fp, next_stream_id c)]) (Some (next_stream_id c)) [] c')
      as (rs & c'' & -> & Hrs); try done.
    { unfold HttpSpec.turns, HttpInterface.loop_fuel.
      rewrite !length_app. simpl. lia. }
    exists rs, c''. split; [done|]. rewrite Hrs. by rewrite rev_app_distr.
Qed.

(** without room it sends nothing and returns no entry. *)
Lemma get_files_full file_paths c :
  max_streams <= length (streams c) ->
  HttpInterface.get_files server max_streams _path file_paths c = (Ok [], c).
Proof.
  intros Hfull. unfold HttpInterface.get_files.
  assert (send_next "GET" file_paths [] c = (Ok (None, file_paths, []), c)) as ->.
  { unfold HttpInterface._send_next_request.
    destruct (last file_paths) as [fp|]; [|done].
    unfold try_except, bind, HttpInterface.conn_request.
    by destruct (max_streams <=? length (streams c))%nat eqn:E;
      [|apply Nat.leb_gt in E; lia]. }
  by rewrite get_files_while_done.
Qed.

End HttpLoopFacts.
End HttpLoopFacts.

(** ** Batches *)

Module BatchFacts.

(** *** The sequential loop *)

Section Sequential.
Context {W : Type}.
Variable get_file : string -> M W (option bytes).

(** A batch that returns has made an entry for every path, in order. *)
Lemma sequential_get_files_keys file_paths : forall results w rs w',
  sequential_get_files get_file file_paths results w = (Ok rs, w') ->
  map filename rs = map filename results ++ file_paths.
Proof.
  induction file_paths as [|fp l IH]; intros results w rs w'; simpl.
  - intros [= <- _]. by rewrite app_nil_r.
  - unfold bind, try_except, ret.
    destruct (get_file fp w) as [[[c|e]|] w1]; simpl; [| |done];
      intros H; apply IH in H; rewrite H, map_app; simpl;
      by rewrite <-app_assoc.
Qed.

(** The loop raises nothing. *)
Lemma sequential_get_files_no_raise file_paths : forall results w e w',
  sequential_get_files get_file file_paths results w <> (Done (Raise e), w').
Proof.
  induction file_paths as [|fp l IH]; intros results w e w'; simpl; [done|].
  unfold bind, try_except, ret.
  destruct (get_file fp w) as [[[c|e1]|] w1]; simpl; [apply IH|apply IH|done].
Qed.

(** Reading leaves the backend as it is. *)
Hypothesis get_file_pure : forall file_path w, snd (get_file file_path w) = w.

(** When the read of every path ends, the batch returns the entries of
    the outcomes, *)
Lemma sequential_get_files_spec (r : string -> result (option bytes))
    file_paths w :
  (forall fp, fp ∈ file_paths -> fst (get_file fp w) = Done (r fp)) ->
  forall results,
    sequential_get_files get_file file_paths results w
    = (Ok (results ++ map (fun fp => entry_of fp (r fp)) file_paths), w).
Proof.
  induction file_paths as [|fp l IH]; intros Hr results; simpl.
  - by rewrite app_nil_r.
  - unfold bind, try_except, ret.
    pose proof (get_file_pure fp w) as Hw.
    pose proof (Hr fp ltac:(by apply elem_of_cons; left)) as Hfp.
    destruct (get_file fp w) as [c w']; simpl in *; subst w' c.
    assert (forall fp', fp' ∈ l -> fst (get_file fp' w) = Done (r fp')) as Hl
      by (intros fp' Hin; apply Hr; by apply elem_of_cons; right).
    destruct (r fp) as [c|e]; simpl; rewrite (IH Hl); by rewrite <-app_assoc.
Qed.

(** and when one read does not end, after reads that do, the batch does
    not return. *)
Lemma sequential_get_files_hangs l1 q l2 w :
  (forall fp, fp ∈ l1 -> exists r, fst (get_file fp w) = Done r) ->
  fst (get_file q w) = Diverge ->
  forall results,
    sequential_get_files get_file (l1 ++ q :: l2) results w = (Diverge, w).
Proof.
  induction l1 as [|fp l IH]; intros Hl Hq results; simpl.
  - unfold bind, try_except, ret.
    pose proof (get_file_pure q w) as Hw.
    destruct (get_file q w) as [c w']; simpl in *; by subst.
  - unfold bind, try_except, ret.
    pose proof (get_file_pure fp w) as Hw.
    destruct (Hl fp ltac:(by apply elem_of_cons; left)) as (r & Hr).
    assert (forall fp', fp' ∈ l -> exists r, fst (get_file fp' w) = Done r) as Hl'
      by (intros fp' Hin; apply Hl; by apply elem_of_cons; right).
    destruct (get_file fp w) as [c w']; simpl in *; subst w' c.
    destruct r as [c|e]; simpl; by apply IH.
Qed.
End Sequential.

Lemma filenames_of_entries (r : string -> result (option bytes)) l :
  map filename (map (fun fp => entry_of fp (r fp)) l) = l.
Proof.
  induction l as [|fp l IH]; simpl; [done|]. rewrite IH. f_equal.
  by destruct (r fp).
Qed.

(** [retry] keeps the state when the wrapped call does. *)
Lemma retry_pure {W A} (retry_if : exn -> bool) (f : M W A) :
  (forall w, snd (f w) = w) -> forall w, snd (retry retry_if f w) = w.
Proof.
  intros Hf w. unfold retry, Retry.retry, Retry.run.
  rewrite RetryFacts.call_state.
  generalize (S (snd (Retry.call retry_if f (MAX_RETRIES - 1) 1 w) - 1)). intros n.
  induction n as [|n IH]; simpl; [done|]. by rewrite Hf.
Qed.

(** And so does the bare [retry]; the call is then its first attempt
    when that returns, and does not return otherwise. *)
Lemma retry_bare_pure {W A} (patience : nat) (f : M W A) w :
  (forall w, snd (f w) = w) ->
  retry_bare patience f w
  = match fst (f w) with
    | Done (Ok a) => (Done (Ok a), w)
    | _ => (Diverge, w)
    end.
Proof.
  intros Hf. rewrite RetryUse.retry_bare_cases.
  - pose proof (Hf w) as Hw. destruct (f w) as [[[a|e]|] w']; simpl in *; by subst.
  - intros e w' H. pose proof (Hf w) as Hw. rewrite H in Hw. done.
Qed.

(** *** The facade *)

Lemma concat_perm_blocks {A} (l l' : list (list A)) :
  l ≡ₚ l' -> concat l ≡ₚ concat l'.
Proof.
  induction 1 as [|x l l' _ IH|x y l|l l' l'' _ IH1 _ IH2]; simpl.
  - done.
  - by rewrite IH.
  - rewrite !app_assoc. by rewrite (Permutation_app_comm y x).
  - by rewrite IH1.
Qed.

Lemma list_to_set_perm_eq (l l' : list string) :
  l ≡ₚ l' -> list_to_set (C:=gset string) l = list_to_set l'.
Proof.
  intros H. apply set_eq. intros x. by rewrite !elem_of_list_to_set, H.
Qed.

Section Facade.
Context {W : Type}.
Variable scatter : list string -> nat -> list (list string).
Variable scheduler : forall A : Type, list A -> list A.
Variable n_threads : nat.
Variable interface : Interface W.

Hypothesis scatter_perm : forall l n, n <> 0 -> concat (scatter l n) ≡ₚ l.
Hypothesis scheduler_perm : forall (A : Type) (l : list A), scheduler A l ≡ₚ l.

Lemma scheduled_blocks {S} (thunk : list string -> S -> M W S) file_paths :
  n_threads <> 0 ->
  exists blocks,
    scheduler _ (map thunk (scatter file_paths n_threads)) = map thunk blocks /\
    concat blocks ≡ₚ file_paths.
Proof.
  intros Hn.
  destruct (Permutation_map_inv thunk _ (scheduler_perm _
              (map thunk (scatter file_paths n_threads)))) as (blocks & Heq & Hperm).
  exists blocks. split; [done|].
  by rewrite <-(scatter_perm file_paths n_threads Hn), (concat_perm_blocks _ _ Hperm).
Qed.

Lemma scheduler_nil {A} : scheduler A [] = [].
Proof. apply Permutation_nil. symmetry. apply scheduler_perm. Qed.

(** Once a task has failed, the pool ends with a failure or not at all. *)
Lemma run_tasks_failed {S} (tasks : list (S -> M W S)) : forall acc e w acc' w',
  Storage.run_tasks tasks acc (Some e) w <> Some (acc', None, w').
Proof.
  induction tasks as [|t tasks IH]; intros acc e w acc' w'; simpl; [done|].
  destruct (t acc w) as [[[acc1|e1]|] w1]; [apply IH|apply IH|done].
Qed.

Section GetFiles.
(** What the backend keeps between two batches, and the paths whose
    batches it takes. *)
Variable I : W -> Prop.
Variable taken : string -> Prop.
Hypothesis get_files_total : forall ps w,
  Forall taken ps -> I w ->
  exists rs w', i_get_files interface ps w = (Ok rs, w') /\
                map filename rs ≡ₚ ps /\ I w'.

Lemma run_get_tasks blocks : forall acc w,
  Forall (Forall taken) blocks -> I w ->
  exists rs w',
    Storage.run_tasks (map (Storage.get_file_thunk interface) blocks) acc None w
      = Some (acc ++ rs, None, w') /\
    map filename rs ≡ₚ concat blocks /\ I w'.
Proof.
  induction blocks as [|b blocks IH]; intros acc w Hblocks Hw; simpl.
  - exists [], w. by rewrite app_nil_r.
  - apply Forall_cons in Hblocks as [Hb Hblocks].
    unfold Storage.get_file_thunk at 1. unfold bind, ret.
    destruct (get_files_total b w Hb Hw) as (rs & w1 & -> & Hrs & Hw1).
    destruct (IH (acc ++ rs) w1 Hblocks Hw1) as (rs' & w' & -> & Hrs' & Hw').
    exists (rs ++ rs'), w'. rewrite <-app_assoc. split; [done|]. split; [|done].
    by rewrite map_app, Hrs, Hrs'.
Qed.

Lemma get_files_returns file_paths w :
  Forall taken file_paths -> I w ->
  exists rs w',
    Storage.get_files scatter scheduler n_threads interface file_paths w
      = (Ok rs, w') /\
    map filename rs ≡ₚ file_paths.
Proof.
  intros Htaken Hw. unfold Storage.get_files.
  destruct (n_threads =? 0)%nat eqn:E; simpl.
  - unfold bind, Storage.get_file_thunk, bind, ret.
    destruct (get_files_total file_paths w Htaken Hw) as (rs & w1 & -> & Hrs & Hw1).
    unfold Storage.wait. rewrite scheduler_nil. simpl. by exists rs, w1.
  - apply Nat.eqb_neq in E. unfold Storage.wait.
    destruct (scheduled_blocks (Storage.get_file_thunk interface) file_paths E)
      as (blocks & -> & Hperm).
    destruct (run_get_tasks blocks [] w) as (rs & w' & -> & Hrs & _); [|done|].
    { apply Forall_forall. intros b Hb. apply Forall_forall. intros x Hx.
      rewrite Forall_forall in Htaken. apply Htaken. rewrite <-Hperm.
      apply list_elem_of_In, in_concat. exists b.
      split; by apply list_elem_of_In. }
    exists rs, w'. split; [done|]. by rewrite Hrs.
Qed.
End GetFiles.

Section GetFilesKeys.
(** What a batch of the interface returns is keyed by the paths [keyed]
    allows. *)
Variable keyed : list string -> list FileResult -> Prop.
Hypothesis get_files_keyed : forall ps w rs w',
  i_get_files interface ps w = (Ok rs, w') -> keyed ps rs.

Lemma run_get_tasks_keys blocks : forall acc w acc' w',
  Storage.run_tasks (map (Storage.get_file_thunk interface) blocks) acc None w
    = Some (acc', None, w') ->
  exists rss,
    acc' = acc ++ concat rss /\ Forall2 keyed blocks rss.
Proof.
  induction blocks as [|b blocks IH]; intros acc w acc' w'; simpl.
  - intros [= <- _]. exists []. by rewrite app_nil_r.
  - unfold Storage.get_file_thunk at 1. unfold bind, ret.
    destruct (i_get_files interface b w) as [[[rs|e]|] w1] eqn:Hb; [| |done].
    + intros H. apply IH in H as (rss & -> & Hrss).
      exists (rs :: rss). simpl. rewrite <-app_assoc. split; [done|].
      constructor; [by eapply get_files_keyed|done].
    + intros H. by apply run_tasks_failed in H.
Qed.
End GetFilesKeys.

(** With an interface whose batches are keyed by their paths, so is what
    the facade returns, whatever the blocks and their order. *)
Lemma get_files_keys file_paths w rs w' :
  (forall ps w rs w',
      i_get_files interface ps w = (Ok rs, w') -> map filename rs ≡ₚ ps) ->
  Storage.get_files scatter scheduler n_threads interface file_paths w
    = (Ok rs, w') ->
  map filename rs ≡ₚ file_paths.
Proof.
  intros Hkeyed. unfold Storage.get_files.
  destruct (n_threads =? 0)%nat eqn:E; simpl.
  - unfold bind, Storage.get_file_thunk, bind, ret.
    destruct (i_get_files interface file_paths w) as [[[rs1|e]|] w1] eqn:H1;
      [|done|done].
    unfold Storage.wait. rewrite scheduler_nil. simpl. intros [= <- _].
    by eapply Hkeyed.
  - apply Nat.eqb_neq in E. unfold Storage.wait.
    destruct (scheduled_blocks (Storage.get_file_thunk interface) file_paths E)
      as (blocks & -> & Hperm).
    destruct (Storage.run_tasks _ _ _ _) as [[[acc' [e|]] w1]|] eqn:Hrun;
      [done| |done].
    intros [= <- _].
    apply (run_get_tasks_keys (fun ps rs => map filename rs ≡ₚ ps) Hkeyed)
      in Hrun as (rss & -> & Hrss).
    simpl. rewrite <-Hperm. clear -Hrss.
    induction Hrss as [|b rs blocks rss Hb _ IH]; simpl; [done|].
    by rewrite map_app, Hb, IH.
Qed.

Section FilesExist.
Hypothesis files_exist_dom : forall ps w m w',
  i_files_exist interface ps w = (Ok m, w') -> dom m = list_to_set ps.

Lemma run_exist_tasks blocks : forall acc w acc' w',
  Storage.run_tasks (map (Storage.exist_thunk interface) blocks) acc None w
    = Some (acc', None, w') ->
  dom acc' = dom acc ∪ list_to_set (concat blocks).
Proof.
  induction blocks as [|b blocks IH]; intros acc w acc' w'; simpl.
  - intros [= <- _]. set_solver.
  - unfold Storage.exist_thunk at 1. unfold bind, ret.
    destruct (i_files_exist interface b w) as [[[m|e]|] w1] eqn:Hb; [| |done].
    + intros H. apply IH in H. rewrite H, dom_union_L.
      rewrite (files_exist_dom _ _ _ _ Hb), list_to_set_app_L. set_solver.
    + intros H. by apply run_tasks_failed in H.
Qed.

Lemma files_exist_keys file_paths w m w' :
  Storage.files_exist scatter scheduler n_threads interface file_paths w
    = (Ok m, w') ->
  dom m = list_to_set file_paths.
Proof.
  unfold Storage.files_exist.
  destruct (n_threads =? 0)%nat eqn:E; simpl.
  - unfold bind, Storage.exist_thunk, bind, ret.
    destruct (i_files_exist interface file_paths w) as [[[m1|e]|] w1] eqn:H1;
      [|done|done].
    unfold Storage.wait. rewrite scheduler_nil. simpl. intros [= <- _].
    rewrite dom_union_L, (files_exist_dom _ _ _ _ H1). set_solver.
  - apply Nat.eqb_neq in E. unfold Storage.wait.
    destruct (scheduled_blocks (Storage.exist_thunk interface) file_paths E)
      as (blocks & -> & Hperm).
    destruct (Storage.run_tasks _ _ _ _) as [[[acc' [e|]] w1]|] eqn:Hrun;
      [done| |done].
    intros [= <- _]. apply run_exist_tasks in Hrun.
    rewrite Hrun, (list_to_set_perm_eq _ _ Hperm). set_solver.
Qed.

Hypothesis files_exist_total : forall ps w,
  exists m, i_files_exist interface ps w = (Ok m, w).

Lemma run_exist_tasks_total blocks : forall acc w,
  exists acc',
    Storage.run_tasks (map (Storage.exist_thunk interface) blocks) acc None w
      = Some (acc', None, w).
Proof.
  induction blocks as [|b blocks IH]; intros acc w; simpl; [by eauto|].
  unfold Storage.exist_thunk at 1. unfold bind, ret.
  destruct (files_exist_total b w) as (m & ->). apply IH.
Qed.

Lemma files_exist_returns file_paths w :
  exists m,
    Storage.files_exist scatter scheduler n_threads interface file_paths w = (Ok m, w).
Proof.
  unfold Storage.files_exist.
  destruct (n_threads =? 0)%nat eqn:E; simpl.
  - unfold bind, Storage.exist_thunk, bind, ret.
    destruct (files_exist_total file_paths w) as (m & ->).
    unfold Storage.wait. rewrite scheduler_nil. simpl. by eauto.
  - apply Nat.eqb_neq in E. unfold Storage.wait.
    destruct (scheduled_blocks (Storage.exist_thunk interface) file_paths E)
      as (blocks & -> & Hperm).
    destruct (run_exist_tasks_total blocks ∅ w) as (acc' & ->). by eauto.
Qed.
End FilesExist.
End Facade.

(** *** The backends *)

Lemma file_get_file_done cdc p fp fs :
  exists r, FileInterface.get_file cdc p fp fs = (Done r, fs).
Proof.
  unfold FileInterface.get_file, try_except, bind, OS.open_read, ret, raise.
  destruct (OS.read fs _) as [data|]; simpl; [|by eauto].
  destruct (decompress cdc data _) as [c|e]; simpl; [by eauto|].
  destruct e; by eauto.
Qed.

Lemma file_get_file_pure cdc p fp fs : snd (FileInterface.get_file cdc p fp fs) = fs.
Proof. by destruct (file_get_file_done cdc p fp fs) as (r & ->). Qed.

Lemma s3_get_file_attempt_pure cdc fault p fp bk :
  snd (S3Interface.get_file_attempt cdc fault p fp bk) = bk.
Proof.
  unfold S3Interface.get_file_attempt.
  unfold try_except, bind, S3Interface.get_object, S3Interface.call, ret, raise.
  destruct (fault "get_object" _) as [e|]; simpl.
  - destruct e; try done. by destruct (_ =? "NoSuchKey").
  - destruct (bucket_lookup bk _) as [o|]; simpl; [|done].
    match goal with
    | |- context [match ?d with Ok _ => _ | Raise _ => _ end bk] =>
        destruct d as [c|e]; simpl; [done|]
    end.
    destruct e; try done. by destruct (_ =? "NoSuchKey").
Qed.

Lemma gcs_get_file_attempt_pure cdc fault p fp bk :
  snd (GoogleCloudStorageInterface.get_file_attempt cdc fault p fp bk) = bk.
Proof.
  unfold GoogleCloudStorageInterface.get_file_attempt.
  unfold bind, GoogleCloudStorageInterface.call, ret, raise.
  destruct (fault "get_blob" _) as [e|]; simpl; [done|].
  destruct (bucket_lookup bk _) as [o|]; simpl; [|done].
  destruct (fault "download" _) as [e|]; simpl; [done|].
  by destruct (GoogleCloudStorageInterface.download_as_string cdc o).
Qed.

(** A read of a cloud store is its first attempt when that returns, and
    does not return otherwise. *)
Lemma s3_get_file_cases cdc fault patience p fp bk :
  S3Interface.get_file cdc fault patience p fp bk
  = match fst (S3Interface.get_file_attempt cdc fault p fp bk) with
    | Done (Ok a) => (Done (Ok a), bk)
    | _ => (Diverge, bk)
    end.
Proof.
  unfold S3Interface.get_file. apply retry_bare_pure.
  intros bk'. apply s3_get_file_attempt_pure.
Qed.

Lemma gcs_get_file_cases cdc fault patience p fp bk :
  GoogleCloudStorageInterface.get_file cdc fault patience p fp bk
  = match fst (GoogleCloudStorageInterface.get_file_attempt cdc fault p fp bk) with
    | Done (Ok a) => (Done (Ok a), bk)
    | _ => (Diverge, bk)
    end.
Proof.
  unfold GoogleCloudStorageInterface.get_file. apply retry_bare_pure.
  intros bk'. apply gcs_get_file_attempt_pure.
Qed.

Lemma s3_get_file_pure cdc fault patience p fp bk :
  snd (S3Interface.get_file cdc fault patience p fp bk) = bk.
Proof.
  rewrite s3_get_file_cases.
  by destruct (fst (S3Interface.get_file_attempt cdc fault p fp bk)) as [[a|e]|].
Qed.

Lemma gcs_get_file_pure cdc fault patience p fp bk :
  snd (GoogleCloudStorageInterface.get_file cdc fault patience p fp bk) = bk.
Proof.
  rewrite gcs_get_file_cases.
  by destruct (fst (GoogleCloudStorageInterface.get_file_attempt cdc fault p fp bk))
    as [[a|e]|].
Qed.

(** The read of a cloud store raises nothing. *)
Lemma cloud_get_file_no_raise env p cls fp (w : backend_state cls) e :
  cls = S3InterfaceCls \/ cls = GoogleCloudStorageInterfaceCls ->
  fst (i_get_file (make_interface env p cls) fp w) <> Raise e.
Proof.
  intros [->| ->]; simpl.
  - rewrite s3_get_file_cases.
    by destruct (fst (S3Interface.get_file_attempt _ _ _ _ _)) as [[a|e']|].
  - rewrite gcs_get_file_cases.
    by destruct (fst (GoogleCloudStorageInterface.get_file_attempt _ _ _ _ _))
      as [[a|e']|].
Qed.

Lemma http_file_result env p fp c :
  HttpCount.has_room (env_max_streams env) c ->
  fst (i_get_file (http_interface env p) fp c)
  = Done (match HttpSpec.get_result (env_server env) p fp with
          | Ok c => Ok (Some c)
          | Raise e => Raise e
          end).
Proof.
  intros [Hroom Hlt]. simpl. unfold bind.
  destruct (HttpFacts.get_file_spec (env_server env) (env_max_streams env) p fp c
              Hroom Hlt) as (c' & -> & _).
  by destruct (HttpSpec.get_result (env_server env) p fp).
Qed.

(** The single read of every path ends on the filesystem and, on a
    connection with room, over HTTP. *)
Lemma interface_get_file_done env p cls fp (w : backend_state cls) :
  cls = FileInterfaceCls \/ cls = HttpInterfaceCls ->
  with_room env cls w ->
  exists r, fst (i_get_file (make_interface env p cls) fp w) = Done r.
Proof.
  intros [->| ->] Hready.
  - simpl. by destruct (file_get_file_done (env_codec env) p fp w) as (r & ->); eauto.
  - pose proof (http_file_result env p fp w Hready) as H. by eauto.
Qed.

(** There the batch returns, for each path, the entry of the outcome of
    a single [get_file], in the backend's order. *)
Lemma interface_get_files_spec env p cls file_paths (w : backend_state cls) :
  cls = FileInterfaceCls \/ cls = HttpInterfaceCls ->
  with_room env cls w ->
  exists w',
    i_get_files (make_interface env p cls) file_paths w
      = (Ok (map (fun fp =>
                    entry_of fp
                      (result_of (fst (i_get_file (make_interface env p cls) fp w))
                         (Ok None)))
               (batch_order cls file_paths)), w').
Proof.
  intros [->| ->] Hready; simpl in *.
  - exists w. unfold FileInterface.get_files.
    rewrite (sequential_get_files_spec _ (file_get_file_pure (env_codec env) p)
               (fun fp => result_of (fst (FileInterface.get_file (env_codec env) p fp w))
                            (Ok None))); [done|].
    intros fp _. by destruct (file_get_file_done (env_codec env) p fp w) as (r & ->).
  - destruct (HttpLoopFacts.get_files_spec (env_server env) (env_max_streams env) p
                file_paths w (proj1 Hready) (proj2 Hready)) as (c' & -> & Hc').
    exists c'. do 3 f_equal.
    apply map_ext. intros fp.
    pose proof (http_file_result env p fp w Hready) as H. simpl in H.
    rewrite H. simpl. unfold HttpSpec.file_result.
    by destruct (HttpSpec.get_result (env_server env) p fp).
Qed.

Lemma batch_order_perm cls file_paths : batch_order cls file_paths ≡ₚ file_paths.
Proof. destruct cls; try done. symmetry. apply Permutation_rev. Qed.

(** On a cloud store the batch returns when the first attempt at every
    path returns, and does not return otherwise. *)
Lemma s3_get_files_returns cdc fault patience p file_paths bk :
  (forall fp, fp ∈ file_paths ->
              is_ok (fst (S3Interface.get_file_attempt cdc fault p fp bk)) = true) ->
  S3Interface.get_files cdc fault patience p file_paths bk
  = (Ok (map (fun fp =>
                entry_of fp
                  (result_of (fst (S3Interface.get_file_attempt cdc fault p fp bk))
                     (Ok None))) file_paths), bk).
Proof.
  intros Hok. unfold S3Interface.get_files.
  rewrite (sequential_get_files_spec _ (s3_get_file_pure cdc fault patience p)
             (fun fp => result_of (fst (S3Interface.get_file_attempt cdc fault p fp bk))
                          (Ok None))); [done|].
  intros fp Hfp. rewrite s3_get_file_cases. specialize (Hok fp Hfp).
  by destruct (fst (S3Interface.get_file_attempt cdc fault p fp bk)) as [[a|e]|].
Qed.

Lemma gcs_get_files_returns cdc fault patience p file_paths bk :
  (forall fp, fp ∈ file_paths ->
              is_ok (fst (GoogleCloudStorageInterface.get_file_attempt cdc fault p fp bk))
              = true) ->
  GoogleCloudStorageInterface.get_files cdc fault patience p file_paths bk
  = (Ok (map (fun fp =>
                entry_of fp
                  (result_of
                     (fst (GoogleCloudStorageInterface.get_file_attempt cdc fault p fp bk))
                     (Ok None))) file_paths), bk).
Proof.
  intros Hok. unfold GoogleCloudStorageInterface.get_files.
  rewrite (sequential_get_files_spec _ (gcs_get_file_pure cdc fault patience p)
             (fun fp =>
                result_of
                  (fst (GoogleCloudStorageInterface.get_file_attempt cdc fault p fp bk))
                  (Ok None))); [done|].
  intros fp Hfp. rewrite gcs_get_file_cases. specialize (Hok fp Hfp).
  by destruct (fst (GoogleCloudStorageInterface.get_file_attempt cdc fault p fp bk))
    as [[a|e]|].
Qed.

(** The first path whose attempt does not return its content splits the
    batch. *)
Lemma first_failing {A} (f : A -> bool) (l : list A) :
  (forall x, x ∈ l -> f x = true) \/
  exists l1 q l2, l = l1 ++ q :: l2 /\ (forall x, x ∈ l1 -> f x = true) /\ f q = false.
Proof.
  induction l as [|x l IH]; [left; by intros ? ?%elem_of_nil|].
  destruct (f x) eqn:Hx.
  - destruct IH as [Hall|(l1 & q & l2 & -> & Hl1 & Hq)].
    + left. intros y [->|Hy]%elem_of_cons; [done|by apply Hall].
    + right. exists (x :: l1), q, l2. repeat split; [|done].
      intros y [->|Hy]%elem_of_cons; [done|by apply Hl1].
  - right. exists [], x, l. repeat split; [|done]. by intros ? ?%elem_of_nil.
Qed.

Lemma s3_get_files_hangs cdc fault patience p file_paths bk q :
  q ∈ file_paths ->
  is_ok (fst (S3Interface.get_file_attempt cdc fault p q bk)) = false ->
  S3Interface.get_files cdc fault patience p file_paths bk = (Diverge, bk).
Proof.
  intros Hq Hbad.
  destruct (first_failing
              (fun fp => is_ok (fst (S3Interface.get_file_attempt cdc fault p fp bk)))
              file_paths) as [Hall|(l1 & q' & l2 & -> & Hl1 & Hq')].
  { rewrite Hall in Hbad; done. }
  unfold S3Interface.get_files.
  apply (sequential_get_files_hangs _ (s3_get_file_pure cdc fault patience p)).
  - intros fp Hfp. rewrite s3_get_file_cases. specialize (Hl1 fp Hfp).
    destruct (fst (S3Interface.get_file_attempt cdc fault p fp bk)) as [[a|e]|];
      by eauto.
  - rewrite s3_get_file_cases.
    by destruct (fst (S3Interface.get_file_attempt cdc fault p q' bk)) as [[a|e]|].
Qed.

Lemma gcs_get_files_hangs cdc fault patience p file_paths bk q :
  q ∈ file_paths ->
  is_ok (fst (GoogleCloudStorageInterface.get_file_attempt cdc fault p q bk)) = false ->
  GoogleCloudStorageInterface.get_files cdc fault patience p file_paths bk
  = (Diverge, bk).
Proof.
  intros Hq Hbad.
  destruct (first_failing
              (fun fp =>
                 is_ok (fst (GoogleCloudStorageInterface.get_file_attempt
                               cdc fault p fp bk)))
              file_paths) as [Hall|(l1 & q' & l2 & -> & Hl1 & Hq')].
  { rewrite Hall in Hbad; done. }
  unfold GoogleCloudStorageInterface.get_files.
  apply (sequential_get_files_hangs _ (gcs_get_file_pure cdc fault patience p)).
  - intros fp Hfp. rewrite gcs_get_file_cases. specialize (Hl1 fp Hfp).
    destruct (fst (GoogleCloudStorageInterface.get_file_attempt cdc fault p fp bk))
      as [[a|e]|]; by eauto.
  - rewrite gcs_get_file_cases.
    by destruct (fst (GoogleCloudStorageInterface.get_file_attempt cdc fault p q' bk))
      as [[a|e]|].
Qed.

(** *** The keys of the existence checks *)

Lemma file_files_exist_spec p file_paths : forall result_ fs,
  exists m,
    FileInterface.files_exist_loop p file_paths result_ fs = (Ok m, fs) /\
    dom m = dom result_ ∪ list_to_set file_paths.
Proof.
  induction file_paths as [|fp l IH]; intros result_ fs; simpl.
  - exists result_. split; [done|]. set_solver.
  - unfold bind, FileInterface.exists_.
    destruct (IH (<[fp := Some (OS.exists_ fs (FileInterface.get_path_to_file p fp)
                                || OS.exists_ fs (FileInterface.get_path_to_file p fp
                                                  ++ ".gz"))]> result_) fs)
      as (m & -> & Hm).
    exists m. split; [done|]. rewrite Hm, dom_insert_L. set_solver.
Qed.

Lemma s3_files_exist_dom fault p file_paths : forall result_ bk m bk',
  S3Interface.files_exist_loop fault p file_paths result_ bk = (Ok m, bk') ->
  dom m = dom result_ ∪ list_to_set file_paths.
Proof.
  induction file_paths as [|fp l IH]; intros result_ bk m bk'; simpl.
  - intros [= <- _]. set_solver.
  - unfold bind.
    destruct (S3Interface.exists_ fault p fp bk) as [[[b|e]|] bk1]; [|done|done].
    intros H. apply IH in H. rewrite H, dom_insert_L. set_solver.
Qed.

(** The batches of the Google store write under the paths they are given. *)
Lemma gcs_batch_get_blobs_dom fault p bk file_paths : forall result_,
  dom (fst (GoogleCloudStorageInterface.batch_get_blobs fault p file_paths result_ bk))
  = dom result_ ∪ list_to_set file_paths.
Proof.
  induction file_paths as [|fp l IH]; intros result_; simpl; [set_solver|].
  specialize (IH (<[fp := Some (is_ok (Done
                    (GoogleCloudStorageInterface.batch_answer fault
                       (GoogleCloudStorageInterface.get_path_to_file p fp) bk)))]>
                    result_)).
  destruct (GoogleCloudStorageInterface.batch_get_blobs _ _ _ _ _) as [result' failure].
  simpl in *. rewrite IH, dom_insert_L. set_solver.
Qed.

Lemma gcs_files_exist_batches_dom fault p file_paths starts :
  forall result_ bk m bk',
    list_to_set file_paths ⊆ dom result_ ->
    GoogleCloudStorageInterface.files_exist_batches fault p file_paths starts result_ bk
      = (Ok m, bk') ->
    dom m = dom result_.
Proof.
  induction starts as [|i starts IH]; intros result_ bk m bk' Hsub; simpl.
  - by intros [= <- _].
  - unfold bind, GoogleCloudStorageInterface.files_exist_batch.
    pose proof (gcs_batch_get_blobs_dom fault p bk
                  (take GoogleCloudStorageInterface.MAX_BATCH_SIZE (drop i file_paths))
                  result_) as Hdom.
    destruct (GoogleCloudStorageInterface.batch_get_blobs _ _ _ _ _)
      as [result' failure]. simpl in Hdom.
    assert (dom result' = dom result_) as Hsame.
    { rewrite Hdom. apply set_eq. intros x. rewrite elem_of_union, elem_of_list_to_set.
      split; [|by left]. intros [?|Hx]; [done|]. apply Hsub, elem_of_list_to_set.
      apply elem_of_take in Hx as (j & Hx & _).
      rewrite lookup_drop in Hx. by eapply list_elem_of_lookup_2. }
    assert (forall bk1, GoogleCloudStorageInterface.files_exist_batches fault p
              file_paths starts result' bk1 = (Done (Ok m), bk') -> dom m = dom result_)
      as Hrest.
    { intros bk1 H. apply IH in H; [congruence|]. by rewrite Hsame. }
    destruct failure as [e|]; [|by apply Hrest].
    destruct e as [| | | | |c n| | | |]; try done.
    destruct c; try done. by apply Hrest.
Qed.

Lemma gcs_none_for_all_dom (file_paths : list string) :
  dom (GoogleCloudStorageInterface.none_for_all file_paths) = list_to_set file_paths.
Proof.
  unfold GoogleCloudStorageInterface.none_for_all.
  assert (forall m : gmap string (option bool),
             dom (foldl (fun m fp => <[fp := None]> m) m file_paths)
             = dom m ∪ list_to_set file_paths) as H.
  { induction file_paths as [|fp l IH]; intros m; simpl; [set_solver|].
    rewrite IH, dom_insert_L. set_solver. }
  rewrite H. set_solver.
Qed.

Lemma gcs_files_exist_dom fault p file_paths bk m bk' :
  GoogleCloudStorageInterface.files_exist fault p file_paths bk = (Ok m, bk') ->
  dom m = list_to_set file_paths.
Proof.
  unfold GoogleCloudStorageInterface.files_exist, bind.
  destruct (GoogleCloudStorageInterface.files_exist_batches _ _ _ _ _ _)
    as [[[result_|e]|] bk1] eqn:Hb; [|done|done].
  apply gcs_files_exist_batches_dom in Hb; [|by rewrite gcs_none_for_all_dom].
  unfold GoogleCloudStorageInterface.blobs_exist.
  destruct (decide _); [|done]. intros [= <- _].
  by rewrite dom_fmap_L, Hb, gcs_none_for_all_dom.
Qed.

(** Whatever the state of the backend, the dictionary an interface
    returns has the paths as its keys. *)
Lemma interface_files_exist_dom env p cls file_paths (w w' : backend_state cls) m :
  i_files_exist (make_interface env p cls) file_paths w = (Ok m, w') ->
  dom m = list_to_set file_paths.
Proof.
  destruct cls; simpl in *.
  - unfold FileInterface.files_exist.
    destruct (file_files_exist_spec p file_paths ∅ w) as (m' & -> & Hm).
    intros [= <- _]. rewrite Hm. set_solver.
  - apply gcs_files_exist_dom.
  - intros H. apply s3_files_exist_dom in H. rewrite H. set_solver.
  - apply HttpLoopFacts.files_exist_dom.
Qed.

(** *** Existence checks in a batch *)

Lemma elem_of_rev {A} (x : A) (l : list A) : x ∈ rev l <-> x ∈ l.
Proof. rewrite !list_elem_of_In. symmetry. apply in_rev. Qed.

Section ExistAll.
Variable server : string -> string -> response.
Variable _path : BucketPath.

Local Abbreviation exists_result := (HttpSpec.exists_result server _path).
Local Abbreviation exist_all := (HttpSpec.exist_all server _path).

Lemma exist_all_ok l : forall m0,
  (forall q, q ∈ l -> is_ok (exists_result q) = true) ->
  exists m, exist_all l m0 = Ok m.
Proof.
  induction l as [|fp l IH]; intros m0 Hok; simpl; [by eauto|].
  pose proof (Hok fp ltac:(by left)) as Hfp.
  destruct (exists_result fp) as [b|e]; [|done].
  apply IH. intros q Hq. apply Hok. by right.
Qed.

Lemma exist_all_raise l : forall m0 q e,
  q ∈ l -> exists_result q = Raise e -> exists e', exist_all l m0 = Raise e'.
Proof.
  induction l as [|fp l IH]; intros m0 q e Hq He; [by inv Hq|].
  simpl. destruct (exists_result fp) as [b|e1] eqn:Hfp; [|by eauto].
  apply elem_of_cons in Hq as [->|Hq]; [congruence|]. by eapply IH.
Qed.

Lemma exist_all_other l : forall m0 m q,
  exist_all l m0 = Ok m -> q ∉ l -> m !! q = m0 !! q.
Proof.
  induction l as [|fp l IH]; intros m0 m q; simpl.
  - by intros [= <-].
  - destruct (exists_result fp) as [b|e]; [|done].
    intros H Hq. apply not_elem_of_cons in Hq as [Hne Hq].
    rewrite (IH _ _ _ H Hq). by rewrite lookup_insert_ne.
Qed.

Lemma exist_all_lookup l : forall m0 m q,
  exist_all l m0 = Ok m -> q ∈ l ->
  exists b, exists_result q = Ok b /\ m !! q = Some (Some b).
Proof.
  induction l as [|fp l IH]; intros m0 m q; simpl; [by intros _ Hq; inv Hq|].
  destruct (exists_result fp) as [b|e] eqn:Hfp; [|done].
  intros H Hq. destruct (decide (q ∈ l)) as [Hin|Hout]; [by eapply IH|].
  apply elem_of_cons in Hq as [->|Hq]; [|done].
  exists b. split; [done|].
  rewrite (exist_all_other _ _ _ _ H Hout). by rewrite lookup_insert_eq.
Qed.
End ExistAll.

End BatchFacts.

(** The sample scatter cuts the sequence into blocks that make it up. *)
Lemma concat_chunks len n : forall l, concat (chunks len n l) = take (n * len) l.
Proof.
  induction n as [|n IH]; intros l; simpl; [by rewrite take_0|].
  by rewrite IH, take_take_drop.
Qed.

Lemma chunk_scatter_concat l n : n <> 0 -> concat (chunk_scatter l n) = l.
Proof.
  intros Hn. unfold chunk_scatter. rewrite concat_chunks. apply take_ge.
  pose proof (Nat.div_mod_eq (length l + n - 1) n) as Hdiv.
  pose proof (Nat.mod_upper_bound (length l + n - 1) n Hn). lia.
Qed.




(** C2, as amended.  On the filesystem backend, and over HTTP on a
    connection with room for a stream, the failure of one item of
    [get_files] does not stop the others: the batch returns an entry for
    every path; the entry of an item is that of the outcome of its single
    [get_file], so it carries the exception when that raises; and the
    other entries are those of the batch without the item.  On the HTTP
    backend, [files_exist] returns the results of the single checks when
    none of them raises (a not-found or forbidden answer counts as false),
    and raises, with no result for any path, when the check of one path
    raises. *)
Theorem get_files_isolates_failures (env : Env) (p : BucketPath)
    (cls : interface_cls) (w : backend_state cls) :
  cls = FileInterfaceCls \/ cls = HttpInterfaceCls ->
  with_room env cls w ->
  (forall l1 q l2,
      exists before after e w1 w2,
        i_get_files (make_interface env p cls) (l1 ++ q :: l2) w
          = (Ok (before ++ e :: after), w1) /\
        i_get_files (make_interface env p cls) (l1 ++ l2) w
          = (Ok (before ++ after), w2) /\
        (exists r, fst (i_get_file (make_interface env p cls) q w) = Done r /\
                   e = entry_of q r) /\
        filename e = q /\
        forall err, fst (i_get_file (make_interface env p cls) q w) = Raise err ->
                    error e = Some err /\ content e = None) /\
  (forall (c : connection) (file_paths : list string),
      with_room env HttpInterfaceCls c ->
      ((forall q, q ∈ file_paths ->
                  is_ok (fst (i_exists (http_interface env p) q c)) = true) ->
       exists m c',
         i_files_exist (http_interface env p) file_paths c = (Ok m, c') /\
         forall q, q ∈ file_paths ->
                   exists b, fst (i_exists (http_interface env p) q c) = Ok b /\
                             m !! q = Some (Some b)) /\
      (forall q err, q ∈ file_paths ->
                     fst (i_exists (http_interface env p) q c) = Raise err ->
                     exists err' c',
                       i_files_exist (http_interface env p) file_paths c
                         = (Raise err', c'))).
Proof.
  intros Hcls Hready. split.
  - intros l1 q l2.
    destruct (BatchFacts.interface_get_files_spec env p cls (l1 ++ q :: l2) w
                Hcls Hready) as (w1 & ->).
    destruct (BatchFacts.interface_get_files_spec env p cls (l1 ++ l2) w Hcls Hready)
      as (w2 & ->).
    set (g := fun fp =>
                entry_of fp
                  (result_of (fst (i_get_file (make_interface env p cls) fp w))
                     (Ok None))).
    assert (exists a b, batch_order cls (l1 ++ q :: l2) = a ++ q :: b /\
                        batch_order cls (l1 ++ l2) = a ++ b) as (a & b & -> & ->).
    { destruct cls; simpl; try by exists l1, l2.
      exists (rev l2), (rev l1). rewrite !rev_app_distr. simpl.
      by rewrite <-app_assoc. }
    exists (map g a), (map g b), (g q), w1, w2.
    rewrite !map_app. simpl.
    split; [done|]. split; [done|]. subst g. simpl.
    destruct (BatchFacts.interface_get_file_done env p cls q w Hcls Hready)
      as (r & Hr).
    rewrite Hr. simpl. split; [by exists r|]. split.
    + by destruct r.
    + by intros err [= ->].
  - intros c file_paths [Hroom Hlt].
    assert (forall q, fst (i_exists (http_interface env p) q c)
                      = HttpSpec.exists_result (env_server env) p q) as Hsingle.
    { intros q. simpl.
      by destruct (HttpFacts.exists_spec (env_server env) (env_max_streams env) p q c
                     Hroom Hlt) as (c' & -> & _). }
    destruct (HttpLoopFacts.files_exist_spec (env_server env) (env_max_streams env) p
                file_paths c Hroom Hlt) as (c' & Hbatch).
    simpl i_files_exist. rewrite Hbatch. split.
    + intros Hok.
      destruct (BatchFacts.exist_all_ok (env_server env) p (rev file_paths)
                  (HttpInterface.none_for_all file_paths)) as (m & Hm).
      { intros q Hq. rewrite <-Hsingle. apply Hok. by apply BatchFacts.elem_of_rev. }
      exists m, c'. rewrite Hm. split; [done|].
      intros q Hq. rewrite Hsingle.
      destruct (BatchFacts.exist_all_lookup (env_server env) p (rev file_paths)
                  _ m q Hm) as (b & -> & Hb); [by apply BatchFacts.elem_of_rev|].
      by exists b.
    + intros q err Hq Herr. rewrite Hsingle in Herr. injection Herr as Herr.
      destruct (BatchFacts.exist_all_raise (env_server env) p (rev file_paths)
                  (HttpInterface.none_for_all file_paths) q err) as (err' & ->);
        [by apply BatchFacts.elem_of_rev|done|by eauto].
Qed.

Lemma get_files_isolates_failures_witness :
  exists before after e w1 w2,
    i_get_files (make_interface sample_env http_layer HttpInterfaceCls)
      (["a"] ++ "b" :: ["d"]) busy = (Ok (before ++ e :: after), w1) /\
    i_get_files (make_interface sample_env http_layer HttpInterfaceCls)
      (["a"] ++ ["d"]) busy = (Ok (before ++ after), w2) /\
    e = {| filename := "b"; content := None;
           error := Some (HTTPException HTTPServerError 503) |}.
Proof.
  destruct (get_files_isolates_failures sample_env http_layer HttpInterfaceCls busy)
    as (H & _).
  - by right.
  - split; [vm_compute; lia|]. repeat constructor.
  - destruct (H ["a"] "b" ["d"])
      as (before & after & e & w1 & w2 & H1 & H2 & (r & Hr & He) & _).
    exists before, after, e, w1, w2. split; [done|]. split; [done|].
    rewrite He. vm_compute in Hr. injection Hr as <-. reflexivity.
Defined.

(** C2, as stated, fails.  For [files_exist] on the HTTP backend, the
    client-class answer for [c], and likewise the server-class answer for
    [b] that outlasts the retries, is raised, and the batch returns no
    entry for [a], which alone is reported as existing.  For [get_files]
    on the HTTP backend, on a connection that holds the one stream its
    peer allows, the batch has no entry, and so none with an error, for
    [b], whose single read fails.  And for [get_files] on S3, when the
    service refuses the read of [a/e], the batch does not return, for
    [a/e] or for the two paths the service does answer, however many
    attempts are waited for. *)
Lemma batches_do_not_isolate_failures :
  fst (HttpInterface.files_exist sample_server 100 http_layer ["a"; "c"] idle)
    = Raise (HTTPException HTTPClientError 400) /\
  fst (HttpInterface.files_exist sample_server 100 http_layer ["a"; "b"] idle)
    = Raise (HTTPException HTTPServerError 503) /\
  fst (HttpInterface.files_exist sample_server 100 http_layer ["a"] idle)
    = Ok {[ "a" := Some true ]} /\
  (fst (HttpInterface.get_file sample_server 100 http_layer "b" idle)
     = Raise (HTTPException HTTPServerError 503) /\
   HttpInterface.get_files sample_server 1 http_layer ["a"; "b"] busy = (Ok [], busy)) /\
  (forall patience,
      S3Interface.get_files framing_codec
        (refusing_key "get_object" (S3Interface.get_path_to_file cloud_layer "a/e")
           (ClientError "AccessDenied"))
        patience cloud_layer ["a/b/c"; "a/e"; "a/b/d"]
        (abc_blobs (bytes_of "c") (bytes_of "d") (bytes_of "e"))
      = (Diverge, abc_blobs (bytes_of "c") (bytes_of "d") (bytes_of "e"))).
Proof.
  split; [|split; [|split; [|split]]]; try (vm_compute; reflexivity).
  - split; vm_compute; reflexivity.
  - intros patience. apply BatchFacts.s3_get_files_hangs with "a/e".
    + apply elem_of_cons. right. apply elem_of_cons. by left.
    + reflexivity.
Qed.

(** ** Absent paths *)

Module AbsenceFacts.

(** On the filesystem, a path with neither file nor compressed sibling
    reads as [None] and does not exist. *)
Lemma file_absent cdc p f fs :
  OS.exists_ fs (FileInterface.get_path_to_file p f) = false ->
  OS.exists_ fs (FileInterface.get_path_to_file p f ++ ".gz") = false ->
  FileInterface.get_file cdc p f fs = (Ok None, fs) /\
  FileInterface.exists_ p f fs = (Ok false, fs).
Proof.
  intros Hplain Hgz. unfold FileInterface.get_file, FileInterface.exists_.
  rewrite Hplain, Hgz. split; [|done].
  unfold try_except, bind, OS.open_read.
  apply orb_false_iff in Hplain as [Hfile _].
  rewrite OSFacts.isfile_read in Hfile.
  destruct (OS.read fs _) as [d|]; [|done].
  apply bool_decide_eq_false in Hfile. destruct Hfile. by eexists.
Qed.

(** On S3, a key that is not in the bucket reads as [None] and does not
    exist, when the service answers. *)
Lemma s3_absent cdc fault patience p f bk :
  bucket_lookup bk (S3Interface.get_path_to_file p f) = None ->
  fault "get_object" (S3Interface.get_path_to_file p f) = None ->
  fault "head_object" (S3Interface.get_path_to_file p f) = None ->
  S3Interface.get_file cdc fault patience p f bk = (Ok None, bk) /\
  S3Interface.exists_ fault p f bk = (Ok false, bk).
Proof.
  intros Hno Hget Hhead. split.
  - unfold S3Interface.get_file. apply RetryUse.retry_bare_ok.
    unfold S3Interface.get_file_attempt.
    unfold try_except, bind, S3Interface.get_object, S3Interface.call.
    by rewrite Hget, Hno.
  - unfold S3Interface.exists_, try_except, bind, S3Interface.head_object,
      S3Interface.call.
    by rewrite Hhead, Hno.
Qed.

(** On the Google store likewise. *)
Lemma gcs_absent cdc fault patience p f bk :
  bucket_lookup bk (GoogleCloudStorageInterface.get_path_to_file p f) = None ->
  fault "get_blob" (GoogleCloudStorageInterface.get_path_to_file p f) = None ->
  GoogleCloudStorageInterface.get_file cdc fault patience p f bk = (Ok None, bk) /\
  GoogleCloudStorageInterface.exists_ fault p f bk = (Ok false, bk).
Proof.
  intros Hno Hget. split.
  - unfold GoogleCloudStorageInterface.get_file. apply RetryUse.retry_bare_ok.
    unfold GoogleCloudStorageInterface.get_file_attempt.
    unfold bind, GoogleCloudStorageInterface.call. by rewrite Hget, Hno.
  - unfold GoogleCloudStorageInterface.exists_, bind, GoogleCloudStorageInterface.call.
    by rewrite Hget, Hno.
Qed.

(** Over HTTP, the existence check of a path answered with 404 is
    false. *)
Lemma http_exists_absent env p f c :
  backend_ready env HttpInterfaceCls c ->
  status (env_server env "HEAD" (HttpInterface.get_path_to_file p f)) = 404 ->
  fst (i_exists (http_interface env p) f c) = Ok false.
Proof.
  intros [Hmax Hidle] H404. simpl.
  destruct (HttpFacts.exists_spec (env_server env) (env_max_streams env) p f c)
    as (c' & -> & _); [rewrite Hidle; simpl; lia|rewrite Hidle; constructor|].
  simpl. unfold HttpSpec.exists_result, HttpSpec.answer_class. by rewrite H404.
Qed.
End AbsenceFacts.

(** C8 at the failing input: over HTTP, the single [get] of a path that
    the server answers with 404 raises the not-found exception instead of
    returning [None]; the existence check of the same path returns
    false. *)
Theorem http_get_of_absent_path_raises (env : Env) (p : BucketPath) (f : string)
    (c : connection) :
  backend_ready env HttpInterfaceCls c ->
  status (env_server env "GET" (HttpInterface.get_path_to_file p f)) = 404 ->
  fst (SimpleStorage.get_file (http_interface env p) f c)
    = Raise (HTTPException NotFound 404).
Proof.
  intros [Hmax Hidle] H404. unfold SimpleStorage.get_file. simpl. unfold bind.
  destruct (HttpFacts.get_file_spec (env_server env) (env_max_streams env) p f c)
    as (c' & -> & _); [rewrite Hidle; simpl; lia|rewrite Hidle; constructor|].
  unfold HttpSpec.get_result, HttpSpec.answer_error, HttpSpec.answer_class.
  by rewrite H404.
Qed.

Lemma http_get_of_absent_path_raises_witness :
  fst (SimpleStorage.get_file (http_interface sample_env http_layer) "missing" idle)
    = Raise (HTTPException NotFound 404).
Proof.
  apply http_get_of_absent_path_raises.
  - split; [vm_compute; lia|reflexivity].
  - reflexivity.
Defined.

(** C9.  The HTTP interface, which [Storage] selects for the protocols
    [http] and [https], raises [NotImplementedError] on every [put_file],
    [delete_file] and [list_files], whatever the arguments, through the
    facade as well; no request is made and the connection stays as it
    was. *)
Theorem http_backend_is_read_only (env : Env) (p : BucketPath) (c : connection) :
  (forall b pa,
      Storage.select_cls {| protocol := "http"; bucket := b; path := pa |}
        = Some HttpInterfaceCls /\
      Storage.select_cls {| protocol := "https"; bucket := b; path := pa |}
        = Some HttpInterfaceCls) /\
  (forall f content ct cp cc,
      i_put_file (make_interface env p HttpInterfaceCls) f content ct cp cc c
        = (Raise NotImplementedError, c) /\
      SimpleStorage.put_file (env_codec env) (make_interface env p HttpInterfaceCls)
        f content ct cp cc c = (Raise NotImplementedError, c)) /\
  (forall f,
      i_delete_file (make_interface env p HttpInterfaceCls) f c
        = (Raise NotImplementedError, c) /\
      SimpleStorage.delete_file (make_interface env p HttpInterfaceCls) f c
        = (Raise NotImplementedError, c) /\
      forall fs, SimpleStorage.delete_files (make_interface env p HttpInterfaceCls)
                   (f :: fs) c = (Raise NotImplementedError, c)) /\
  (forall prefix flat,
      i_list_files (make_interface env p HttpInterfaceCls) prefix flat c
        = (Raise NotImplementedError, c) /\
      SimpleStorage.list_files (make_interface env p HttpInterfaceCls) prefix flat c
        = (Raise NotImplementedError, c) /\
      Storage.list_files (make_interface env p HttpInterfaceCls) prefix flat c
        = (Raise NotImplementedError, c)).
Proof.
  split; [done|]. split; [|split; [|done]].
  - intros f content ct cp cc. split; [done|].
    unfold SimpleStorage.put_file, SimpleStorage.put_files, compress.
    destruct cp as [m|]; [|done].
    destruct (m =? ""); [done|]. by destruct (m =? "gzip").
  - intros f. repeat split.
Qed.

(** ** Compressed files in a listing *)

Module StripFacts.

Lemma append_nil_r (s : string) : (s ++ "")%string = s.
Proof.
  induction s as [|a s IH]; [done|].
  change (String a s ++ "")%string with (String a (s ++ "")). by rewrite IH.
Qed.

Lemma substring_full p : substring 0 (String.length p) p = p.
Proof. induction p as [|a p IH]; simpl; [done|]. by rewrite IH. Qed.

Lemma substring_split p : forall k,
  k <= String.length p ->
  (substring 0 k p ++ substring k (String.length p - k) p)%string = p.
Proof.
  induction p as [|a p IH]; intros k Hk.
  - by destruct k.
  - destruct k as [|k].
    + rewrite Nat.sub_0_r, substring_full. done.
    + change (String a (substring 0 k p ++ substring k (String.length p - k) p)
              = String a p).
      f_equal. apply IH. simpl in Hk. lia.
Qed.

Lemma rfind_succ_le c p : rfind_succ c p <= String.length p.
Proof.
  induction p as [|a p IH]; simpl; [lia|].
  destruct (rfind_succ c p); [destruct (Ascii.eqb a c); lia|lia].
Qed.

(** The two parts [splitext] returns make up the path. *)
Lemma splitext_append p :
  (fst (os_path_splitext p) ++ snd (os_path_splitext p))%string = p.
Proof.
  unfold os_path_splitext.
  destruct (rfind_succ "/" p <? rfind_succ "." p)%nat; simpl;
    [|apply append_nil_r].
  destruct (all_chars _ _); simpl; [apply append_nil_r|].
  apply substring_split. pose proof (rfind_succ_le "." p). lia.
Qed.

Lemma append_inj_l (s s' t : string) : (s ++ t)%string = (s' ++ t)%string -> s = s'.
Proof.
  revert s'. induction s as [|a s IH]; intros [|b s'] H.
  - done.
  - apply (f_equal String.length) in H.
    rewrite !OSFacts.length_append in H. simpl in H. lia.
  - apply (f_equal String.length) in H.
    rewrite !OSFacts.length_append in H. simpl in H. lia.
  - change (String a (s ++ t) = String b (s' ++ t)) in H.
    injection H as -> H. f_equal. by apply IH.
Qed.

Lemma stripgz_listed_as name f :
  FileInterface.stripgz f = name <-> listed_as name f.
Proof.
  unfold FileInterface.stripgz, listed_as.
  pose proof (splitext_append f) as Happ.
  destruct (os_path_splitext f) as [base ext]. simpl in *.
  destruct (ext =? ".gz") eqn:E.
  - apply String.eqb_eq in E as ->. split.
    + intros <-. by right.
    + intros [[_ ?]|[-> _]]; [done|]. by apply append_inj_l in Happ.
  - apply String.eqb_neq in E. split.
    + intros <-. by left.
    + by intros [[-> _]|[_ ?]].
Qed.

Lemma count_stripped name (raw : list string) :
  length (filter (eq name) (map FileInterface.stripgz raw))
  = length (filter (listed_as name) raw).
Proof.
  induction raw as [|f raw IH]; simpl; [done|].
  destruct (decide (listed_as name f)) as [Hl|Hn].
  - rewrite (filter_cons_True (listed_as name)) by done.
    rewrite filter_cons_True by (symmetry; by apply stripgz_listed_as).
    simpl. by rewrite IH.
  - rewrite (filter_cons_False (listed_as name)) by done.
    rewrite filter_cons_False; [done|].
    intros Heq. apply Hn, stripgz_listed_as. done.
Qed.
End StripFacts.

(** C5, as amended.  On the filesystem backend, when every character of
    the listed names has a bucket, [list_files] strips the [.gz] extension
    of each enumerated name and keeps every entry: the listing is as long
    as the enumeration, and [name] occurs in it once for each enumerated
    file called [name] (not itself ending in a [.gz] extension) or
    [name.gz].  A compressed file whose uncompressed sibling is enumerated
    too is listed twice. *)
Theorem list_files_keeps_every_entry (p : BucketPath) (prefix : string)
    (flat : bool) (fs : filesystem) :
  RadixSortSpec.chars_ok
    (map FileInterface.stripgz (FileInterface.list_filenames p fs prefix flat)) ->
  exists out,
    FileInterface.list_files p prefix flat fs = (Ok out, fs) /\
    length out = length (FileInterface.list_filenames p fs prefix flat) /\
    forall name,
      length (filter (eq name) out)
      = length (filter (listed_as name)
                  (FileInterface.list_filenames p fs prefix flat)).
Proof.
  intros Hok. unfold FileInterface.list_files.
  destruct (RadixSortFacts.radix_sort_sorts _ Hok) as (out & -> & Hperm & _).
  exists out. split; [done|]. split.
  - by rewrite Hperm, length_map.
  - intros name. by rewrite Hperm, StripFacts.count_stripped.
Qed.

Lemma list_files_keeps_every_entry_witness :
  exists out,
    FileInterface.list_files tmp_layer "" false sibling_files = (Ok out, sibling_files) /\
    length out = 3 /\
    length (filter (eq "x") out) = 2 /\
    length (filter (eq "y") out) = 1.
Proof.
  destruct (list_files_keeps_every_entry tmp_layer "" false sibling_files)
    as (out & Hout & Hlen & Hcount).
  - apply chars_okb_spec. vm_compute. reflexivity.
  - exists out. split; [done|]. split; [by rewrite Hlen|].
    rewrite !Hcount. split; reflexivity.
Defined.

(** C5, as stated, fails: with [x.gz] and its uncompressed sibling [x]
    both stored, the listing has two entries [x]. *)
Lemma compressed_sibling_listed_twice :
  fst (FileInterface.list_files tmp_layer "" false sibling_files)
    = Ok ["x"; "x"; "y"] /\
  fst (FileInterface.list_files tmp_layer "" true sibling_files)
    = Ok ["x"; "x"; "y"] /\
  length (filter (eq "x") ["x"; "x"; "y"]) = 2.
Proof. repeat split; vm_compute; reflexivity. Qed.

(** * Further properties *)

(** ** Requests sent over the HTTP connection *)

Module HttpCountFacts.
Section HttpCountFacts.
Variable server : string -> string -> response.
Variable max_streams : nat.
Variable _path : BucketPath.

Local Abbreviation tracks := (HttpSpec.tracks max_streams _path []).
Local Abbreviation get_result := (HttpSpec.get_result server _path).
Local Abbreviation exists_result := (HttpSpec.exists_result server _path).
Local Abbreviation file_result := (HttpSpec.file_result server _path).
Local Abbreviation send_next := (HttpInterface._send_next_request max_streams _path).
Local Abbreviation bump := HttpCount.bump.
Local Abbreviation has_room := (HttpCount.has_room max_streams).
Local Abbreviation server_error := (HttpCount.server_error server _path).

Lemma bump_bump j k c : bump j (bump k c) = bump (k + j) c.
Proof. unfold HttpCount.bump. simpl. f_equal. lia. Qed.

Lemma bump_0 c : bump 0 c = c.
Proof. destruct c. unfold HttpCount.bump. simpl. f_equal. lia. Qed.

Lemma has_room_bump k c : has_room c -> has_room (bump k c).
Proof.
  intros [Hroom Hlt]. split; simpl; [done|].
  eapply Forall_impl; [done|]. simpl. intros. lia.
Qed.

(** A call whose attempts each send one request and come to the same
    result makes one attempt, or all of them when the result is an
    exception the predicate accepts. *)
Lemma call_requests {A} (retry_if : exn -> bool) (f : M connection A) (r : result A) :
  (forall c, has_room c -> f c = (r, bump 1 c)) ->
  forall remaining n c,
    has_room c ->
    fst (Retry.call retry_if f remaining n c)
    = (r, bump (match r with
                | Raise e => if retry_if e then S remaining else 1
                | Ok _ => 1
                end) c).
Proof.
  intros Hf. induction remaining as [|k IH]; intros n c Hc; simpl;
    rewrite (Hf c Hc); destruct r as [a|e]; simpl; try done;
    destruct (retry_if e) eqn:He; simpl; try done.
  rewrite IH by by apply has_room_bump.
  by rewrite bump_bump.
Qed.

Lemma get_file_requests file_path c :
  has_room c ->
  HttpInterface.get_file server max_streams _path file_path c
  = (get_result file_path,
     bump (HttpCount.requests server _path "GET" file_path) c).
Proof.
  intros Hc. unfold HttpInterface.get_file, retry, Retry.retry, Retry.run.
  rewrite (call_requests _ _ (get_result file_path)); [|
    intros c1 [Hroom Hlt]; rewrite HttpFacts.get_file_attempt_spec by done;
    unfold HttpCount.bump; do 2 f_equal; lia|done].
  f_equal. f_equal.
  unfold HttpCount.requests, HttpCount.server_error, HttpSpec.get_result,
    HttpSpec.answer_error.
  destruct (isinstance_server (HttpSpec.answer_class server _path "GET" file_path)) eqn:E;
    simpl; [by rewrite E|].
  destruct (isinstance_client _); simpl; [by rewrite E|done].
Qed.

Lemma exists_requests file_path c :
  has_room c ->
  HttpInterface.exists_ server max_streams _path file_path c
  = (exists_result file_path,
     bump (HttpCount.requests server _path "HEAD" file_path) c).
Proof.
  intros Hc. unfold HttpInterface.exists_, retry, Retry.retry, Retry.run.
  rewrite (call_requests _ _ (exists_result file_path)); [|
    intros c1 [Hroom Hlt]; rewrite HttpFacts.exists_attempt_spec by done;
    unfold HttpCount.bump; do 2 f_equal; lia|done].
  f_equal. f_equal.
  unfold HttpCount.requests, HttpCount.server_error, HttpSpec.exists_result,
    HttpSpec.answer_error.
  destruct (HttpSpec.answer_class server _path "HEAD" file_path); done.
Qed.

Lemma send_next_counter method available running c r c' :
  send_next method available running c = (r, c') ->
  next_stream_id c'
  = next_stream_id c + match r with Ok (Some _, _, _) => 2 | _ => 0 end.
Proof.
  unfold HttpInterface._send_next_request.
  destruct (last available) as [fp|]; [|intros [= <- <-]; simpl; lia].
  unfold try_except, bind, HttpInterface.conn_request.
  destruct (max_streams <=? length (streams c))%nat; intros [= <- <-]; simpl; lia.
Qed.

Lemma retried_cons method fp l :
  HttpCount.retried server _path method (fp :: l)
  = (if server_error method fp then 1 else 0) + HttpCount.retried server _path method l.
Proof. unfold HttpCount.retried. simpl. by destruct (server_error method fp). Qed.

Lemma retried_rev method l :
  HttpCount.retried server _path method (rev l) = HttpCount.retried server _path method l.
Proof. unfold HttpCount.retried. by rewrite List.filter_rev, length_rev. Qed.

(** Taking the response of the oldest request of [get_files]: a
    server-class answer is followed by the requests of [get_file]. *)
Lemma get_files_response_count fp sid running c :
  tracks "GET" ((fp, sid) :: running) c ->
  exists c',
    HttpInterface.get_files_response server max_streams _path fp sid c
      = (get_result fp, c') /\
    tracks "GET" running c' /\
    next_stream_id c'
    = next_stream_id c + 2 * (if server_error "GET" fp then MAX_RETRIES else 0).
Proof.
  intros Htr.
  destruct (HttpLoopFacts.oldest_response server max_streams _path _ _ _ _ _ _ Htr)
    as (c1 & Hresp & Htr1 & Hroom).
  assert (next_stream_id c1 = next_stream_id c) as Hnext.
  { revert Hresp. unfold HttpInterface.conn_get_response.
    destruct (List.find _ _) as [[i [m k]]|]; intros [= _ <-]; done. }
  unfold HttpInterface.get_files_response, bind. rewrite Hresp.
  unfold HttpCount.server_error, HttpSpec.get_result, HttpSpec.answer_error,
    HttpSpec.answer_class.
  destruct (isinstance_server (from_http_status _)) eqn:Hsrv.
  - rewrite get_file_requests
      by (split; [done|by eapply HttpLoopFacts.tracks_streams_lt]).
    eexists. split; [|split].
    + f_equal. unfold HttpSpec.get_result, HttpSpec.answer_error, HttpSpec.answer_class.
      by rewrite Hsrv.
    + eapply HttpLoopFacts.tracks_same_streams; [done|]. split; simpl; [done|lia].
    + unfold HttpCount.requests, HttpCount.server_error, HttpSpec.answer_class.
      rewrite Hsrv. unfold MAX_RETRIES. simpl. lia.
  - simpl. destruct (isinstance_client (from_http_status _));
      (exists c1; split; [done|]; split; [done|]; lia).
Qed.

(** The loop of [get_files], with the requests it sends. *)
Lemma get_files_while_count fuel : forall available running stream_id results c,
  0 < max_streams ->
  tracks "GET" running c ->
  (running = [] -> available = []) ->
  HttpSpec.turns available running stream_id <= fuel ->
  exists c',
    HttpInterface.get_files_while server max_streams _path fuel
      available running stream_id results c
    = Some (Ok (results ++ map file_result (map fst running ++ rev available)), c') /\
    streams c' = [] /\
    next_stream_id c'
    = next_stream_id c
      + 2 * (length available
             + MAX_RETRIES
               * HttpCount.retried server _path "GET" (map fst running ++ rev available)).
Proof.
  induction fuel as [|fuel IH];
    intros available running stream_id results c Hmax Htr Hnone Hfuel;
    (destruct running as [|[fp sid] running];
     [rewrite (Hnone eq_refl), HttpLoopFacts.get_files_while_done; simpl;
      rewrite app_nil_r; exists c; split; [done|]; split;
      [by destruct Htr as (-> & _)|unfold HttpCount.retried, MAX_RETRIES; simpl; lia]|]).
  - unfold HttpSpec.turns in Hfuel. simpl in Hfuel. lia.
  - rewrite HttpLoopFacts.get_files_while_step. destruct stream_id as [s|].
    + destruct (HttpLoopFacts.send_next_cases max_streams _path []
                  "GET" available ((fp, sid) :: running) c Htr)
        as [[-> _]|(av & fp' & c' & -> & Hsend & Htr')].
      * apply IH; try done.
        unfold HttpSpec.turns in *. simpl in *. lia.
      * pose proof (send_next_counter _ _ _ _ _ _ Hsend) as Hnext. rewrite Hsend.
        destruct (IH av (((fp, sid) :: running) ++ [(fp', next_stream_id c)])
                    (Some (next_stream_id c)) results c') as (c'' & -> & Hc'' & Hn'');
          try done.
        { unfold HttpSpec.turns in *. simpl in *.
          rewrite !length_app in *. simpl in *. lia. }
        exists c''. rewrite HttpLoopFacts.sent_order in *. split; [done|].
        split; [done|]. rewrite Hn'', Hnext, length_app. unfold MAX_RETRIES. simpl. lia.
    + destruct (get_files_response_count fp sid running c Htr)
        as (c1 & -> & Htr1 & Hn1).
      rewrite (HttpLoopFacts.file_result_entry server _path).
      change (map fst ((fp, sid) :: running) ++ rev available)
        with (fp :: (map fst running ++ rev available)).
      rewrite retried_cons.
      destruct (HttpLoopFacts.send_next_cases max_streams _path []
                  "GET" available running c1 Htr1)
        as [[-> Hwhy]|(av & fp' & c' & -> & Hsend & Htr')].
      * destruct (IH available running None (results ++ [file_result fp]) c1)
          as (c'' & -> & Hc'' & Hn''); try done.
        { intros ->. destruct Hwhy as [?|Hfull]; [done|]. simpl in Hfull. lia. }
        { unfold HttpSpec.turns in *. simpl in *. lia. }
        exists c''. rewrite HttpLoopFacts.processed_order. split; [done|].
        split; [done|]. rewrite Hn'', Hn1.
        destruct (server_error "GET" fp); unfold MAX_RETRIES; lia.
      * pose proof (send_next_counter _ _ _ _ _ _ Hsend) as Hnext. rewrite Hsend.
        destruct (IH av (running ++ [(fp', next_stream_id c1)])
                    (Some (next_stream_id c1)) (results ++ [file_result fp]) c')
          as (c'' & -> & Hc'' & Hn''); try done.
        { by destruct running. }
        { unfold HttpSpec.turns in *. simpl in *.
          rewrite !length_app in *. simpl in *. lia. }
        exists c''. rewrite HttpLoopFacts.sent_order in *.
        rewrite HttpLoopFacts.processed_order. split; [done|].
        split; [done|]. rewrite Hn'', Hnext, Hn1, length_app. simpl.
        destruct (server_error "GET" fp); unfold MAX_RETRIES; lia.
Qed.

Lemma get_files_count file_paths c :
  0 < max_streams ->
  streams c = [] ->
  exists c',
    HttpInterface.get_files server max_streams _path file_paths c
      = (Ok (map file_result (rev file_paths)), c') /\
    streams c' = [] /\
    next_stream_id c'
    = next_stream_id c
      + 2 * (length file_paths
             + MAX_RETRIES * HttpCount.retried server _path "GET" file_paths).
Proof.
  intros Hmax Hidle. unfold HttpInterface.get_files.
  destruct (HttpLoopFacts.send_next_cases max_streams _path [] "GET" file_paths [] c
              (HttpLoopFacts.tracks_idle max_streams _path _ _ Hidle))
    as [[-> Hwhy]|(av & fp & c' & -> & Hsend & Htr')].
  - destruct Hwhy as [->|Hfull]; [|simpl in Hfull; lia].
    exists c. destruct (HttpInterface.loop_fuel []); simpl;
      (split; [done|]; split; [done|]; unfold HttpCount.retried, MAX_RETRIES; simpl; lia).
  - pose proof (send_next_counter _ _ _ _ _ _ Hsend) as Hnext. rewrite Hsend.
    destruct (get_files_while_count (HttpInterface.loop_fuel (av ++ [fp])) av
                ([] ++ [(fp, next_stream_id c)]) (Some (next_stream_id c)) [] c')
      as (c'' & -> & Hc'' & Hn''); try done.
    { unfold HttpSpec.turns, HttpInterface.loop_fuel.
      rewrite !length_app. simpl. lia. }
    exists c''. rewrite rev_app_distr. split; [done|]. split; [done|].
    rewrite Hn'', Hnext, length_app.
    change (map fst ([] ++ [(fp, next_stream_id c)]) ++ rev av) with (fp :: rev av).
    rewrite <- (retried_rev "GET" (av ++ [fp])), rev_app_distr. unfold MAX_RETRIES. simpl. lia.
Qed.

Lemma lookup_none_for_all (file_paths : list string) (q : string) :
  q ∈ file_paths -> HttpInterface.none_for_all file_paths !! q = Some None.
Proof.
  unfold HttpInterface.none_for_all.
  assert (forall (m : gmap string (option bool)),
            q ∈ file_paths \/ m !! q = Some None ->
            foldl (fun m file_path => <[file_path := None]> m) m file_paths !! q
            = Some None) as H.
  { induction file_paths as [|fp l IH]; intros m Hq; simpl.
    - destruct Hq as [Hq|Hq]; [by apply elem_of_nil in Hq|done].
    - apply IH. destruct Hq as [Hq|Hq].
      + apply elem_of_cons in Hq as [->|Hq]; [right; apply lookup_insert_eq|by left].
      + right. destruct (decide (fp = q)) as [->|Hne];
          [apply lookup_insert_eq|by rewrite lookup_insert_ne]. }
  intros Hq. apply H. by left.
Qed.

(** When the peer refuses a further stream, nothing is sent and the loops
    have nothing to wait for. *)
Lemma send_next_refused method available c :
  max_streams <= length (streams c) ->
  send_next method available [] c = (Ok (None, available, []), c).
Proof.
  intros Hfull. unfold HttpInterface._send_next_request.
  destruct (last available) as [fp|]; [|done].
  unfold try_except, bind, HttpInterface.conn_request.
  by destruct (max_streams <=? length (streams c))%nat eqn:E;
    [|apply Nat.leb_gt in E; lia].
Qed.
End HttpCountFacts.
End HttpCountFacts.

(** X1: on an HTTP connection with room for a stream, [get_file] and
    [exists] come to what the answer of the server says, and send exactly
    one request, or exactly [MAX_RETRIES] requests when the path is
    answered with a server-class status; the open streams are those from
    before the call. *)
Theorem http_call_sends_one_or_seven_requests
    (server : string -> string -> response) (max_streams : nat) (p : BucketPath)
    (file_path : string) (c : connection) :
  HttpCount.has_room max_streams c ->
  HttpInterface.get_file server max_streams p file_path c
    = (HttpSpec.get_result server p file_path,
       HttpCount.bump (HttpCount.requests server p "GET" file_path) c) /\
  HttpInterface.exists_ server max_streams p file_path c
    = (HttpSpec.exists_result server p file_path,
       HttpCount.bump (HttpCount.requests server p "HEAD" file_path) c) /\
  (HttpCount.server_error server p "GET" file_path = true ->
   exists status,
     fst (HttpInterface.get_file server max_streams p file_path c)
       = Raise (HTTPException HTTPServerError status) /\
     next_stream_id (snd (HttpInterface.get_file server max_streams p file_path c))
       = next_stream_id c + 2 * 7).
Proof.
  intros Hc.
  rewrite HttpCountFacts.get_file_requests, HttpCountFacts.exists_requests by done.
  split; [done|]. split; [done|]. intros Hsrv. simpl.
  unfold HttpCount.requests. rewrite Hsrv.
  unfold HttpCount.server_error in Hsrv.
  unfold HttpSpec.get_result, HttpSpec.answer_error. rewrite Hsrv. simpl.
  destruct (HttpSpec.answer_class server p "GET" file_path); try done.
  by eexists.
Qed.

Lemma http_call_sends_one_or_seven_requests_witness :
  HttpInterface.get_file sample_server 100 http_layer "b" idle
    = (Raise (HTTPException HTTPServerError 503),
       {| streams := []; next_stream_id := 15 |}) /\
  HttpInterface.get_file sample_server 100 http_layer "a" idle
    = (Ok (bytes_of "A"), {| streams := []; next_stream_id := 3 |}) /\
  HttpInterface.exists_ sample_server 100 http_layer "missing" idle
    = (Ok false, {| streams := []; next_stream_id := 3 |}).
Proof.
  assert (HttpCount.has_room 100 idle) as Hroom.
  { split; simpl; [lia|constructor]. }
  split; [|split].
  - rewrite (proj1 (http_call_sends_one_or_seven_requests
                      sample_server 100 http_layer "b" idle Hroom)).
    reflexivity.
  - rewrite (proj1 (http_call_sends_one_or_seven_requests
                      sample_server 100 http_layer "a" idle Hroom)).
    reflexivity.
  - rewrite (proj1 (proj2 (http_call_sends_one_or_seven_requests
                             sample_server 100 http_layer "missing" idle Hroom))).
    reflexivity.
Defined.

(** X2: on a connection without open streams to a peer that allows at
    least one, the HTTP [get_files] returns one entry per path in the
    reverse of the order of the paths, each the outcome of the single
    [get_file] of that path; it leaves no stream open and has sent one
    request per path and [MAX_RETRIES] more for every path answered with a
    server-class status. *)
Theorem http_get_files_is_reversed_and_counted
    (server : string -> string -> response) (max_streams : nat) (p : BucketPath)
    (file_paths : list string) (c : connection) :
  0 < max_streams ->
  streams c = [] ->
  exists results c' (outcome : string -> result bytes),
    HttpInterface.get_files server max_streams p file_paths c = (Ok results, c') /\
    map filename results = rev file_paths /\
    (forall fp, fst (HttpInterface.get_file server max_streams p fp c)
                = Done (outcome fp)) /\
    results
    = map (fun fp =>
             match outcome fp with
             | Ok b => {| filename := fp; content := Some b; error := None |}
             | Raise e => {| filename := fp; content := None; error := Some e |}
             end) (rev file_paths) /\
    streams c' = [] /\
    next_stream_id c'
    = next_stream_id c
      + 2 * (length file_paths
             + MAX_RETRIES * HttpCount.retried server p "GET" file_paths).
Proof.
  intros Hmax Hidle.
  destruct (HttpCountFacts.get_files_count server max_streams p file_paths c Hmax Hidle)
    as (c' & Hget & Hstreams & Hnext).
  exists (map (HttpSpec.file_result server p) (rev file_paths)), c',
    (HttpSpec.get_result server p).
  split; [done|]. split; [apply HttpLoopFacts.filenames_of_results|].
  split; [|done]. intros fp.
  rewrite HttpCountFacts.get_file_requests
    by (split; rewrite Hidle; [simpl; lia|constructor]).
  done.
Qed.

Lemma http_get_files_is_reversed_and_counted_witness :
  exists c',
    HttpInterface.get_files sample_server 2 http_layer ["a"; "b"; "c"] idle
    = (Ok [ {| filename := "c"; content := None;
               error := Some (HTTPException HTTPClientError 400) |};
            {| filename := "b"; content := None;
               error := Some (HTTPException HTTPServerError 503) |};
            {| filename := "a"; content := Some (bytes_of "A"); error := None |} ], c') /\
    streams c' = [] /\
    next_stream_id c' = 1 + 2 * (3 + 7).
Proof.
  destruct (http_get_files_is_reversed_and_counted sample_server 2 http_layer
              ["a"; "b"; "c"] idle)
    as (results & c' & outcome & Hget & _ & Hout & Hres & Hs & Hn);
    [lia|reflexivity|].
  exists c'. rewrite Hget, Hres. split; [|split; [done|rewrite Hn; reflexivity]].
  cbn [rev app map].
  pose proof (Hout "a") as Ha. pose proof (Hout "b") as Hb. pose proof (Hout "c") as Hc.
  vm_compute in Ha, Hb, Hc. injection Ha as <-. injection Hb as <-. injection Hc as <-.
  reflexivity.
Defined.

(** X3: when the connection already holds as many open streams as the
    peer allows, the HTTP batches send nothing: [get_files] returns the
    empty list and [files_exist] a dictionary with [None] for every path,
    whatever the paths; neither raises, and the connection is not
    touched. *)
Theorem http_batch_on_full_connection
    (server : string -> string -> response) (max_streams : nat) (p : BucketPath)
    (file_paths : list string) (c : connection) :
  max_streams <= length (streams c) ->
  HttpInterface.get_files server max_streams p file_paths c = (Ok [], c) /\
  exists m,
    HttpInterface.files_exist server max_streams p file_paths c = (Ok m, c) /\
    dom m = list_to_set file_paths /\
    forall q, q ∈ file_paths -> m !! q = Some None.
Proof.
  intros Hfull. split.
  - unfold HttpInterface.get_files.
    rewrite HttpCountFacts.send_next_refused by done.
    by rewrite HttpLoopFacts.get_files_while_done.
  - exists (HttpInterface.none_for_all file_paths). split; [|split].
    + unfold HttpInterface.files_exist.
      rewrite HttpCountFacts.send_next_refused by done.
      by rewrite HttpLoopFacts.files_exist_while_done.
    + apply (HttpLoopFacts.dom_none_for_all server).
    + apply HttpCountFacts.lookup_none_for_all.
Qed.

Lemma http_batch_on_full_connection_witness :
  HttpInterface.get_files sample_server 1 http_layer ["a"; "d"]
    {| streams := [(1, ("GET", "https://host/other"))]; next_stream_id := 3 |}
  = (Ok [], {| streams := [(1, ("GET", "https://host/other"))]; next_stream_id := 3 |}).
Proof.
  apply (proj1 (http_batch_on_full_connection sample_server 1 http_layer ["a"; "d"]
                  {| streams := [(1, ("GET", "https://host/other"))];
                     next_stream_id := 3 |} ltac:(simpl; lia))).
Defined.

(** ** Listings of the cloud stores *)

Module CloudListingFacts.

Lemma list_filter_all_app layer_path path flat (a b : list string) :
  list_filter_all layer_path path flat (a ++ b)
  = match list_filter_all layer_path path flat a with
    | Raise e => Raise e
    | Ok la =>
        match list_filter_all layer_path path flat b with
        | Raise e => Raise e
        | Ok lb => Ok (la ++ lb)
        end
    end.
Proof.
  induction a as [|k a IH]; simpl.
  - by destruct (list_filter_all layer_path path flat b).
  - destruct (list_filter layer_path path flat k) as [l|e]; [|done].
    rewrite IH. destruct (list_filter_all layer_path path flat a) as [la|e]; [|done].
    destruct (list_filter_all layer_path path flat b) as [lb|e]; [|done].
    by rewrite app_assoc.
Qed.

Lemma last_char_None s : last_char s = None -> s = "".
Proof.
  induction s as [|c s IH]; [done|]. simpl. destruct s as [|d s]; [done|].
  intros H. by apply IH in H.
Qed.

(** The filter raises nothing but [IndexError], and nothing at all for a
    flat listing. *)
Lemma list_filter_all_raise layer_path path flat keys e :
  list_filter_all layer_path path flat keys = Raise e ->
  e = IndexError /\ flat = false /\
  exists key, key ∈ keys /\ str_remove key layer_path = "".
Proof.
  induction keys as [|k keys IH]; simpl; [done|].
  destruct (list_filter layer_path path flat k) as [l|e'] eqn:Hk.
  - destruct (list_filter_all layer_path path flat keys) as [ls|e'']; [done|].
    intros [= ->]. destruct (IH eq_refl) as (-> & -> & key & Hkey & Hempty).
    split; [done|]. split; [done|]. exists key. split; [|done].
    apply elem_of_cons. by right.
  - intros [= ->]. revert Hk. unfold list_filter, not_dir_name.
    destruct flat; simpl.
    + by destruct (negb (contains_sep _)).
    + destruct (last_char (str_remove k layer_path)) as [c|] eqn:Hlast.
      * by destruct (negb (Ascii.eqb c "/")).
      * intros [= <-]. split; [done|]. split; [done|]. exists k.
        split; [apply elem_of_cons; by left|by apply last_char_None].
Qed.

Lemma list_filter_all_empty_name layer_path path keys key :
  key ∈ keys ->
  str_remove key layer_path = "" ->
  list_filter_all layer_path path false keys = Raise IndexError.
Proof.
  intros Hkey Hempty.
  destruct (list_filter_all layer_path path false keys) as [l|e] eqn:Hall;
    [|by apply list_filter_all_raise in Hall as (-> & _)].
  exfalso. revert l Hall. induction keys as [|k keys IH]; intros l; simpl.
  - by apply elem_of_nil in Hkey.
  - destruct (list_filter layer_path path false k) as [lk|e] eqn:Hk; [|done].
    apply elem_of_cons in Hkey as [->|Hkey].
    + revert Hk. unfold list_filter, not_dir_name. simpl. by rewrite Hempty.
    + destruct (list_filter_all layer_path path false keys) as [ls|e]; [|done].
      intros _. by eapply IH.
Qed.

Lemma replace_go_skip old : forall s k,
  String.length s <= k -> replace_go old k s = "".
Proof.
  induction s as [|c s IH]; intros k Hk; simpl; [done|].
  destruct k as [|k]; simpl in Hk; [lia|]. apply IH. lia.
Qed.

Lemma prefix_refl s : String.prefix s s = true.
Proof. induction s as [|c s IH]; simpl; [done|]. by destruct (ascii_dec c c). Qed.

(** A string from which itself is taken out is empty. *)
Lemma str_remove_self s : str_remove s s = "".
Proof.
  unfold str_remove. destruct (s =? "") eqn:E; [by apply String.eqb_eq in E|].
  destruct s as [|c s]; [done|].
  cbn [replace_go]. rewrite prefix_refl. apply replace_go_skip. simpl. lia.
Qed.

Section Pages.
Variable fault : string -> string -> option exn.
Variable page_size : nat.

Lemma list_objects_v2_page prefix token bk :
  fault "list_objects_v2" prefix = None ->
  S3Interface.list_objects_v2 fault page_size prefix token bk
  = (Ok (page_at page_size (keys_with_prefix bk prefix) token), bk).
Proof.
  intros Hfault. unfold S3Interface.list_objects_v2, S3Interface.call.
  by rewrite Hfault.
Qed.

Lemma iterate_page layer_path prefix flat keys token :
  S3Interface.iterate layer_path prefix flat (page_at page_size keys token)
  = list_filter_all layer_path prefix flat (take (S page_size) (drop token keys)).
Proof.
  unfold S3Interface.iterate, page_at. simpl.
  by destruct (drop token keys).
Qed.

(** The pages served so far make up the beginning of the keys; the loop
    goes on to the end of them. *)
Lemma list_files_while_pages layer_path prefix flat bk :
  fault "list_objects_v2" prefix = None ->
  forall fuel token yielded,
    list_filter_all layer_path prefix flat
      (take (token + S page_size) (keys_with_prefix bk prefix)) = Ok yielded ->
    length (drop token (keys_with_prefix bk prefix)) <= fuel ->
    S3Interface.list_files_while fault page_size fuel layer_path prefix flat
      (page_at page_size (keys_with_prefix bk prefix) token) yielded bk
    = Some (list_filter_all layer_path prefix flat (keys_with_prefix bk prefix), bk).
Proof.
  intros Hfault. set (keys := keys_with_prefix bk prefix).
  assert (forall fuel token yielded,
            list_filter_all layer_path prefix flat (take (token + S page_size) keys)
              = Ok yielded ->
            S3Interface.list_files_while fault page_size fuel layer_path prefix flat
              (page_at page_size keys token) yielded bk
            = match IsTruncated (page_at page_size keys token) with
              | false => Some (Ok yielded, bk)
              | true =>
                  match fuel with
                  | 0 => None
                  | S fuel' =>
                      match list_filter_all layer_path prefix flat
                              (take (S page_size) (drop (token + S page_size) keys)) with
                      | Raise e => Some (Raise e, bk)
                      | Ok l =>
                          S3Interface.list_files_while fault page_size fuel' layer_path
                            prefix flat (page_at page_size keys (token + S page_size))
                            (yielded ++ l) bk
                      end
                  end
              end) as Hstep.
  { intros fuel token yielded _. destruct fuel as [|fuel]; simpl;
      destruct (S page_size <? length (drop token keys))%nat; try done.
    rewrite list_objects_v2_page by done. fold keys. by rewrite iterate_page. }
  induction fuel as [|fuel IH]; intros token yielded Hyielded Hfuel;
    rewrite Hstep by done; simpl;
    destruct (S page_size <? length (drop token keys))%nat eqn:Hlt.
  - apply Nat.ltb_lt in Hlt. lia.
  - apply Nat.ltb_ge in Hlt. rewrite length_drop in Hlt.
    rewrite take_ge in Hyielded by lia. by rewrite Hyielded.
  - apply Nat.ltb_lt in Hlt.
    pose proof (take_drop (token + S page_size) keys) as Hsplit.
    pose proof (take_drop (S page_size) (drop (token + S page_size) keys)) as Hrest.
    destruct (list_filter_all layer_path prefix flat
                (take (S page_size) (drop (token + S page_size) keys)))
      as [l|e] eqn:Hl.
    + apply IH.
      * rewrite <- (take_take_drop keys (token + S page_size) (S page_size)).
        by rewrite list_filter_all_app, Hyielded, Hl.
      * rewrite length_drop in *. lia.
    + rewrite <- Hsplit, list_filter_all_app, Hyielded.
      by rewrite <- Hrest, list_filter_all_app, Hl.
  - apply Nat.ltb_ge in Hlt. rewrite length_drop in Hlt.
    rewrite take_ge in Hyielded by lia. by rewrite Hyielded.
Qed.

Lemma s3_list_files_unpaged p prefix flat bk :
  let layer_path := S3Interface.get_path_to_file p "" in
  let path := os_path_join layer_path [prefix] in
  fault "list_objects_v2" path = None ->
  S3Interface.list_files fault page_size p prefix flat bk
  = (list_filter_all layer_path path flat (keys_with_prefix bk path), bk).
Proof.
  intros layer_path path Hfault. unfold S3Interface.list_files.
  fold layer_path. fold path.
  rewrite list_objects_v2_page by done. rewrite iterate_page, drop_0.
  pose proof (take_drop (S page_size) (keys_with_prefix bk path)) as Hsplit.
  destruct (list_filter_all layer_path path flat
              (take (S page_size) (keys_with_prefix bk path))) as [l|e] eqn:Hl.
  - rewrite list_files_while_pages; try done.
    rewrite drop_0. unfold keys_with_prefix.
    etrans; [apply filter_length_le|]. by rewrite length_map.
  - by rewrite <- Hsplit, list_filter_all_app, Hl.
Qed.
End Pages.

Lemma gcs_list_files_unpaged fault p prefix flat bk :
  let layer_path := GoogleCloudStorageInterface.get_path_to_file p "" in
  let path := os_path_join layer_path [prefix] in
  fault "list_blobs" path = None ->
  GoogleCloudStorageInterface.list_files fault p prefix flat bk
  = (list_filter_all layer_path path flat (keys_with_prefix bk path), bk).
Proof.
  intros layer_path path Hfault.
  unfold GoogleCloudStorageInterface.list_files, GoogleCloudStorageInterface.list_blobs,
    GoogleCloudStorageInterface.call, bind.
  fold layer_path. fold path. rewrite Hfault. fold (keys_with_prefix bk path).
  by destruct (list_filter_all layer_path path flat (keys_with_prefix bk path)).
Qed.
End CloudListingFacts.

Module LayerPathFacts.

Lemma last_char_snoc s c : last_char (s ++ String c "") = Some c.
Proof.
  induction s as [|d s IH]; [done|].
  change (String d s ++ String c "")%string with (String d (s ++ String c "")).
  cbn [last_char]. rewrite IH. by destruct (s ++ String c "")%string.
Qed.

Lemma append_empty s : (s ++ "")%string = s.
Proof.
  induction s as [|c s IH]; [done|].
  change (String c s ++ "")%string with (String c (s ++ "")). by rewrite IH.
Qed.

(** Joining the empty name twice adds nothing more. *)
Lemma join2_empty_twice a : join2 (join2 a "") "" = join2 a "".
Proof.
  unfold join2 at 2. simpl.
  destruct ((a =? "") || endswith_sep a) eqn:E.
  - rewrite append_empty. unfold join2. simpl. by rewrite E, append_empty.
  - unfold join2. simpl. rewrite E.
    change ("/" ++ "")%string with "/".
    assert (endswith_sep (a ++ "/") = true) as ->.
    { unfold endswith_sep. by rewrite last_char_snoc. }
    by rewrite orb_true_r, append_empty.
Qed.
End LayerPathFacts.

(** X4: with the listing request not refused, the S3 [list_files] comes to
    the filter applied to all the keys under the prefix, in the order of
    the service and with the bucket unchanged: the size of the pages it is
    served in makes no difference, and it is what the Google [list_files]
    comes to on the same bucket. *)
Theorem s3_listing_ignores_page_size
    (fault gfault : string -> string -> option exn) (page_size page_size' : nat)
    (p : BucketPath) (prefix : string) (flat : bool) (bk : bucket_state) :
  let layer_path := S3Interface.get_path_to_file p "" in
  let path := os_path_join layer_path [prefix] in
  fault "list_objects_v2" path = None ->
  S3Interface.list_files fault page_size p prefix flat bk
    = (list_filter_all layer_path path flat (keys_with_prefix bk path), bk) /\
  S3Interface.list_files fault page_size p prefix flat bk
    = S3Interface.list_files fault page_size' p prefix flat bk /\
  (gfault "list_blobs" path = None ->
   GoogleCloudStorageInterface.list_files gfault p prefix flat bk
     = S3Interface.list_files fault page_size p prefix flat bk).
Proof.
  intros layer_path path Hfault.
  rewrite !CloudListingFacts.s3_list_files_unpaged by done.
  split; [done|]. split; [done|]. intros Hgfault.
  by rewrite CloudListingFacts.gcs_list_files_unpaged.
Qed.

Lemma s3_listing_ignores_page_size_witness :
  S3Interface.list_files no_fault 0 cloud_layer "a/" false
    (abc_blobs [] [] [])
  = (Ok ["a/b/c"; "a/b/d"; "a/e"], abc_blobs [] [] []) /\
  S3Interface.list_files no_fault 0 cloud_layer "a/" false (abc_blobs [] [] [])
  = S3Interface.list_files no_fault 1 cloud_layer "a/" false (abc_blobs [] [] []).
Proof.
  destruct (s3_listing_ignores_page_size no_fault no_fault 0 1 cloud_layer "a/" false
              (abc_blobs [] [] []) eq_refl) as (H1 & H2 & _).
  split; [|exact H2]. rewrite H1. reflexivity.
Defined.

(** X5: a bucket that holds the layer path itself as a key (the
    placeholder object of a folder) breaks the recursive listing of both
    cloud stores: the name left after taking the layer path out is empty,
    and its last character is asked for, which raises [IndexError].  The
    flat listing never raises. *)
Theorem cloud_listing_raises_on_layer_key
    (fault gfault : string -> string -> option exn) (page_size : nat)
    (p : BucketPath) (prefix : string) (bk : bucket_state) :
  let layer_path := S3Interface.get_path_to_file p "" in
  (layer_path ∈ map fst bk ->
   fault "list_objects_v2" layer_path = None ->
   gfault "list_blobs" layer_path = None ->
   S3Interface.list_files fault page_size p "" false bk = (Raise IndexError, bk) /\
   GoogleCloudStorageInterface.list_files gfault p "" false bk
     = (Raise IndexError, bk)) /\
  (fault "list_objects_v2" (os_path_join layer_path [prefix]) = None ->
   gfault "list_blobs" (os_path_join layer_path [prefix]) = None ->
   exists out,
     S3Interface.list_files fault page_size p prefix true bk = (Ok out, bk) /\
     GoogleCloudStorageInterface.list_files gfault p prefix true bk = (Ok out, bk)).
Proof.
  intros layer_path. split.
  - intros Hkey Hfault Hgfault.
    assert (os_path_join layer_path [""] = layer_path) as Hpath.
    { apply LayerPathFacts.join2_empty_twice. }
    rewrite CloudListingFacts.s3_list_files_unpaged
      by (fold layer_path; by rewrite Hpath).
    rewrite CloudListingFacts.gcs_list_files_unpaged
      by (change (GoogleCloudStorageInterface.get_path_to_file p "") with layer_path;
          by rewrite Hpath).
    change (GoogleCloudStorageInterface.get_path_to_file p "") with layer_path.
    fold layer_path. rewrite Hpath.
    rewrite (CloudListingFacts.list_filter_all_empty_name _ _ _ layer_path); [done| |].
    + unfold keys_with_prefix. apply list_elem_of_In, filter_In.
      split; [by apply list_elem_of_In|]. apply CloudListingFacts.prefix_refl.
    + apply CloudListingFacts.str_remove_self.
  - intros Hfault Hgfault.
    rewrite CloudListingFacts.s3_list_files_unpaged by done.
    rewrite CloudListingFacts.gcs_list_files_unpaged by done.
    change (GoogleCloudStorageInterface.get_path_to_file p "") with layer_path.
    fold layer_path.
    destruct (list_filter_all layer_path (os_path_join layer_path [prefix]) true
                (keys_with_prefix bk (os_path_join layer_path [prefix])))
      as [out|e] eqn:Hall; [by exists out|].
    by apply CloudListingFacts.list_filter_all_raise in Hall as (_ & ? & _).
Qed.

Lemma cloud_listing_raises_on_layer_key_witness :
  S3Interface.list_files no_fault 999 cloud_layer "" false
    (("layer/", blob_of []) :: abc_blobs [] [] [])
  = (Raise IndexError, ("layer/", blob_of []) :: abc_blobs [] [] []).
Proof.
  apply (proj1 (cloud_listing_raises_on_layer_key no_fault no_fault 999 cloud_layer ""
                  (("layer/", blob_of []) :: abc_blobs [] [] []))).
  - apply elem_of_cons. by left.
  - reflexivity.
  - reflexivity.
Defined.

(** ** The buckets of the sort *)

Module BucketBoundFacts.
Import RadixSortSpec.

Lemma bad_char_of_string s :
  forallb (fun c => (ord c <? 255)%nat) (list_ascii_of_string s) = false ->
  exists j c, String.get j s = Some c /\ 255 <= ord c.
Proof.
  induction s as [|a s IH]; simpl; [done|].
  destruct (ord a <? 255)%nat eqn:Ha; simpl.
  - intros H. destruct (IH H) as (j & c & Hget & Hc). by exists (S j), c.
  - intros _. apply Nat.ltb_ge in Ha. by exists 0, a.
Qed.

Lemma bad_char_of_list L :
  chars_okb L = false ->
  exists s j c, s ∈ L /\ String.get j s = Some c /\ 255 <= ord c.
Proof.
  unfold chars_okb. induction L as [|s L IH]; simpl; [done|].
  destruct (forallb _ (list_ascii_of_string s)) eqn:Hs; simpl.
  - intros H. destruct (IH H) as (t & j & c & Ht & Hget & Hc).
    exists t, j, c. split; [apply elem_of_cons; by right|done].
  - intros _. destruct (bad_char_of_string s Hs) as (j & c & Hget & Hc).
    exists s, j, c. split; [apply elem_of_cons; by left|done].
Qed.
End BucketBoundFacts.

(** X6: [_radix_sort] has a bucket for the character codes 0 to 254 only.
    It returns a list of at most one name as it is; it raises
    [IndexError] when, among two names or more, one starts with the
    character of code 255; it raises nothing else, and only when some
    name holds that character; and whenever it returns, the result is the
    sorted permutation of its input. *)
Theorem radix_sort_bucket_bounds (L : list string) :
  (length L <= 1 -> _radix_sort L = Ok L) /\
  (2 <= length L ->
   (exists s c, s ∈ L /\ String.get 0 s = Some c /\ 255 <= ord c) ->
   _radix_sort L = Raise IndexError) /\
  (forall e, _radix_sort L = Raise e ->
             e = IndexError /\
             exists s j c, s ∈ L /\ String.get j s = Some c /\ 255 <= ord c) /\
  (forall out, _radix_sort L = Ok out ->
               out ≡ₚ L /\ StronglySorted String.le out).
Proof.
  split; [|split; [|split]].
  - intros Hlen. unfold _radix_sort. rewrite RadixSortFacts.radix_sort_fuel_eq.
    by destruct (length L <=? 1)%nat eqn:E; [|apply Nat.leb_gt in E; lia].
  - apply RadixSortFacts.radix_sort_out_of_range.
  - intros e He. pose proof (RadixSortFacts.radix_sort_spec L) as Hspec.
    rewrite He in Hspec. destruct Hspec as [-> Hbad]. split; [done|].
    destruct (chars_okb L) eqn:Hok.
    + by apply chars_okb_spec in Hok.
    + by apply BucketBoundFacts.bad_char_of_list.
  - intros out Hout. pose proof (RadixSortFacts.radix_sort_spec L) as Hspec.
    by rewrite Hout in Hspec.
Qed.

Lemma radix_sort_bucket_bounds_witness :
  _radix_sort [String (ascii_of_nat 255) ""] = Ok [String (ascii_of_nat 255) ""] /\
  _radix_sort ["b"; String (ascii_of_nat 255) "x"; "a"] = Raise IndexError /\
  (["a"; "b"; "b"] ≡ₚ ["b"; "a"; "b"] /\ StronglySorted String.le ["a"; "b"; "b"]).
Proof.
  split; [|split].
  - apply (proj1 (radix_sort_bucket_bounds [String (ascii_of_nat 255) ""])).
    simpl. lia.
  - apply (proj1 (proj2 (radix_sort_bucket_bounds
                           ["b"; String (ascii_of_nat 255) "x"; "a"]))).
    + simpl. lia.
    + exists (String (ascii_of_nat 255) "x"), (ascii_of_nat 255).
      split; [|split; [reflexivity|vm_compute; lia]].
      apply elem_of_cons. right. apply elem_of_cons. by left.
  - apply (proj2 (proj2 (proj2 (radix_sort_bucket_bounds ["b"; "a"; "b"])))).
    reflexivity.
Defined.

(** ** Existence checks in a batch, against single checks *)

Module ExistBatchFacts.

Lemma file_files_exist_values p file_paths : forall result_ fs,
  exists m,
    FileInterface.files_exist_loop p file_paths result_ fs = (Ok m, fs) /\
    (forall q, q ∈ file_paths ->
               exists b, FileInterface.exists_ p q fs = (Ok b, fs) /\
                         m !! q = Some (Some b)) /\
    (forall q, q ∉ file_paths -> m !! q = result_ !! q).
Proof.
  induction file_paths as [|fp l IH]; intros result_ fs; simpl.
  - exists result_. split; [done|]. split; [|done].
    intros q Hq. by apply elem_of_nil in Hq.
  - unfold bind. unfold FileInterface.exists_ at 1.
    edestruct IH as (m & -> & Hin & Hout).
    exists m. split; [done|]. split.
    + intros q Hq. destruct (decide (q ∈ l)) as [Hl|Hl]; [by apply Hin|].
      apply elem_of_cons in Hq as [->|Hq]; [|done].
      eexists. split; [done|]. rewrite (Hout _ Hl). apply lookup_insert_eq.
    + intros q Hq. apply not_elem_of_cons in Hq as [Hne Hq].
      rewrite (Hout _ Hq). by apply lookup_insert_ne.
Qed.

Lemma s3_exists_pure fault p q bk : snd (S3Interface.exists_ fault p q bk) = bk.
Proof.
  unfold S3Interface.exists_, try_except, bind, S3Interface.head_object,
    S3Interface.call.
  destruct (fault "head_object" _) as [e|]; simpl.
  - destruct e; try done. by destruct (code =? "404").
  - destruct (bucket_lookup bk _); simpl; [done|].
    by destruct ("404" =? "404").
Qed.

Lemma s3_files_exist_values fault p file_paths : forall result_ bk m bk',
  S3Interface.files_exist_loop fault p file_paths result_ bk = (Ok m, bk') ->
  bk' = bk /\
  (forall q, q ∈ file_paths ->
             exists b, S3Interface.exists_ fault p q bk = (Ok b, bk) /\
                       m !! q = Some (Some b)) /\
  (forall q, q ∉ file_paths -> m !! q = result_ !! q).
Proof.
  induction file_paths as [|fp l IH]; intros result_ bk m bk'; simpl.
  - intros [= <- <-]. split; [done|]. split; [|done].
    intros q Hq. by apply elem_of_nil in Hq.
  - unfold bind. pose proof (s3_exists_pure fault p fp bk) as Hpure.
    destruct (S3Interface.exists_ fault p fp bk) as [[[b|e]|] bk1] eqn:Hfp; [|done|done].
    simpl in Hpure. subst bk1. intros H.
    apply IH in H as (-> & Hin & Hout). split; [done|]. split.
    + intros q Hq. destruct (decide (q ∈ l)) as [Hl|Hl]; [by apply Hin|].
      apply elem_of_cons in Hq as [->|Hq]; [|done].
      exists b. split; [done|]. rewrite (Hout _ Hl). apply lookup_insert_eq.
    + intros q Hq. apply not_elem_of_cons in Hq as [Hne Hq].
      rewrite (Hout _ Hq). by apply lookup_insert_ne.
Qed.

Lemma s3_files_exist_all_ok fault p file_paths : forall result_ bk,
  (forall q, q ∈ file_paths -> is_ok (fst (S3Interface.exists_ fault p q bk)) = true) ->
  exists m, S3Interface.files_exist_loop fault p file_paths result_ bk = (Ok m, bk).
Proof.
  induction file_paths as [|fp l IH]; intros result_ bk Hok; simpl.
  - by exists result_.
  - unfold bind. pose proof (s3_exists_pure fault p fp bk) as Hpure.
    pose proof (Hok fp ltac:(apply elem_of_cons; by left)) as Hfp.
    destruct (S3Interface.exists_ fault p fp bk) as [[[b|e]|] bk1]; [|done|done].
    simpl in Hpure. subst bk1. apply IH. intros q Hq. apply Hok.
    apply elem_of_cons. by right.
Qed.

Lemma s3_files_exist_first_failure fault p l1 q l2 e : forall result_ bk,
  (forall q', q' ∈ l1 -> is_ok (fst (S3Interface.exists_ fault p q' bk)) = true) ->
  fst (S3Interface.exists_ fault p q bk) = Raise e ->
  S3Interface.files_exist_loop fault p (l1 ++ q :: l2) result_ bk = (Raise e, bk).
Proof.
  induction l1 as [|fp l1 IH]; intros result_ bk Hok Hq; simpl; unfold bind.
  - pose proof (s3_exists_pure fault p q bk) as Hpure.
    destruct (S3Interface.exists_ fault p q bk) as [[[b|e']|] bk1]; [done| |done].
    simpl in *. congruence.
  - pose proof (s3_exists_pure fault p fp bk) as Hpure.
    pose proof (Hok fp ltac:(apply elem_of_cons; by left)) as Hfp.
    destruct (S3Interface.exists_ fault p fp bk) as [[[b|e']|] bk1]; [|done|done].
    simpl in Hpure. subst bk1. apply IH; [|done]. intros q' Hq'. apply Hok.
    apply elem_of_cons. by right.
Qed.
End ExistBatchFacts.

(** X7: the batched existence checks of the filesystem and of the S3
    interface agree with the single checks.  On the filesystem the batch
    always returns, with for every path the answer of [exists] and no
    other key.  On S3 it returns, with the answers of [exists], when every
    single check returns; the first check that raises ends the batch with
    its exception.  The backend is left as it was. *)
Theorem files_exist_agrees_with_exists
    (fault : string -> string -> option exn) (p : BucketPath)
    (file_paths : list string) :
  (forall fs,
      exists m,
        FileInterface.files_exist p file_paths fs = (Ok m, fs) /\
        dom m = list_to_set file_paths /\
        forall q, q ∈ file_paths ->
                  exists b, FileInterface.exists_ p q fs = (Ok b, fs) /\
                            m !! q = Some (Some b)) /\
  (forall bk,
      (forall q, q ∈ file_paths ->
                 is_ok (fst (S3Interface.exists_ fault p q bk)) = true) ->
      exists m,
        S3Interface.files_exist fault p file_paths bk = (Ok m, bk) /\
        dom m = list_to_set file_paths /\
        forall q, q ∈ file_paths ->
                  exists b, S3Interface.exists_ fault p q bk = (Ok b, bk) /\
                            m !! q = Some (Some b)) /\
  (forall bk l1 q l2 e,
      file_paths = l1 ++ q :: l2 ->
      (forall q', q' ∈ l1 ->
                  is_ok (fst (S3Interface.exists_ fault p q' bk)) = true) ->
      fst (S3Interface.exists_ fault p q bk) = Raise e ->
      S3Interface.files_exist fault p file_paths bk = (Raise e, bk)).
Proof.
  split; [|split].
  - intros fs. unfold FileInterface.files_exist.
    destruct (ExistBatchFacts.file_files_exist_values p file_paths ∅ fs)
      as (m & Hm & Hin & Hout).
    exists m. split; [done|]. split; [|done].
    destruct (BatchFacts.file_files_exist_spec p file_paths ∅ fs) as (m' & Hm' & Hdom).
    rewrite Hm in Hm'. injection Hm' as <-. rewrite Hdom. set_solver.
  - intros bk Hok. unfold S3Interface.files_exist.
    destruct (ExistBatchFacts.s3_files_exist_all_ok fault p file_paths ∅ bk Hok)
      as (m & Hm).
    exists m. split; [done|]. split.
    + rewrite (BatchFacts.s3_files_exist_dom _ _ _ _ _ _ _ Hm). set_solver.
    + by apply ExistBatchFacts.s3_files_exist_values in Hm as (_ & Hin & _).
  - intros bk l1 q l2 e -> Hok Hq. unfold S3Interface.files_exist.
    by apply ExistBatchFacts.s3_files_exist_first_failure.
Qed.

Lemma files_exist_agrees_with_exists_witness :
  exists m,
    S3Interface.files_exist no_fault cloud_layer ["a/e"; "missing"]
      (abc_blobs [] [] []) = (Ok m, abc_blobs [] [] []) /\
    m !! "a/e" = Some (Some true) /\
    m !! "missing" = Some (Some false).
Proof.
  destruct (proj1 (proj2 (files_exist_agrees_with_exists no_fault cloud_layer
                            ["a/e"; "missing"])) (abc_blobs [] [] []))
    as (m & Hm & _ & Hin).
  - intros q Hq. apply elem_of_cons in Hq as [->|Hq]; [reflexivity|].
    apply elem_of_cons in Hq as [->|Hq]; [reflexivity|].
    by apply elem_of_nil in Hq.
  - exists m. split; [done|]. split.
    + destruct (Hin "a/e") as (b & Hb & ->); [apply elem_of_cons; by left|].
      injection Hb as <-. reflexivity.
    + destruct (Hin "missing") as (b & Hb & ->);
        [apply elem_of_cons; right; apply elem_of_cons; by left|].
      injection Hb as <-. reflexivity.
Defined.

(** ** Writes to the cloud stores *)

Module BucketFacts.

Lemma lookup_store_ne bk key k o :
  k <> key -> bucket_lookup (bucket_store bk key o) k = bucket_lookup bk k.
Proof.
  intros Hne. unfold bucket_lookup. induction bk as [|[r o'] bk IH]; simpl.
  - apply not_eq_sym, String.eqb_neq in Hne. by rewrite Hne.
  - destruct (r =? key) eqn:E; simpl.
    + apply String.eqb_eq in E as ->.
      apply not_eq_sym, String.eqb_neq in Hne. by rewrite Hne.
    + destruct (r =? k); [done|]. apply IH.
Qed.

Lemma lookup_delete bk key : bucket_lookup (bucket_delete bk key) key = None.
Proof.
  unfold bucket_lookup, bucket_delete. induction bk as [|[r o] bk IH]; simpl; [done|].
  destruct (r =? key) eqn:E; simpl; [done|]. by rewrite E.
Qed.

Lemma lookup_delete_ne bk key k :
  k <> key -> bucket_lookup (bucket_delete bk key) k = bucket_lookup bk k.
Proof.
  intros Hne. unfold bucket_lookup, bucket_delete.
  induction bk as [|[r o] bk IH]; simpl; [done|].
  destruct (r =? key) eqn:E; simpl.
  - apply String.eqb_eq in E as ->.
    apply not_eq_sym, String.eqb_neq in Hne. by rewrite Hne.
  - destruct (r =? k); [done|]. apply IH.
Qed.

Lemma delete_absent bk key :
  bucket_lookup bk key = None -> bucket_delete bk key = bk.
Proof.
  unfold bucket_lookup, bucket_delete. induction bk as [|[r o] bk IH]; simpl; [done|].
  destruct (r =? key) eqn:E; simpl; [done|]. intros H. by rewrite IH.
Qed.

Section Reads.
Variable cdc : Codec.
Variable fault : string -> string -> option exn.
Variable patience : nat.
Variable p : BucketPath.

(** What the reads of a path come to depends on the bucket through the
    blob under the path's key only. *)
Lemma s3_get_file_attempt_lookup g bk bk' :
  bucket_lookup bk' (S3Interface.get_path_to_file p g)
    = bucket_lookup bk (S3Interface.get_path_to_file p g) ->
  fst (S3Interface.get_file_attempt cdc fault p g bk')
    = fst (S3Interface.get_file_attempt cdc fault p g bk).
Proof.
  intros Hl. unfold S3Interface.get_file_attempt.
  unfold try_except, bind, S3Interface.get_object, S3Interface.call, ret, raise.
  destruct (fault "get_object" _) as [e|]; simpl.
  - destruct e; try done. by destruct (_ =? "NoSuchKey").
  - rewrite Hl. destruct (bucket_lookup bk _) as [o|]; simpl; [|done].
    match goal with
    | |- context [match ?d with Ok _ => _ | Raise _ => _ end bk] =>
        destruct d as [c|e]; simpl; [done|]
    end.
    destruct e; try done. by destruct (_ =? "NoSuchKey").
Qed.

Lemma s3_get_file_lookup g bk bk' :
  bucket_lookup bk' (S3Interface.get_path_to_file p g)
    = bucket_lookup bk (S3Interface.get_path_to_file p g) ->
  fst (S3Interface.get_file cdc fault patience p g bk')
    = fst (S3Interface.get_file cdc fault patience p g bk).
Proof.
  intros Hl. rewrite !BatchFacts.s3_get_file_cases.
  rewrite (s3_get_file_attempt_lookup g bk bk' Hl).
  by destruct (fst (S3Interface.get_file_attempt cdc fault p g bk)) as [[a|e]|].
Qed.

Lemma s3_exists_lookup g bk bk' :
  bucket_lookup bk' (S3Interface.get_path_to_file p g)
    = bucket_lookup bk (S3Interface.get_path_to_file p g) ->
  fst (S3Interface.exists_ fault p g bk') = fst (S3Interface.exists_ fault p g bk).
Proof.
  intros Hl.
  unfold S3Interface.exists_, try_except, bind, S3Interface.head_object,
    S3Interface.call.
  destruct (fault "head_object" _) as [e|]; simpl.
  - destruct e; try done. by destruct (code =? "404").
  - rewrite Hl. destruct (bucket_lookup bk _); simpl; [done|].
    by destruct ("404" =? "404").
Qed.

Lemma gcs_get_file_attempt_lookup g bk bk' :
  bucket_lookup bk' (GoogleCloudStorageInterface.get_path_to_file p g)
    = bucket_lookup bk (GoogleCloudStorageInterface.get_path_to_file p g) ->
  fst (GoogleCloudStorageInterface.get_file_attempt cdc fault p g bk')
    = fst (GoogleCloudStorageInterface.get_file_attempt cdc fault p g bk).
Proof.
  intros Hl. unfold GoogleCloudStorageInterface.get_file_attempt.
  unfold bind, GoogleCloudStorageInterface.call, ret, raise.
  destruct (fault "get_blob" _) as [e|]; simpl; [done|].
  rewrite Hl. destruct (bucket_lookup bk _) as [o|]; simpl; [|done].
  destruct (fault "download" _) as [e|]; simpl; [done|].
  by destruct (GoogleCloudStorageInterface.download_as_string cdc o).
Qed.

Lemma gcs_get_file_lookup g bk bk' :
  bucket_lookup bk' (GoogleCloudStorageInterface.get_path_to_file p g)
    = bucket_lookup bk (GoogleCloudStorageInterface.get_path_to_file p g) ->
  fst (GoogleCloudStorageInterface.get_file cdc fault patience p g bk')
    = fst (GoogleCloudStorageInterface.get_file cdc fault patience p g bk).
Proof.
  intros Hl. rewrite !BatchFacts.gcs_get_file_cases.
  rewrite (gcs_get_file_attempt_lookup g bk bk' Hl).
  by destruct (fst (GoogleCloudStorageInterface.get_file_attempt cdc fault p g bk))
    as [[a|e]|].
Qed.

Lemma gcs_exists_lookup g bk bk' :
  bucket_lookup bk' (GoogleCloudStorageInterface.get_path_to_file p g)
    = bucket_lookup bk (GoogleCloudStorageInterface.get_path_to_file p g) ->
  fst (GoogleCloudStorageInterface.exists_ fault p g bk')
    = fst (GoogleCloudStorageInterface.exists_ fault p g bk).
Proof.
  intros Hl.
  unfold GoogleCloudStorageInterface.exists_, bind, GoogleCloudStorageInterface.call.
  destruct (fault "get_blob" _) as [e|]; simpl; [done|]. by rewrite Hl.
Qed.

(** What a write that returns has done to the bucket. *)
Lemma s3_put_file_ok f C ct method cc bk bk' :
  S3Interface.put_file fault patience p f C ct method cc bk = (Ok tt, bk') ->
  exists o, bk' = bucket_store bk (S3Interface.get_path_to_file p f) o.
Proof.
  unfold S3Interface.put_file, S3Interface.put_file_attempt, S3Interface.call.
  intros Hput. destruct (fault "put_object" _) as [e|].
  { by rewrite (RetryUse.retry_bare_stuck (raise e) bk e eq_refl) in Hput. }
  erewrite RetryUse.retry_bare_ok in Hput by reflexivity.
  injection Hput as <-. by eexists.
Qed.

Lemma gcs_put_file_ok f C ct method cc bk bk' :
  GoogleCloudStorageInterface.put_file fault patience p f C ct method cc bk
    = (Ok tt, bk') ->
  exists o, bk' = bucket_store bk (GoogleCloudStorageInterface.get_path_to_file p f) o.
Proof.
  unfold GoogleCloudStorageInterface.put_file,
    GoogleCloudStorageInterface.put_file_attempt, GoogleCloudStorageInterface.call.
  intros Hput. destruct (fault "upload" _) as [e|].
  { by rewrite (RetryUse.retry_bare_stuck (raise e) bk e eq_refl) in Hput. }
  erewrite RetryUse.retry_bare_ok in Hput by reflexivity.
  injection Hput as <-. by eexists.
Qed.

(** A delete that the service refuses is tried again without end. *)
Lemma s3_delete_file_cases f bk :
  match fault "delete_object" (S3Interface.get_path_to_file p f) with
  | None => S3Interface.delete_file fault patience p f bk
            = (Ok tt, bucket_delete bk (S3Interface.get_path_to_file p f))
  | Some e => S3Interface.delete_file fault patience p f bk = (Diverge, bk)
  end.
Proof.
  unfold S3Interface.delete_file, S3Interface.delete_file_attempt, S3Interface.call.
  destruct (fault "delete_object" _) as [e|].
  - by apply RetryUse.retry_bare_stuck with e.
  - by apply RetryUse.retry_bare_ok.
Qed.

Lemma gcs_delete_file_cases f bk :
  match fault "delete_blob" (GoogleCloudStorageInterface.get_path_to_file p f) with
  | None => GoogleCloudStorageInterface.delete_file fault patience p f bk
            = (Ok tt, bucket_delete bk (GoogleCloudStorageInterface.get_path_to_file p f))
  | Some (HTTPException NotFound _) =>
      GoogleCloudStorageInterface.delete_file fault patience p f bk = (Ok tt, bk)
  | Some e => GoogleCloudStorageInterface.delete_file fault patience p f bk
              = (Diverge, bk)
  end.
Proof.
  unfold GoogleCloudStorageInterface.delete_file,
    GoogleCloudStorageInterface.delete_file_attempt, GoogleCloudStorageInterface.call.
  destruct (fault "delete_blob" _) as [e|].
  - destruct e as [| | | | |[] ?| | | |];
      first [by apply RetryUse.retry_bare_ok
            |by eapply RetryUse.retry_bare_stuck].
  - apply RetryUse.retry_bare_ok. unfold try_except.
    destruct (bucket_lookup bk _) eqn:Hl; [done|].
    unfold ret. by rewrite delete_absent.
Qed.
End Reads.
End BucketFacts.

(** X8: on both cloud stores a [delete_file] that the service does not
    refuse succeeds, also for a path that is not stored, in which case the
    bucket is left as it was; afterwards [get_file] returns [None] and
    [exists] is false for the path.  A delete that S3 refuses does not
    return and raises nothing: under the bare [@retry] it is tried again
    without end, the bucket staying as it was; and the Google interface
    takes a not-found answer for a success. *)
Theorem cloud_delete_file_makes_absent
    (cdc : Codec) (fault : string -> string -> option exn) (patience : nat)
    (p : BucketPath) (f : string) (bk : bucket_state) :
  let key := os_path_join (path p) [f] in
  (fault "delete_object" key = None ->
   exists bk',
     S3Interface.delete_file fault patience p f bk = (Ok tt, bk') /\
     (bucket_lookup bk key = None -> bk' = bk) /\
     (fault "get_object" key = None -> fault "head_object" key = None ->
      S3Interface.get_file cdc fault patience p f bk' = (Ok None, bk') /\
      S3Interface.exists_ fault p f bk' = (Ok false, bk'))) /\
  (forall e, fault "delete_object" key = Some e ->
             S3Interface.delete_file fault patience p f bk = (Diverge, bk)) /\
  (fault "delete_blob" key = None ->
   exists bk',
     GoogleCloudStorageInterface.delete_file fault patience p f bk = (Ok tt, bk') /\
     (bucket_lookup bk key = None -> bk' = bk) /\
     (fault "get_blob" key = None ->
      GoogleCloudStorageInterface.get_file cdc fault patience p f bk' = (Ok None, bk') /\
      GoogleCloudStorageInterface.exists_ fault p f bk' = (Ok false, bk'))) /\
  (forall status, fault "delete_blob" key = Some (HTTPException NotFound status) ->
                  GoogleCloudStorageInterface.delete_file fault patience p f bk
                  = (Ok tt, bk)).
Proof.
  intros key. split; [|split; [|split]].
  - intros Hdel.
    pose proof (BucketFacts.s3_delete_file_cases fault patience p f bk) as Hcase.
    change (S3Interface.get_path_to_file p f) with key in Hcase.
    rewrite Hdel in Hcase. exists (bucket_delete bk key).
    split; [done|]. split; [apply BucketFacts.delete_absent|].
    intros Hget Hhead. apply AbsenceFacts.s3_absent; try done.
    apply BucketFacts.lookup_delete.
  - intros e Hdel.
    pose proof (BucketFacts.s3_delete_file_cases fault patience p f bk) as Hcase.
    change (S3Interface.get_path_to_file p f) with key in Hcase.
    by rewrite Hdel in Hcase.
  - intros Hdel.
    pose proof (BucketFacts.gcs_delete_file_cases fault patience p f bk) as Hcase.
    change (GoogleCloudStorageInterface.get_path_to_file p f) with key in Hcase.
    rewrite Hdel in Hcase. exists (bucket_delete bk key).
    split; [done|]. split; [apply BucketFacts.delete_absent|].
    intros Hget. apply AbsenceFacts.gcs_absent; try done.
    apply BucketFacts.lookup_delete.
  - intros status Hdel.
    pose proof (BucketFacts.gcs_delete_file_cases fault patience p f bk) as Hcase.
    change (GoogleCloudStorageInterface.get_path_to_file p f) with key in Hcase.
    by rewrite Hdel in Hcase.
Qed.

Lemma cloud_delete_file_makes_absent_witness :
  (exists bk',
     S3Interface.delete_file no_fault 3 cloud_layer "a/e" (abc_blobs [] [] [])
       = (Ok tt, bk') /\
     S3Interface.get_file framing_codec no_fault 3 cloud_layer "a/e" bk'
       = (Ok None, bk') /\
     S3Interface.exists_ no_fault cloud_layer "a/e" bk' = (Ok false, bk')) /\
  S3Interface.delete_file (refusing "delete_object" (ClientError "AccessDenied"))
    3 cloud_layer "a/e" (abc_blobs [] [] [])
  = (Diverge, abc_blobs [] [] []).
Proof.
  split.
  - destruct (proj1 (cloud_delete_file_makes_absent framing_codec no_fault 3
                       cloud_layer "a/e" (abc_blobs [] [] [])) eq_refl)
      as (bk' & Hdel & _ & Hread).
    exists bk'. split; [done|]. by apply Hread.
  - exact (proj1 (proj2 (cloud_delete_file_makes_absent framing_codec
                           (refusing "delete_object" (ClientError "AccessDenied"))
                           3 cloud_layer "a/e" (abc_blobs [] [] [])))
             (ClientError "AccessDenied") eq_refl).
Defined.

(** X9: on both cloud stores a write touches one key: after a [put_file]
    or a [delete_file] of a path that returned, every path with another
    key is read, and found or not found, as before the write. *)
Theorem cloud_writes_touch_one_key
    (cdc : Codec) (fault : string -> string -> option exn) (patience : nat)
    (p : BucketPath) (f g : string) (C : bytes) (ct method cc : option string)
    (bk bk' : bucket_state) :
  os_path_join (path p) [g] <> os_path_join (path p) [f] ->
  (S3Interface.put_file fault patience p f C ct method cc bk = (Ok tt, bk') \/
   S3Interface.delete_file fault patience p f bk = (Ok tt, bk') ->
   fst (S3Interface.get_file cdc fault patience p g bk')
     = fst (S3Interface.get_file cdc fault patience p g bk) /\
   fst (S3Interface.exists_ fault p g bk') = fst (S3Interface.exists_ fault p g bk)) /\
  (GoogleCloudStorageInterface.put_file fault patience p f C ct method cc bk
     = (Ok tt, bk') \/
   GoogleCloudStorageInterface.delete_file fault patience p f bk = (Ok tt, bk') ->
   fst (GoogleCloudStorageInterface.get_file cdc fault patience p g bk')
     = fst (GoogleCloudStorageInterface.get_file cdc fault patience p g bk) /\
   fst (GoogleCloudStorageInterface.exists_ fault p g bk')
     = fst (GoogleCloudStorageInterface.exists_ fault p g bk)).
Proof.
  intros Hne. split.
  - intros Hwrite.
    assert (bucket_lookup bk' (S3Interface.get_path_to_file p g)
            = bucket_lookup bk (S3Interface.get_path_to_file p g)) as Hl.
    { destruct Hwrite as [Hput|Hdel].
      - apply BucketFacts.s3_put_file_ok in Hput as (o & ->).
        by apply BucketFacts.lookup_store_ne.
      - pose proof (BucketFacts.s3_delete_file_cases fault patience p f bk) as Hcase.
        destruct (fault "delete_object" _); rewrite Hdel in Hcase; [done|].
        injection Hcase as ->. by apply BucketFacts.lookup_delete_ne. }
    split; [by apply BucketFacts.s3_get_file_lookup
           |by apply BucketFacts.s3_exists_lookup].
  - intros Hwrite.
    assert (bucket_lookup bk' (GoogleCloudStorageInterface.get_path_to_file p g)
            = bucket_lookup bk (GoogleCloudStorageInterface.get_path_to_file p g)) as Hl.
    { destruct Hwrite as [Hput|Hdel].
      - apply BucketFacts.gcs_put_file_ok in Hput as (o & ->).
        by apply BucketFacts.lookup_store_ne.
      - pose proof (BucketFacts.gcs_delete_file_cases fault patience p f bk) as Hcase.
        destruct (fault "delete_blob" _) as [e|]; rewrite Hdel in Hcase.
        + destruct e as [| | | | |[] ?| | | |]; try done. by injection Hcase as ->.
        + injection Hcase as ->. by apply BucketFacts.lookup_delete_ne. }
    split; [by apply BucketFacts.gcs_get_file_lookup
           |by apply BucketFacts.gcs_exists_lookup].
Qed.

Lemma cloud_writes_touch_one_key_witness :
  fst (S3Interface.get_file framing_codec no_fault 3 cloud_layer "a/e"
         (snd (S3Interface.put_file no_fault 3 cloud_layer "a/b/c" (bytes_of "new")
                 None None None (abc_blobs [] [] (bytes_of "e")))))
  = Ok (Some (bytes_of "e")).
Proof.
  rewrite (proj1 (proj1 (cloud_writes_touch_one_key framing_codec no_fault 3
                           cloud_layer
                           "a/b/c" "a/e" (bytes_of "new") None None None
                           (abc_blobs [] [] (bytes_of "e"))
                           (snd (S3Interface.put_file no_fault 3 cloud_layer "a/b/c"
                                   (bytes_of "new") None None None
                                   (abc_blobs [] [] (bytes_of "e"))))
                           ltac:(vm_compute; congruence))
                    (or_introl eq_refl))).
  reflexivity.
Defined.

(** ** Deleting and reading files of the filesystem *)

Module FileEdgeFacts.

Lemma existsb_filter {A} (f g : A -> bool) (l : list A) :
  existsb f l = false -> existsb f (List.filter g l) = false.
Proof.
  induction l as [|x l IH]; simpl; [done|].
  intros [Hx Hl]%orb_false_iff. destruct (g x); simpl; [|by apply IH].
  by rewrite Hx, IH.
Qed.

Lemma isfile_removed fs p :
  OS.isfile (List.filter (fun e => negb (fst e =? p)) fs) p = false.
Proof.
  rewrite OSFacts.isfile_read, OSFacts.read_remove.
  apply bool_decide_eq_false. by intros [x Hx].
Qed.

Lemma exists_after_remove fs p q :
  OS.exists_ fs q = false ->
  OS.exists_ (List.filter (fun e => negb (fst e =? p)) fs) q = false.
Proof.
  unfold OS.exists_, OS.isfile, OS.isdir. intros [Hf Hd]%orb_false_iff.
  by rewrite !existsb_filter.
Qed.

Lemma exists_removed fs p :
  OS.isdir fs p = false ->
  OS.exists_ (List.filter (fun e => negb (fst e =? p)) fs) p = false.
Proof.
  intros Hd. unfold OS.exists_. rewrite isfile_removed. simpl.
  unfold OS.isdir in *. by rewrite existsb_filter.
Qed.
End FileEdgeFacts.

(** X10: [delete_file] of the filesystem interface at its edges.  For a
    path of which neither variant exists it does nothing and returns; for
    a path that is a directory it raises the error of [os.remove]; and
    when exactly one variant of the path is stored, the plain file or the
    compressed one, it removes that file, after which the path does not
    exist and reads as [None]. *)
Theorem file_delete_file_edges (cdc : Codec) (p : BucketPath) (f : string)
    (fs : filesystem) :
  let path := FileInterface.get_path_to_file p f in
  (OS.exists_ fs path = false -> OS.exists_ fs (path ++ ".gz") = false ->
   FileInterface.delete_file p f fs = (Ok tt, fs)) /\
  (OS.isfile fs path = false -> OS.isdir fs path = true ->
   FileInterface.delete_file p f fs = (Raise IOError, fs)) /\
  ((OS.isfile fs path = true /\ OS.isdir fs path = false /\
    OS.exists_ fs (path ++ ".gz") = false) \/
   (OS.exists_ fs path = false /\
    OS.isfile fs (path ++ ".gz") = true /\ OS.isdir fs (path ++ ".gz") = false) ->
   exists fs',
     FileInterface.delete_file p f fs = (Ok tt, fs') /\
     FileInterface.exists_ p f fs' = (Ok false, fs') /\
     FileInterface.get_file cdc p f fs' = (Ok None, fs')).
Proof.
  intros path. unfold FileInterface.delete_file. fold path.
  split; [|split].
  - by intros -> ->.
  - intros Hfile Hdir. unfold OS.exists_, OS.remove. by rewrite Hfile, Hdir.
  - intros [(Hfile & Hdir & Hgz)|(Hplain & Hfile & Hdir)].
    + unfold OS.exists_ at 1. rewrite Hfile. simpl. unfold OS.remove. rewrite Hfile.
      eexists. split; [done|].
      apply and_comm, AbsenceFacts.file_absent; fold path.
      * by apply FileEdgeFacts.exists_removed.
      * by apply FileEdgeFacts.exists_after_remove.
    + rewrite Hplain. unfold OS.exists_ at 1. rewrite Hfile. simpl.
      unfold OS.remove. rewrite Hfile.
      eexists. split; [done|].
      apply and_comm, AbsenceFacts.file_absent; fold path.
      * by apply FileEdgeFacts.exists_after_remove.
      * by apply FileEdgeFacts.exists_removed.
Qed.

Lemma file_delete_file_edges_witness :
  FileInterface.delete_file tmp_layer "missing" sibling_files = (Ok tt, sibling_files) /\
  FileInterface.delete_file tmp_layer "a" (abc_files [] [] [])
    = (Raise IOError, abc_files [] [] []) /\
  exists fs',
    FileInterface.delete_file tmp_layer "y" sibling_files = (Ok tt, fs') /\
    FileInterface.exists_ tmp_layer "y" fs' = (Ok false, fs') /\
    FileInterface.get_file framing_codec tmp_layer "y" fs' = (Ok None, fs').
Proof.
  split; [|split].
  - apply (proj1 (file_delete_file_edges framing_codec tmp_layer "missing"
                    sibling_files)); reflexivity.
  - apply (proj1 (proj2 (file_delete_file_edges framing_codec tmp_layer "a"
                           (abc_files [] [] [])))); reflexivity.
  - apply (proj2 (proj2 (file_delete_file_edges framing_codec tmp_layer "y"
                           sibling_files))).
    right. repeat split; reflexivity.
Defined.

(** X11: what [get_file] of the filesystem interface makes of a compressed
    file that cannot be decompressed, and of a read that returns.  The
    exception of the decompression is raised to the caller, and kept in
    the entry of [get_files]; but when it is an [IOError] it is caught
    with the errors of opening the file, and the file reads as [None],
    as if it were missing.  A read that returns content is of a path that
    [exists]. *)
Theorem file_get_file_of_unreadable_content (cdc : Codec) (p : BucketPath)
    (f : string) (fs : filesystem) :
  let path := FileInterface.get_path_to_file p f in
  (forall data e,
      OS.read fs (path ++ ".gz") = Some data ->
      gunzip cdc data = Raise e ->
      (e <> IOError ->
       FileInterface.get_file cdc p f fs = (Raise e, fs) /\
       FileInterface.get_files cdc p [f] fs
         = (Ok [{| filename := f; content := None; error := Some e |}], fs)) /\
      (e = IOError ->
       FileInterface.get_file cdc p f fs = (Ok None, fs) /\
       FileInterface.exists_ p f fs = (Ok true, fs))) /\
  (forall c,
      FileInterface.get_file cdc p f fs = (Ok (Some c), fs) ->
      FileInterface.exists_ p f fs = (Ok true, fs)).
Proof.
  intros path. split.
  - intros data e Hread Hgunzip.
    assert (OS.exists_ fs (path ++ ".gz") = true) as Hgz.
    { unfold OS.exists_. by rewrite OSFacts.isfile_read, Hread. }
    assert (FileInterface.get_file cdc p f fs
            = (match e with IOError => Ok None | _ => Raise e end, fs)) as Hget.
    { unfold FileInterface.get_file. fold path. rewrite Hgz.
      unfold try_except, bind, OS.open_read. rewrite Hread.
      unfold decompress. simpl. rewrite Hgunzip. by destruct e. }
    split.
    + intros Hne. assert (FileInterface.get_file cdc p f fs = (Raise e, fs)) as Hraise.
      { rewrite Hget. by destruct e. }
      split; [done|]. unfold FileInterface.get_files. simpl.
      unfold bind, try_except. by rewrite Hraise.
    + intros ->. split; [done|]. unfold FileInterface.exists_. fold path.
      by rewrite Hgz, orb_true_r.
  - intros c. unfold FileInterface.get_file, FileInterface.exists_. fold path.
    destruct (OS.exists_ fs (path ++ ".gz")) eqn:Hgz; [by rewrite orb_true_r|].
    rewrite orb_false_r. unfold try_except, bind, OS.open_read.
    destruct (OS.read fs path) as [data|] eqn:Hread; [|done].
    intros _. unfold OS.exists_. by rewrite OSFacts.isfile_read, Hread.
Qed.

Lemma file_get_file_of_unreadable_content_witness :
  FileInterface.get_file framing_codec tmp_layer "bad"
    [("/tmp/layer/bad.gz", bytes_of "not compressed")]
  = (Raise DecompressionError, [("/tmp/layer/bad.gz", bytes_of "not compressed")]).
Proof.
  apply (proj1 (proj1 (file_get_file_of_unreadable_content framing_codec tmp_layer "bad"
                         [("/tmp/layer/bad.gz", bytes_of "not compressed")])
                  (bytes_of "not compressed") DecompressionError eq_refl eq_refl)).
  congruence.
Defined.

(** ** Batches of writes *)

Module WriteBatchFacts.
Section WriteBatchFacts.
Context {W : Type}.
Variable cdc : Codec.
Variable iface : Interface W.

Lemma put_files_app files1 files2 ct method cc w :
  SimpleStorage.put_files cdc iface (files1 ++ files2) ct method cc w
  = match SimpleStorage.put_files cdc iface files1 ct method cc w with
    | (Ok _, w1) => SimpleStorage.put_files cdc iface files2 ct method cc w1
    | (Raise e, w1) => (Raise e, w1)
    | (Diverge, w1) => (Diverge, w1)
    end.
Proof.
  revert w. induction files1 as [|[f C] files1 IH]; intros w; simpl; [done|].
  destruct (compress cdc C method) as [C'|e]; [|done].
  unfold bind. destruct (i_put_file iface f C' ct method cc w) as [[[[]|e]|] w1]; [|done|done].
  apply IH.
Qed.

Lemma delete_files_app l1 l2 w :
  SimpleStorage.delete_files iface (l1 ++ l2) w
  = match SimpleStorage.delete_files iface l1 w with
    | (Ok _, w1) => SimpleStorage.delete_files iface l2 w1
    | (Raise e, w1) => (Raise e, w1)
    | (Diverge, w1) => (Diverge, w1)
    end.
Proof.
  revert w. induction l1 as [|f l1 IH]; intros w; simpl; [done|].
  unfold bind. destruct (i_delete_file iface f w) as [[[[]|e]|] w1]; [|done|done].
  apply IH.
Qed.
End WriteBatchFacts.
End WriteBatchFacts.

(** X12: the batches of writes of [SimpleStorage] stop at the first write
    that fails.  [put_files] and [delete_files] write or delete the
    entries in order; when one fails, its exception is raised, the
    entries before it have been written or deleted, and the entries after
    it are not tried.  Over HTTP, where no write is possible, both raise
    [NotImplementedError] for any entry, and still return for none. *)
Theorem write_batches_stop_at_first_failure {W : Type} (cdc : Codec)
    (iface : Interface W) (ct method cc : option string) :
  (forall files1 f C files2 w w1 C' e w2,
      SimpleStorage.put_files cdc iface files1 ct method cc w = (Ok tt, w1) ->
      compress cdc C method = Ok C' ->
      i_put_file iface f C' ct method cc w1 = (Raise e, w2) ->
      SimpleStorage.put_files cdc iface (files1 ++ (f, C) :: files2) ct method cc w
        = (Raise e, w2)) /\
  (forall l1 f l2 w w1 e w2,
      SimpleStorage.delete_files iface l1 w = (Ok tt, w1) ->
      i_delete_file iface f w1 = (Raise e, w2) ->
      SimpleStorage.delete_files iface (l1 ++ f :: l2) w = (Raise e, w2)) /\
  (forall env p files (c : connection),
      (forall C, is_ok (compress cdc C method) = true) ->
      SimpleStorage.put_files cdc (http_interface env p) files ct method cc c
        = (match files with [] => Ok tt | _ => Raise NotImplementedError end, c)) /\
  (forall env p file_paths (c : connection),
      SimpleStorage.delete_files (http_interface env p) file_paths c
        = (match file_paths with [] => Ok tt | _ => Raise NotImplementedError end, c)).
Proof.
  split; [|split; [|split]].
  - intros files1 f C files2 w w1 C' e w2 Hbefore HC Hput.
    rewrite WriteBatchFacts.put_files_app, Hbefore. simpl. rewrite HC.
    unfold bind. by rewrite Hput.
  - intros l1 f l2 w w1 e w2 Hbefore Hdel.
    rewrite WriteBatchFacts.delete_files_app, Hbefore. simpl.
    unfold bind. by rewrite Hdel.
  - intros env p [|[f C] files] c Hok; simpl; [done|].
    specialize (Hok C). by destruct (compress cdc C method).
  - by intros env p [|f l] c.
Qed.

Lemma write_batches_stop_at_first_failure_witness :
  SimpleStorage.put_files framing_codec (file_interface sample_env tmp_layer)
    ([("new", bytes_of "1")] ++ ("a", bytes_of "2") :: [("later", bytes_of "3")])
    None None None (abc_files [] [] [])
  = (Raise IOError, abc_files [] [] [] ++ [("/tmp/layer/new", bytes_of "1")]).
Proof.
  apply (proj1 (write_batches_stop_at_first_failure framing_codec
                  (file_interface sample_env tmp_layer) None None None)
           [("new", bytes_of "1")] "a" (bytes_of "2") [("later", bytes_of "3")]
           (abc_files [] [] [])
           (abc_files [] [] [] ++ [("/tmp/layer/new", bytes_of "1")])
           (bytes_of "2") IOError
           (abc_files [] [] [] ++ [("/tmp/layer/new", bytes_of "1")]));
    reflexivity.
Defined.

(** ** The facade without worker threads *)

Module FacadeFacts.
Section FacadeFacts.
Context {W : Type}.
Variable scheduler : forall A : Type, list A -> list A.
Variable iface : Interface W.
Variable cdc : Codec.

Hypothesis scheduler_perm : forall (A : Type) (l : list A), scheduler A l ≡ₚ l.

Lemma wait_nothing {S : Type} (acc : S) (w : W) :
  Storage.wait scheduler [] acc w = (Ok acc, w).
Proof.
  unfold Storage.wait.
  by rewrite (proj1 (Permutation_nil_r _) (scheduler_perm _ [])).
Qed.

Lemma put_files_loop_unthreaded files ct method cc w :
  Storage.put_files_loop 0 iface cdc files ct method cc [] w
  = match SimpleStorage.put_files cdc iface files ct method cc w with
    | (Ok _, w') => (Ok [], w')
    | (Raise e, w') => (Raise e, w')
    | (Diverge, w') => (Diverge, w')
    end.
Proof.
  revert w. induction files as [|[f C] files IH]; intros w; simpl; [done|].
  destruct (compress cdc C method) as [C'|e]; [|done].
  unfold bind, Storage.uploadfn.
  destruct (i_put_file iface f C' ct method cc w) as [[[[]|e]|] w1]; [|done|done].
  apply IH.
Qed.

Lemma delete_files_loop_unthreaded file_paths w :
  Storage.delete_files_loop 0 iface file_paths [] w
  = match SimpleStorage.delete_files iface file_paths w with
    | (Ok _, w') => (Ok [], w')
    | (Raise e, w') => (Raise e, w')
    | (Diverge, w') => (Diverge, w')
    end.
Proof.
  revert w. induction file_paths as [|f l IH]; intros w; simpl; [done|].
  unfold bind, Storage.thunk_delete.
  destruct (i_delete_file iface f w) as [[[[]|e]|] w1]; [|done|done].
  apply IH.
Qed.
End FacadeFacts.
End FacadeFacts.

(** X13: a [Storage] without worker threads, which is what an HTTP layer
    always gets, does what [SimpleStorage] does: its batched reads,
    existence checks, writes and deletions come to the results, and leave
    the backend in the state, of the calls on the one interface, whatever
    the scatter and the scheduler of the (absent) workers. *)
Theorem storage_without_threads_is_simple_storage {W : Type}
    (scatter : list string -> nat -> list (list string))
    (scheduler : forall A : Type, list A -> list A)
    (cdc : Codec) (iface : Interface W) (w : W) :
  (forall (A : Type) (l : list A), scheduler A l ≡ₚ l) ->
  (forall n_threads, Storage.init_threads HttpInterfaceCls n_threads = 0) /\
  (forall file_paths,
      Storage.get_files scatter scheduler 0 iface file_paths w
        = SimpleStorage.get_files iface file_paths w) /\
  (forall file_paths,
      Storage.files_exist scatter scheduler 0 iface file_paths w
        = SimpleStorage.files_exist iface file_paths w) /\
  (forall files ct method cc,
      Storage.put_files scheduler 0 iface cdc files ct method cc w
        = SimpleStorage.put_files cdc iface files ct method cc w) /\
  (forall file_paths,
      Storage.delete_files scheduler 0 iface file_paths w
        = SimpleStorage.delete_files iface file_paths w).
Proof.
  intros Hperm. split; [done|]. split; [|split; [|split]].
  - intros file_paths.
    unfold Storage.get_files, SimpleStorage.get_files, Storage.get_file_thunk, bind, ret.
    simpl. destruct (i_get_files iface file_paths w) as [[[rs|e]|] w']; [|done|done].
    by rewrite FacadeFacts.wait_nothing.
  - intros file_paths.
    unfold Storage.files_exist, SimpleStorage.files_exist, Storage.exist_thunk, bind, ret.
    simpl. destruct (i_files_exist iface file_paths w) as [[[m|e]|] w']; [|done|done].
    rewrite FacadeFacts.wait_nothing by done. by rewrite (right_id_L ∅ (∪)).
  - intros files ct method cc. unfold Storage.put_files, bind.
    rewrite FacadeFacts.put_files_loop_unthreaded.
    destruct (SimpleStorage.put_files cdc iface files ct method cc w)
      as [[[[]|e]|] w']; [|done|done].
    by rewrite FacadeFacts.wait_nothing.
  - intros file_paths. unfold Storage.delete_files, bind.
    rewrite FacadeFacts.delete_files_loop_unthreaded.
    destruct (SimpleStorage.delete_files iface file_paths w) as [[[[]|e]|] w']; [|done|done].
    by rewrite FacadeFacts.wait_nothing.
Qed.

Lemma storage_without_threads_is_simple_storage_witness :
  Storage.get_files chunk_scatter reverse_scheduler 0
    (http_interface sample_env http_layer) ["a"; "d"] idle
  = SimpleStorage.get_files (http_interface sample_env http_layer) ["a"; "d"] idle.
Proof.
  apply (proj1 (proj2 (storage_without_threads_is_simple_storage
                         chunk_scatter reverse_scheduler framing_codec
                         (http_interface sample_env http_layer) idle
                         (fun A l => Permutation_sym (Permutation_rev l))))).
Defined.

(** ** Uploads by the workers *)

Module UploadFacts.

Lemma stored_in_turn_lookup (l : list (string * blob)) : forall bk,
  NoDup (map fst l) ->
  (forall k o, (k, o) ∈ l -> bucket_lookup (stored_in_turn l bk) k = Some o) /\
  (forall k, k ∉ map fst l ->
             bucket_lookup (stored_in_turn l bk) k = bucket_lookup bk k).
Proof.
  induction l as [|[k0 o0] l IH]; intros bk Hnodup; simpl.
  - split; [|done]. intros k o Hin. by apply elem_of_nil in Hin.
  - apply NoDup_cons in Hnodup as [Hk0 Hnodup].
    destruct (IH (bucket_store bk k0 o0) Hnodup) as [Hin Hout]. split.
    + intros k o Hko. apply elem_of_cons in Hko as [[= -> ->]|Hko]; [|by apply Hin].
      rewrite Hout by done. apply RoundTripFacts.bucket_lookup_store.
    + intros k Hk. apply not_elem_of_cons in Hk as [Hne Hk].
      rewrite Hout by done. by apply BucketFacts.lookup_store_ne.
Qed.

Section Uploads.
Variable env : Env.
Variable p : BucketPath.
Variable scheduler : forall A : Type, list A -> list A.
Variable n_threads : nat.
Variables ct method cc : option string.

Hypothesis scheduler_perm : forall (A : Type) (l : list A), scheduler A l ≡ₚ l.
Hypothesis threads : n_threads <> 0.
Hypothesis method_ok : forall C, is_ok (compress (env_codec env) C method) = true.

Local Abbreviation iface := (s3_interface env p).
Local Abbreviation key := (S3Interface.get_path_to_file p).

Local Abbreviation uploaded := (Upload.uploaded env ct method cc).
Local Abbreviation task := (Upload.task env p ct method cc).

Lemma put_files_loop_queues files : forall queued bk,
  Storage.put_files_loop n_threads iface (env_codec env) files ct method cc queued bk
  = (Ok (queued ++ map task files), bk).
Proof.
  induction files as [|[f C] files IH]; intros queued bk; simpl.
  - by rewrite app_nil_r.
  - pose proof (method_ok C) as HC. unfold Upload.task at 1, compressed. simpl.
    destruct (compress (env_codec env) C method) as [C'|e]; [|done].
    destruct (n_threads =? 0)%nat eqn:E; [by apply Nat.eqb_eq in E|]. simpl.
    by rewrite IH, <- app_assoc.
Qed.

Lemma run_uploads files : forall bk,
  (forall e, e ∈ files -> env_s3_fault env "put_object" (key (fst e)) = None) ->
  Storage.run_tasks (map task files) tt None bk
  = Some (tt, None,
          stored_in_turn (map (fun e => (key (fst e), uploaded (snd e))) files) bk).
Proof.
  induction files as [|[f C] files IH]; intros bk Hfault; simpl; [done|].
  assert (task (f, C) tt bk = (Ok tt, bucket_store bk (key f) (uploaded C))) as ->.
  { pose proof (Hfault (f, C) ltac:(apply elem_of_cons; by left)) as Hf.
    simpl in Hf. unfold Upload.task, Storage.uploadfn. simpl.
    unfold S3Interface.put_file. apply RetryUse.retry_bare_ok.
    unfold S3Interface.put_file_attempt, S3Interface.call. by rewrite Hf. }
  apply IH. intros e He. apply Hfault. apply elem_of_cons. by right.
Qed.

Lemma put_files_lands files bk :
  (forall e, e ∈ files -> env_s3_fault env "put_object" (key (fst e)) = None) ->
  exists files',
    files' ≡ₚ files /\
    Storage.put_files scheduler n_threads iface (env_codec env) files ct method cc bk
    = (Ok tt, stored_in_turn (map (fun e => (key (fst e), uploaded (snd e))) files') bk).
Proof.
  intros Hfault. unfold Storage.put_files, bind.
  rewrite put_files_loop_queues. simpl. unfold Storage.wait.
  destruct (Permutation_map_inv task _ (scheduler_perm _ (map task files)))
    as (files' & Hsched & Hperm).
  exists files'. split; [by symmetry|]. rewrite Hsched, run_uploads; [done|].
  intros e He. apply Hfault. by rewrite Hperm.
Qed.

Lemma read_uploaded patience f C bk :
  codec_round_trip (env_codec env) ->
  env_s3_fault env "get_object" (key f) = None ->
  bucket_lookup bk (key f) = Some (uploaded C) ->
  S3Interface.get_file (env_codec env) (env_s3_fault env) patience p f bk
  = (Ok (Some C), bk).
Proof.
  intros Hcdc Hget Hl. unfold S3Interface.get_file. apply RetryUse.retry_bare_ok.
  unfold S3Interface.get_file_attempt.
  unfold try_except, bind, S3Interface.get_object, S3Interface.call.
  rewrite Hget, Hl. simpl. unfold compressed.
  pose proof (method_ok C) as HC.
  destruct (compress (env_codec env) C method) as [C'|e] eqn:Hc; [|done].
  pose proof (StoreRoundTrip.decompress_stored _ C method C' Hcdc Hc) as Hd.
  destruct (truthy method); simpl in *; [by rewrite Hd|by injection Hd as ->].
Qed.
End Uploads.
End UploadFacts.

(** X14: with worker threads, [put_files] of the [Storage] facade on an
    S3 layer queues one upload per entry and waits for them; when the
    entries go to different keys and the service takes the uploads, the
    call returns and every file then reads back with its content, in
    whatever order the workers completed the uploads; the other keys of
    the bucket read as before. *)
Theorem threaded_uploads_all_land (env : Env) (p : BucketPath)
    (scheduler : forall A : Type, list A -> list A) (n_threads : nat)
    (ct method cc : option string) (files : list (string * bytes))
    (bk : bucket_state) :
  (forall (A : Type) (l : list A), scheduler A l ≡ₚ l) ->
  n_threads <> 0 ->
  (forall C, is_ok (compress (env_codec env) C method) = true) ->
  NoDup (map (fun e => S3Interface.get_path_to_file p (fst e)) files) ->
  (forall e, e ∈ files ->
             env_s3_fault env "put_object" (S3Interface.get_path_to_file p (fst e))
             = None) ->
  exists bk',
    Storage.put_files scheduler n_threads (s3_interface env p) (env_codec env)
      files ct method cc bk = (Ok tt, bk') /\
    (codec_round_trip (env_codec env) ->
     forall patience f C,
       (f, C) ∈ files ->
       env_s3_fault env "get_object" (S3Interface.get_path_to_file p f) = None ->
       S3Interface.get_file (env_codec env) (env_s3_fault env) patience p f bk'
         = (Ok (Some C), bk')) /\
    (forall patience g,
        S3Interface.get_path_to_file p g
          ∉ map (fun e => S3Interface.get_path_to_file p (fst e)) files ->
        fst (S3Interface.get_file (env_codec env) (env_s3_fault env) patience p g bk')
          = fst (S3Interface.get_file (env_codec env) (env_s3_fault env) patience p g
                   bk)).
Proof.
  intros Hsched Hthreads Hmethod Hnodup Hfault.
  destruct (UploadFacts.put_files_lands env p scheduler n_threads ct method cc
              Hsched Hthreads Hmethod files bk Hfault) as (files' & Hperm & Hput).
  eexists. split; [exact Hput|].
  set (l := map (fun e => (S3Interface.get_path_to_file p (fst e),
                           Upload.uploaded env ct method cc (snd e))) files').
  assert (map fst l = map (fun e => S3Interface.get_path_to_file p (fst e)) files')
    as Hkeys.
  { subst l. rewrite map_map. by apply map_ext. }
  destruct (UploadFacts.stored_in_turn_lookup l bk) as [Hin Hout].
  { rewrite Hkeys. by rewrite Hperm. }
  split.
  - intros Hcdc patience f C HfC Hget.
    apply (UploadFacts.read_uploaded env p ct method cc Hmethod); try done.
    apply Hin. subst l. apply list_elem_of_In, in_map_iff. exists (f, C).
    split; [done|]. apply list_elem_of_In. by rewrite Hperm.
  - intros patience g Hg. apply BucketFacts.s3_get_file_lookup. apply Hout.
    rewrite Hkeys. by rewrite Hperm.
Qed.

Lemma threaded_uploads_all_land_witness :
  exists bk',
    Storage.put_files reverse_scheduler 2 (s3_interface sample_env cloud_layer)
      framing_codec [("x", bytes_of "1"); ("y", bytes_of "2")] None (Some "gzip") None
      (abc_blobs [] [] []) = (Ok tt, bk') /\
    S3Interface.get_file framing_codec no_fault 3 cloud_layer "x" bk'
      = (Ok (Some (bytes_of "1")), bk') /\
    S3Interface.get_file framing_codec no_fault 3 cloud_layer "y" bk'
      = (Ok (Some (bytes_of "2")), bk').
Proof.
  destruct (threaded_uploads_all_land sample_env cloud_layer reverse_scheduler 2
              None (Some "gzip") None [("x", bytes_of "1"); ("y", bytes_of "2")]
              (abc_blobs [] [] [])) as (bk' & Hput & Hread & _).
  - intros A l. symmetry. apply Permutation_rev.
  - lia.
  - reflexivity.
  - apply (bool_decide_unpack _). vm_compute. reflexivity.
  - reflexivity.
  - exists bk'. split; [exact Hput|]. split.
    + apply Hread; [by intros c| |reflexivity]. apply elem_of_cons. by left.
    + apply Hread; [by intros c| |reflexivity].
      apply elem_of_cons. right. apply elem_of_cons. by left.
Defined.

(** ** The labels of the chunked graph *)

Module GrapheneFacts.
Import Graphene.
Local Open Scope Z_scope.

Ltac cases_Z :=
  repeat match goal with
         | |- context [?a <? ?b] => destruct (Z.ltb_spec a b)
         | |- context [?a <=? ?b] => destruct (Z.leb_spec a b)
         | |- context [?a =? ?b] => destruct (Z.eqb_spec a b)
         end.

Lemma uint64_small v : in_range v -> uint64 v = v.
Proof. intros Hv. by apply Z.mod_small. Qed.

Lemma testbit_in_range v i : in_range v -> 64 <= i -> Z.testbit v i = false.
Proof.
  intros Hv Hi. rewrite <- (Z.mod_small v (2 ^ 64)) by done.
  apply Z.mod_pow2_bits_high. lia.
Qed.

Lemma testbit_1 i : Z.testbit 1 i = (i =? 0).
Proof.
  change 1 with (Z.ones 1). destruct (Z.ltb_spec i 0).
  - rewrite Z.testbit_neg_r by done. cases_Z; [lia|done].
  - rewrite Z.testbit_ones_nonneg by lia. cases_Z; try done; lia.
Qed.

Lemma shl_bits a s i :
  0 <= i -> 0 <= s ->
  Z.testbit (shl a s) i = (s <? 64) && (i <? 64) && Z.testbit a (i - s).
Proof.
  intros Hi Hs. unfold shl. destruct (Z.ltb_spec s 64); simpl.
  - by rewrite Z.testbit_mod_pow2, Z.shiftl_spec by lia.
  - apply Z.bits_0.
Qed.

Lemma shr_bits a s i :
  0 <= i -> 0 <= s ->
  Z.testbit (shr a s) i = (s <? 64) && Z.testbit a (i + s).
Proof.
  intros Hi Hs. unfold shr. destruct (Z.ltb_spec s 64); simpl.
  - by rewrite Z.shiftr_spec by lia.
  - apply Z.bits_0.
Qed.

(** The mask loop sets the bits 1 to [n], and not the bit 0. *)
Lemma mask_loop_bits n : forall mask j,
  0 <= j ->
  (forall i, 0 <= i -> Z.testbit mask i = (1 <=? i) && (i <=? j) && (i <? 64)) ->
  forall i, 0 <= i ->
    Z.testbit (mask_loop n mask) i
    = (1 <=? i) && (i <=? j + Z.of_nat n) && (i <? 64).
Proof.
  induction n as [|n IH]; intros mask j Hj Hmask i Hi.
  - simpl. rewrite Hmask by done. by rewrite Z.add_0_r.
  - cbn [mask_loop].
    assert (forall i, 0 <= i ->
              Z.testbit (shl (Z.lor mask (uint64 1)) (uint64 1)) i
              = (1 <=? i) && (i <=? j + 1) && (i <? 64)) as Hnext.
    { clear i Hi. intros i Hi.
      change (uint64 1) with 1. rewrite shl_bits by lia.
      rewrite Z.lor_spec, testbit_1.
      destruct (Z.eqb_spec i 0) as [->|Hne].
      - by rewrite Z.testbit_neg_r, andb_false_r by lia.
      - rewrite Hmask by lia. cases_Z; simpl; try done; lia. }
    rewrite (IH _ (j + 1) ltac:(lia) Hnext i Hi).
    by replace (j + 1 + Z.of_nat n) with (j + Z.of_nat (S n)) by lia.
Qed.

Lemma mask_bits n i :
  0 <= n -> 0 <= i ->
  Z.testbit (mask_loop (range_turns n) 0) i = (1 <=? i) && (i <=? n) && (i <? 64).
Proof.
  intros Hn Hi.
  assert (forall k, 0 <= k -> Z.testbit 0 k = (1 <=? k) && (k <=? 0) && (k <? 64))
    as Hzero.
  { intros k Hk. rewrite Z.bits_0. cases_Z; simpl; try done; lia. }
  rewrite (mask_loop_bits _ 0 0 ltac:(lia) Hzero i Hi).
  unfold range_turns. by rewrite Z2Nat.id by done.
Qed.

Section Decoders.
Variable info : graph_info.
Variables label ct : Z.

Hypothesis label_in_range : in_range label.
Hypothesis level_known : spatial_bit_count info (decode_level info label) = Some ct.
Hypothesis ct_nonneg : 0 <= ct.
Hypothesis layer_bits : 0 < n_bits_for_layer_id info.
Hypothesis segid_bits_nonneg : 0 <= 64 - n_bits_for_layer_id info - 3 * ct.

Local Abbreviation n_bits := (n_bits_for_layer_id info).
Local Abbreviation segid_bits := (64 - n_bits_for_layer_id info - 3 * ct).

Lemma decode_segid_bits :
  exists v,
    decode_segid info label = Some v /\
    forall i, 0 <= i ->
      Z.testbit v i = Z.testbit label i && (1 <=? i) && (i <=? segid_bits).
Proof.
  unfold decode_segid, level_segid_bits. rewrite !(uint64_small label) by done.
  rewrite level_known. simpl. eexists. split; [done|]. intros i Hi.
  change (uint64 0) with 0. rewrite Z.land_spec, mask_bits by lia.
  destruct (Z.ltb_spec i 64); [by rewrite andb_true_r, andb_assoc|].
  by rewrite testbit_in_range by done.
Qed.

(** The coordinate read at the shift [segid_bits + k * ct]. *)
Lemma coordinate_bits k i :
  0 <= k <= 2 -> 0 <= i ->
  Z.testbit
    (shr (Z.land (Z.land label (uint64 0x00ffffffffffffff))
            (shl (mask_loop (range_turns ct) 0) (uint64 (segid_bits + k * ct))))
       (uint64 (segid_bits + k * ct))) i
  = Z.testbit label (i + (segid_bits + k * ct))
    && (i + (segid_bits + k * ct) <? 56) && (1 <=? i) && (i <=? ct).
Proof.
  intros Hk Hi.
  assert (0 <= segid_bits + k * ct < 64) as Hs by nia.
  assert (in_range (segid_bits + k * ct)) as Hr
    by (unfold in_range; change (2 ^ 64) with 18446744073709551616; lia).
  rewrite !(uint64_small (segid_bits + k * ct)) by done.
  rewrite shr_bits, !Z.land_spec, shl_bits by lia.
  replace (i + (segid_bits + k * ct) - (segid_bits + k * ct)) with i by lia.
  rewrite mask_bits by lia.
  change (uint64 0x00ffffffffffffff) with (Z.ones 56).
  rewrite Z.testbit_ones_nonneg by lia.
  cases_Z; simpl; rewrite ?andb_true_r, ?andb_false_r; try done; lia.
Qed.
End Decoders.
End GrapheneFacts.

Module GrapheneLevelFacts.
Import Graphene GrapheneFacts.
Local Open Scope Z_scope.

Lemma layer_mask_bits k :
  0 <= k -> Z.testbit (uint64 0xff00000000000000) k = (56 <=? k) && (k <? 64).
Proof.
  intros Hk. change (uint64 0xff00000000000000) with (Z.shiftl (Z.ones 8) 56).
  rewrite Z.shiftl_spec by done. destruct (Z.leb_spec 56 k); simpl.
  - rewrite Z.testbit_ones_nonneg by lia. cases_Z; try done; lia.
  - apply Z.testbit_neg_r. lia.
Qed.

(** The level is read from the bits 56 to 63 only. *)
Lemma decode_level_agree info label label' :
  in_range label -> in_range label' ->
  (forall i, 56 <= i -> Z.testbit label' i = Z.testbit label i) ->
  decode_level info label' = decode_level info label.
Proof.
  intros Hr Hr' Hbits. unfold decode_level.
  rewrite (uint64_small label), (uint64_small label') by done.
  unfold shr. destruct (_ <? 64); [|done].
  assert (Z.land label' (uint64 0xff00000000000000)
          = Z.land label (uint64 0xff00000000000000)) as ->; [|done].
  apply Z.bits_inj'. intros k Hk. rewrite !Z.land_spec, layer_mask_bits by done.
  destruct (Z.leb_spec 56 k); simpl; [|by rewrite !andb_false_r].
  by rewrite Hbits.
Qed.
End GrapheneLevelFacts.

(** X15: [decode_level] with up to 8 layer bits returns the top
    [n_bits_for_layer_id] bits of the label, a number below
    [2^n_bits_for_layer_id]. *)
Theorem graphene_decode_level_top_bits (info : Graphene.graph_info) (label : Z) :
  Graphene.in_range label ->
  (0 < Graphene.n_bits_for_layer_id info <= 8)%Z ->
  Graphene.decode_level info label
    = Z.shiftr label (64 - Graphene.n_bits_for_layer_id info) /\
  (0 <= Graphene.decode_level info label
     < 2 ^ Graphene.n_bits_for_layer_id info)%Z.
Proof.
  intros Hr Hn.
  assert (Graphene.decode_level info label
          = Z.shiftr label (64 - Graphene.n_bits_for_layer_id info)) as Heq.
  { unfold Graphene.decode_level.
    rewrite (GrapheneFacts.uint64_small label) by done.
    rewrite (GrapheneFacts.uint64_small (64 - _))
      by (unfold Graphene.in_range; change (2 ^ 64)%Z with 18446744073709551616%Z; lia).
    apply Z.bits_inj'. intros i Hi.
    rewrite GrapheneFacts.shr_bits by lia.
    rewrite !Z.shiftr_spec, Z.land_spec, GrapheneLevelFacts.layer_mask_bits by lia.
    destruct (Z.ltb_spec (i + (64 - Graphene.n_bits_for_layer_id info)) 64).
    - GrapheneFacts.cases_Z; simpl; rewrite ?andb_true_r; try done; lia.
    - rewrite (GrapheneFacts.testbit_in_range label) by done.
      by rewrite andb_false_r. }
  split; [done|]. rewrite Heq, Z.shiftr_div_pow2 by lia. split.
  - apply Z.div_pos; [apply Hr|]. apply Z.pow_pos_nonneg; lia.
  - apply Z.div_lt_upper_bound; [apply Z.pow_pos_nonneg; lia|].
    rewrite <- Z.pow_add_r by lia.
    replace (64 - Graphene.n_bits_for_layer_id info
             + Graphene.n_bits_for_layer_id info)%Z with 64%Z by lia.
    apply Hr.
Qed.

Lemma graphene_decode_level_top_bits_witness :
  Graphene.decode_level Graphene.sample_info Graphene.sample_label
    = Z.shiftr Graphene.sample_label 56 /\
  (0 <= Graphene.decode_level Graphene.sample_info Graphene.sample_label < 2 ^ 8)%Z.
Proof.
  apply (graphene_decode_level_top_bits Graphene.sample_info Graphene.sample_label).
  - unfold Graphene.in_range. vm_compute. split; congruence.
  - vm_compute. split; [reflexivity|congruence].
Defined.

(** X16: [decode_segid] does not read the segment's bit 0.  The mask its
    loop builds has the bits 1 to [segid_bits] set, one place to the left
    of the segment: the result is the label with all other bits cleared,
    so it is always even, and it keeps the lowest bit of the [z]
    coordinate, which lies above the segment. *)
Theorem graphene_decode_segid_mask (info : Graphene.graph_info) (label ct : Z) :
  let segid_bits := (64 - Graphene.n_bits_for_layer_id info - 3 * ct)%Z in
  Graphene.in_range label ->
  Graphene.spatial_bit_count info (Graphene.decode_level info label) = Some ct ->
  (0 <= segid_bits)%Z ->
  exists v,
    Graphene.decode_segid info label = Some v /\
    v = Z.land label (Z.shiftl (Z.ones segid_bits) 1) /\
    (forall i, (0 <= i)%Z ->
               Z.testbit v i
               = Z.testbit label i && (1 <=? i)%Z && (i <=? segid_bits)%Z) /\
    Z.even v = true.
Proof.
  intros segid_bits Hr Hct Hsb. subst segid_bits.
  destruct (GrapheneFacts.decode_segid_bits info label ct Hr Hct Hsb)
    as (v & Hv & Hbits).
  exists v. split; [done|]. split; [|split; [done|]].
  - apply Z.bits_inj'. intros i Hi. rewrite Hbits, Z.land_spec by done.
    rewrite Z.shiftl_spec by done.
    destruct (Z.leb_spec 1 i); simpl.
    + rewrite Z.testbit_ones_nonneg by lia. rewrite <- andb_assoc. simpl.
      GrapheneFacts.cases_Z; try done; exfalso; lia.
    + rewrite (Z.testbit_neg_r _ (i - 1)) by lia. by rewrite !andb_false_r.
  - rewrite <- Z.negb_odd, <- Z.bit0_odd, Hbits by lia.
    by rewrite andb_false_r.
Qed.

Lemma graphene_decode_segid_mask_witness :
  exists v,
    Graphene.decode_segid Graphene.sample_info Graphene.sample_label = Some v /\
    v = Z.land Graphene.sample_label (Z.shiftl (Z.ones 26) 1) /\
    Z.even v = true.
Proof.
  destruct (graphene_decode_segid_mask Graphene.sample_info Graphene.sample_label 10)
    as (v & Hv & Hmask & _ & Heven).
  - unfold Graphene.in_range. vm_compute. split; congruence.
  - reflexivity.
  - vm_compute. congruence.
  - by exists v.
Defined.

(** X17: [decode_chunk_position] reads each coordinate through the same
    kind of mask, one place to the left of the coordinate: the bit [i] of
    a decoded coordinate, for [i] from 1 to the bit count, is the bit [i]
    above the coordinate's shift in the label without its top 8 bits, and
    the bit 0 and the bits past the bit count are clear.  So every decoded
    coordinate is even. *)
Theorem graphene_decode_chunk_position_bits (info : Graphene.graph_info)
    (label ct : Z) :
  let segid_bits := (64 - Graphene.n_bits_for_layer_id info - 3 * ct)%Z in
  Graphene.in_range label ->
  Graphene.spatial_bit_count info (Graphene.decode_level info label) = Some ct ->
  (0 <= ct)%Z ->
  (0 < Graphene.n_bits_for_layer_id info)%Z ->
  (0 <= segid_bits)%Z ->
  exists x y z,
    Graphene.decode_chunk_position info label = Some (x, y, z) /\
    (forall i, (0 <= i)%Z ->
       Z.testbit x i
       = Z.testbit label (i + (segid_bits + 2 * ct))
         && (i + (segid_bits + 2 * ct) <? 56)%Z && (1 <=? i)%Z && (i <=? ct)%Z) /\
    (forall i, (0 <= i)%Z ->
       Z.testbit y i
       = Z.testbit label (i + (segid_bits + 1 * ct))
         && (i + (segid_bits + 1 * ct) <? 56)%Z && (1 <=? i)%Z && (i <=? ct)%Z) /\
    (forall i, (0 <= i)%Z ->
       Z.testbit z i
       = Z.testbit label (i + (segid_bits + 0 * ct))
         && (i + (segid_bits + 0 * ct) <? 56)%Z && (1 <=? i)%Z && (i <=? ct)%Z) /\
    Z.even x = true /\ Z.even y = true /\ Z.even z = true.
Proof.
  intros segid_bits Hr Hct Hnn Hn Hsb. subst segid_bits.
  pose proof (GrapheneFacts.coordinate_bits info label ct Hnn Hn Hsb) as Hbits.
  unfold Graphene.decode_chunk_position, Graphene.spatial_bit_masks,
    Graphene.level_segid_bits.
  rewrite (GrapheneFacts.uint64_small label) by done. rewrite Hct. simpl.
  change (Graphene.uint64 0) with 0%Z.
  do 3 eexists. split; [done|].
  assert (forall v,
            (forall i, (0 <= i)%Z -> exists b, Z.testbit v i = b && (1 <=? i)%Z) ->
            Z.even v = true) as Heven.
  { intros v Hv. rewrite <- Z.negb_odd, <- Z.bit0_odd.
    destruct (Hv 0%Z ltac:(lia)) as (b & ->). by rewrite andb_false_r. }
  split; [|split; [|split; [|split; [|split]]]].
  - intros i Hi. by apply Hbits.
  - intros i Hi. by apply Hbits.
  - intros i Hi. by apply Hbits.
  - apply Heven. intros i Hi. eexists. rewrite Hbits by lia.
    rewrite <- andb_assoc, (andb_comm (1 <=? i)%Z), andb_assoc. done.
  - apply Heven. intros i Hi. eexists. rewrite Hbits by lia.
    rewrite <- andb_assoc, (andb_comm (1 <=? i)%Z), andb_assoc. done.
  - apply Heven. intros i Hi. eexists. rewrite Hbits by lia.
    rewrite <- andb_assoc, (andb_comm (1 <=? i)%Z), andb_assoc. done.
Qed.

Lemma graphene_decode_chunk_position_bits_witness :
  Graphene.decode_chunk_position Graphene.sample_info Graphene.sample_label
    = Some (2, 1028, 1030)%Z.
Proof.
  destruct (graphene_decode_chunk_position_bits Graphene.sample_info
              Graphene.sample_label 10) as (x & y & z & Hxyz & _).
  - unfold Graphene.in_range. vm_compute. split; congruence.
  - reflexivity.
  - lia.
  - reflexivity.
  - vm_compute. congruence.
  - rewrite Hxyz. vm_compute in Hxyz. congruence.
Defined.

Module GrapheneLabelFacts.
Import Graphene GrapheneFacts.
Local Open Scope Z_scope.

Section Agree.
Variable info : graph_info.
Variables label label' ct : Z.

Hypothesis label_in_range : in_range label.
Hypothesis label'_in_range : in_range label'.
Hypothesis same_bits : forall i, 1 <= i -> Z.testbit label' i = Z.testbit label i.
Hypothesis level_known : spatial_bit_count info (decode_level info label) = Some ct.
Hypothesis ct_nonneg : 0 <= ct.
Hypothesis layer_bits : 0 < n_bits_for_layer_id info.
Hypothesis segid_bits_nonneg : 0 <= 64 - n_bits_for_layer_id info - 3 * ct.

Lemma decode_level_same : decode_level info label' = decode_level info label.
Proof.
  apply GrapheneLevelFacts.decode_level_agree; try done.
  intros i Hi. apply same_bits. lia.
Qed.

Lemma decode_segid_same : decode_segid info label' = decode_segid info label.
Proof.
  destruct (decode_segid_bits info label ct) as (v & -> & Hv); try done.
  destruct (decode_segid_bits info label' ct) as (v' & -> & Hv'); try done.
  { by rewrite decode_level_same. }
  f_equal. apply Z.bits_inj'. intros i Hi. rewrite Hv, Hv' by done.
  destruct (Z.leb_spec 1 i); [by rewrite same_bits|by rewrite !andb_false_r].
Qed.

Lemma decode_chunk_position_same :
  decode_chunk_position info label' = decode_chunk_position info label /\
  is_Some (decode_chunk_position info label).
Proof.
  unfold decode_chunk_position, spatial_bit_masks, level_segid_bits.
  rewrite (uint64_small label), (uint64_small label') by done.
  rewrite decode_level_same, level_known. simpl. split; [|by eexists].
  change (uint64 0) with 0.
  do 2 f_equal; [f_equal|];
    (apply Z.bits_inj'; intros i Hi; rewrite !coordinate_bits by (done || lia);
     destruct (Z.leb_spec 1 i);
     [rewrite same_bits by lia; done|by rewrite !andb_false_r]).
Qed.
End Agree.
End GrapheneLabelFacts.

(** X18: [decode_label] does not see the bit 0 of a label: two labels
    that differ in that bit only decode to the same level, the same chunk
    position and the same segment. *)
Theorem graphene_decode_label_ignores_bit_zero (info : Graphene.graph_info)
    (label label' ct : Z) :
  Graphene.in_range label ->
  Graphene.in_range label' ->
  (forall i, (1 <= i)%Z -> Z.testbit label' i = Z.testbit label i) ->
  Graphene.spatial_bit_count info (Graphene.decode_level info label) = Some ct ->
  (0 <= ct)%Z ->
  (0 < Graphene.n_bits_for_layer_id info)%Z ->
  (0 <= 64 - Graphene.n_bits_for_layer_id info - 3 * ct)%Z ->
  Graphene.decode_label info label' = Graphene.decode_label info label /\
  is_Some (Graphene.decode_label info label).
Proof.
  intros Hr Hr' Hbits Hct Hnn Hn Hsb. unfold Graphene.decode_label.
  destruct (GrapheneLabelFacts.decode_chunk_position_same info label label' ct)
    as [-> [xyz ->]]; try done.
  rewrite (GrapheneLabelFacts.decode_segid_same info label label' ct) by done.
  rewrite (GrapheneLabelFacts.decode_level_same info label label') by done.
  split; [done|].
  by destruct (GrapheneFacts.decode_segid_bits info label ct) as (v & -> & _).
Qed.

Lemma graphene_decode_label_ignores_bit_zero_witness :
  Graphene.decode_label Graphene.sample_info (Graphene.sample_label - 1)
  = Graphene.decode_label Graphene.sample_info Graphene.sample_label.
Proof.
  apply (graphene_decode_label_ignores_bit_zero Graphene.sample_info
           Graphene.sample_label (Graphene.sample_label - 1) 10).
  - unfold Graphene.in_range. vm_compute. split; congruence.
  - unfold Graphene.in_range. vm_compute. split; congruence.
  - intros i Hi.
    change (Graphene.sample_label - 1)%Z with (Z.lxor Graphene.sample_label 1).
    rewrite Z.lxor_spec, GrapheneFacts.testbit_1.
    destruct (Z.eqb_spec i 0); [lia|]. by rewrite xorb_false_r.
  - reflexivity.
  - lia.
  - reflexivity.
  - vm_compute. congruence.
Defined.

(** X19: the decoders other than [decode_level] look the label's level up
    in [spatial_bit_masks] and fail with its [KeyError] when the level has
    no entry.  With an entry, [decode_chunk_id] returns the label without
    its top 8 bits, shifted right by the segment bits: the bits from
    [segid_bits] to 55 of the label. *)
Theorem graphene_decode_chunk_id_bits (info : Graphene.graph_info) (label : Z) :
  Graphene.in_range label ->
  (Graphene.spatial_bit_count info (Graphene.decode_level info label) = None ->
   Graphene.decode_chunk_id info label = None /\
   Graphene.decode_segid info label = None /\
   Graphene.decode_chunk_position info label = None /\
   Graphene.decode_label info label = None) /\
  (forall ct,
      Graphene.spatial_bit_count info (Graphene.decode_level info label) = Some ct ->
      (0 <= 64 - Graphene.n_bits_for_layer_id info - 3 * ct < 64)%Z ->
      Graphene.decode_chunk_id info label
        = Some ((label mod 2 ^ 56)
                / 2 ^ (64 - Graphene.n_bits_for_layer_id info - 3 * ct))%Z).
Proof.
  intros Hr. split.
  - intros Hnone.
    unfold Graphene.decode_label, Graphene.decode_chunk_position,
      Graphene.decode_segid, Graphene.decode_chunk_id, Graphene.level_segid_bits.
    rewrite !(GrapheneFacts.uint64_small label) by done.
    by rewrite Hnone.
  - intros ct Hct Hsb.
    unfold Graphene.decode_chunk_id, Graphene.level_segid_bits.
    rewrite !(GrapheneFacts.uint64_small label) by done.
    rewrite Hct. simpl.
    rewrite (GrapheneFacts.uint64_small (64 - _ - _))
      by (unfold Graphene.in_range; change (2 ^ 64)%Z with 18446744073709551616%Z; lia).
    unfold Graphene.shr.
    destruct (Z.ltb_spec (64 - Graphene.n_bits_for_layer_id info - 3 * ct) 64); [|lia].
    change (Graphene.uint64 0x00ffffffffffffff) with (Z.ones 56).
    by rewrite Z.land_ones, Z.shiftr_div_pow2 by lia.
Qed.

Lemma graphene_decode_chunk_id_bits_witness :
  Graphene.decode_chunk_id Graphene.sample_info Graphene.sample_label
    = Some 3150854%Z /\
  Graphene.decode_label Graphene.sample_info (Z.shiftl 3 56 + 1) = None.
Proof.
  split.
  - rewrite (proj2 (graphene_decode_chunk_id_bits Graphene.sample_info
                      Graphene.sample_label
                      ltac:(unfold Graphene.in_range; vm_compute; split; congruence))
               10%Z eq_refl ltac:(vm_compute; split; congruence)).
    reflexivity.
  - apply (proj1 (graphene_decode_chunk_id_bits Graphene.sample_info
                    (Z.shiftl 3 56 + 1)
                    ltac:(unfold Graphene.in_range; vm_compute; split; congruence))
             eq_refl).
Defined.

(** ** The dictionary of the connection pools *)

(** X20: a [keydefaultdict] makes the value of a missing key from the key
    itself and keeps it: the first access of a key stores what the factory
    returns for the key, every later access returns that stored value and
    leaves the dictionary as it is, and no other key is touched.  Without
    a factory a missing key is a [KeyError] and nothing is stored. *)
Theorem keydefaultdict_makes_a_value_once {V : Type} (self : keydefaultdict.t V)
    (key : string) :
  (forall factory,
      keydefaultdict.default_factory self = Some factory ->
      keydefaultdict.items self !! key = None ->
      exists self',
        keydefaultdict.__getitem__ key self = (Some (factory key), self') /\
        keydefaultdict.__getitem__ key self' = (Some (factory key), self') /\
        keydefaultdict.default_factory self' = Some factory /\
        forall k, k <> key ->
                  keydefaultdict.items self' !! k = keydefaultdict.items self !! k) /\
  (forall v,
      keydefaultdict.items self !! key = Some v ->
      keydefaultdict.__getitem__ key self = (Some v, self)) /\
  (keydefaultdict.default_factory self = None ->
   keydefaultdict.items self !! key = None ->
   keydefaultdict.__getitem__ key self = (None, self)).
Proof.
  split; [|split].
  - intros factory Hfactory Hmissing.
    unfold keydefaultdict.__getitem__ at 1, keydefaultdict.__missing__.
    rewrite Hmissing, Hfactory. eexists. split; [done|].
    unfold keydefaultdict.__getitem__. simpl. rewrite lookup_insert_eq.
    split; [done|]. split; [done|]. intros k Hk. by apply lookup_insert_ne.
  - intros v Hv. unfold keydefaultdict.__getitem__. by rewrite Hv.
  - intros Hnone Hmissing.
    unfold keydefaultdict.__getitem__, keydefaultdict.__missing__.
    by rewrite Hmissing, Hnone.
Qed.

Lemma keydefaultdict_makes_a_value_once_witness :
  exists self',
    keydefaultdict.__getitem__ "bucket"
      {| keydefaultdict.default_factory := Some (fun name => ("pool of " ++ name)%string);
         keydefaultdict.items := ∅ |}
    = (Some "pool of bucket", self') /\
    keydefaultdict.__getitem__ "bucket" self' = (Some "pool of bucket", self').
Proof.
  destruct (proj1 (keydefaultdict_makes_a_value_once
                     {| keydefaultdict.default_factory :=
                          Some (fun name => ("pool of " ++ name)%string);
                        keydefaultdict.items := ∅ |} "bucket")
              (fun name => ("pool of " ++ name)%string) eq_refl (lookup_empty _))
    as (self' & H1 & H2 & _).
  by exists self'.
Defined.

(** ** The walk over the directories of a layer *)

Module WalkFacts.
Import PathSpec.

(** *** Strings *)

Lemma append_assoc (a b c : string) : ((a ++ b) ++ c = a ++ (b ++ c))%string.
Proof.
  induction a as [|x a IH]; [done|].
  change ((String x a ++ b) ++ c)%string with (String x ((a ++ b) ++ c)).
  by rewrite IH.
Qed.

Lemma contains_sep_app (a b : string) :
  contains_sep (a ++ b) = contains_sep a || contains_sep b.
Proof.
  induction a as [|x a IH]; [done|].
  change (String x a ++ b)%string with (String x (a ++ b)). simpl.
  rewrite IH. by rewrite orb_assoc.
Qed.

Lemma strip_prefix_app (a b c : string) :
  strip_prefix (a ++ b) (a ++ c) = strip_prefix b c.
Proof.
  induction a as [|x a IH]; [done|].
  change (String x a ++ b)%string with (String x (a ++ b)).
  change (String x a ++ c)%string with (String x (a ++ c)).
  simpl. by rewrite Ascii.eqb_refl.
Qed.

Lemma strip_prefix_nil (s : string) : strip_prefix "" s = Some s.
Proof. by destruct s. Qed.

Lemma strip_prefix_self (a c : string) : strip_prefix a (a ++ c) = Some c.
Proof.
  rewrite <- (StripFacts.append_nil_r a) at 1.
  by rewrite strip_prefix_app, strip_prefix_nil.
Qed.

Lemma strip_prefix_Some (a s r : string) :
  strip_prefix a s = Some r -> s = (a ++ r)%string.
Proof.
  revert s. induction a as [|x a IH]; intros s H; simpl in H.
  - by injection H as ->.
  - destruct s as [|y s]; [done|]. destruct (Ascii.eqb_spec x y) as [->|]; [|done].
    change (String y a ++ r)%string with (String y (a ++ r)). by rewrite (IH s H).
Qed.

Lemma strip_prefix_cons (x y : ascii) (a s : string) :
  strip_prefix (String x a) (String y s)
  = if Ascii.eqb x y then strip_prefix a s else None.
Proof. done. Qed.

Lemma contains_sep_cons (x : ascii) (s : string) :
  contains_sep (String x s) = false <->
  Ascii.eqb x "/" = false /\ contains_sep s = false.
Proof. change (contains_sep (String x s)) with (Ascii.eqb x "/" || contains_sep s).
  apply orb_false_iff. Qed.

Lemma append_cons (x : ascii) (a b : string) :
  (String x a ++ b)%string = String x (a ++ b).
Proof. done. Qed.

(** A name followed by a separator is at the front of no name, *)
Lemma strip_prefix_name_short (a u c : string) :
  contains_sep a = false -> contains_sep c = false ->
  strip_prefix (a ++ "/" ++ u) c = None.
Proof.
  revert c. induction a as [|x a IH]; intros c Ha Hc.
  - destruct c as [|y c]; [done|]. apply contains_sep_cons in Hc as [Hy _].
    change ("" ++ "/" ++ u)%string with (String "/" u).
    rewrite strip_prefix_cons, Ascii.eqb_sym. by rewrite Hy.
  - destruct c as [|y c]; [done|]. rewrite (append_cons x a), strip_prefix_cons.
    apply contains_sep_cons in Ha as [_ Ha]. apply contains_sep_cons in Hc as [_ Hc].
    destruct (Ascii.eqb x y); [by apply IH|done].
Qed.

(** and at the front of a path when it is the path's first name. *)
Lemma strip_prefix_name (a u c v : string) :
  contains_sep a = false -> contains_sep c = false ->
  strip_prefix (a ++ "/" ++ u) (c ++ "/" ++ v)
  = if decide (a = c) then strip_prefix u v else None.
Proof.
  revert c. induction a as [|x a IH]; intros c Ha Hc.
  - destruct c as [|y c].
    + rewrite decide_True by done.
      change ("" ++ "/" ++ u)%string with (String "/" u).
      change ("" ++ "/" ++ v)%string with (String "/" v).
      by rewrite strip_prefix_cons, Ascii.eqb_refl.
    + rewrite decide_False by done. rewrite (append_cons y c).
      change ("" ++ "/" ++ u)%string with (String "/" u).
      apply contains_sep_cons in Hc as [Hy _].
      rewrite strip_prefix_cons, Ascii.eqb_sym. by rewrite Hy.
  - rewrite (append_cons x a). apply contains_sep_cons in Ha as [Hx Ha].
    destruct c as [|y c].
    + rewrite decide_False by done.
      change ("" ++ "/" ++ v)%string with (String "/" v).
      rewrite strip_prefix_cons. by rewrite Hx.
    + rewrite (append_cons y c), strip_prefix_cons.
      apply contains_sep_cons in Hc as [_ Hc].
      destruct (Ascii.eqb_spec x y) as [->|Hne].
      * rewrite IH by done. destruct (decide (a = c)) as [->|Hac].
        -- by rewrite decide_True.
        -- rewrite decide_False; [done|]. by intros [= ?].
      * rewrite decide_False; [done|]. by intros [= ? ?].
Qed.

Lemma last_char_app (a b : string) :
  b <> "" -> last_char (a ++ b) = last_char b.
Proof.
  intros Hb. induction a as [|x a IH]; [done|].
  change (String x a ++ b)%string with (String x (a ++ b)). cbn [last_char].
  rewrite IH. destruct (a ++ b)%string eqn:E; [|done].
  destruct a; [simpl in E; done|done].
Qed.

Lemma endswith_sep_app (a b : string) :
  b <> "" -> endswith_sep (a ++ b) = endswith_sep b.
Proof. intros Hb. unfold endswith_sep. by rewrite last_char_app. Qed.

Lemma endswith_sep_name (c : string) : contains_sep c = false -> endswith_sep c = false.
Proof.
  unfold endswith_sep. induction c as [|x c IH]; [done|]. simpl.
  intros [Hx Hc]%orb_false_iff. destruct c as [|y c]; [done|]. by apply IH.
Qed.

(** *** Paths of names *)

Lemma path_of_cons c cs :
  cs <> [] -> path_of (c :: cs) = (c ++ "/" ++ path_of cs)%string.
Proof. by destruct cs. Qed.

Lemma path_of_nonempty cs : cs <> [] -> Forall is_name cs -> path_of cs <> "".
Proof.
  intros Hne Hnames. destruct cs as [|c cs]; [done|].
  apply Forall_cons in Hnames as [[Hc _] _].
  destruct cs; simpl; [done|]. by destruct c.
Qed.

Lemma path_of_not_dir cs :
  cs <> [] -> Forall is_name cs -> endswith_sep (path_of cs) = false.
Proof.
  intros Hne Hnames. induction cs as [|c cs IH]; [done|].
  apply Forall_cons in Hnames as [[Hc Hsep] Hnames].
  destruct cs as [|d cs]; [by apply endswith_sep_name|].
  rewrite path_of_cons by done.
  rewrite endswith_sep_app.
  - rewrite endswith_sep_app; [by apply IH|]. by apply path_of_nonempty.
  - by destruct (path_of (d :: cs)).
Qed.

Lemma contains_sep_path_of cs :
  Forall is_name cs -> contains_sep (path_of cs) = bool_decide (2 <= length cs).
Proof.
  intros Hnames. destruct cs as [|c cs]; [done|].
  apply Forall_cons in Hnames as [[_ Hc] _].
  destruct cs as [|d cs]; [done|].
  rewrite path_of_cons by done. rewrite contains_sep_app. simpl.
  by rewrite orb_true_r.
Qed.

(** The path of [pre] with a separator is at the front of the path of
    [cs] exactly when [cs] goes on after [pre]. *)
Lemma strip_prefix_path_of pre rest :
  pre <> [] -> rest <> [] ->
  strip_prefix (path_of pre ++ "/") (path_of (pre ++ rest)) = Some (path_of rest).
Proof.
  intros Hpre Hrest. induction pre as [|a pre IH]; [done|].
  destruct pre as [|b pre].
  - change ([a] ++ rest) with (a :: rest). change (path_of [a]) with a.
    rewrite (path_of_cons a rest) by done.
    by rewrite strip_prefix_app, strip_prefix_self.
  - change ((a :: b :: pre) ++ rest) with (a :: ((b :: pre) ++ rest)).
    rewrite (path_of_cons a (b :: pre)), (path_of_cons a ((b :: pre) ++ rest)) by done.
    rewrite !append_assoc, strip_prefix_app.
    change ("/" ++ path_of (b :: pre) ++ "/")%string
      with ("/" ++ (path_of (b :: pre) ++ "/"))%string.
    rewrite strip_prefix_app. by apply IH.
Qed.

Lemma strip_prefix_path_of_inv pre : forall cs x,
  pre <> [] -> Forall is_name pre -> Forall is_name cs ->
  strip_prefix (path_of pre ++ "/") (path_of cs) = Some x ->
  exists rest, cs = pre ++ rest /\ x = path_of rest.
Proof.
  induction pre as [|a pre IH]; intros cs x Hpre Hnames Hcs Hx; [done|].
  apply Forall_cons in Hnames as [[_ Ha] Hnames].
  destruct cs as [|c cs]; [by destruct pre, a|].
  apply Forall_cons in Hcs as [[_ Hc] Hcs].
  destruct cs as [|d cs].
  - exfalso. change (path_of [c]) with c in Hx. destruct pre as [|b pre].
    + change (path_of [a]) with a in Hx.
      pose proof (strip_prefix_name_short a "" c Ha Hc) as H0.
      change ("/" ++ "")%string with "/" in H0. congruence.
    + rewrite (path_of_cons a (b :: pre)), !append_assoc in Hx by done.
      by rewrite strip_prefix_name_short in Hx.
  - rewrite (path_of_cons c) in Hx by done. destruct pre as [|b pre].
    + change (path_of [a]) with a in Hx.
      pose proof (strip_prefix_name a "" c (path_of (d :: cs)) Ha Hc) as H0.
      change ("/" ++ "")%string with "/" in H0. rewrite H0 in Hx. clear H0.
      destruct (decide (a = c)) as [->|]; [|done].
      rewrite strip_prefix_nil in Hx. injection Hx as <-. by exists (d :: cs).
    + rewrite (path_of_cons a (b :: pre)), !append_assoc in Hx by done.
      rewrite strip_prefix_name in Hx by done.
      destruct (decide (a = c)) as [->|]; [|done].
      destruct (IH (d :: cs) x) as (rest & Hrest & ->); try done.
      exists rest. by rewrite Hrest.
Qed.
(** *** The directories above a file *)

Lemma parents_go_name acc c : forall X,
  contains_sep c = false ->
  OS.parents_go acc (c ++ "/" ++ X)
  = (acc ++ c)%string :: OS.parents_go ((acc ++ c) ++ "/") X.
Proof.
  revert acc. induction c as [|x c IH]; intros acc X Hc.
  - change ("" ++ "/" ++ X)%string with (String "/" X).
    cbn [OS.parents_go]. rewrite Ascii.eqb_refl.
    by rewrite StripFacts.append_nil_r.
  - apply contains_sep_cons in Hc as [Hx Hc].
    rewrite (append_cons x c). cbn [OS.parents_go]. rewrite Hx.
    rewrite IH by done. rewrite (append_assoc acc (String x "") c).
    by change (String x "" ++ c)%string with (String x c).
Qed.

Lemma parents_go_last acc c : contains_sep c = false -> OS.parents_go acc c = [].
Proof.
  revert acc. induction c as [|x c IH]; intros acc Hc; [done|].
  apply contains_sep_cons in Hc as [Hx Hc]. cbn [OS.parents_go]. rewrite Hx.
  by apply IH.
Qed.

(** The directories above the file with the names [cs] are the paths of
    the proper beginnings of [cs]. *)
Lemma elem_of_parents_go cs : forall acc d,
  Forall is_name cs ->
  d ∈ OS.parents_go acc (path_of cs) <->
  exists pre rest,
    pre <> [] /\ rest <> [] /\ cs = pre ++ rest /\ d = (acc ++ path_of pre)%string.
Proof.
  induction cs as [|c cs IH]; intros acc d Hnames.
  - split; [by intros ?%elem_of_nil|]. intros (pre & rest & Hpre & _ & Hcs & _).
    by destruct pre.
  - apply Forall_cons in Hnames as [[_ Hc] Hnames].
    destruct cs as [|c' cs].
    + change (path_of [c]) with c. rewrite parents_go_last by done.
      split; [by intros ?%elem_of_nil|].
      intros (pre & rest & Hpre & Hrest & Hcs & _).
      destruct pre as [|? pre]; [done|]. injection Hcs as _ Hcs.
      by destruct pre, rest.
    + rewrite (path_of_cons c (c' :: cs)) by done.
      rewrite parents_go_name by done. rewrite elem_of_cons, IH by done.
      split.
      * intros [->|(pre & rest & Hpre & Hrest & Hcs & ->)].
        -- by exists [c], (c' :: cs).
        -- exists (c :: pre), rest. repeat split; [done|done|by rewrite Hcs|].
           rewrite (path_of_cons c pre) by done. by rewrite !append_assoc.
      * intros (pre & rest & Hpre & Hrest & Hcs & ->).
        destruct pre as [|a pre]; [done|]. injection Hcs as <- Hcs.
        destruct pre as [|b pre]; [by left|]. right.
        exists (b :: pre), rest. repeat split; [done|done|done|].
        rewrite (path_of_cons c (b :: pre)) by done. by rewrite !append_assoc.
Qed.

(** *** Lists *)

Lemma flat_map_app_perm {A B} (a b : A -> list B) (l : list A) :
  flat_map (fun e => a e ++ b e) l ≡ₚ flat_map a l ++ flat_map b l.
Proof.
  induction l as [|e l IH]; [done|]. simpl. rewrite IH.
  rewrite <- !(assoc_L (++)). f_equiv. rewrite !(assoc_L (++)). f_equiv.
  apply Permutation_app_comm.
Qed.

Lemma omap_flat_map {A B} (f : A -> option B) (l : list A) :
  omap f l = flat_map (fun e => option_list (f e)) l.
Proof.
  induction l as [|e l IH]; [done|]. simpl. rewrite <- IH. by destruct (f e).
Qed.

(** The turns of two nested loops can be swapped. *)
Lemma flat_map_omap_swap {A R B} (f : R -> A -> option B) (rs : list R) (l : list A) :
  flat_map (fun r => omap (f r) l) rs
  ≡ₚ flat_map (fun e => omap (fun r => f r e) rs) l.
Proof.
  induction rs as [|r rs IH].
  - simpl. induction l as [|e l IHl]; [done|]. by simpl.
  - simpl. rewrite IH.
    transitivity (flat_map (fun e => option_list (f r e) ++ omap (fun r => f r e) rs) l).
    + rewrite flat_map_app_perm. by rewrite <- omap_flat_map.
    + erewrite flat_map_ext; [done|]. intros e. simpl. by destruct (f r e).
Qed.

Lemma omap_cons {R B} (f : R -> option B) (r : R) (rs : list R) :
  omap f (r :: rs) = match f r with Some y => y :: omap f rs | None => omap f rs end.
Proof. done. Qed.

Lemma omap_none {R B} (f : R -> option B) (rs : list R) :
  (forall r, r ∈ rs -> f r = None) -> omap f rs = [].
Proof.
  induction rs as [|r rs IH]; intros Hnone; [done|]. rewrite omap_cons.
  rewrite (Hnone r) by (by apply elem_of_cons; left).
  apply IH. intros r' Hr'. apply Hnone. by apply elem_of_cons; right.
Qed.

(** One element of a list without repetition, and no other, is kept. *)
Lemma omap_only {R B} (f : R -> option B) (rs : list R) (r0 : R) (x : B) :
  NoDup rs -> r0 ∈ rs -> f r0 = Some x ->
  (forall r, r ∈ rs -> r <> r0 -> f r = None) ->
  omap f rs = [x].
Proof.
  intros Hnd Hin Hx Hothers. induction Hnd as [|r rs Hr Hnd IH]; [by apply elem_of_nil in Hin|].
  rewrite omap_cons. apply elem_of_cons in Hin as [<-|Hin].
  - rewrite Hx. f_equal. apply omap_none. intros r Hin. apply Hothers.
    + by apply elem_of_cons; right.
    + by intros ->.
  - rewrite (Hothers r).
    + apply IH; [done|]. intros r' Hr' Hne. apply Hothers; [|done].
      by apply elem_of_cons; right.
    + by apply elem_of_cons; left.
    + by intros ->.
Qed.
Lemma append_empty_l (a b : string) : (a ++ b)%string = "" -> a = "".
Proof. by destruct a. Qed.

(** *** The walk from a directory whose path ends with a separator *)

Section Walk.
Variable top : string.
Variable fs : filesystem.
Hypothesis Htop : endswith_sep top = true.
Hypothesis Hfs : forall e rel,
  e ∈ fs -> OS.below top (fst e) = Some rel -> normal rel.

Lemma dir_prefix_top : OS.dir_prefix top = top.
Proof.
  unfold OS.dir_prefix, join2. cbn [startswith_sep]. rewrite Htop, orb_true_r.
  apply StripFacts.append_nil_r.
Qed.

Lemma below_top_inv q rel :
  OS.below top q = Some rel -> q = (top ++ rel)%string /\ rel <> "".
Proof.
  unfold OS.below. rewrite dir_prefix_top.
  destruct (strip_prefix top q) as [r|] eqn:E; [|done].
  apply strip_prefix_Some in E. destruct r; [done|]. by intros [= <-].
Qed.

Lemma below_top_app rel : rel <> "" -> OS.below top (top ++ rel) = Some rel.
Proof.
  intros Hrel. unfold OS.below. rewrite dir_prefix_top, strip_prefix_self.
  by destruct rel.
Qed.

Lemma dir_prefix_sub pre :
  pre <> [] -> Forall is_name pre ->
  OS.dir_prefix (top ++ path_of pre) = (top ++ path_of pre ++ "/")%string.
Proof using Htop.
  intros Hpre Hnames. unfold OS.dir_prefix, join2. cbn [startswith_sep].
  rewrite endswith_sep_app by (by apply path_of_nonempty).
  rewrite path_of_not_dir by done.
  assert ((top ++ path_of pre =? "")%string = false) as ->.
  { apply String.eqb_neq. intros H%append_empty_l. by rewrite H in Htop. }
  cbn [orb]. change ("/" ++ "")%string with "/". apply append_assoc.
Qed.

(** What is below a directory of the walk is below [top]. *)
Lemma below_sub pre q x :
  pre <> [] -> Forall is_name pre ->
  OS.below (top ++ path_of pre) q = Some x ->
  exists rel,
    q = (top ++ rel)%string /\ rel <> "" /\
    strip_prefix (path_of pre ++ "/") rel = Some x /\ x <> "".
Proof using Htop.
  intros Hpre Hnames. unfold OS.below. rewrite dir_prefix_sub by done.
  destruct (strip_prefix _ q) as [r|] eqn:E; [|done].
  apply strip_prefix_Some in E. intros Hx.
  assert (r = x /\ x <> "") as [-> Hne] by (destruct r; [done|]; by injection Hx as <-).
  exists ((path_of pre ++ "/") ++ x)%string. split; [by rewrite E, !append_assoc|].
  split; [|by rewrite strip_prefix_self].
  destruct (path_of pre); discriminate.
Qed.

Lemma below_sub_app pre rest :
  pre <> [] -> rest <> [] -> Forall is_name pre -> Forall is_name rest ->
  OS.below (top ++ path_of pre) (top ++ path_of (pre ++ rest)) = Some (path_of rest).
Proof using Htop.
  intros Hpre Hrest Hn Hnames. unfold OS.below.
  rewrite dir_prefix_sub by done.
  rewrite strip_prefix_app, strip_prefix_path_of by done.
  pose proof (path_of_nonempty rest Hrest Hnames). by destruct (path_of rest).
Qed.

(** The directories of the walk. *)
Lemma walk_roots_form R :
  R ∈ OS.walk_roots fs top ->
  R = top \/
  exists e pre rest,
    e ∈ fs /\ pre <> [] /\ rest <> [] /\ Forall is_name (pre ++ rest) /\
    fst e = (top ++ path_of (pre ++ rest))%string /\
    R = (top ++ path_of pre)%string.
Proof.
  unfold OS.walk_roots. intros [->|HR]%elem_of_cons; [by left|]. right.
  apply elem_of_remove_dups, list_elem_of_In, in_flat_map in HR as (e & He & HR).
  apply list_elem_of_In in He.
  destruct (OS.below top e.1) as [rel|] eqn:Hbelow; [|done].
  destruct (Hfs e rel He Hbelow) as (cs & Hcs & Hnames & ->).
  apply in_map_iff in HR as (d & <- & Hd). apply list_elem_of_In in Hd.
  apply elem_of_parents_go in Hd as (pre & rest & Hpre & Hrest & -> & ->); [|done].
  apply below_top_inv in Hbelow as [Hq _].
  exists e, pre, rest. by rewrite dir_prefix_top.
Qed.

Lemma walk_roots_parent e pre rest :
  e ∈ fs -> pre <> [] -> rest <> [] -> Forall is_name (pre ++ rest) ->
  fst e = (top ++ path_of (pre ++ rest))%string ->
  (top ++ path_of pre)%string ∈ OS.walk_roots fs top.
Proof.
  intros He Hpre Hrest Hnames Hq. unfold OS.walk_roots.
  apply elem_of_cons; right.
  apply elem_of_remove_dups, list_elem_of_In, in_flat_map.
  exists e. split; [by apply list_elem_of_In|].
  rewrite Hq, below_top_app.
  - apply in_map_iff. exists (path_of pre).
    split; [by rewrite dir_prefix_top|]. apply list_elem_of_In.
    apply elem_of_parents_go; [done|]. by exists pre, rest.
  - apply path_of_nonempty; [by destruct pre|done].
Qed.

Lemma top_nonempty_app x : (top ++ x)%string = top -> x = "".
Proof.
  intros H. apply (f_equal String.length) in H. rewrite OSFacts.length_append in H.
  destruct x; [done|]. simpl in H. lia.
Qed.

Lemma walk_roots_NoDup : NoDup (OS.walk_roots fs top).
Proof.
  apply NoDup_cons. split; [|apply NoDup_remove_dups].
  intros Hin.
  apply elem_of_remove_dups, list_elem_of_In, in_flat_map in Hin as (e & He & HR).
  apply list_elem_of_In in He.
  destruct (OS.below top e.1) as [rel|] eqn:Hbelow; [|done].
  destruct (Hfs e rel He Hbelow) as (cs & Hcs & Hnames & ->).
  apply in_map_iff in HR as (d & Hd & Hin). apply list_elem_of_In in Hin.
  apply elem_of_parents_go in Hin as (pre & rest & Hpre & Hrest & -> & ->); [|done].
  rewrite dir_prefix_top in Hd.
  change ("" ++ path_of pre)%string with (path_of pre) in Hd.
  apply top_nonempty_app in Hd.
  apply Forall_app in Hnames as [Hnames _].
  by apply (path_of_nonempty pre).
Qed.
End Walk.
(** *** The entries of the walk *)

Lemma startswith_sep_name c : contains_sep c = false -> startswith_sep c = false.
Proof. destruct c as [|x c]; [done|]. by intros [Hx _]%contains_sep_cons. Qed.

Lemma append_inj_r (a x y : string) : (a ++ x = a ++ y)%string -> x = y.
Proof.
  intros H. pose proof (strip_prefix_self a x) as Hx. rewrite H in Hx.
  rewrite strip_prefix_self in Hx. by injection Hx.
Qed.

(** A name found below [root] is joined back into the file's path. *)
Lemma join2_below root q x :
  OS.below root q = Some x -> startswith_sep x = false -> join2 root x = q.
Proof.
  unfold OS.below, OS.dir_prefix, join2. cbn [startswith_sep]. intros Hx ->.
  destruct (strip_prefix _ q) as [r|] eqn:E; [|done].
  assert (r = x) as -> by (destruct r; [done|]; by injection Hx).
  apply strip_prefix_Some in E. rewrite E.
  destruct ((root =? "") || endswith_sep root).
  - by rewrite StripFacts.append_nil_r.
  - change ("/" ++ "")%string with "/". by rewrite !append_assoc.
Qed.

Lemma entry_in_Some top root e :
  is_Some (entry_in top root e) ->
  exists x, OS.below root (fst e) = Some x /\ contains_sep x = false /\
            entry_in top root e = Some (str_remove (fst e) top).
Proof.
  unfold entry_in. destruct (OS.below root e.1) as [x|] eqn:E; [|by intros []].
  destruct (contains_sep x) eqn:Hx; [by intros []|]. intros _. exists x.
  repeat split; try done. by rewrite (join2_below _ _ _ E (startswith_sep_name _ Hx)).
Qed.

Lemma entry_in_below top root e x :
  OS.below root (fst e) = Some x -> contains_sep x = false ->
  entry_in top root e = Some (str_remove (fst e) top).
Proof.
  intros E Hx. unfold entry_in. rewrite E, Hx.
  by rewrite (join2_below _ _ _ E (startswith_sep_name _ Hx)).
Qed.

Lemma entry_in_None top root e :
  (forall x, OS.below root (fst e) = Some x -> contains_sep x = true) ->
  entry_in top root e = None.
Proof.
  intros H. unfold entry_in. destruct (OS.below root e.1) as [x|]; [|done].
  by rewrite (H x).
Qed.

Section Entries.
Variable top : string.
Variable fs : filesystem.
Hypothesis Htop : endswith_sep top = true.
Hypothesis Hfs : forall e rel,
  e ∈ fs -> OS.below top (fst e) = Some rel -> normal rel.

(** A file not below [top] is in no directory of the walk. *)
Lemma entries_of_stranger e :
  OS.below top (fst e) = None ->
  omap (fun R => entry_in top R e) (OS.walk_roots fs top) = [].
Proof.
  intros Hnone. apply omap_none. intros R HR. apply entry_in_None. intros x Hx.
  apply (walk_roots_form top fs Htop Hfs) in HR
    as [->|(e' & pre & rest & _ & Hpre & _ & Hnames & _ & ->)]; [congruence|].
  apply Forall_app in Hnames as [Hnames _].
  apply (below_sub top Htop) in Hx as (rel & Hq & Hrel & _); try done.
  rewrite Hq, (below_top_app top Htop) in Hnone; done.
Qed.

(** A file below [top] is in one directory of the walk, its own. *)
Lemma entries_of_file e rel :
  e ∈ fs -> OS.below top (fst e) = Some rel ->
  omap (fun R => entry_in top R e) (OS.walk_roots fs top)
  = [str_remove (fst e) top].
Proof.
  intros He Hbelow. destruct (Hfs e rel He Hbelow) as (cs & Hcs & Hnames & ->).
  pose proof (below_top_inv top Htop _ _ Hbelow) as [Hq _].
  destruct cs as [|c0 cs0] using rev_ind; [done|]. clear IHcs0 Hcs.
  rename cs0 into pre, c0 into c.
  pose proof Hnames as Hall.
  apply Forall_app in Hnames as [Hpre Hcn].
  pose proof Hcn as [[_ Hc] _]%Forall_cons.
  destruct (decide (pre = [])) as [->|Hne].
  - change (path_of ([] ++ [c])) with c in *.
    apply (omap_only _ _ top); [by apply walk_roots_NoDup|by apply elem_of_cons; left
                               |by apply (entry_in_below _ _ _ c)|].
    intros R HR HRtop. apply entry_in_None. intros x Hx.
    apply (walk_roots_form top fs Htop Hfs) in HR
      as [->|(e' & pre' & rest' & _ & Hpre' & _ & Hnames' & _ & ->)]; [done|].
    apply Forall_app in Hnames' as [Hnames' _].
    apply (below_sub top Htop) in Hx as (rel' & Hq' & _ & Hstrip & Hxne); try done.
    rewrite Hq in Hq'. apply append_inj_r in Hq' as <-.
    apply (strip_prefix_path_of_inv pre' [c]) in Hstrip as (rest & Hrest & ->);
      [|done|done|done].
    destruct pre' as [|a pre']; [done|]. injection Hrest as _ Hrest.
    by destruct pre', rest.
  - apply (omap_only _ _ (top ++ path_of pre)%string).
    + by apply walk_roots_NoDup.
    + by apply (walk_roots_parent top fs Htop e pre [c]).
    + apply (entry_in_below _ _ _ c); [|done]. rewrite Hq.
      by apply (below_sub_app top Htop pre [c]).
    + intros R HR HRne. apply entry_in_None. intros x Hx.
      apply (walk_roots_form top fs Htop Hfs) in HR
        as [->|(e' & pre' & rest' & _ & Hpre' & _ & Hnames' & _ & ->)].
      * rewrite Hbelow in Hx. injection Hx as <-.
        rewrite contains_sep_path_of by done. apply bool_decide_eq_true.
        rewrite length_app. simpl. destruct pre; [done|simpl; lia].
      * apply Forall_app in Hnames' as [Hnames' _].
        apply (below_sub top Htop) in Hx as (rel' & Hq' & _ & Hstrip & Hxne); try done.
        rewrite Hq in Hq'. apply append_inj_r in Hq' as <-.
        apply (strip_prefix_path_of_inv pre' (pre ++ [c])) in Hstrip
          as (rest & Hrest & ->); try done.
        assert (Forall is_name rest) as Hnr.
        { rewrite Hrest in Hall. by apply Forall_app in Hall as [_ ?]. }
        rewrite contains_sep_path_of by done.
        destruct rest as [|c' rest]; [done|]. destruct rest as [|c'' rest].
        -- apply app_inj_tail in Hrest as [-> _]. done.
        -- apply bool_decide_eq_true. simpl. lia.
Qed.

Lemma isdir_false_below e :
  OS.isdir fs top = false -> e ∈ fs -> OS.below top (fst e) = None.
Proof.
  unfold OS.isdir. intros Hdir He.
  destruct (OS.below top e.1) as [x|] eqn:E; [|done].
  assert (existsb (fun e => bool_decide (is_Some (OS.below top e.1))) fs = true) as H.
  { apply existsb_exists. exists e. split; [by apply list_elem_of_In|].
    apply bool_decide_eq_true. by rewrite E. }
  congruence.
Qed.

(** The walk gives each file below [top] once. *)
Lemma walk_entries :
  flat_map (fun R => omap (entry_in top R) fs)
           (if OS.isdir fs top then OS.walk_roots fs top else [])
  ≡ₚ entries_below fs top.
Proof.
  destruct (OS.isdir fs top) eqn:Hdir.
  - rewrite flat_map_omap_swap. unfold entries_below. rewrite omap_flat_map.
    assert (forall l, (forall e, e ∈ l -> e ∈ fs) ->
      flat_map (fun e => omap (fun R => entry_in top R e) (OS.walk_roots fs top)) l
      = flat_map (fun e => option_list
                             match OS.below top e.1 with
                             | Some _ => Some (str_remove e.1 top)
                             | None => None
                             end) l) as H.
    { induction l as [|e l IH]; intros Hl; [done|]. cbn [flat_map].
      rewrite IH by (intros e' He'; apply Hl; by apply elem_of_cons; right).
      f_equal. destruct (OS.below top e.1) as [rel|] eqn:E.
      - apply (entries_of_file e rel); [|done]. apply Hl. by apply elem_of_cons; left.
      - by apply entries_of_stranger. }
    by rewrite H.
  - simpl. unfold entries_below. rewrite omap_none; [done|].
    intros e He. by rewrite (isdir_false_below e Hdir He).
Qed.
End Entries.

(** *** The listing *)

Lemma filter_startswith_empty (l : list string) :
  List.filter (fun f => startswith f "") l = l.
Proof.
  induction l as [|s l IH]; [done|]. simpl.
  assert (startswith s "" = true) as -> by (by destruct s). by rewrite IH.
Qed.

Lemma files_in_entries top root (fs : filesystem) :
  map (fun f => str_remove f top) (map (fun f => join2 root f) (OS.files_in fs root))
  = omap (entry_in top root) fs.
Proof.
  unfold OS.files_in. induction fs as [|e fs IH]; [done|].
  rewrite !omap_cons. unfold entry_in at 1.
  destruct (OS.below root e.1) as [x|]; [|done].
  destruct (contains_sep x); [done|]. simpl. by rewrite IH.
Qed.

(** The recursive listing of a whole layer, as the entries of the walk. *)
Lemma list_filenames_walk (p : BucketPath) (fs : filesystem) :
  endswith_sep (FileInterface.get_path_to_file p "") = true ->
  FileInterface.list_filenames p fs "" false
  = flat_map (fun R => omap (entry_in (FileInterface.get_path_to_file p "") R) fs)
      (if OS.isdir fs (FileInterface.get_path_to_file p "")
       then OS.walk_roots fs (FileInterface.get_path_to_file p "") else []).
Proof.
  intros Htop. unfold FileInterface.list_filenames.
  set (top := FileInterface.get_path_to_file p "") in *.
  rewrite Htop, andb_false_r.
  change (os_path_join top [os_path_dirname ""]) with (OS.dir_prefix top).
  rewrite (dir_prefix_top top Htop). unfold OS.walk.
  destruct (OS.isdir fs top); [|done].
  induction (OS.walk_roots fs top) as [|R Rs IH]; [done|]. cbn [map flat_map].
  rewrite IH. f_equal.
  change (map (fun f => os_path_join R [f]) (OS.files_in fs R))
    with (map (fun f => join2 R f) (OS.files_in fs R)).
  by rewrite filter_startswith_empty, files_in_entries.
Qed.
(** The path of a layer directory is empty or ends with a separator. *)
Lemma layer_path_cases (p : BucketPath) :
  FileInterface.get_path_to_file p "" = "" \/
  endswith_sep (FileInterface.get_path_to_file p "") = true.
Proof.
  unfold FileInterface.get_path_to_file.
  change (os_path_join (bucket p) [path p; ""])
    with (join2 (join2 (bucket p) (path p)) "").
  generalize (join2 (bucket p) (path p)). intros a.
  unfold join2. cbn [startswith_sep].
  destruct (String.eqb_spec a "") as [->|Hne]; [by left|]. cbn [orb].
  destruct (endswith_sep a) eqn:E.
  - right. by rewrite StripFacts.append_nil_r.
  - right. change ("/" ++ "")%string with "/". unfold endswith_sep.
    by rewrite LayerPathFacts.last_char_snoc.
Qed.

Lemma chars_ok_perm (L L' : list string) :
  L ≡ₚ L' -> RadixSortSpec.chars_ok L' -> RadixSortSpec.chars_ok L.
Proof. intros HL Hok s j c Hs. apply (Hok s j c). by rewrite <- HL. Qed.
End WalkFacts.

(** X21: On the filesystem backend the recursive listing of a whole layer
    (empty prefix) is complete and without repetition.  When the layer
    directory has a non-empty path, the files below it have paths made of
    non-empty names joined by single separators, and every character of
    the listed names has a bucket, [list_files] returns, in sorted order,
    one entry for every file below the layer directory and nothing else:
    the file's path with every occurrence of the layer path taken out and
    a [.gz] extension stripped. *)
Theorem file_recursive_listing_is_complete (p : BucketPath) (fs : filesystem) :
  FileInterface.get_path_to_file p "" <> "" ->
  (forall e rel,
      e ∈ fs ->
      OS.below (FileInterface.get_path_to_file p "") (fst e) = Some rel ->
      PathSpec.normal rel) ->
  RadixSortSpec.chars_ok
    (map FileInterface.stripgz
       (PathSpec.entries_below fs (FileInterface.get_path_to_file p ""))) ->
  exists out,
    FileInterface.list_files p "" false fs = (Ok out, fs) /\
    out ≡ₚ map FileInterface.stripgz
             (PathSpec.entries_below fs (FileInterface.get_path_to_file p "")) /\
    StronglySorted String.le out.
Proof.
  intros Hne Hfs Hok.
  destruct (WalkFacts.layer_path_cases p) as [|Htop]; [done|].
  assert (FileInterface.list_filenames p fs "" false
          ≡ₚ PathSpec.entries_below fs (FileInterface.get_path_to_file p "")) as Hperm.
  { rewrite WalkFacts.list_filenames_walk by done. by apply WalkFacts.walk_entries. }
  unfold FileInterface.list_files.
  destruct (RadixSortFacts.radix_sort_sorts
              (map FileInterface.stripgz (FileInterface.list_filenames p fs "" false)))
    as (out & Hout & Hsame & Hsorted).
  { eapply WalkFacts.chars_ok_perm; [|done]. by apply Permutation_map. }
  exists out. rewrite Hout. repeat split; [|done].
  rewrite Hsame. by apply Permutation_map.
Qed.

Lemma file_recursive_listing_is_complete_witness :
  exists out,
    FileInterface.list_files tmp_layer "" false (abc_files [] [] [])
      = (Ok out, abc_files [] [] []) /\
    out ≡ₚ map FileInterface.stripgz
             (PathSpec.entries_below (abc_files [] [] [])
                (FileInterface.get_path_to_file tmp_layer "")) /\
    StronglySorted String.le out.
Proof.
  apply (file_recursive_listing_is_complete tmp_layer (abc_files [] [] [])).
  - discriminate.
  - intros e rel He Hrel.
    assert (forall cs, cs <> [] -> Forall PathSpec.is_name cs ->
                       rel = PathSpec.path_of cs -> PathSpec.normal rel) as Hn
      by (intros cs ? ? ?; by exists cs).
    repeat (apply elem_of_cons in He as [->|He]); [| | |by apply elem_of_nil in He];
      vm_compute in Hrel; injection Hrel as <-.
    + apply (Hn ["a"; "b"; "c"]); [done| |done].
      repeat constructor; discriminate.
    + apply (Hn ["a"; "b"; "d"]); [done| |done].
      repeat constructor; discriminate.
    + apply (Hn ["a"; "e"]); [done| |done].
      repeat constructor; discriminate.
  - apply chars_okb_spec. vm_compute. reflexivity.
Defined.

